(** * The compaction control plane of the bucket compactor

    A shallow embedding of the Go code of package [compactor] (in the
    sources it follows the HTML template in [src/pkg/api/index.gohtml]): the
    error taxonomy ([halt], [retry], [IsHaltError], [IsRetryError]),
    [Syncer.GarbageCollect], [DefaultGrouper.Groups],
    [BucketCompactor.runCompactionJob] with [deleteBlock],
    [BucketCompactor.filterOwnJobs] and [NoCompactionMarkFilter.Filter],
    with the properties the specification states about them; and, beyond
    the specification, [minTime]/[maxTime], [Syncer.SyncMetas],
    [RepairIssue347] and the steps of [BucketCompactor.Compact], with
    properties read off the code.

    Conventions.
    - A Go [error] is a value of the inductive [error], whose constructor
      [nil] is the nil interface.
    - Maps are finite maps ([gmap]); the order in which a [range] visits a
      map is a parameter of the call.
    - Collaborators that live outside the package (bucket, planner, merger,
      local disk, context, marker files) are oracles of a [World]: each
      answers from the history of effects so far, so a theorem quantified
      over worlds holds for every behaviour of the collaborators.
    - Effects are recorded as a trace of [Event]s, counters included; log
      lines and durations are left out.
    - The scheduler layer is embedded over histories of its own:
      [Syncer.SyncMetas], [RepairIssue347], the work of a worker of
      [BucketCompactor.Compact] on one job and the start of an iteration
      (sync, garbage collection, grouping, ownership filter, cleaning of
      the compaction directory).  The dispatch of the jobs to the workers
      over channels, and the loop over iterations, are not embedded: no
      property below is about them. *)

From stdpp Require Import gmap strings list fin_maps pretty sorting.
From Stdlib Require Import ZArith Lia Ascii.

Local Open Scope string_scope.
Local Open Scope list_scope.

(** ULIDs are 128-bit identifiers; the zero value [ulid.ULID{}] is [0]. *)
Abbreviation ULID := N.
Definition zeroULID : ULID := 0%N.

(* ===================================================================== *)
(** * Errors: values, causes and classification *)
(* ===================================================================== *)

Module Errors.

Set Warnings "-register-all".

(** The dynamic shapes an [error] takes in this package.
    - [leafError]: an error without a [Cause] method ([errors.New],
      [errors.Errorf], [context.Canceled]); a pointer, compared by identity,
      so the address is part of the value.
    - [withMessage]: what [errors.Wrap]/[errors.Wrapf] build; the only shape
      with a [Cause] method.
    - the four classification wrappers of the package, plain structs with
      an [Error] method only.
    - [NonNilMultiError]: a slice of errors (its elements may be nil). *)
Inductive error : Type :=
  | nil
  | leafError (addr : N) (msg : string)
  | withMessage (cause : error) (msg : string)
  | HaltError (err : error)
  | RetryError (err : error)
  | Issue347Error (err : error) (id : ULID)
  | OutOfOrderChunksError (err : error) (id : ULID)
  | NonNilMultiError (es : list error).

Definition is_nil (e : error) : bool :=
  match e with nil => true | _ => false end.

(** [errors.Cause]: follow [Cause()] while the error has one. *)
Fixpoint Cause (e : error) : error :=
  match e with
  | withMessage cause _ => Cause cause
  | _ => e
  end.

(** [errors.Wrap] and [errors.Wrapf]: nil stays nil. *)
Definition Wrap (err : error) (msg : string) : error :=
  match err with
  | nil => nil
  | _ => withMessage err msg
  end.

(** [err == sentinel] for a sentinel built by [errors.New]: pointer identity. *)
Definition same_error (e sentinel : error) : bool :=
  match e, sentinel with
  | leafError a _, leafError b _ => N.eqb a b
  | nil, nil => true
  | _, _ => false
  end.

(** The type assertions [_, ok := e.(T)]. *)
Definition is_HaltError (e : error) : bool :=
  match e with HaltError _ => true | _ => false end.
Definition is_RetryError (e : error) : bool :=
  match e with RetryError _ => true | _ => false end.
Definition is_Issue347Error (e : error) : bool :=
  match e with Issue347Error _ _ => true | _ => false end.
Definition is_OutOfOrderChunksError (e : error) : bool :=
  match e with OutOfOrderChunksError _ _ => true | _ => false end.

Definition issue347Error (err : error) (brokenBlock : ULID) : error :=
  Issue347Error err brokenBlock.
Definition outOfOrderChunkError (err : error) (brokenBlock : ULID) : error :=
  OutOfOrderChunksError err brokenBlock.
Definition halt (err : error) : error := HaltError err.

Definition IsIssue347Error (err : error) : bool := is_Issue347Error (Cause err).
Definition IsOutOfOrderChunkError (err : error) : bool :=
  is_OutOfOrderChunksError (Cause err).

(** The loop of [IsHaltError] over the children of a multi-error:
    the first child whose cause is a [HaltError] answers true. *)
Fixpoint anyHalt (multiErr : list error) : bool :=
  match multiErr with
  | [] => false
  | err :: rest => if is_HaltError (Cause err) then true else anyHalt rest
  end.

Definition IsHaltError (err : error) : bool :=
  match Cause err with
  | NonNilMultiError multiErr => anyHalt multiErr
  | c => is_HaltError c
  end.

Definition retry (err : error) : error :=
  if IsHaltError err then err else RetryError err.

(** The loop of [IsRetryError]: the first child whose cause is not a
    [RetryError] answers false. *)
Fixpoint allRetry (multiErr : list error) : bool :=
  match multiErr with
  | [] => true
  | err :: rest => if is_RetryError (Cause err) then allRetry rest else false
  end.

Definition IsRetryError (err : error) : bool :=
  match Cause err with
  | NonNilMultiError multiErr => allRetry multiErr
  | c => is_RetryError c
  end.

(** "The cause of [e] is a HaltError / RetryError / multi-error", as
    propositions. *)
Definition cause_is_Halt (e : error) : Prop := ∃ x, Cause e = HaltError x.
Definition cause_is_Retry (e : error) : Prop := ∃ x, Cause e = RetryError x.
Definition cause_is_Multi (e : error) : Prop := ∃ es, Cause e = NonNilMultiError es.

End Errors.

Import Errors.


(* ===================================================================== *)
(** * The Go runtime and library pieces the package relies on *)
(* ===================================================================== *)

Module Go.

(** An order the runtime is free to choose (the iteration order of a map,
    the order in which a worker pool gets through its jobs) is given by a
    code: element [i] of the list is inserted at position [code !! i] of
    the elements after it.  Every code yields a permutation, and the empty
    code keeps the list as it is. *)
Fixpoint insert_at {A} (n : nat) (x : A) (l : list A) : list A :=
  match n, l with
  | S n', y :: l' => y :: insert_at n' x l'
  | _, _ => x :: l
  end.

Fixpoint shuffle {A} (code : list nat) (l : list A) : list A :=
  match l with
  | [] => []
  | x :: l' => insert_at (hd 0 code) x (shuffle (tl code) l')
  end.

(** [sort.Slice(s, less)]: the library's algorithm is not fixed; an
    insertion sort stands for it. *)
Fixpoint insert_sorted {A} (less : A → A → bool) (x : A) (l : list A) : list A :=
  match l with
  | [] => [x]
  | y :: l' => if less y x then y :: insert_sorted less x l' else x :: y :: l'
  end.

Definition sort_Slice {A} (less : A → A → bool) (s : list A) : list A :=
  foldr (insert_sorted less) [] s.

(** [filepath.Join] of two clean components. *)
Definition filepath_Join (dir name : string) : string := dir +:+ "/" +:+ name.

(** [id.String()]: the text form of a ULID.  The library prints Crockford
    base 32; the decimal digits stand for it (both are injective). *)
Definition ULID_String (id : ULID) : string := pretty id.

(** [fmt.Sprintf("%v", l)] for a slice of strings: the elements between
    brackets, separated by spaces. *)
Definition fmt_strings (l : list string) : string :=
  "[" +:+ String.concat " " l +:+ "]".

(** [<] on Go strings: bytewise lexicographic. *)
Definition string_less (a b : string) : bool := String.ltb a b.

End Go.

Import Go.

(* ===================================================================== *)
(** * Block metadata, jobs, effects and the collaborators *)
(* ===================================================================== *)

Module Model.

(** [metadata.Meta], the fields the package reads:
    [ULID], [MinTime], [MaxTime], [Compaction.Level], [Stats.NumSamples],
    [Thanos.Labels], [Thanos.Downsample.Resolution]. *)
Record Meta : Type := mkMeta {
  meta_ULID : ULID;
  meta_MinTime : Z;
  meta_MaxTime : Z;
  meta_Level : Z;
  meta_NumSamples : N;
  meta_Labels : gmap string string;
  meta_Resolution : Z;
}.

(** [metadata.Thanos] as passed to [InjectThanos]. *)
Record Thanos : Type := mkThanos {
  thanos_Labels : gmap string string;
  thanos_Resolution : Z;
  thanos_Source : string;
}.

Record DeletionMark : Type := mkDeletionMark {
  dm_ID : ULID;
  dm_DeletionTime : Z;
  dm_Details : string;
}.

Record NoCompactMark : Type := mkNoCompactMark {
  ncm_ID : ULID;
  ncm_NoCompactTime : Z;
  ncm_Reason : string;
}.

(** What [GatherIndexHealthStats] returns, read through its four methods. *)
Record HealthStats : Type := mkHealthStats {
  CriticalErr : error;
  OutOfOrderChunksErr : error;
  Issue347OutsideChunksErr : error;
  PrometheusIssue5372Err : error;
}.

(** Modelled from the spec: the [Job] type is declared in [job.go], which is
    not among the sources.  Section 3 gives a job its [Key], its [Labels],
    its [Metas] ordered by [MinTime] with ties broken by [ID], and
    [UseSplitting]/[SplittingShards]; the remaining fields are the arguments
    [NewJob] receives in [Groups]. *)
Record Job : Type := mkJob {
  job_userID : string;
  job_key : string;
  job_labels : gmap string string;
  job_resolution : Z;
  job_hashFunc : string;
  job_useSplitting : bool;
  job_splitNumShards : N;
  job_shardingKey : string;
  job_metasByMinTime : list Meta;
}.

Definition NewJob (userID key : string) (lset : gmap string string)
    (resolution : Z) (hashFunc : string) (useSplitting : bool)
    (splitNumShards : N) (shardingKey : string) : Job :=
  mkJob userID key lset resolution hashFunc useSplitting splitNumShards
        shardingKey [].

Definition meta_less (a b : Meta) : bool :=
  if decide (meta_MinTime a = meta_MinTime b)
  then bool_decide (meta_ULID a < meta_ULID b)%N
  else bool_decide (meta_MinTime a < meta_MinTime b)%Z.

Definition ErrLabelsMismatch : error :=
  leafError 101 "block and group labels do not match".
Definition ErrResolutionMismatch : error :=
  leafError 102 "block and group resolution do not match".

(** Modelled from the spec: [Job.AppendMeta] is in [job.go] too.  It can
    fail (its caller [Groups] handles the error); by the invariant of
    section 3, "all metas share Labels and DownsampleResolution", it refuses
    a block whose labels or resolution differ from the job's, and otherwise
    adds the block and keeps the metas ordered by [MinTime], then [ID]. *)
Definition AppendMeta (job : Job) (meta : Meta) : Job * error :=
  if negb (bool_decide (job_labels job = meta_Labels meta)) then
    (job, ErrLabelsMismatch)
  else if negb (bool_decide (job_resolution job = meta_Resolution meta)) then
    (job, ErrResolutionMismatch)
  else
    (mkJob (job_userID job) (job_key job) (job_labels job) (job_resolution job)
           (job_hashFunc job) (job_useSplitting job) (job_splitNumShards job)
           (job_shardingKey job)
           (sort_Slice meta_less (job_metasByMinTime job ++ [meta])),
     nil).

(** ** Effects *)

(** One entry per call that leaves the process or touches the disk, with
    the result the call had; [EvInc] is the increment of a counter. *)
Inductive Event : Type :=
  | EvMkdirAll (path : string) (err : error)
  | EvPlan (metas plan : list Meta) (err : error)
  | EvDownload (id : ULID) (dir : string) (err : error)
  | EvGatherIndexHealthStats (index : string) (err : error)
  | EvCompact (dest : string) (dirs : list string) (ids : list ULID) (err : error)
  | EvInjectThanos (bdir : string) (th : Thanos) (err : error)
  | EvRemove (path : string) (err : error)
  | EvVerifyIndex (index : string) (err : error)
  | EvUpload (bdir : string) (err : error)
  | EvRemoveAll (path : string) (err : error)
  | EvMarkForDeletion (id : ULID) (details : string) (err : error)
  | EvReadMarker (id : ULID) (err : error)
  | EvInc (counter : string).

Abbreviation Trace := (list Event).

(** The collaborators.  Every oracle sees the trace so far. *)
Record World : Type := mkWorld {
  ctx_Err : Trace → error;
  os_MkdirAll : Trace → string → error;
  os_Remove : Trace → string → error;
  os_RemoveAll : Trace → string → error;
  planner_Plan : Trace → list Meta → list Meta * error;
  block_Download : Trace → ULID → string → error;
  block_GatherIndexHealthStats : Trace → string → Z → Z → HealthStats * error;
  block_VerifyIndex : Trace → string → Z → Z → error;
  block_Upload : Trace → string → string → error;
  block_MarkForDeletion : Trace → ULID → string → error;
  comp_Compact : Trace → string → list string → ULID * error;
  comp_CompactWithSplitting : Trace → string → list string → N → list ULID * error;
  metadata_InjectThanos : Trace → string → Thanos → Meta * error;
  metadata_ReadMarker : Trace → ULID → NoCompactMark * error;
  (** how a worker pool linearises: the order in which job bodies take
      effect, and which jobs were already running when the first error
      cancelled the pool *)
  pool_order : Trace → list nat;
  pool_raced : Trace → nat → bool;
  (** the iteration order of a [range] over a map *)
  range_order : Trace → list nat;
}.

(** ** The state-and-trace monad

    A computation threads a store [S] (the object the method mutates) and
    the trace. *)
Definition M (S A : Type) : Type := S → Trace → A * S * Trace.

Definition ret {S A} (a : A) : M S A := λ s t, (a, s, t).

Definition bind {S A B} (c : M S A) (k : A → M S B) : M S B :=
  λ s t, let '(a, s', t') := c s t in k a s' t'.

(** An effectful call: ask the oracle, record the call with its result. *)
Definition call {S A} (oracle : Trace → A) (ev : A → Event) : M S A :=
  λ s t, let r := oracle t in (r, s, t ++ [ev r]).

(** A read of the environment that leaves no trace ([ctx.Err()]). *)
Definition ask {S A} (oracle : Trace → A) : M S A := λ s t, (oracle t, s, t).

Definition emit {S} (e : Event) : M S unit := λ s t, (tt, s, t ++ [e]).
Definition get {S} : M S S := λ s t, (s, s, t).
Definition put {S} (s' : S) : M S unit := λ _ t, (tt, s', t).

Declare Scope go_scope.
Delimit Scope go_scope with go.
Notation "x <- c ;; k" := (bind c (λ x, k))
  (at level 20, c at level 99, k at level 200, only parsing) : go_scope.
Notation "' p <- c ;; k" := (bind c (λ x, let 'p := x in k))
  (at level 20, p pattern, c at level 99, k at level 200, only parsing) : go_scope.
Notation "c ;;; k" := (bind c (λ _, k))
  (at level 100, k at level 200, right associativity, only parsing) : go_scope.

Local Open Scope go_scope.

(** ** [concurrency.ForEach]

    The library starts [min(concurrency, len(jobs))] workers that take the
    jobs one after the other; a worker checks the context before it takes
    a job, also when no job is left, and stops at its first error, which
    cancels the pool's context; [ForEach] waits for every worker and
    returns the first error.  No worker means no job is run and the result
    is nil.

    The pool is linearised with job bodies as atomic steps, in the order
    [pool_order] gives.  Until the first error each job checks the context
    and runs; after it a job either was already running ([pool_raced]: it
    runs, its own error is dropped) or is never started.  When every job
    has run without error, the worker that ran the last one checks the
    context once more and returns its error. *)
Fixpoint ForEach_go {S J} (w : World) (jobFunc : J → M S error)
    (jobs : list (nat * J)) (first : error) : M S error :=
  match jobs with
  | [] => if is_nil first then ask (ctx_Err w) else ret first
  | (ix, job) :: rest =>
      if is_nil first then
        cerr <- ask (ctx_Err w) ;;
        if is_nil cerr then
          err <- jobFunc job ;;
          ForEach_go w jobFunc rest err
        else ForEach_go w jobFunc rest cerr
      else
        raced <- ask (λ t, pool_raced w t ix) ;;
        if raced : bool then
          jobFunc job ;;; ForEach_go w jobFunc rest first
        else ForEach_go w jobFunc rest first
  end.

Definition ForEach {S J} (w : World) (jobs : list J) (concurrency : Z)
    (jobFunc : J → M S error) : M S error :=
  match jobs with
  | [] => ret nil
  | _ =>
      if bool_decide (concurrency ≤ 0)%Z then ret nil
      else
        code <- ask (pool_order w) ;;
        ForEach_go w jobFunc (shuffle code (imap pair jobs)) nil
  end.

End Model.

Import Model.

(* ===================================================================== *)
(** * Syncer: the meta snapshot and its garbage collection *)
(* ===================================================================== *)

Module SyncerModel.

Local Open Scope go_scope.

(** The [Syncer]'s mutable fields, and what its two filters answer:
    [DuplicateIDs()] of the deduplicate filter and [DeletionMarkBlocks()]
    of the deletion-mark filter.  The mutex is held for a whole call. *)
Record Syncer : Type := mkSyncer {
  blocks : gmap ULID Meta;
  partial : gmap ULID error;
  duplicateIDs : list ULID;
  deletionMarkMap : gmap ULID DeletionMark;
}.

Definition set_blocks (s : Syncer) (b : gmap ULID Meta) : Syncer :=
  mkSyncer b (partial s) (duplicateIDs s) (deletionMarkMap s).

Definition Metas (s : Syncer) : gmap ULID Meta := blocks s.
Definition Partial (s : Syncer) : gmap ULID error := partial s.

(** The first loop of [GarbageCollect]: the duplicates not yet marked. *)
Fixpoint garbageIDs (deletionMarkMap : gmap ULID DeletionMark)
    (duplicateIDs : list ULID) : list ULID :=
  match duplicateIDs with
  | [] => []
  | id :: rest =>
      match deletionMarkMap !! id with
      | Some _ => garbageIDs deletionMarkMap rest
      | None => id :: garbageIDs deletionMarkMap rest
      end
  end.

Definition outdated_block : string := "outdated block".

(** The second loop of [GarbageCollect]. *)
Fixpoint markGarbage (w : World) (ids : list ULID) : M Syncer error :=
  match ids with
  | [] => ret nil
  | id :: rest =>
      cerr <- ask (ctx_Err w) ;;
      if negb (is_nil cerr) then ret cerr
      else
        err <- call (λ t, block_MarkForDeletion w t id outdated_block)
                    (EvMarkForDeletion id outdated_block) ;;
        if negb (is_nil err) then
          emit (EvInc "garbage_collection_failures") ;;;
          ret (retry (Wrap err ("mark block " +:+ ULID_String id +:+ " for deletion")))
        else
          s <- get ;;
          put (set_blocks s (delete id (blocks s))) ;;;
          emit (EvInc "garbage_collected_blocks") ;;;
          markGarbage w rest
  end.

Definition GarbageCollect (w : World) : M Syncer error :=
  s <- get ;;
  err <- markGarbage w (garbageIDs (deletionMarkMap s) (duplicateIDs s)) ;;
  if negb (is_nil err) then ret err
  else
    emit (EvInc "garbage_collections") ;;;
    ret nil.

End SyncerModel.

Import SyncerModel.

(* ===================================================================== *)
(** * The default grouper *)
(* ===================================================================== *)

Module Grouper.

Section WithHash.

(** [labels.Labels.Hash()]: a 64-bit hash of the label set, from the
    Prometheus library.  [labels.FromMap] turns the map into the sorted
    label list; the finite map is that canonical form here. *)
Variable Hash : gmap string string → N.

(** [fmt.Sprintf("%d@%v", res, lbls.Hash())]. *)
Definition defaultGroupKey (res : Z) (lbls : gmap string string) : string :=
  pretty res +:+ "@" +:+ pretty (Hash lbls).

Definition DefaultGroupKey (meta : Meta) : string :=
  defaultGroupKey (meta_Resolution meta) (meta_Labels meta).

Record DefaultGrouper : Type := mkDefaultGrouper {
  userID : string;
  hashFunc : string;
}.

(** The loop state of [Groups].  Jobs are pointers: [heap] is the store of
    the jobs allocated so far (a pointer is an index into it), [groups]
    maps a group key to the pointer of its job and [res] lists the
    pointers in allocation order, so an [AppendMeta] through [groups] is
    seen through [res]. *)
Record GroupsState : Type := mkGroupsState {
  heap : list Job;
  groups : gmap string nat;
  res : list nat;
}.

Definition groupsStep (g : DefaultGrouper) (st : GroupsState) (m : Meta)
    : GroupsState * error :=
  let groupKey := DefaultGroupKey m in
  let '(st1, p) :=
    match groups st !! groupKey with
    | Some p => (st, p)
    | None =>
        let p := length (heap st) in
        let job := NewJob (userID g) groupKey (meta_Labels m)
                          (meta_Resolution m) (hashFunc g) false 0 "" in
        (mkGroupsState (heap st ++ [job]) (<[groupKey := p]> (groups st))
                       (res st ++ [p]), p)
    end in
  match heap st1 !! p with
  | Some job =>
      let '(job', err) := AppendMeta job m in
      if negb (is_nil err) then (st1, Wrap err "add compaction group")
      else (mkGroupsState (<[p := job']> (heap st1)) (groups st1) (res st1), nil)
  | None => (st1, nil)
  end.

Fixpoint groupsLoop (g : DefaultGrouper) (ms : list Meta) (st : GroupsState)
    : GroupsState * error :=
  match ms with
  | [] => (st, nil)
  | m :: rest =>
      let '(st', err) := groupsStep g st m in
      if negb (is_nil err) then (st', err) else groupsLoop g rest st'
  end.

(** The blocks in the order the [range] over the map visits them. *)
Definition rangeValues (code : list nat) (blocks : gmap ULID Meta) : list Meta :=
  shuffle code (map_to_list blocks).*2.

Definition job_less (a b : Job) : bool := string_less (job_key a) (job_key b).

(** [Groups]: [code] is the iteration order this call happens to get. *)
Definition Groups (g : DefaultGrouper) (code : list nat)
    (blocks : gmap ULID Meta) : list Job * error :=
  let '(st, err) :=
    groupsLoop g (rangeValues code blocks) (mkGroupsState [] ∅ []) in
  if negb (is_nil err) then ([], err)
  else (sort_Slice job_less (omap (λ p, heap st !! p) (res st)), nil).

End WithHash.

End Grouper.

Import Grouper.

(* ===================================================================== *)
(** * The bucket compactor: running one job, filtering own jobs *)
(* ===================================================================== *)

Module Compactor.

Local Open Scope go_scope.

Record BucketCompactor : Type := mkBucketCompactor {
  compactDir : string;
  concurrency : Z;
  skipBlocksWithOutOfOrderChunks : bool;
  ownJob : Job → bool * error;
}.

(** [ownAllJobs]. *)
Definition ownAllJobs (job : Job) : bool * error := (true, nil).

Definition IndexFilename : string := "index".
Definition CompactorSource : string := "compactor".
Definition source_of_compacted_block : string := "source of compacted block".

(** Modelled from the spec: the label name and [FormatShardIDLabelValue]
    are declared in the storage packages; section 4.G gives the label as
    [__compactor_shard_id__="<i+1>_of_N"]. *)
Definition CompactorShardIDExternalLabel : string := "__compactor_shard_id__".
Definition FormatShardIDLabelValue (shardID shardCount : N) : string :=
  pretty (shardID + 1)%N +:+ "_of_" +:+ pretty shardCount.

Definition blockDir (subDir : string) (id : ULID) : string :=
  filepath_Join subDir (ULID_String id).

Definition hasNonZeroULIDs (ids : list ULID) : bool :=
  existsb (λ id, negb (N.eqb id zeroULID)) ids.

Definition deleteBlock {S} (w : World) (id : ULID) (bdir : string) : M S error :=
  err <- call (λ t, os_RemoveAll w t bdir) (EvRemoveAll bdir) ;;
  if negb (is_nil err) then
    ret (Wrap err ("remove old block dir " +:+ ULID_String id))
  else
    err <- call (λ t, block_MarkForDeletion w t id source_of_compacted_block)
                (EvMarkForDeletion id source_of_compacted_block) ;;
    if negb (is_nil err) then
      ret (Wrap err ("mark block " +:+ ULID_String id +:+ " for deletion from bucket"))
    else ret nil.

(** The body of the first [ForEach] of [runCompactionJob]: download one
    planned block and check its index. *)
Definition downloadAndCheck {S} (w : World) (subDir : string) (meta : Meta)
    : M S error :=
  let bdir := blockDir subDir (meta_ULID meta) in
  err <- call (λ t, block_Download w t (meta_ULID meta) bdir)
              (EvDownload (meta_ULID meta) bdir) ;;
  if negb (is_nil err) then
    ret (retry (Wrap err ("download block " +:+ ULID_String (meta_ULID meta))))
  else
    let index := filepath_Join bdir IndexFilename in
    '(stats, err) <- call (λ t, block_GatherIndexHealthStats w t index
                                  (meta_MinTime meta) (meta_MaxTime meta))
                          (λ r, EvGatherIndexHealthStats index r.2) ;;
    if negb (is_nil err) then
      ret (Wrap err ("gather index issues for block " +:+ bdir))
    else if negb (is_nil (CriticalErr stats)) then
      ret (halt (Wrap (CriticalErr stats)
                      ("block with not healthy index found " +:+ bdir)))
    else if negb (is_nil (OutOfOrderChunksErr stats)) then
      ret (outOfOrderChunkError
             (Wrap (OutOfOrderChunksErr stats)
                   ("blocks with out-of-order chunks are dropped from compaction:  " +:+ bdir))
             (meta_ULID meta))
    else if negb (is_nil (Issue347OutsideChunksErr stats)) then
      ret (issue347Error
             (Wrap (Issue347OutsideChunksErr stats)
                   ("invalid, but reparable block " +:+ bdir))
             (meta_ULID meta))
    else if negb (is_nil (PrometheusIssue5372Err stats)) then
      ret (Wrap (PrometheusIssue5372Err stats)
                ("block id " +:+ ULID_String (meta_ULID meta)))
    else ret nil.

(** [convertSliceOfUlidsToSliceOfInterfaces]: each id with its index. *)
Definition convertSliceOfUlidsToSliceOfInterfaces (input : list ULID)
    : list (nat * ULID) := imap pair input.

(** The body of the second [ForEach]: finalize, verify and upload one
    output block; an empty shard (zero id) is skipped. *)
Definition finalizeAndUpload {S} (w : World) (job : Job) (subDir : string)
    (j : nat * ULID) : M S error :=
  let shardID := j.1 in
  let compID := j.2 in
  if N.eqb compID zeroULID then ret nil
  else
    let bdir := blockDir subDir compID in
    let index := filepath_Join bdir IndexFilename in
    let newLabels :=
      if job_useSplitting job then
        <[CompactorShardIDExternalLabel :=
            FormatShardIDLabelValue (N.of_nat shardID) (job_splitNumShards job)]>
          (job_labels job)
      else job_labels job in
    let th := mkThanos newLabels (job_resolution job) CompactorSource in
    '(newMeta, err) <- call (λ t, metadata_InjectThanos w t bdir th)
                            (λ r, EvInjectThanos bdir th r.2) ;;
    if negb (is_nil err) then
      ret (Wrap err ("failed to finalize the block " +:+ bdir))
    else
      let tombstones := filepath_Join bdir "tombstones" in
      err <- call (λ t, os_Remove w t tombstones) (EvRemove tombstones) ;;
      if negb (is_nil err) then ret (Wrap err "remove tombstones")
      else
        err <- call (λ t, block_VerifyIndex w t index (meta_MinTime newMeta)
                                            (meta_MaxTime newMeta))
                    (EvVerifyIndex index) ;;
        if negb (is_nil err) then
          ret (halt (Wrap err ("invalid result block " +:+ bdir)))
        else
          err <- call (λ t, block_Upload w t bdir (job_hashFunc job))
                      (EvUpload bdir) ;;
          if negb (is_nil err) then
            ret (retry (Wrap err ("upload of " +:+ ULID_String compID +:+ " failed")))
          else ret nil.

(** The loop of the empty-result branch: every planned block without
    samples is deleted; a failure is logged and the loop goes on. *)
Fixpoint deleteEmptyInputs {S} (w : World) (subDir : string)
    (toCompact : list Meta) : M S unit :=
  match toCompact with
  | [] => ret tt
  | meta :: rest =>
      (if N.eqb (meta_NumSamples meta) 0 then
         deleteBlock w (meta_ULID meta) (blockDir subDir (meta_ULID meta)) ;;;
         ret tt
       else ret tt) ;;;
      deleteEmptyInputs w subDir rest
  end.

(** The last loop: retire every planned block; the first failure ends the
    job with a retry error. *)
Fixpoint retireInputs {S} (w : World) (subDir : string)
    (toCompact : list Meta) : M S error :=
  match toCompact with
  | [] => ret nil
  | meta :: rest =>
      err <- deleteBlock w (meta_ULID meta) (blockDir subDir (meta_ULID meta)) ;;
      if negb (is_nil err) then
        ret (retry (Wrap err "mark old block for deletion from bucket"))
      else
        emit (EvInc "garbage_collected_blocks") ;;;
        retireInputs w subDir rest
  end.

(** The merge step: one call of the merger, with or without splitting. *)
Definition compact {S} (w : World) (job : Job) (subDir : string)
    (toCompactDirs : list string) : M S (list ULID * error) :=
  if job_useSplitting job then
    call (λ t, comp_CompactWithSplitting w t subDir toCompactDirs
                 (job_splitNumShards job))
         (λ r, EvCompact subDir toCompactDirs r.1 r.2)
  else
    '(compID, err) <- call (λ t, comp_Compact w t subDir toCompactDirs)
                           (λ r, EvCompact subDir toCompactDirs [r.1] r.2) ;;
    ret ([compID], err).

(** [runCompactionJob] up to its return; the deferred function follows. *)
Definition runCompactionJob_body {S} (w : World) (job : Job) (subDir : string)
    : M S (bool * list ULID * error) :=
  err <- call (λ t, os_MkdirAll w t subDir) (EvMkdirAll subDir) ;;
  if negb (is_nil err) then ret (false, [], Wrap err "create compaction job dir")
  else
    '(toCompact, err) <- call (λ t, planner_Plan w t (job_metasByMinTime job))
                              (λ r, EvPlan (job_metasByMinTime job) r.1 r.2) ;;
    if negb (is_nil err) then ret (false, [], Wrap err "plan compaction")
    else if bool_decide (length toCompact = 0) then ret (false, [], nil)
    else
      let toCompactDirs := map (λ m, blockDir subDir (meta_ULID m)) toCompact in
      err <- ForEach w toCompact (Z.of_nat (length toCompact))
                     (downloadAndCheck w subDir) ;;
      if negb (is_nil err) then ret (false, [], err)
      else
        '(compIDs, err) <- compact w job subDir toCompactDirs ;;
        if negb (is_nil err) then
          ret (false, [],
               halt (Wrap err ("compact blocks " +:+ fmt_strings toCompactDirs)))
        else if negb (hasNonZeroULIDs compIDs) then
          deleteEmptyInputs w subDir toCompact ;;;
          ret (true, [], nil)
        else
          err <- ForEach w (convertSliceOfUlidsToSliceOfInterfaces compIDs)
                         (Z.of_nat (length compIDs))
                         (finalizeAndUpload w job subDir) ;;
          if negb (is_nil err) then ret (false, [], err)
          else
            err <- retireInputs w subDir toCompact ;;
            if negb (is_nil err) then ret (false, [], err)
            else ret (true, compIDs, nil).

Definition subDirOf (c : BucketCompactor) (job : Job) : string :=
  filepath_Join (compactDir c) (job_key job).

Definition runCompactionJob {S} (w : World) (c : BucketCompactor) (job : Job)
    : M S (bool * list ULID * error) :=
  let subDir := subDirOf c job in
  r <- runCompactionJob_body w job subDir ;;
  if negb (is_nil r.2) then ret r
  else
    call (λ t, os_RemoveAll w t subDir) (EvRemoveAll subDir) ;;;
    ret r.

(** [filterOwnJobs]: the loop drops in place every job the instance does
    not own.  Each turn either advances [ix] or shortens [jobs], so
    [length jobs] turns are enough. *)
Fixpoint filterOwnJobs_loop (c : BucketCompactor) (turns : nat)
    (jobs : list Job) (ix : nat) : list Job * error :=
  match jobs !! ix with
  | None => (jobs, nil)
  | Some job =>
      match turns with
      | 0 => (jobs, nil)
      | S turns' =>
          let '(ok, err) := ownJob c job in
          if negb (is_nil err) then ([], Wrap err "ownJob")
          else if negb ok then
            filterOwnJobs_loop c turns' (take ix jobs ++ drop (S ix) jobs) ix
          else filterOwnJobs_loop c turns' jobs (S ix)
      end
  end.

Definition filterOwnJobs (c : BucketCompactor) (jobs : list Job)
    : list Job * error :=
  filterOwnJobs_loop c (length jobs) jobs 0.

End Compactor.

Import Compactor.

(* ===================================================================== *)
(** * The no-compaction mark filter *)
(* ===================================================================== *)

Module NoCompact.

Local Open Scope go_scope.

(** The two sentinels of the metadata package. *)
Definition ErrorMarkerNotFound : error := leafError 1 "marker not found".
Definition ErrorUnmarshalMarker : error := leafError 2 "unmarshal marker JSON".

Definition MarkedForNoCompactionMeta : string := "marked-for-no-compact".

Record NoCompactionMarkFilter : Type := mkNoCompactionMarkFilter {
  noCompactMarkedMap : gmap ULID NoCompactMark;
  filter_concurrency : Z;
  removeNoCompactBlocks : bool;
}.

Definition NoCompactMarkedBlocks (f : NoCompactionMarkFilter)
    : gmap ULID NoCompactMark := noCompactMarkedMap f.

(** What [Filter] mutates: the filter's map and the caller's metas. *)
Definition FilterStore : Type := gmap ULID NoCompactMark * gmap ULID Meta.

(** The body of the [ForEach] of [Filter], for one block id. *)
Definition readMark (w : World) (remove : bool) (id : ULID)
    : M FilterStore error :=
  '(m, err) <- call (λ t, metadata_ReadMarker w t id)
                    (λ r, EvReadMarker id r.2) ;;
  if negb (is_nil err) then
    if same_error (Cause err) ErrorMarkerNotFound then ret nil
    else if same_error (Cause err) ErrorUnmarshalMarker then ret nil
    else ret err
  else
    st <- get ;;
    put (<[id := m]> st.1, if remove then delete id st.2 else st.2) ;;;
    emit (EvInc MarkedForNoCompactionMeta) ;;;
    ret nil.

(** The ids in the order the [range] over [metas] yields them. *)
Definition rangeKeys (code : list nat) (metas : gmap ULID Meta) : list ULID :=
  shuffle code (map_to_list metas).*1.

(** [Filter]: returns the error, the filter and the metas after the call. *)
Definition Filter (w : World) (f : NoCompactionMarkFilter)
    (metas : gmap ULID Meta) (t : Trace)
    : error * NoCompactionMarkFilter * gmap ULID Meta * Trace :=
  let ids := rangeKeys (range_order w t) metas in
  let '(err, (marked, metas'), t') :=
    ForEach w ids (filter_concurrency f)
            (readMark w (removeNoCompactBlocks f)) (∅, metas) t in
  (Wrap err "filter blocks marked for no compaction",
   mkNoCompactionMarkFilter marked (filter_concurrency f)
                            (removeNoCompactBlocks f),
   metas', t').

End NoCompact.

Import NoCompact.

(* ===================================================================== *)
(** * The vocabulary of the properties *)
(* ===================================================================== *)

(** Predicates on results, stores and traces in which the theorems below
    are stated, and the invariants their proofs maintain. *)
Module Properties.

(** ** The ownership filter *)

(** What the loop computes on the jobs not yet visited: the owned ones in
    order, or the wrapped error of the first failing check. *)
Fixpoint ownedOf (c : BucketCompactor) (todo : list Job) : list Job * error :=
  match todo with
  | [] => ([], nil)
  | job :: rest =>
      if negb (is_nil (ownJob c job).2) then ([], Wrap (ownJob c job).2 "ownJob")
      else
        let r := ownedOf c rest in
        if negb (is_nil r.2) then r
        else if (ownJob c job).1 then (job :: r.1, nil) else r
  end.

(** The claim C9 as it is worded: on a failing ownership check the result
    is nil and the very error of the check. *)
Definition filterOwnJobs_as_stated (c : BucketCompactor) (jobs : list Job) : Prop :=
  ((∀ job, job ∈ jobs → (ownJob c job).2 = nil) →
     filterOwnJobs c jobs = (filter (λ job, (ownJob c job).1 = true) jobs, nil)) ∧
  (∀ pre job post, jobs = pre ++ job :: post →
     (∀ j, j ∈ pre → (ownJob c j).2 = nil) → (ownJob c job).2 ≠ nil →
     filterOwnJobs c jobs = ([], (ownJob c job).2)).

(** ** Garbage collection *)

(** The ids of the mark-for-deletion writes of a trace that succeeded. *)
Fixpoint successfulMarks (tr : Trace) : list ULID :=
  match tr with
  | [] => []
  | EvMarkForDeletion id _ nil :: rest => id :: successfulMarks rest
  | _ :: rest => successfulMarks rest
  end.

Definition deleteAll (ids : list ULID) (b : gmap ULID Meta) : gmap ULID Meta :=
  foldl (λ b id, delete id b) b ids.

(** What a run of the marking loop leaves behind. *)
Definition gc_outcome (w : World) (t : Trace) (s : Syncer) (err : error)
    (s' : Syncer) (t' : Trace) : Prop :=
  ∃ new,
    t' = t ++ new ∧
    blocks s' = deleteAll (successfulMarks new) (blocks s) ∧
    (err ≠ nil →
       (err = ctx_Err w t' ∧
        (∀ id d e, EvMarkForDeletion id d e ∈ new → e = nil))
       ∨
       (∃ pre id merr,
          new = pre ++ [EvMarkForDeletion id outdated_block merr;
                        EvInc "garbage_collection_failures"] ∧
          merr = block_MarkForDeletion w (t ++ pre) id outdated_block ∧
          merr ≠ nil ∧
          err = retry (Wrap merr ("mark block " +:+ ULID_String id +:+ " for deletion")))).

(** The claim C2 as it is worded: whatever makes [GarbageCollect] fail,
    the error is Retry-classified and not Halt-classified. *)
Definition GarbageCollect_always_Retry (w : World) (s : Syncer) (t : Trace) : Prop :=
  ∀ err s' t', GarbageCollect w s t = (err, s', t') → err ≠ nil →
    IsRetryError err = true ∧ IsHaltError err = false.

(** ** Computations *)

(** [hoare P c Q]: from a store and trace satisfying [P], whatever [c]
    returns satisfies [Q] with the store and trace it leaves. *)
Definition hoare {S A} (P : S → Trace → Prop) (c : M S A)
    (Q : A → S → Trace → Prop) : Prop :=
  ∀ s t, P s t → ∀ a s' t', c s t = (a, s', t') → Q a s' t'.

(** ** The no-compaction mark filter *)

(** The bucket has no readable no-compaction mark for [id]: whenever the
    marker is read, the read fails and the cause of the failure is one of
    the two sentinels (marker not found, marker not parseable). *)
Definition marker_unavailable (w : World) (id : ULID) : Prop :=
  ∀ tr, same_error (Cause (metadata_ReadMarker w tr id).2) ErrorMarkerNotFound = true
      ∨ same_error (Cause (metadata_ReadMarker w tr id).2) ErrorUnmarshalMarker = true.

(** What makes [Filter] fail: the cancelled context, or a marker read that
    failed for another reason than the two sentinels. *)
Definition filter_failure (w : World) (ids : list ULID) (e : error) : Prop :=
  (∃ tr, e = ctx_Err w tr) ∨
  (∃ tr id, id ∈ ids ∧ e = (metadata_ReadMarker w tr id).2 ∧
     same_error (Cause e) ErrorMarkerNotFound = false ∧
     same_error (Cause e) ErrorUnmarshalMarker = false).

Definition filter_inv (w : World) (metas : gmap ULID Meta)
    (done : list (nat * ULID)) (first : error) (st : FilterStore)
    (t : Trace) : Prop :=
  (∀ id, is_Some (st.1 !! id) → ∃ tr, (metadata_ReadMarker w tr id).2 = nil) ∧
  (∀ id, st.2 !! id = metas !! id ∨ ∃ tr, (metadata_ReadMarker w tr id).2 = nil) ∧
  (first ≠ nil → filter_failure w done.*2 first).

(** ** Runs of a compaction job *)

(** The result recorded with an event. *)
Definition event_error (ev : Event) : error :=
  match ev with
  | EvMkdirAll _ e | EvPlan _ _ e | EvDownload _ _ e
  | EvGatherIndexHealthStats _ e | EvCompact _ _ _ e | EvInjectThanos _ _ e
  | EvRemove _ e | EvVerifyIndex _ e | EvUpload _ e | EvRemoveAll _ e
  | EvMarkForDeletion _ _ e | EvReadMarker _ e => e
  | EvInc _ => nil
  end.

(** The events of the three phases of a job. *)
Definition is_download_event (ev : Event) : bool :=
  match ev with
  | EvDownload _ _ _ | EvGatherIndexHealthStats _ _ => true
  | _ => false
  end.

Definition is_upload_event (ev : Event) : bool :=
  match ev with
  | EvInjectThanos _ _ _ | EvRemove _ _ | EvVerifyIndex _ _ | EvUpload _ _ => true
  | _ => false
  end.

Definition is_delete_event (ev : Event) : bool :=
  match ev with
  | EvRemoveAll _ _ | EvMarkForDeletion _ _ _ | EvInc _ => true
  | _ => false
  end.

(** The output block [oid] was finalized, index-verified and uploaded,
    each with success, within the trace [tr]. *)
Definition uploaded_ok (subDir : string) (oid : ULID) (tr : Trace) : Prop :=
  (∃ th, EvInjectThanos (blockDir subDir oid) th nil ∈ tr) ∧
  EvVerifyIndex (filepath_Join (blockDir subDir oid) IndexFilename) nil ∈ tr ∧
  EvUpload (blockDir subDir oid) nil ∈ tr.

(** The events of the empty-result loop over the planned blocks: a block
    with samples leaves nothing; an empty block has its local directory
    removed and, when that succeeded, its deletion mark written. *)
Inductive deleted_empty (w : World) (subDir : string) : list Meta → Trace → Prop :=
  | de_nil : deleted_empty w subDir [] []
  | de_skip m rest tr :
      meta_NumSamples m ≠ 0%N →
      deleted_empty w subDir rest tr →
      deleted_empty w subDir (m :: rest) tr
  | de_local_failure m rest tr t0 :
      meta_NumSamples m = 0%N →
      os_RemoveAll w t0 (blockDir subDir (meta_ULID m)) ≠ nil →
      deleted_empty w subDir rest tr →
      deleted_empty w subDir (m :: rest)
        (EvRemoveAll (blockDir subDir (meta_ULID m))
                     (os_RemoveAll w t0 (blockDir subDir (meta_ULID m))) :: tr)
  | de_marked m rest tr e :
      meta_NumSamples m = 0%N →
      deleted_empty w subDir rest tr →
      deleted_empty w subDir (m :: rest)
        (EvRemoveAll (blockDir subDir (meta_ULID m)) nil ::
         EvMarkForDeletion (meta_ULID m) source_of_compacted_block e :: tr).

(** Marks of a trace name planned blocks only. *)
Definition marks_within (plan : list Meta) (tr : Trace) : Prop :=
  ∀ id d e, EvMarkForDeletion id d e ∈ tr → id ∈ meta_ULID <$> plan.

Definition no_marks (tr : Trace) : Prop :=
  ∀ id d e, EvMarkForDeletion id d e ∉ tr.

(** The ways a run of [runCompactionJob] can go, up to its return: the
    result and the events it leaves.  [plan] is what the planner selected,
    [dl] the events of the download pool, [ids] what the merger returned,
    [ups] the events of the upload pool, [dels]/[rets] the events of the
    two deletion loops. *)
Inductive job_run (w : World) (job : Job) (subDir : string)
    : bool * list ULID * error → Trace → Prop :=
  | run_mkdir_failed e :
      e ≠ nil →
      job_run w job subDir (false, [], Wrap e "create compaction job dir")
        [EvMkdirAll subDir e]
  | run_plan_failed plan e :
      e ≠ nil →
      job_run w job subDir (false, [], Wrap e "plan compaction")
        [EvMkdirAll subDir nil; EvPlan (job_metasByMinTime job) plan e]
  | run_nothing_to_do :
      job_run w job subDir (false, [], nil)
        [EvMkdirAll subDir nil; EvPlan (job_metasByMinTime job) [] nil]
  | run_download_failed plan dl e :
      Forall (λ ev, is_download_event ev = true) dl →
      e ≠ nil →
      job_run w job subDir (false, [], e)
        ([EvMkdirAll subDir nil; EvPlan (job_metasByMinTime job) plan nil] ++ dl)
  | run_compact_failed plan dl dirs ids e :
      Forall (λ ev, is_download_event ev = true) dl →
      e ≠ nil →
      job_run w job subDir
        (false, [], halt (Wrap e ("compact blocks " +:+ fmt_strings dirs)))
        ([EvMkdirAll subDir nil; EvPlan (job_metasByMinTime job) plan nil] ++ dl
           ++ [EvCompact subDir dirs ids e])
  | run_empty_result plan dl dirs ids dels :
      Forall (λ ev, is_download_event ev = true) dl →
      hasNonZeroULIDs ids = false →
      deleted_empty w subDir plan dels →
      job_run w job subDir (true, [], nil)
        ([EvMkdirAll subDir nil; EvPlan (job_metasByMinTime job) plan nil] ++ dl
           ++ [EvCompact subDir dirs ids nil] ++ dels)
  | run_upload_failed plan dl dirs ids ups e :
      Forall (λ ev, is_download_event ev = true) dl →
      hasNonZeroULIDs ids = true →
      Forall (λ ev, is_upload_event ev = true) ups →
      e ≠ nil →
      job_run w job subDir (false, [], e)
        ([EvMkdirAll subDir nil; EvPlan (job_metasByMinTime job) plan nil] ++ dl
           ++ [EvCompact subDir dirs ids nil] ++ ups)
  | run_retired plan dl dirs ids ups rets r :
      Forall (λ ev, is_download_event ev = true) dl →
      hasNonZeroULIDs ids = true →
      Forall (λ ev, is_upload_event ev = true) ups →
      Forall (λ ev, event_error ev = nil) ups →
      (∀ oid, oid ∈ ids → oid ≠ zeroULID → uploaded_ok subDir oid ups) →
      Forall (λ ev, is_delete_event ev = true) rets →
      marks_within plan rets →
      (r = (true, ids, nil) ∨ ∃ e, e ≠ nil ∧ r = (false, [], e)) →
      job_run w job subDir r
        ([EvMkdirAll subDir nil; EvPlan (job_metasByMinTime job) plan nil] ++ dl
           ++ [EvCompact subDir dirs ids nil] ++ ups ++ rets).

(** The claim C4 as it is worded: after an all-zero merge a deletion mark
    is issued for exactly the planned blocks without samples, and the run
    returns reschedule=true without error. *)
Definition empty_result_marks_every_empty_input {S} (w : World)
    (c : BucketCompactor) (job : Job) (s : S) (t : Trace) : Prop :=
  ∀ r s' new, runCompactionJob w c job s t = (r, s', t ++ new) →
  ∀ plan dest dirs ids,
    EvPlan (job_metasByMinTime job) plan nil ∈ new →
    EvCompact dest dirs ids nil ∈ new →
    hasNonZeroULIDs ids = false →
    (∀ id, (∃ d e, EvMarkForDeletion id d e ∈ new) ↔
           (∃ m, m ∈ plan ∧ meta_ULID m = id ∧ meta_NumSamples m = 0%N)) ∧
    r.1.1 = true ∧ r.2 = nil.

(** ** Sorting and group keys *)

(** [x] may stand before [y]: [y] is not less than [x]. *)
Definition not_after {A} (less : A → A → bool) (x y : A) : Prop :=
  less y x = false.

(** The text of a number has no ["@"] in it. *)
Fixpoint has_at (s : string) : bool :=
  match s with
  | EmptyString => false
  | String a s' => if Ascii.eqb a "@"%char then true else has_at s'
  end.

(** ** The default grouper *)

(** No two blocks of [ms] with the same group key (the same resolution and
    label hash) carry different label sets. *)
Definition collision_free (Hash : gmap string string → N) (ms : list Meta)
    : Prop :=
  ∀ m1 m2, m1 ∈ ms → m2 ∈ ms →
    DefaultGroupKey Hash m1 = DefaultGroupKey Hash m2 →
    meta_Labels m1 = meta_Labels m2.

(** The state of the loop after the blocks [ms]. *)
Definition groups_inv (Hash : gmap string string → N) (ms : list Meta)
    (st : GroupsState) : Prop :=
  res st = seq 0 (length (heap st)) ∧
  (∀ k p, groups st !! k = Some p →
          ∃ j, heap st !! p = Some j ∧ job_key j = k) ∧
  (∀ p j, heap st !! p = Some j → groups st !! job_key j = Some p) ∧
  (∀ p j, heap st !! p = Some j →
     job_metasByMinTime j
       ≡ₚ filter (λ m, DefaultGroupKey Hash m = job_key j) ms ∧
     ∃ m0, m0 ∈ ms ∧ DefaultGroupKey Hash m0 = job_key j ∧
           job_labels j = meta_Labels m0 ∧
           job_resolution j = meta_Resolution m0) ∧
  (∀ m, m ∈ ms → ∃ p j, heap st !! p = Some j ∧
                        job_key j = DefaultGroupKey Hash m).

(** The blocks of a map are free of hash collisions. *)
Definition blocks_collision_free (Hash : gmap string string → N)
    (blocks : gmap ULID Meta) : Prop :=
  ∀ id1 id2 m1 m2, blocks !! id1 = Some m1 → blocks !! id2 = Some m2 →
    DefaultGroupKey Hash m1 = DefaultGroupKey Hash m2 →
    meta_Labels m1 = meta_Labels m2.

(** What the claim promises of the jobs returned for [blocks]. *)
Definition partition_by_key (Hash : gmap string string → N)
    (blocks : gmap ULID Meta) (jobs : list Job) : Prop :=
  NoDup (job_key <$> jobs) ∧
  (∀ k, k ∈ job_key <$> jobs ↔
        ∃ id m, blocks !! id = Some m ∧ DefaultGroupKey Hash m = k) ∧
  (∀ j, j ∈ jobs →
     job_metasByMinTime j
       ≡ₚ filter (λ m, DefaultGroupKey Hash m = job_key j)
                 (map_to_list blocks).*2) ∧
  StronglySorted (λ a b, string_less (job_key a) (job_key b) = true) jobs.

(** The claim C5 as it is worded, for one call of [Groups]. *)
Definition Groups_as_stated (Hash : gmap string string → N)
    (g : DefaultGrouper) (code : list nat)
    (blocks : gmap ULID Meta) : Prop :=
  ∃ jobs, Groups Hash g code blocks = (jobs, nil) ∧
          partition_by_key Hash blocks jobs.

End Properties.

Import Properties.

(* ===================================================================== *)
(** * Concrete scenarios *)
(* ===================================================================== *)

(** Small worlds, compactors and jobs on which the definitions above are
    evaluated. *)
Module Scenarios.

(** [context.Canceled] and a few collaborator failures. *)
Definition context_Canceled : error := leafError 3 "context canceled".
Definition ring_down : error := leafError 20 "ring unavailable".
Definition bucket_timeout : error := leafError 21 "bucket: request timeout".
Definition disk_error : error := leafError 22 "unlinkat: permission denied".

Definition job_a : Job := NewJob "tenant" "0@1" ∅ 0 "" false 0 "".
Definition job_b : Job := NewJob "tenant" "0@2" ∅ 0 "" false 0 "".
Definition job_c : Job := NewJob "tenant" "0@3" ∅ 0 "" false 0 "".

(** An instance that owns job [0@1], does not own [0@2] and cannot reach
    the ring for any other job. *)
Definition own_first (job : Job) : bool * error :=
  if String.eqb (job_key job) "0@1" then (true, nil)
  else if String.eqb (job_key job) "0@2" then (false, nil)
  else (false, ring_down).

Definition compactor_own_first : BucketCompactor :=
  mkBucketCompactor "/data/compact" 1 false own_first.

(** Blocks of one stream ([tenant=a], raw resolution); [block3] is empty. *)
Definition labels_a : gmap string string := {[ "tenant" := "a" ]}.
Definition block1 : Meta := mkMeta 1 0 100 1 100 labels_a 0.
Definition block2 : Meta := mkMeta 2 100 200 1 100 labels_a 0.
Definition block3 : Meta := mkMeta 3 200 300 1 0 labels_a 0.

(** A world in which every collaborator succeeds: the planner selects all
    blocks of the job, the merger writes block 9, no block carries a
    no-compaction mark, and pools and map ranges run in list order. *)
Definition quiet : World := {|
  ctx_Err := λ _, nil;
  os_MkdirAll := λ _ _, nil;
  os_Remove := λ _ _, nil;
  os_RemoveAll := λ _ _, nil;
  planner_Plan := λ _ metas, (metas, nil);
  block_Download := λ _ _ _, nil;
  block_GatherIndexHealthStats := λ _ _ _ _, (mkHealthStats nil nil nil nil, nil);
  block_VerifyIndex := λ _ _ _ _, nil;
  block_Upload := λ _ _ _, nil;
  block_MarkForDeletion := λ _ _ _, nil;
  comp_Compact := λ _ _ _, (9%N, nil);
  comp_CompactWithSplitting := λ _ _ _ _, ([9%N], nil);
  metadata_InjectThanos := λ _ _ th,
    (mkMeta 9 0 300 2 200 (thanos_Labels th) (thanos_Resolution th), nil);
  metadata_ReadMarker := λ _ id, (mkNoCompactMark id 0 "", ErrorMarkerNotFound);
  pool_order := λ _, [];
  pool_raced := λ _ _, false;
  range_order := λ _, [];
|}.

Definition with_ctx_Err (f : Trace → error) (w : World) : World :=
  mkWorld f (os_MkdirAll w) (os_Remove w) (os_RemoveAll w) (planner_Plan w)
    (block_Download w) (block_GatherIndexHealthStats w) (block_VerifyIndex w)
    (block_Upload w) (block_MarkForDeletion w) (comp_Compact w)
    (comp_CompactWithSplitting w) (metadata_InjectThanos w)
    (metadata_ReadMarker w) (pool_order w) (pool_raced w) (range_order w).

Definition with_MarkForDeletion (f : Trace → ULID → string → error)
    (w : World) : World :=
  mkWorld (ctx_Err w) (os_MkdirAll w) (os_Remove w) (os_RemoveAll w)
    (planner_Plan w) (block_Download w) (block_GatherIndexHealthStats w)
    (block_VerifyIndex w) (block_Upload w) f (comp_Compact w)
    (comp_CompactWithSplitting w) (metadata_InjectThanos w)
    (metadata_ReadMarker w) (pool_order w) (pool_raced w) (range_order w).

Definition with_ReadMarker (f : Trace → ULID → NoCompactMark * error)
    (w : World) : World :=
  mkWorld (ctx_Err w) (os_MkdirAll w) (os_Remove w) (os_RemoveAll w)
    (planner_Plan w) (block_Download w) (block_GatherIndexHealthStats w)
    (block_VerifyIndex w) (block_Upload w) (block_MarkForDeletion w)
    (comp_Compact w) (comp_CompactWithSplitting w) (metadata_InjectThanos w)
    f (pool_order w) (pool_raced w) (range_order w).

(** Block 1 has no marker, the marker of block 2 is truncated JSON, and
    block 3 carries a valid no-compaction mark. *)
Definition mixed_markers : World :=
  with_ReadMarker
    (λ _ id,
       if N.eqb id 1 then
         (mkNoCompactMark 0 0 "", withMessage ErrorMarkerNotFound "1/no-compact-mark.json")
       else if N.eqb id 2 then
         (mkNoCompactMark 0 0 "", withMessage ErrorUnmarshalMarker "2/no-compact-mark.json")
       else (mkNoCompactMark id 1700000000 "manual", nil))
    quiet.

Definition three_blocks : gmap ULID Meta :=
  {[ 1%N := block1; 2%N := block2; 3%N := block3 ]}.

Definition removing_filter : NoCompactionMarkFilter :=
  mkNoCompactionMarkFilter ∅ 2 true.

Definition with_RemoveAll (f : Trace → string → error) (w : World) : World :=
  mkWorld (ctx_Err w) (os_MkdirAll w) (os_Remove w) f
    (planner_Plan w) (block_Download w) (block_GatherIndexHealthStats w)
    (block_VerifyIndex w) (block_Upload w) (block_MarkForDeletion w)
    (comp_Compact w) (comp_CompactWithSplitting w) (metadata_InjectThanos w)
    (metadata_ReadMarker w) (pool_order w) (pool_raced w) (range_order w).

Definition with_Compact (f : Trace → string → list string → ULID * error)
    (w : World) : World :=
  mkWorld (ctx_Err w) (os_MkdirAll w) (os_Remove w) (os_RemoveAll w)
    (planner_Plan w) (block_Download w) (block_GatherIndexHealthStats w)
    (block_VerifyIndex w) (block_Upload w) (block_MarkForDeletion w)
    f (comp_CompactWithSplitting w) (metadata_InjectThanos w)
    (metadata_ReadMarker w) (pool_order w) (pool_raced w) (range_order w).

Definition compactor0 : BucketCompactor :=
  mkBucketCompactor "/data/compact" 1 false ownAllJobs.

(** The job of blocks 1 and 2, and a job of two empty blocks. *)
Definition job_12 : Job :=
  mkJob "tenant" "0@1" labels_a 0 "" false 0 "" [block1; block2].

Definition block4 : Meta := mkMeta 4 300 400 1 0 labels_a 0.

Definition job_34 : Job :=
  mkJob "tenant" "0@1" labels_a 0 "" false 0 "" [block3; block4].

(** The merger finds nothing to write. *)
Definition merge_is_empty : World :=
  with_Compact (λ _ _ _, (zeroULID, nil)) quiet.

(** The merger finds nothing to write, and the local directory of block 3
    cannot be removed. *)
Definition merge_is_empty_dir_stuck : World :=
  with_RemoveAll
    (λ _ path, if String.eqb path "/data/compact/0@1/3" then disk_error else nil)
    merge_is_empty.

(** A stand-in for the label hash: the total length of names and values.
    Label sets [tenant=a] and [tenant=b] collide under it. *)
Definition toy_hash (lbls : gmap string string) : N :=
  map_fold (λ k v acc, acc + N.of_nat (String.length k + String.length v))%N
           0%N lbls.

Definition labels_b : gmap string string := {[ "tenant" := "b" ]}.
Definition labels_bb : gmap string string := {[ "tenant" := "bb" ]}.
Definition block5 : Meta := mkMeta 5 0 100 1 100 labels_bb 0.
Definition block6 : Meta := mkMeta 6 0 100 1 100 labels_a 300000.
Definition block7 : Meta := mkMeta 7 0 100 1 100 labels_b 0.

Definition grouper0 : DefaultGrouper := mkDefaultGrouper "tenant" "".

(** Two raw blocks of stream [a], one of stream [bb], one 5m block of [a]. *)
Definition four_blocks : gmap ULID Meta :=
  {[ 1%N := block1; 2%N := block2; 5%N := block5; 6%N := block6 ]}.

(** Two raw blocks whose label sets differ and collide under [toy_hash]. *)
Definition colliding_blocks : gmap ULID Meta :=
  {[ 1%N := block1; 7%N := block7 ]}.

(** The context is cancelled once the first effect has happened. *)
Definition cancelled_after_first_effect : World :=
  with_ctx_Err (λ t, match t with [] => nil | _ => context_Canceled end) quiet.

(** Every mark-for-deletion write times out. *)
Definition marks_time_out : World :=
  with_MarkForDeletion (λ _ _ _, bucket_timeout) quiet.

(** Every mark-for-deletion write fails with an error whose cause is a
    [HaltError]: [block.MarkForDeletion] wraps the error of the bucket
    client, and the bucket is an interface the caller supplies. *)
Definition bucket_halted : error := leafError 25 "bucket: refusing writes".
Definition marks_halt : World :=
  with_MarkForDeletion
    (λ _ _ _, Wrap (halt bucket_halted) "upload file deletion-mark.json to bucket")
    quiet.

(** A snapshot of two blocks, both reported as duplicates. *)
Definition two_duplicates : Syncer :=
  mkSyncer {[ 1%N := block1; 2%N := block2 ]} ∅ [1%N; 2%N] ∅.

End Scenarios.

Import Scenarios.

(* ===================================================================== *)
(** * The shape of runs: what a trace of effects tells *)
(* ===================================================================== *)

Module RunShape.

(** ** More on garbage collection *)

(** The events of marking the blocks [ids] with success, one after the
    other. *)
Definition gcEvents (ids : list ULID) : Trace :=
  flat_map (λ id, [EvMarkForDeletion id outdated_block nil;
                   EvInc "garbage_collected_blocks"]) ids.

(** The loop of [GarbageCollect], started from the trace [t], gets through
    the ids [done]: at each of them it finds the context live and its
    mark-for-deletion write succeeds. *)
Definition marks_succeed (w : World) (t : Trace) (done : list ULID) : Prop :=
  ∀ pre id post, done = pre ++ id :: post →
    ctx_Err w (t ++ gcEvents pre) = nil ∧
    block_MarkForDeletion w (t ++ gcEvents pre) id outdated_block = nil.

(** The two ways [GarbageCollect] fails at the garbage id [id], reached
    with the trace [t1]: the context is cancelled there, and its error is
    returned as it is before any write for [id]; or the context is live
    and the write for [id] fails, and the error is [retry] of the wrapped
    write error. *)
Definition gc_failure_at (w : World) (t1 : Trace) (id : ULID) (err : error)
    (t' : Trace) : Prop :=
  (ctx_Err w t1 ≠ nil ∧ err = ctx_Err w t1 ∧ t' = t1)
  ∨
  (ctx_Err w t1 = nil ∧
   block_MarkForDeletion w t1 id outdated_block ≠ nil ∧
   t' = t1 ++ [EvMarkForDeletion id outdated_block
                 (block_MarkForDeletion w t1 id outdated_block);
               EvInc "garbage_collection_failures"] ∧
   err = retry (Wrap (block_MarkForDeletion w t1 id outdated_block)
                     ("mark block " +:+ ULID_String id +:+ " for deletion")) ∧
   IsHaltError err = IsHaltError (block_MarkForDeletion w t1 id outdated_block) ∧
   IsRetryError err
     = negb (IsHaltError (block_MarkForDeletion w t1 id outdated_block))).

(** ** More on the no-compaction mark filter *)

(** The ids whose marker a trace reads, and those whose read succeeded, in
    the order of the reads. *)
Fixpoint readIDs (tr : Trace) : list ULID :=
  match tr with
  | [] => []
  | EvReadMarker id _ :: rest => id :: readIDs rest
  | _ :: rest => readIDs rest
  end.

Fixpoint markedIDs (tr : Trace) : list ULID :=
  match tr with
  | [] => []
  | EvReadMarker id nil :: rest => id :: markedIDs rest
  | _ :: rest => markedIDs rest
  end.

(** How often a trace increments a counter. *)
Fixpoint countInc (counter : string) (tr : Trace) : nat :=
  match tr with
  | [] => 0
  | EvInc c :: rest =>
      (if String.eqb c counter then 1 else 0) + countInc counter rest
  | _ :: rest => countInc counter rest
  end.

(** The state of the pool of [Filter] after the jobs [done], started from
    the trace [t0] with the metas [metas]. *)
Definition mark_inv (w : World) (metas : gmap ULID Meta) (remove : bool)
    (t0 : Trace) (done : list (nat * ULID)) (first : error)
    (st : FilterStore) (t : Trace) : Prop :=
  ∃ new, t = t0 ++ new ∧
    (∀ id, is_Some (st.1 !! id) ↔ id ∈ markedIDs new) ∧
    (∀ id m, st.1 !! id = Some m → ∃ tr, metadata_ReadMarker w tr id = (m, nil)) ∧
    (∀ id, st.2 !! id =
           if remove && bool_decide (id ∈ markedIDs new) then None
           else metas !! id) ∧
    markedIDs new `sublist_of` readIDs new ∧
    readIDs new `sublist_of` done.*2 ∧
    (first = nil → readIDs new = done.*2) ∧
    countInc MarkedForNoCompactionMeta new = length (markedIDs new).

(** ** More on the runs of a compaction job *)

(** The events a job leaves inside its working directory [subDir]: the
    directory is created, blocks are downloaded into, merged from,
    finalized in, uploaded from and removed as directories directly under
    it, and the only bucket writes are uploads and deletion marks. *)
Definition in_workdir (subDir : string) (ev : Event) : Prop :=
  match ev with
  | EvMkdirAll p _ => p = subDir
  | EvPlan _ _ _ => True
  | EvDownload id dir _ => dir = blockDir subDir id
  | EvGatherIndexHealthStats index _ =>
      ∃ id, index = filepath_Join (blockDir subDir id) IndexFilename
  | EvCompact dest dirs _ _ =>
      dest = subDir ∧ ∀ d, d ∈ dirs → ∃ id, d = blockDir subDir id
  | EvInjectThanos bdir _ _ => ∃ id, bdir = blockDir subDir id
  | EvRemove p _ => ∃ id, p = filepath_Join (blockDir subDir id) "tombstones"
  | EvVerifyIndex index _ =>
      ∃ id, index = filepath_Join (blockDir subDir id) IndexFilename
  | EvUpload bdir _ => ∃ id, bdir = blockDir subDir id
  | EvRemoveAll p _ => ∃ id, p = blockDir subDir id
  | EvMarkForDeletion _ d _ => d = source_of_compacted_block
  | EvReadMarker _ _ => False
  | EvInc c => c = "garbage_collected_blocks"
  end.

(** The directories handed to the merger for a plan. *)
Definition dirsOf (subDir : string) (plan : list Meta) : list string :=
  map (λ m, blockDir subDir (meta_ULID m)) plan.

(** The events of a successful download and index check of one block. *)
Definition downloadEvents (subDir : string) (meta : Meta) : Trace :=
  [EvDownload (meta_ULID meta) (blockDir subDir (meta_ULID meta)) nil;
   EvGatherIndexHealthStats
     (filepath_Join (blockDir subDir (meta_ULID meta)) IndexFilename) nil].

(** What the download pool leaves for the plan [plan]: the events [dl]
    and the error [e] the pool returns. *)
Definition download_phase (w : World) (subDir : string) (plan : list Meta)
    (dl : Trace) (e : error) : Prop :=
  Forall (λ ev, is_download_event ev = true) dl ∧
  Forall (in_workdir subDir) dl ∧
  (∀ id dir e0, EvDownload id dir e0 ∈ dl → id ∈ meta_ULID <$> plan) ∧
  (e = nil → ∀ m ev, m ∈ plan → ev ∈ downloadEvents subDir m → ev ∈ dl) ∧
  (e ≠ nil →
     (∃ tr, e = ctx_Err w tr) ∨
     (∃ m tr, m ∈ plan ∧ e = (downloadAndCheck w subDir m tt tr).1.1)).

(** The stamp [InjectThanos] is given for an output of [job]. *)
Definition stamped_for (job : Job) (th : Thanos) : Prop :=
  thanos_Source th = CompactorSource ∧
  thanos_Resolution th = job_resolution job ∧
  (∀ k, k ≠ CompactorShardIDExternalLabel →
        thanos_Labels th !! k = job_labels job !! k) ∧
  (job_useSplitting job = false → thanos_Labels th = job_labels job).

(** What the upload pool leaves for the merge outputs [ids]. *)
Definition upload_phase (w : World) (job : Job) (subDir : string)
    (ids : list ULID) (ups : Trace) (e : error) : Prop :=
  Forall (λ ev, is_upload_event ev = true) ups ∧
  Forall (in_workdir subDir) ups ∧
  (∀ bdir th e0, EvInjectThanos bdir th e0 ∈ ups → stamped_for job th) ∧
  (∀ bdir e0, EvUpload bdir e0 ∈ ups →
     ∃ oid, oid ∈ ids ∧ oid ≠ zeroULID ∧ bdir = blockDir subDir oid) ∧
  (e = nil →
     Forall (λ ev, event_error ev = nil) ups ∧
     ∀ oid, oid ∈ ids → oid ≠ zeroULID → uploaded_ok subDir oid ups) ∧
  (e ≠ nil →
     (∃ tr, e = ctx_Err w tr) ∨
     (∃ j tr, j ∈ convertSliceOfUlidsToSliceOfInterfaces ids ∧
              e = (finalizeAndUpload w job subDir j tt tr).1.1)).

(** The events of retiring one block with success. *)
Definition retireEvents (subDir : string) (m : Meta) : Trace :=
  [EvRemoveAll (blockDir subDir (meta_ULID m)) nil;
   EvMarkForDeletion (meta_ULID m) source_of_compacted_block nil;
   EvInc "garbage_collected_blocks"].

(** The last loop of a job over the plan: the blocks are retired in plan
    order up to the first failure, which ends the loop with the failure
    passed through [retry]. *)
Inductive retire_phase (w : World) (subDir : string)
    : list Meta → Trace → error → Prop :=
  | rp_done : retire_phase w subDir [] [] nil
  | rp_local_failure m rest e :
      e ≠ nil →
      (∃ tr, e = os_RemoveAll w tr (blockDir subDir (meta_ULID m))) →
      retire_phase w subDir (m :: rest)
        [EvRemoveAll (blockDir subDir (meta_ULID m)) e]
        (retry (Wrap (Wrap e ("remove old block dir " +:+ ULID_String (meta_ULID m)))
                     "mark old block for deletion from bucket"))
  | rp_mark_failure m rest e :
      e ≠ nil →
      (∃ tr, e = block_MarkForDeletion w tr (meta_ULID m) source_of_compacted_block) →
      retire_phase w subDir (m :: rest)
        [EvRemoveAll (blockDir subDir (meta_ULID m)) nil;
         EvMarkForDeletion (meta_ULID m) source_of_compacted_block e]
        (retry (Wrap (Wrap e ("mark block " +:+ ULID_String (meta_ULID m)
                                +:+ " for deletion from bucket"))
                     "mark old block for deletion from bucket"))
  | rp_next m rest tr e :
      retire_phase w subDir rest tr e →
      retire_phase w subDir (m :: rest) (retireEvents subDir m ++ tr) e.

(** The runs of [runCompactionJob] up to its return, phase by phase. *)
Inductive job_detail (w : World) (job : Job) (subDir : string)
    : bool * list ULID * error → Trace → Prop :=
  | jd_mkdir_failed e :
      e ≠ nil → (∃ tr, e = os_MkdirAll w tr subDir) →
      job_detail w job subDir (false, [], Wrap e "create compaction job dir")
        [EvMkdirAll subDir e]
  | jd_plan_failed plan e :
      e ≠ nil →
      (∃ tr, e = (planner_Plan w tr (job_metasByMinTime job)).2) →
      job_detail w job subDir (false, [], Wrap e "plan compaction")
        [EvMkdirAll subDir nil; EvPlan (job_metasByMinTime job) plan e]
  | jd_nothing_to_do :
      job_detail w job subDir (false, [], nil)
        [EvMkdirAll subDir nil; EvPlan (job_metasByMinTime job) [] nil]
  | jd_download_failed plan dl e :
      plan ≠ [] → download_phase w subDir plan dl e → e ≠ nil →
      job_detail w job subDir (false, [], e)
        ([EvMkdirAll subDir nil; EvPlan (job_metasByMinTime job) plan nil] ++ dl)
  | jd_compact_failed plan dl ids e :
      plan ≠ [] → download_phase w subDir plan dl nil → e ≠ nil →
      job_detail w job subDir
        (false, [],
         halt (Wrap e ("compact blocks " +:+ fmt_strings (dirsOf subDir plan))))
        ([EvMkdirAll subDir nil; EvPlan (job_metasByMinTime job) plan nil] ++ dl
           ++ [EvCompact subDir (dirsOf subDir plan) ids e])
  | jd_empty_result plan dl ids dels :
      plan ≠ [] → download_phase w subDir plan dl nil →
      hasNonZeroULIDs ids = false →
      deleted_empty w subDir plan dels →
      job_detail w job subDir (true, [], nil)
        ([EvMkdirAll subDir nil; EvPlan (job_metasByMinTime job) plan nil] ++ dl
           ++ [EvCompact subDir (dirsOf subDir plan) ids nil] ++ dels)
  | jd_upload_failed plan dl ids ups e :
      plan ≠ [] → download_phase w subDir plan dl nil →
      hasNonZeroULIDs ids = true →
      upload_phase w job subDir ids ups e → e ≠ nil →
      job_detail w job subDir (false, [], e)
        ([EvMkdirAll subDir nil; EvPlan (job_metasByMinTime job) plan nil] ++ dl
           ++ [EvCompact subDir (dirsOf subDir plan) ids nil] ++ ups)
  | jd_retired plan dl ids ups rets e :
      plan ≠ [] → download_phase w subDir plan dl nil →
      hasNonZeroULIDs ids = true →
      upload_phase w job subDir ids ups nil →
      retire_phase w subDir plan rets e →
      job_detail w job subDir
        (if is_nil e then (true, ids, nil) else (false, [], e))
        ([EvMkdirAll subDir nil; EvPlan (job_metasByMinTime job) plan nil] ++ dl
           ++ [EvCompact subDir (dirsOf subDir plan) ids nil] ++ ups ++ rets).

(** ** Errors of the collaborators *)

(** An error that carries neither of the two block verdicts of the
    package (out-of-order chunks, issue 347). *)
Definition no_verdict (e : error) : Prop :=
  IsOutOfOrderChunkError e = false ∧ IsIssue347Error e = false.

(** The collaborators whose errors [runCompactionJob] passes on or wraps
    with a message do not return errors of the two verdict types, which
    are types of this package. *)
Definition no_forged_verdicts (w : World) : Prop :=
  ∀ tr,
    no_verdict (ctx_Err w tr) ∧
    (∀ p, no_verdict (os_MkdirAll w tr p) ∧ no_verdict (os_Remove w tr p)) ∧
    (∀ ms, no_verdict (planner_Plan w tr ms).2) ∧
    (∀ p a b,
       no_verdict (block_GatherIndexHealthStats w tr p a b).2 ∧
       no_verdict (PrometheusIssue5372Err (block_GatherIndexHealthStats w tr p a b).1)) ∧
    (∀ p th, no_verdict (metadata_InjectThanos w tr p th).2).

End RunShape.

Import RunShape.

(* ===================================================================== *)
(** * The time range of a plan *)
(* ===================================================================== *)

Module Times.

(** [int64] arithmetic wraps around. *)
Definition wrap64 (x : Z) : Z := ((x + 2 ^ 63) `mod` 2 ^ 64 - 2 ^ 63)%Z.

(** A [time.Time] is the instant it denotes, in nanoseconds since the Unix
    epoch; the values built here are the zero value [time.Time{}]
    (January 1 of year 1, UTC) and results of [.UTC()], for which equal
    instants are equal values. *)
Definition Time : Type := Z.

Definition zeroTime : Time := (-62135596800 * 1000000000)%Z.

(** [time.Millisecond], a [Duration] in nanoseconds. *)
Definition Millisecond : Z := 1000000%Z.

(** [time.Unix(sec, nsec)]. *)
Definition time_Unix (sec nsec : Z) : Time := (sec * 1000000000 + nsec)%Z.

(** The loop of [minTime], from the running minimum [minT]. *)
Fixpoint minTime_loop (metas : list Meta) (minT : Z) : Z :=
  match metas with
  | [] => minT
  | meta :: rest =>
      minTime_loop rest
        (if bool_decide (meta_MinTime meta < minT)%Z then meta_MinTime meta
         else minT)
  end.

Definition minTime (metas : list Meta) : Time :=
  match metas with
  | [] => zeroTime
  | m0 :: _ =>
      time_Unix 0 (wrap64 (minTime_loop metas (meta_MinTime m0) * Millisecond))
  end.

Fixpoint maxTime_loop (metas : list Meta) (maxT : Z) : Z :=
  match metas with
  | [] => maxT
  | meta :: rest =>
      maxTime_loop rest
        (if bool_decide (meta_MaxTime meta > maxT)%Z then meta_MaxTime meta
         else maxT)
  end.

Definition maxTime (metas : list Meta) : Time :=
  match metas with
  | [] => zeroTime
  | m0 :: _ =>
      time_Unix 0 (wrap64 (maxTime_loop metas (meta_MaxTime m0) * Millisecond))
  end.

(** The block times, in milliseconds, whose nanoseconds fit an [int64]. *)
Definition fits_nanos (ms : Z) : Prop :=
  (-9223372036854 ≤ ms ≤ 9223372036854)%Z.

End Times.

Import Times.

(* ===================================================================== *)
(** * The scheduler layer: syncing, repairing, and the work on one job *)
(* ===================================================================== *)

Module Scheduler.

(** The effects of this layer: an effect of the job layer, or a call of
    one of the collaborators that only this layer uses. *)
Inductive SEvent : Type :=
  | Inner (ev : Event)
  | EvFetch (err : error)
  | EvTempDir (pattern dir : string) (err : error)
  | EvReadFromDir (dir : string) (err : error)
  | EvRepair (dir : string) (id resid : ULID) (err : error)
  | EvMarkForNoCompact (id : ULID) (reason details : string) (err : error)
  | EvDeleteAll (dir : string) (ignoreDirs : list string) (err : error).

Abbreviation History := (list SEvent).

(** What [fetcher.Fetch] returns, and what its filters answer afterwards:
    the fetcher runs the deletion-mark and the deduplicate filter, which
    the [Syncer] consults in [GarbageCollect]. *)
Record FetchResult : Type := mkFetchResult {
  fetched_metas : gmap ULID Meta;
  fetched_partial : gmap ULID error;
  fetch_err : error;
  fetched_duplicateIDs : list ULID;
  fetched_deletionMarkMap : gmap ULID DeletionMark;
}.

(** The collaborators, each answering from the history so far.  [inner]
    gives the collaborators of the job layer as they behave after a
    history; [ownJob_now] is what the ownership function of the compactor
    answers at that point (the ring may change), [grouper_Groups] the
    [Grouper] of the compactor, [sortJobs] its ordering function,
    [job_IDs] the method [Job.IDs], whose code is in another file, and
    [fmt_error] the text [%v] prints for an error (its [Error] method). *)
Record Env : Type := mkEnv {
  inner : History → World;
  fetcher_Fetch : History → FetchResult;
  ioutil_TempDir : History → string → string * error;
  metadata_ReadFromDir : History → string → Meta * error;
  block_Repair : History → string → ULID → ULID * error;
  block_MarkForNoCompact : History → ULID → string → string → error;
  runutil_DeleteAll : History → string → list string → error;
  grouper_Groups : History → gmap ULID Meta → list Job * error;
  ownJob_now : History → Job → bool * error;
  sortJobs : list Job → list Job;
  job_IDs : Job → list ULID;
  fmt_error : error → string;
}.

(** ** Computations over a store and a history *)

Definition MS (S A : Type) : Type := S → History → A * S * History.

Definition retS {S A} (a : A) : MS S A := λ s h, (a, s, h).

Definition bindS {S A B} (c : MS S A) (k : A → MS S B) : MS S B :=
  λ s h, let '(a, s', h') := c s h in k a s' h'.

(** A call of a collaborator of this layer. *)
Definition callS {S A} (oracle : History → A) (ev : A → SEvent) : MS S A :=
  λ s h, let r := oracle h in (r, s, h ++ [ev r]).

(** A call of a collaborator of the job layer. *)
Definition callW {S A} (env : Env) (oracle : World → Trace → A)
    (ev : A → Event) : MS S A :=
  λ s h, let r := oracle (inner env h) [] in (r, s, h ++ [Inner (ev r)]).

Definition askS {S A} (oracle : History → A) : MS S A := λ s h, (oracle h, s, h).
Definition emitS {S} (ev : Event) : MS S unit := λ s h, (tt, s, h ++ [Inner ev]).
Definition getS {S} : MS S S := λ s h, (s, s, h).
Definition putS {S} (s' : S) : MS S unit := λ _ h, (tt, s', h).

(** A computation of the job layer, run from the current history: its
    collaborators are the inner ones after that history, and its events
    are appended. *)
Definition lift {S A} (env : Env) (c : World → M S A) : MS S A :=
  λ s h, let '(a, s', t') := c (inner env h) s [] in (a, s', h ++ (Inner <$> t')).

Declare Scope sched_scope.
Delimit Scope sched_scope with sched.
Notation "x <- c ;; k" := (bindS c (λ x, k))
  (at level 20, c at level 99, k at level 200, only parsing) : sched_scope.
Notation "' p <- c ;; k" := (bindS c (λ x, let 'p := x in k))
  (at level 20, p pattern, c at level 99, k at level 200, only parsing) : sched_scope.
Notation "c ;;; k" := (bindS c (λ _, k))
  (at level 100, k at level 200, right associativity, only parsing) : sched_scope.

Local Open Scope sched_scope.

(** ** [Syncer.SyncMetas] *)

Definition SyncMetas (env : Env) : MS Syncer error :=
  r <- callS (fetcher_Fetch env) (λ r, EvFetch (fetch_err r)) ;;
  s <- getS ;;
  if negb (is_nil (fetch_err r)) then
    putS (mkSyncer (blocks s) (partial s)
                   (fetched_duplicateIDs r) (fetched_deletionMarkMap r)) ;;;
    retS (retry (fetch_err r))
  else
    putS (mkSyncer (fetched_metas r) (fetched_partial r)
                   (fetched_duplicateIDs r) (fetched_deletionMarkMap r)) ;;;
    retS nil.

(** ** [RepairIssue347] *)

Definition not_an_issue347_error (env : Env) (issue347Err : error) : error :=
  leafError 103 ("Given error is not an issue347 error: "
                   +:+ fmt_error env issue347Err).

Definition NoneFunc : string := "".
Definition source_of_repaired_block : string := "source of repaired block".

(** [RepairIssue347] between the creation of the temporary directory and
    its deferred removal. *)
Definition repairIn {S} (env : Env) (tmpdir : string) (id : ULID) : MS S error :=
  let bdir := filepath_Join tmpdir (ULID_String id) in
  err <- callW env (λ w t, block_Download w t id bdir) (EvDownload id bdir) ;;
  if negb (is_nil err) then
    retS (retry (Wrap err ("download block " +:+ ULID_String id)))
  else
    '(meta, err) <- callS (λ h, metadata_ReadFromDir env h bdir)
                          (λ r, EvReadFromDir bdir r.2) ;;
    if negb (is_nil err) then retS (Wrap err ("read meta from " +:+ bdir))
    else
      '(resid, err) <- callS (λ h, block_Repair env h tmpdir id)
                             (λ r, EvRepair tmpdir id r.1 r.2) ;;
      if negb (is_nil err) then
        retS (Wrap err ("repair failed for block " +:+ ULID_String id))
      else
        let rdir := filepath_Join tmpdir (ULID_String resid) in
        let index := filepath_Join rdir IndexFilename in
        err <- callW env (λ w t, block_VerifyIndex w t index (meta_MinTime meta)
                                                   (meta_MaxTime meta))
                     (EvVerifyIndex index) ;;
        if negb (is_nil err) then
          retS (Wrap err ("repaired block is invalid " +:+ ULID_String resid))
        else
          err <- callW env (λ w t, block_Upload w t rdir NoneFunc) (EvUpload rdir) ;;
          if negb (is_nil err) then
            retS (retry (Wrap err ("upload of " +:+ ULID_String resid +:+ " failed")))
          else
            err <- callW env (λ w t, block_MarkForDeletion w t id
                                       source_of_repaired_block)
                         (EvMarkForDeletion id source_of_repaired_block) ;;
            if negb (is_nil err) then
              retS (Wrap err ("marking old block " +:+ ULID_String id
                                +:+ " for deletion has failed"))
            else retS nil.

Definition RepairIssue347 {S} (env : Env) (issue347Err : error) : MS S error :=
  match Cause issue347Err with
  | Issue347Error _ id =>
      let pattern := "repair-issue-347-id-" +:+ ULID_String id +:+ "-" in
      '(tmpdir, err) <- callS (λ h, ioutil_TempDir env h pattern)
                              (λ r, EvTempDir pattern r.1 r.2) ;;
      if negb (is_nil err) then retS err
      else
        rerr <- repairIn env tmpdir id ;;
        callW env (λ w t, os_RemoveAll w t tmpdir) (EvRemoveAll tmpdir) ;;;
        retS rerr
  | _ => retS (not_an_issue347_error env issue347Err)
  end.

(** ** The work of a worker of [Compact] on one job *)

(** What [Compact] itself keeps between its steps: the syncer and the flag
    of the current iteration. *)
Record CompactState : Type := mkCompactState {
  sy : Syncer;
  finishedAllJobs : bool;
}.

(** How the body of the worker's loop ends for a job: the worker goes on
    to the next job, or it sends an error to the error channel and
    returns, or the type assertion on the error panics. *)
Inductive WorkerStep : Type :=
  | Continue
  | Exit (err : error)
  | Panic.

(** The compactor with its ownership function as it answers now. *)
Definition compactor_now (env : Env) (c : BucketCompactor) (h : History)
    : BucketCompactor :=
  mkBucketCompactor (compactDir c) (concurrency c)
                    (skipBlocksWithOutOfOrderChunks c) (ownJob_now env h).

Definition set_unfinished : MS CompactState unit :=
  st <- getS ;; putS (mkCompactState (sy st) false).

Definition OutOfOrderChunksNoCompactReason : string :=
  "block-index-out-of-order-chunk".
Definition out_of_order_details : string :=
  "OutofOrderChunk: marking block with out-of-order series/chunks to as no compact to unblock compaction".

Definition workOnJob (env : Env) (c : BucketCompactor) (g : Job)
    : MS CompactState WorkerStep :=
  '(ok, err) <- askS (λ h, ownJob_now env h g) ;;
  if negb (is_nil err) then retS Continue
  else if negb ok then retS Continue
  else
    emitS (EvInc "group_compaction_runs_started") ;;;
    '(shouldRerunJob, compactedBlockIDs, err) <-
       lift env (λ w, runCompactionJob w c g) ;;
    if is_nil err then
      emitS (EvInc "group_compaction_runs_completed") ;;;
      (if hasNonZeroULIDs compactedBlockIDs then emitS (EvInc "group_compactions")
       else retS tt) ;;;
      (if shouldRerunJob : bool then set_unfinished else retS tt) ;;;
      retS Continue
    else
      emitS (EvInc "group_compaction_runs_failed") ;;;
      repaired <- (if IsIssue347Error err then
                     rerr <- RepairIssue347 env err ;; retS (is_nil rerr)
                   else retS false) ;;
      if repaired : bool then set_unfinished ;;; retS Continue
      else if IsOutOfOrderChunkError err && skipBlocksWithOutOfOrderChunks c then
        match err with
        | OutOfOrderChunksError _ id =>
            merr <- callS (λ h, block_MarkForNoCompact env h id
                                  OutOfOrderChunksNoCompactReason out_of_order_details)
                          (EvMarkForNoCompact id OutOfOrderChunksNoCompactReason
                                              out_of_order_details) ;;
            if is_nil merr then set_unfinished ;;; retS Continue
            else retS (Exit (Wrap err ("group " +:+ job_key g)))
        | _ => retS Panic
        end
      else retS (Exit (Wrap err ("group " +:+ job_key g))).

(** ** The start of an iteration of [Compact] *)

(** A computation on the syncer, run on the syncer of the compactor. *)
Definition on_sy {A} (c : MS Syncer A) : MS CompactState A :=
  λ st h, let '(a, sy', h') := c (sy st) h in
          (a, mkCompactState sy' (finishedAllJobs st), h').

(** The directories [DeleteAll] is told to keep: one per block of a job. *)
Definition ignoreDirsOf (env : Env) (jobs : list Job) : list string :=
  flat_map (λ gr, map (λ grID, filepath_Join (job_key gr) (ULID_String grID))
                      (job_IDs env gr)) jobs.

(** An iteration of [Compact] from the sync of the metas to the cleaning of
    the work directory: the jobs to hand to the workers, or the error
    [Compact] returns. *)
Definition planIteration (env : Env) (c : BucketCompactor)
    : MS CompactState (list Job * error) :=
  err <- on_sy (SyncMetas env) ;;
  if negb (is_nil err) then retS ([], Wrap err "sync")
  else
    err <- on_sy (lift env GarbageCollect) ;;
    if negb (is_nil err) then retS ([], Wrap err "garbage")
    else
      st <- getS ;;
      '(jobs, err) <- askS (λ h, grouper_Groups env h (Metas (sy st))) ;;
      if negb (is_nil err) then retS ([], Wrap err "build compaction jobs")
      else
        '(jobs, err) <- askS (λ h, filterOwnJobs (compactor_now env c h) jobs) ;;
        if negb (is_nil err) then retS ([], err)
        else
          let jobs := sortJobs env jobs in
          callS (λ h, runutil_DeleteAll env h (compactDir c) (ignoreDirsOf env jobs))
                (EvDeleteAll (compactDir c) (ignoreDirsOf env jobs)) ;;;
          retS (jobs, nil).

End Scheduler.

Import Scheduler.

(* ===================================================================== *)
(** * The vocabulary of the scheduler layer *)
(* ===================================================================== *)

Module SchedulerProperties.

(** The events of a repair up to the upload of the repaired block, all
    successful. *)
Definition repairedEvents (tmpdir : string) (id resid : ULID) : History :=
  [Inner (EvDownload id (filepath_Join tmpdir (ULID_String id)) nil);
   EvReadFromDir (filepath_Join tmpdir (ULID_String id)) nil;
   EvRepair tmpdir id resid nil;
   Inner (EvVerifyIndex
            (filepath_Join (filepath_Join tmpdir (ULID_String resid)) IndexFilename)
            nil);
   Inner (EvUpload (filepath_Join tmpdir (ULID_String resid)) nil)].

(** The ways [RepairIssue347] goes for the block [id] inside the temporary
    directory [tmpdir]: the error it returns and the events it leaves.
    Each step is taken only when all the steps before it succeeded; the
    last one writes the deletion mark of the broken block. *)
Inductive repair_body (tmpdir : string) (id : ULID) : error → History → Prop :=
  | rb_download_failed e :
      e ≠ nil →
      repair_body tmpdir id
        (retry (Wrap e ("download block " +:+ ULID_String id)))
        [Inner (EvDownload id (filepath_Join tmpdir (ULID_String id)) e)]
  | rb_read_failed e :
      e ≠ nil →
      repair_body tmpdir id
        (Wrap e ("read meta from " +:+ filepath_Join tmpdir (ULID_String id)))
        [Inner (EvDownload id (filepath_Join tmpdir (ULID_String id)) nil);
         EvReadFromDir (filepath_Join tmpdir (ULID_String id)) e]
  | rb_repair_failed resid e :
      e ≠ nil →
      repair_body tmpdir id
        (Wrap e ("repair failed for block " +:+ ULID_String id))
        [Inner (EvDownload id (filepath_Join tmpdir (ULID_String id)) nil);
         EvReadFromDir (filepath_Join tmpdir (ULID_String id)) nil;
         EvRepair tmpdir id resid e]
  | rb_verify_failed resid e :
      e ≠ nil →
      repair_body tmpdir id
        (Wrap e ("repaired block is invalid " +:+ ULID_String resid))
        [Inner (EvDownload id (filepath_Join tmpdir (ULID_String id)) nil);
         EvReadFromDir (filepath_Join tmpdir (ULID_String id)) nil;
         EvRepair tmpdir id resid nil;
         Inner (EvVerifyIndex
                  (filepath_Join (filepath_Join tmpdir (ULID_String resid))
                                 IndexFilename) e)]
  | rb_upload_failed resid e :
      e ≠ nil →
      repair_body tmpdir id
        (retry (Wrap e ("upload of " +:+ ULID_String resid +:+ " failed")))
        [Inner (EvDownload id (filepath_Join tmpdir (ULID_String id)) nil);
         EvReadFromDir (filepath_Join tmpdir (ULID_String id)) nil;
         EvRepair tmpdir id resid nil;
         Inner (EvVerifyIndex
                  (filepath_Join (filepath_Join tmpdir (ULID_String resid))
                                 IndexFilename) nil);
         Inner (EvUpload (filepath_Join tmpdir (ULID_String resid)) e)]
  | rb_marked resid e :
      repair_body tmpdir id
        (Wrap e ("marking old block " +:+ ULID_String id
                   +:+ " for deletion has failed"))
        (repairedEvents tmpdir id resid
           ++ [Inner (EvMarkForDeletion id source_of_repaired_block e)]).

(** A deletion mark among the events of a history. *)
Definition is_mark (ev : SEvent) : bool :=
  match ev with
  | Inner (EvMarkForDeletion _ _ _) => true
  | _ => false
  end.

(** How often a history increments a counter. *)
Definition countIncS (counter : string) (h : History) : nat :=
  countInc counter (omap (λ ev, match ev with Inner e => Some e | _ => None end) h).

Definition unfinished (st : CompactState) : CompactState :=
  mkCompactState (sy st) false.

Definition started : SEvent := Inner (EvInc "group_compaction_runs_started").
Definition completed : SEvent := Inner (EvInc "group_compaction_runs_completed").
Definition failed : SEvent := Inner (EvInc "group_compaction_runs_failed").
Definition compacted : SEvent := Inner (EvInc "group_compactions").

(** The repair attempt of a worker on the error [jerr] of a job, from the
    history [h0] to the history [hr]: none when the error carries no
    issue-347 verdict, else a call of [RepairIssue347], with its result
    [rerr]. *)
Definition repair_attempt (env : Env) (jerr : error) (st : CompactState)
    (h0 : History) (rerr : error) (hr : History) : Prop :=
  (IsIssue347Error jerr = false ∧ rerr ≠ nil ∧ hr = h0) ∨
  (IsIssue347Error jerr = true ∧ RepairIssue347 env jerr st h0 = (rerr, st, hr)).

(** The ways the work of a worker on the job [g] goes, from the state [st]
    and the history [h]. *)
Inductive handled (env : Env) (c : BucketCompactor) (g : Job)
    (st : CompactState) (h : History)
    : WorkerStep → CompactState → History → Prop :=
  | hd_skipped :
      (ownJob_now env h g).2 ≠ nil ∨ (ownJob_now env h g).1 = false →
      handled env c g st h Continue st h
  | hd_completed rerun ids t' :
      ownJob_now env h g = (true, nil) →
      runCompactionJob (inner env (h ++ [started])) c g st []
        = ((rerun, ids, nil), st, t') →
      handled env c g st h Continue
        (if rerun then unfinished st else st)
        (h ++ [started] ++ (Inner <$> t') ++ [completed]
           ++ (if hasNonZeroULIDs ids then [compacted] else []))
  | hd_repaired r t' hr :
      ownJob_now env h g = (true, nil) →
      runCompactionJob (inner env (h ++ [started])) c g st [] = (r, st, t') →
      r.2 ≠ nil →
      repair_attempt env r.2 st (h ++ [started] ++ (Inner <$> t') ++ [failed])
                     nil hr →
      handled env c g st h Continue (unfinished st) hr
  | hd_marked_no_compact r t' rerr hr x id :
      ownJob_now env h g = (true, nil) →
      runCompactionJob (inner env (h ++ [started])) c g st [] = (r, st, t') →
      r.2 = OutOfOrderChunksError x id →
      skipBlocksWithOutOfOrderChunks c = true →
      repair_attempt env r.2 st (h ++ [started] ++ (Inner <$> t') ++ [failed])
                     rerr hr →
      rerr ≠ nil →
      block_MarkForNoCompact env hr id OutOfOrderChunksNoCompactReason
                             out_of_order_details = nil →
      handled env c g st h Continue (unfinished st)
        (hr ++ [EvMarkForNoCompact id OutOfOrderChunksNoCompactReason
                                   out_of_order_details nil])
  | hd_exit r t' rerr hr tail :
      ownJob_now env h g = (true, nil) →
      runCompactionJob (inner env (h ++ [started])) c g st [] = (r, st, t') →
      r.2 ≠ nil →
      repair_attempt env r.2 st (h ++ [started] ++ (Inner <$> t') ++ [failed])
                     rerr hr →
      rerr ≠ nil →
      (tail = [] ∧
       IsOutOfOrderChunkError r.2 && skipBlocksWithOutOfOrderChunks c = false) ∨
      (∃ x id merr,
         r.2 = OutOfOrderChunksError x id ∧
         skipBlocksWithOutOfOrderChunks c = true ∧
         merr = block_MarkForNoCompact env hr id OutOfOrderChunksNoCompactReason
                                       out_of_order_details ∧
         merr ≠ nil ∧
         tail = [EvMarkForNoCompact id OutOfOrderChunksNoCompactReason
                                    out_of_order_details merr]) →
      handled env c g st h (Exit (Wrap r.2 ("group " +:+ job_key g))) st
        (hr ++ tail)
  | hd_panic r t' rerr hr :
      ownJob_now env h g = (true, nil) →
      runCompactionJob (inner env (h ++ [started])) c g st [] = (r, st, t') →
      r.2 ≠ nil →
      repair_attempt env r.2 st (h ++ [started] ++ (Inner <$> t') ++ [failed])
                     rerr hr →
      rerr ≠ nil →
      IsOutOfOrderChunkError r.2 = true →
      skipBlocksWithOutOfOrderChunks c = true →
      (∀ x id, r.2 ≠ OutOfOrderChunksError x id) →
      handled env c g st h Panic st hr.

(** The events of a repair stay inside its temporary directory: the
    broken block is downloaded to, read from and repaired in a directory
    directly under it, and the repaired block is verified in and uploaded
    from another one. *)
Definition in_tmpdir (tmpdir : string) (ev : SEvent) : Prop :=
  match ev with
  | Inner (EvDownload _ dir _) => ∃ name, dir = filepath_Join tmpdir name
  | EvReadFromDir dir _ => ∃ name, dir = filepath_Join tmpdir name
  | EvRepair dir _ _ _ => dir = tmpdir
  | Inner (EvVerifyIndex index _) =>
      ∃ name, index = filepath_Join (filepath_Join tmpdir name) IndexFilename
  | Inner (EvUpload dir _) => ∃ name, dir = filepath_Join tmpdir name
  | Inner (EvMarkForDeletion _ d _) => d = source_of_repaired_block
  | _ => False
  end.

(** The snapshot a successful fetch leaves to the garbage collection. *)
Definition fetched (r : FetchResult) : Syncer :=
  mkSyncer (fetched_metas r) (fetched_partial r)
           (fetched_duplicateIDs r) (fetched_deletionMarkMap r).

(** The ways the start of an iteration goes: what it returns, the syncer
    it leaves and the events it adds to the history [h]. *)
Inductive iteration_start (env : Env) (c : BucketCompactor) (sy0 : Syncer)
    (h : History) : list Job * error → Syncer → History → Prop :=
  | it_sync_failed :
      fetch_err (fetcher_Fetch env h) ≠ nil →
      iteration_start env c sy0 h
        ([], Wrap (retry (fetch_err (fetcher_Fetch env h))) "sync")
        (mkSyncer (blocks sy0) (partial sy0)
                  (fetched_duplicateIDs (fetcher_Fetch env h))
                  (fetched_deletionMarkMap (fetcher_Fetch env h)))
        [EvFetch (fetch_err (fetcher_Fetch env h))]
  | it_garbage_failed gerr sy2 t2 :
      fetch_err (fetcher_Fetch env h) = nil →
      GarbageCollect (inner env (h ++ [EvFetch nil]))
                     (fetched (fetcher_Fetch env h)) [] = (gerr, sy2, t2) →
      gerr ≠ nil →
      iteration_start env c sy0 h ([], Wrap gerr "garbage") sy2
        ([EvFetch nil] ++ (Inner <$> t2))
  | it_groups_failed sy2 t2 gjobs grerr :
      fetch_err (fetcher_Fetch env h) = nil →
      GarbageCollect (inner env (h ++ [EvFetch nil]))
                     (fetched (fetcher_Fetch env h)) [] = (nil, sy2, t2) →
      grouper_Groups env (h ++ [EvFetch nil] ++ (Inner <$> t2)) (Metas sy2)
        = (gjobs, grerr) →
      grerr ≠ nil →
      iteration_start env c sy0 h ([], Wrap grerr "build compaction jobs") sy2
        ([EvFetch nil] ++ (Inner <$> t2))
  | it_own_failed sy2 t2 gjobs job :
      fetch_err (fetcher_Fetch env h) = nil →
      GarbageCollect (inner env (h ++ [EvFetch nil]))
                     (fetched (fetcher_Fetch env h)) [] = (nil, sy2, t2) →
      grouper_Groups env (h ++ [EvFetch nil] ++ (Inner <$> t2)) (Metas sy2)
        = (gjobs, nil) →
      job ∈ gjobs →
      (ownJob_now env (h ++ [EvFetch nil] ++ (Inner <$> t2)) job).2 ≠ nil →
      iteration_start env c sy0 h
        ([], Wrap (ownJob_now env (h ++ [EvFetch nil] ++ (Inner <$> t2)) job).2
                  "ownJob")
        sy2 ([EvFetch nil] ++ (Inner <$> t2))
  | it_planned sy2 t2 gjobs derr :
      fetch_err (fetcher_Fetch env h) = nil →
      GarbageCollect (inner env (h ++ [EvFetch nil]))
                     (fetched (fetcher_Fetch env h)) [] = (nil, sy2, t2) →
      grouper_Groups env (h ++ [EvFetch nil] ++ (Inner <$> t2)) (Metas sy2)
        = (gjobs, nil) →
      (∀ job, job ∈ gjobs →
         (ownJob_now env (h ++ [EvFetch nil] ++ (Inner <$> t2)) job).2 = nil) →
      iteration_start env c sy0 h
        (sortJobs env
           (filter (λ job, (ownJob_now env (h ++ [EvFetch nil] ++ (Inner <$> t2))
                                       job).1 = true) gjobs), nil)
        sy2
        ([EvFetch nil] ++ (Inner <$> t2)
           ++ [EvDeleteAll (compactDir c)
                 (ignoreDirsOf env
                    (sortJobs env
                       (filter (λ job, (ownJob_now env
                                          (h ++ [EvFetch nil] ++ (Inner <$> t2))
                                          job).1 = true) gjobs)))
                 derr]).

End SchedulerProperties.

Import SchedulerProperties.

(* ===================================================================== *)
(** * Scenarios of the scheduler layer *)
(* ===================================================================== *)

Module SchedulerScenarios.

Definition with_GatherIndexHealthStats
    (f : Trace → string → Z → Z → HealthStats * error) (w : World) : World :=
  mkWorld (ctx_Err w) (os_MkdirAll w) (os_Remove w) (os_RemoveAll w)
    (planner_Plan w) (block_Download w) f (block_VerifyIndex w)
    (block_Upload w) (block_MarkForDeletion w) (comp_Compact w)
    (comp_CompactWithSplitting w) (metadata_InjectThanos w)
    (metadata_ReadMarker w) (pool_order w) (pool_raced w) (range_order w).

(** The merger fails. *)
Definition merge_fails : World :=
  with_Compact (λ _ _ _, (zeroULID, disk_error)) quiet.

Definition chunks_out_of_order : error :=
  leafError 23 "1/2 series have an average of 1.000 out-of-order chunks".
Definition chunk_outside_range : error :=
  leafError 24 "found 1 chunks outside the block time range introduced by issue 347".

(** The index of block 2 has out-of-order chunks. *)
Definition block2_out_of_order : World :=
  with_GatherIndexHealthStats
    (λ _ index _ _,
       if String.eqb index "/data/compact/0@1/2/index"
       then (mkHealthStats nil chunks_out_of_order nil nil, nil)
       else (mkHealthStats nil nil nil nil, nil))
    quiet.

(** The index of block 2 has chunks outside of the range of the block. *)
Definition block2_issue347 : World :=
  with_GatherIndexHealthStats
    (λ _ index _ _,
       if String.eqb index "/data/compact/0@1/2/index"
       then (mkHealthStats nil nil chunk_outside_range nil, nil)
       else (mkHealthStats nil nil nil nil, nil))
    quiet.

(** A compactor that marks blocks with out-of-order chunks. *)
Definition compactor_skipping : BucketCompactor :=
  mkBucketCompactor "/data/compact" 1 true ownAllJobs.

(** A snapshot of two duplicates that both carry a deletion mark. *)
Definition both_marked : Syncer :=
  mkSyncer {[ 1%N := block1; 2%N := block2 ]} ∅ [1%N; 2%N]
           {[ 1%N := mkDeletionMark 1 1700000000 "outdated block";
              2%N := mkDeletionMark 2 1700000000 "outdated block" ]}.

(** The fetcher finds the four blocks and reports block 6 as a duplicate;
    or it fails. *)
Definition fetch_four : FetchResult :=
  mkFetchResult four_blocks ∅ nil [6%N] ∅.
Definition fetch_fails : FetchResult :=
  mkFetchResult ∅ ∅ bucket_timeout [] ∅.

(** An environment whose job layer is [w] and whose fetcher answers [fr]
    whatever has happened; every other collaborator succeeds, the
    instance owns every job, and jobs are run in the order of the grouper. *)
Definition env_of (w : World) (fr : FetchResult) : Env := {|
  inner := λ _, w;
  fetcher_Fetch := λ _, fr;
  ioutil_TempDir := λ _ pattern, ("/tmp/" +:+ pattern +:+ "42", nil);
  metadata_ReadFromDir := λ _ _, (block2, nil);
  block_Repair := λ _ _ _, (8%N, nil);
  block_MarkForNoCompact := λ _ _ _ _, nil;
  runutil_DeleteAll := λ _ _ _, nil;
  grouper_Groups := λ _ metas, Groups toy_hash grouper0 [] metas;
  ownJob_now := λ _ _, (true, nil);
  sortJobs := λ jobs, jobs;
  job_IDs := λ job, meta_ULID <$> job_metasByMinTime job;
  fmt_error := λ _, "";
|}.

Definition state0 : CompactState := mkCompactState two_duplicates true.

(** Block 2 as the job layer reports it broken by issue 347. *)
Definition block2_broken : error :=
  Wrap (issue347Error chunk_outside_range 2) "group 0@1".

End SchedulerScenarios.

Import SchedulerScenarios.

(* ===================================================================== *)
(** * Facts about errors *)
(* ===================================================================== *)

Set Warnings "-clear-no-such-hyp".

Section ErrorFacts.

Lemma is_HaltError_spec e : is_HaltError (Cause e) = true ↔ cause_is_Halt e.
Proof.
  unfold cause_is_Halt. destruct (Cause e); simpl; split;
    try discriminate; try (intros [? ?]; discriminate); eauto.
Qed.

Lemma is_RetryError_spec e : is_RetryError (Cause e) = true ↔ cause_is_Retry e.
Proof.
  unfold cause_is_Retry. destruct (Cause e); simpl; split;
    try discriminate; try (intros [? ?]; discriminate); eauto.
Qed.

Lemma Cause_idem e : Cause (Cause e) = Cause e.
Proof. induction e; simpl; auto. Qed.

Lemma Cause_Wrap e msg : Cause (Wrap e msg) = Cause e.
Proof. destruct e; reflexivity. Qed.

Lemma Cause_not_withMessage e c msg : Cause e ≠ withMessage c msg.
Proof. induction e; simpl; try discriminate; auto. Qed.

Lemma Wrap_nil_iff e msg : Wrap e msg = nil ↔ e = nil.
Proof. destruct e; simpl; split; congruence. Qed.

Lemma anyHalt_spec es :
  anyHalt es = true ↔ ∃ c, c ∈ es ∧ cause_is_Halt c.
Proof.
  induction es as [|e es IH]; simpl.
  - split; [discriminate | intros (c & Hc & _); inversion Hc].
  - destruct (is_HaltError (Cause e)) eqn:He.
    + split; [intros _ | done].
      exists e. split; [left | by apply is_HaltError_spec].
    + rewrite IH. split.
      * intros (c & Hc & Hh). exists c. split; [by right | done].
      * intros (c & Hc & Hh). apply elem_of_cons in Hc as [-> | Hc].
        -- apply is_HaltError_spec in Hh. congruence.
        -- eauto.
Qed.

Lemma allRetry_spec es :
  allRetry es = true ↔ ∀ c, c ∈ es → cause_is_Retry c.
Proof.
  induction es as [|e es IH]; simpl.
  - split; [intros _ c Hc; inversion Hc | done].
  - destruct (is_RetryError (Cause e)) eqn:He.
    + rewrite IH. split.
      * intros H c Hc. apply elem_of_cons in Hc as [-> | Hc]; [|by auto].
        by apply is_RetryError_spec.
      * intros H c Hc. apply H. by right.
    + split; [discriminate |].
      intros H. assert (cause_is_Retry e) as Hr by (apply H; left).
      apply is_RetryError_spec in Hr. congruence.
Qed.

Lemma IsHaltError_multi e es :
  Cause e = NonNilMultiError es → IsHaltError e = anyHalt es.
Proof. unfold IsHaltError. by intros ->. Qed.

Lemma IsRetryError_multi e es :
  Cause e = NonNilMultiError es → IsRetryError e = allRetry es.
Proof. unfold IsRetryError. by intros ->. Qed.

Lemma IsHaltError_plain e :
  ¬ cause_is_Multi e → IsHaltError e = is_HaltError (Cause e).
Proof.
  unfold IsHaltError, cause_is_Multi. intros H.
  destruct (Cause e); try reflexivity. exfalso. eauto.
Qed.

Lemma IsRetryError_plain e :
  ¬ cause_is_Multi e → IsRetryError e = is_RetryError (Cause e).
Proof.
  unfold IsRetryError, cause_is_Multi. intros H.
  destruct (Cause e); try reflexivity. exfalso. eauto.
Qed.

Lemma IsHaltError_Cause e : IsHaltError (Cause e) = IsHaltError e.
Proof. unfold IsHaltError. by rewrite Cause_idem. Qed.

Lemma IsRetryError_Cause e : IsRetryError (Cause e) = IsRetryError e.
Proof. unfold IsRetryError. by rewrite Cause_idem. Qed.

Lemma IsHaltError_Wrap e msg : IsHaltError (Wrap e msg) = IsHaltError e.
Proof. unfold IsHaltError. by rewrite Cause_Wrap. Qed.

Lemma IsRetryError_Wrap e msg : IsRetryError (Wrap e msg) = IsRetryError e.
Proof. unfold IsRetryError. by rewrite Cause_Wrap. Qed.

(** A Halt-classified error is never Retry-classified. *)
Lemma IsHaltError_not_Retry e : IsHaltError e = true → IsRetryError e = false.
Proof.
  unfold IsHaltError, IsRetryError.
  destruct (Cause e) as [| | | | | | |es]; simpl; try discriminate; try reflexivity.
  induction es as [|c es IH]; simpl; [discriminate|].
  destruct (is_HaltError (Cause c)) eqn:Hh.
  - intros _. destruct (Cause c); simpl in *; try discriminate; reflexivity.
  - intros H. destruct (is_RetryError (Cause c)); auto.
Qed.

Lemma retry_of_halt e : IsHaltError e = true → retry e = e.
Proof. unfold retry. by intros ->. Qed.

Lemma retry_of_non_halt e : IsHaltError e = false → retry e = RetryError e.
Proof. unfold retry. by intros ->. Qed.

Lemma IsRetryError_retry e : IsHaltError e = false → IsRetryError (retry e) = true.
Proof. intros H. by rewrite retry_of_non_halt. Qed.

Lemma IsHaltError_retry e : IsHaltError (retry e) = IsHaltError e.
Proof.
  unfold retry. destruct (IsHaltError e) eqn:H; [done|]. reflexivity.
Qed.

Lemma retry_not_nil e : e ≠ nil → retry e ≠ nil.
Proof. unfold retry. destruct (IsHaltError e); congruence. Qed.

End ErrorFacts.

Lemma is_nil_true e : is_nil e = true ↔ e = nil.
Proof. destruct e; simpl; split; congruence. Qed.

Lemma is_nil_false e : is_nil e = false ↔ e ≠ nil.
Proof. destruct e; simpl; split; congruence. Qed.

Lemma cause_Halt_IsHaltError e : cause_is_Halt e → IsHaltError e = true.
Proof. intros [x Hx]. unfold IsHaltError. by rewrite Hx. Qed.

(** C3: for a multi-error aggregate [e] (bare or wrapped) with children
    [es], [IsHaltError e] holds iff the cause of at least one child is a
    [HaltError] and [IsRetryError e] holds iff the cause of every child is a
    [RetryError]; a multi-error of one Retry and one Halt child is Halt and
    not Retry; for an error whose cause is not a multi-error each predicate
    holds iff the cause has the corresponding type. *)
Theorem multi_error_classification (e : error) :
  (∀ es, Cause e = NonNilMultiError es → es ≠ [] →
     (IsHaltError e = true ↔ ∃ c, c ∈ es ∧ cause_is_Halt c) ∧
     (IsRetryError e = true ↔ ∀ c, c ∈ es → cause_is_Retry c)) ∧
  (∀ r h, Cause e = NonNilMultiError [r; h] →
     cause_is_Retry r → cause_is_Halt h →
     IsHaltError e = true ∧ IsRetryError e = false) ∧
  (¬ cause_is_Multi e →
     (IsHaltError e = true ↔ cause_is_Halt e) ∧
     (IsRetryError e = true ↔ cause_is_Retry e)).
Proof.
  split; [|split].
  - intros es Hes _.
    rewrite (IsHaltError_multi e es Hes), (IsRetryError_multi e es Hes).
    split; [apply anyHalt_spec | apply allRetry_spec].
  - intros r h Hes Hr Hh.
    assert (IsHaltError e = true) as Hhalt.
    { rewrite (IsHaltError_multi e _ Hes). apply anyHalt_spec.
      exists h. split; [set_solver | done]. }
    split; [done | by apply IsHaltError_not_Retry].
  - intros Hplain.
    rewrite (IsHaltError_plain e Hplain), (IsRetryError_plain e Hplain).
    split; [apply is_HaltError_spec | apply is_RetryError_spec].
Qed.

Lemma multi_error_classification_witness :
  IsHaltError (Wrap (NonNilMultiError
     [retry (leafError 7 "bucket timeout"); halt (leafError 8 "bad index")])
     "group 0@17") = true ∧
  IsRetryError (Wrap (NonNilMultiError
     [retry (leafError 7 "bucket timeout"); halt (leafError 8 "bad index")])
     "group 0@17") = false.
Proof.
  destruct (multi_error_classification
              (Wrap (NonNilMultiError
                 [retry (leafError 7 "bucket timeout"); halt (leafError 8 "bad index")])
                 "group 0@17")) as (_ & H & _).
  apply (H (retry (leafError 7 "bucket timeout")) (halt (leafError 8 "bad index"))).
  - reflexivity.
  - exists (leafError 7 "bucket timeout"). reflexivity.
  - exists (leafError 8 "bad index"). reflexivity.
Defined.

(** C6: when the cause of [e] is a [HaltError], [retry e] is [e] itself,
    so the result is still Halt-classified and not Retry-classified. *)
Theorem retry_keeps_halt (e : error) :
  cause_is_Halt e →
  retry e = e ∧ IsHaltError (retry e) = true ∧ IsRetryError (retry e) = false.
Proof.
  intros Hh. pose proof (cause_Halt_IsHaltError e Hh) as H.
  rewrite (retry_of_halt e H). auto using IsHaltError_not_Retry.
Qed.

Lemma retry_keeps_halt_witness :
  retry (Wrap (halt (leafError 9 "invalid result block")) "group 0@17")
    = Wrap (halt (leafError 9 "invalid result block")) "group 0@17" ∧
  IsHaltError (retry (Wrap (halt (leafError 9 "invalid result block")) "group 0@17"))
    = true ∧
  IsRetryError (retry (Wrap (halt (leafError 9 "invalid result block")) "group 0@17"))
    = false.
Proof.
  apply (retry_keeps_halt
           (Wrap (halt (leafError 9 "invalid result block")) "group 0@17")).
  exists (leafError 9 "invalid result block"). reflexivity.
Defined.

(** C10: on a multi-error without children [IsRetryError] answers true and
    [IsHaltError] answers false, bare or wrapped. *)
Theorem empty_multi_error :
  IsRetryError (NonNilMultiError []) = true ∧
  IsHaltError (NonNilMultiError []) = false ∧
  ∀ msg, IsRetryError (Wrap (NonNilMultiError []) msg) = true ∧
         IsHaltError (Wrap (NonNilMultiError []) msg) = false.
Proof.
  split; [reflexivity | split; [reflexivity |]].
  intros msg. rewrite IsRetryError_Wrap, IsHaltError_Wrap. by split.
Qed.

(* ===================================================================== *)
(** * The ownership filter *)
(* ===================================================================== *)

Section OwnJobs.

Variable c : BucketCompactor.

Lemma filterOwnJobs_loop_spec todo :
  ∀ kept turns, (length todo ≤ turns)%nat →
    filterOwnJobs_loop c turns (kept ++ todo) (length kept) =
      if is_nil (ownedOf c todo).2 then (kept ++ (ownedOf c todo).1, nil)
      else ([], (ownedOf c todo).2).
Proof.
  induction todo as [|job todo IH]; intros kept turns Hturns.
  - simpl. destruct turns; simpl;
      rewrite lookup_ge_None_2 by (rewrite length_app; simpl; lia); done.
  - destruct turns as [|turns]; [simpl in Hturns; lia|].
    simpl in Hturns. cbn [filterOwnJobs_loop ownedOf].
    rewrite list_lookup_middle by done.
    destruct (ownJob c job) as [ok err] eqn:Hown. cbn [fst snd].
    destruct (is_nil err) eqn:Herr; cbn [negb].
    + destruct ok; cbn [negb].
      * replace (kept ++ job :: todo) with ((kept ++ [job]) ++ todo)
          by (by rewrite <- app_assoc).
        replace (S (length kept)) with (length (kept ++ [job]))
          by (rewrite length_app; simpl; lia).
        rewrite IH by lia.
        destruct (is_nil (ownedOf c todo).2) eqn:Hrest; cbn [negb].
        -- cbn [fst snd is_nil]. by rewrite <- app_assoc.
        -- by rewrite Hrest.
      * rewrite take_app_length.
        replace (S (length kept)) with (length kept + 1) by lia.
        rewrite drop_app_add. cbn [drop].
        rewrite IH by lia.
        destruct (is_nil (ownedOf c todo).2) eqn:Hrest; cbn [negb];
          by rewrite ?Hrest.
    + cbn [fst snd].
      assert (is_nil (Wrap err "ownJob") = false) as ->; [|done].
      apply is_nil_false. rewrite Wrap_nil_iff. by apply is_nil_false.
Qed.

Lemma filterOwnJobs_ownedOf jobs :
  filterOwnJobs c jobs =
    if is_nil (ownedOf c jobs).2 then ((ownedOf c jobs).1, nil)
    else ([], (ownedOf c jobs).2).
Proof.
  unfold filterOwnJobs.
  by apply (filterOwnJobs_loop_spec jobs [] (length jobs)).
Qed.

Lemma ownedOf_no_error jobs :
  (∀ job, job ∈ jobs → (ownJob c job).2 = nil) →
  ownedOf c jobs = (filter (λ job, (ownJob c job).1 = true) jobs, nil).
Proof.
  induction jobs as [|job jobs IH]; intros Hall; [done|].
  cbn [ownedOf]. rewrite (Hall job) by left. cbn [is_nil negb].
  rewrite IH by (intros j Hj; apply Hall; by right). cbn [fst snd is_nil negb].
  rewrite filter_cons. destruct (ownJob c job).1; by case_decide.
Qed.

Lemma ownedOf_first_error pre job post :
  (∀ j, j ∈ pre → (ownJob c j).2 = nil) →
  (ownJob c job).2 ≠ nil →
  (ownedOf c (pre ++ job :: post)).2 = Wrap (ownJob c job).2 "ownJob".
Proof.
  intros Hpre Herr. induction pre as [|j pre IH].
  - cbn [app ownedOf]. apply is_nil_false in Herr. by rewrite Herr.
  - cbn [app ownedOf]. rewrite (Hpre j) by left. cbn [is_nil negb].
    assert ((ownedOf c (pre ++ job :: post)).2 = Wrap (ownJob c job).2 "ownJob") as Hr
      by (apply IH; intros j' Hj'; apply Hpre; by right).
    assert (is_nil (ownedOf c (pre ++ job :: post)).2 = false) as Hnn.
    { rewrite Hr. apply is_nil_false. by rewrite Wrap_nil_iff. }
    by rewrite Hnn.
Qed.

End OwnJobs.

(** C9 fails as worded: with the ring unreachable for job [0@3] the
    returned error is not the check's error but that error wrapped with
    the message "ownJob". *)
Lemma filterOwnJobs_as_stated_fails :
  ¬ filterOwnJobs_as_stated compactor_own_first [job_a; job_c].
Proof.
  intros [_ H].
  specialize (H [job_a] job_c [] eq_refl).
  assert (filterOwnJobs compactor_own_first [job_a; job_c]
          = ([], withMessage ring_down "ownJob")) as Hrun by reflexivity.
  rewrite Hrun in H.
  assert (([] : list Job, withMessage ring_down "ownJob")
          = ([], (ownJob compactor_own_first job_c).2)) as Heq.
  { apply H; [|discriminate].
    intros j Hj. apply list_elem_of_singleton in Hj as ->. reflexivity. }
  discriminate Heq.
Qed.

(** C9, amended: when no ownership check fails, [filterOwnJobs] returns
    exactly the jobs whose check answers true, in their order; when the
    check fails for a job (and for none before it), it returns nil and that
    error wrapped with the message "ownJob", which has the same cause and
    the same classification. *)
Theorem filterOwnJobs_spec (c : BucketCompactor) (jobs : list Job) :
  ((∀ job, job ∈ jobs → (ownJob c job).2 = nil) →
     filterOwnJobs c jobs = (filter (λ job, (ownJob c job).1 = true) jobs, nil)) ∧
  (∀ pre job post, jobs = pre ++ job :: post →
     (∀ j, j ∈ pre → (ownJob c j).2 = nil) → (ownJob c job).2 ≠ nil →
     filterOwnJobs c jobs = ([], Wrap (ownJob c job).2 "ownJob") ∧
     Wrap (ownJob c job).2 "ownJob" ≠ nil ∧
     Cause (Wrap (ownJob c job).2 "ownJob") = Cause (ownJob c job).2 ∧
     IsHaltError (Wrap (ownJob c job).2 "ownJob") = IsHaltError (ownJob c job).2 ∧
     IsRetryError (Wrap (ownJob c job).2 "ownJob") = IsRetryError (ownJob c job).2).
Proof.
  split.
  - intros Hall. rewrite filterOwnJobs_ownedOf.
    by rewrite (ownedOf_no_error c jobs Hall).
  - intros pre job post -> Hpre Herr.
    assert (Wrap (ownJob c job).2 "ownJob" ≠ nil) as Hnn
      by (by rewrite Wrap_nil_iff).
    split; [|split; [done|]].
    + rewrite filterOwnJobs_ownedOf.
      rewrite (ownedOf_first_error c pre job post Hpre Herr).
      apply is_nil_false in Hnn. by rewrite Hnn.
    + auto using Cause_Wrap, IsHaltError_Wrap, IsRetryError_Wrap.
Qed.

Lemma filterOwnJobs_spec_witness :
  filterOwnJobs compactor_own_first [job_a; job_b; job_a]
    = ([job_a; job_a], nil) ∧
  filterOwnJobs compactor_own_first [job_a; job_b; job_c; job_a]
    = ([], Wrap ring_down "ownJob").
Proof.
  split.
  - apply (filterOwnJobs_spec compactor_own_first [job_a; job_b; job_a]).
    intros job Hjob.
    repeat (apply elem_of_cons in Hjob as [-> | Hjob]; [reflexivity|]).
    by apply elem_of_nil in Hjob.
  - apply (proj2 (filterOwnJobs_spec compactor_own_first
                    [job_a; job_b; job_c; job_a])
             [job_a; job_b] job_c [job_a] eq_refl).
    + intros job Hjob.
      repeat (apply elem_of_cons in Hjob as [-> | Hjob]; [reflexivity|]).
      by apply elem_of_nil in Hjob.
    + discriminate.
Defined.

(* ===================================================================== *)
(** * Garbage collection *)
(* ===================================================================== *)

Ltac run_step :=
  unfold bind, ask, call, emit, get, put, ret in *;
  cbn [negb fst snd] in *.

Lemma successfulMarks_app tr1 tr2 :
  successfulMarks (tr1 ++ tr2) = successfulMarks tr1 ++ successfulMarks tr2.
Proof.
  induction tr1 as [|ev tr1 IH]; [done|].
  destruct ev as [| | | | | | | | | |id d e| |]; cbn [app successfulMarks]; auto.
  destruct e; cbn; by rewrite ?IH.
Qed.

Lemma elem_of_successfulMarks tr id :
  id ∈ successfulMarks tr ↔ ∃ d, EvMarkForDeletion id d nil ∈ tr.
Proof.
  induction tr as [|ev tr IH].
  - split; [intros H; inversion H | intros [d H]; inversion H].
  - assert ((∃ d, EvMarkForDeletion id d nil ∈ ev :: tr) ↔
            (∃ d, ev = EvMarkForDeletion id d nil) ∨
            (∃ d, EvMarkForDeletion id d nil ∈ tr)) as Hsplit.
    { split.
      - intros [d Hd]. apply elem_of_cons in Hd as [<- | Hd]; eauto.
      - intros [[d ->] | [d Hd]]; exists d; [left | by right]. }
    rewrite Hsplit, <- IH.
    destruct ev as [| | | | | | | | | |id' d' e'| |]; cbn [successfulMarks];
      try (split; [by right | intros [[d Hd] | H]; [discriminate | done]]).
    destruct e'; try (split; [by right | intros [[d Hd] | H]; [discriminate | done]]).
    rewrite elem_of_cons. split.
    + intros [-> | H]; [left; eauto | by right].
    + intros [[d Hd] | H]; [left; congruence | by right].
Qed.

Lemma deleteAll_app ids1 ids2 b :
  deleteAll (ids1 ++ ids2) b = deleteAll ids2 (deleteAll ids1 b).
Proof. unfold deleteAll. apply foldl_app. Qed.

Lemma lookup_deleteAll ids b id :
  deleteAll ids b !! id = if bool_decide (id ∈ ids) then None else b !! id.
Proof.
  revert b. induction ids as [|i ids IH]; intros b.
  - by rewrite bool_decide_eq_false_2 by (apply not_elem_of_nil).
  - change (deleteAll (i :: ids) b) with (deleteAll ids (delete i b)).
    rewrite IH. destruct (decide (id = i)) as [->|Hne].
    + rewrite lookup_delete_eq.
      rewrite (bool_decide_eq_true_2 (i ∈ i :: ids)) by left.
      by case_bool_decide.
    + rewrite lookup_delete_ne by done.
      destruct (decide (id ∈ ids)).
      * by rewrite !bool_decide_eq_true_2 by (try right; done).
      * rewrite !bool_decide_eq_false_2; [done | | done].
        intros [?|?]%elem_of_cons; done.
Qed.

Lemma markGarbage_outcome w ids :
  ∀ s t err s' t',
    markGarbage w ids s t = (err, s', t') → gc_outcome w t s err s' t'.
Proof.
  induction ids as [|id ids IH]; intros s t err s' t' Hrun.
  - cbn in Hrun. injection Hrun as <- <- <-.
    exists []. rewrite app_nil_r. split; [done|]. split; [done|]. done.
  - cbn [markGarbage] in Hrun. run_step.
    destruct (is_nil (ctx_Err w t)) eqn:Hctx; run_step.
    + set (merr := block_MarkForDeletion w t id outdated_block) in *.
      destruct (is_nil merr) eqn:Hm; run_step.
      * apply is_nil_true in Hm.
        apply IH in Hrun as (new & -> & Hb & Herr). cbn [blocks set_blocks] in Hb.
        exists ([EvMarkForDeletion id outdated_block merr;
                 EvInc "garbage_collected_blocks"] ++ new).
        split; [by rewrite <- !app_assoc|]. split.
        -- rewrite Hb, Hm. cbn [app successfulMarks]. done.
        -- intros Hne.
           destruct (Herr Hne) as [[-> Hok] | (pre & i & e & -> & He1 & He & ->)].
           ++ left. split; [by rewrite <- !app_assoc|].
              intros i d e [Hin|Hin]%elem_of_app; [|by eauto].
              apply elem_of_cons in Hin as [Hin|Hin]; [congruence|].
              apply list_elem_of_singleton in Hin. discriminate.
           ++ right. exists ([EvMarkForDeletion id outdated_block merr;
                               EvInc "garbage_collected_blocks"] ++ pre), i, e.
              split; [by rewrite <- !app_assoc|].
              rewrite <- !app_assoc in He1. cbn [app] in *. done.
      * injection Hrun as <- <- <-. apply is_nil_false in Hm.
        exists [EvMarkForDeletion id outdated_block merr;
                EvInc "garbage_collection_failures"].
        split; [by rewrite <- !app_assoc|]. split.
        -- cbn [successfulMarks]. by destruct merr.
        -- intros _. right. exists [], id, merr. rewrite app_nil_r. done.
    + injection Hrun as <- <- <-. exists []. rewrite app_nil_r.
      split; [done|]. split; [done|]. intros _. left. split; [done|].
      intros i d e Hin. by apply elem_of_nil in Hin.
Qed.

Lemma GarbageCollect_outcome w s t err s' t' :
  GarbageCollect w s t = (err, s', t') → err ≠ nil →
  gc_outcome w t s err s' t'.
Proof.
  unfold GarbageCollect. run_step. intros Hrun Hne.
  destruct (markGarbage w (garbageIDs (deletionMarkMap s) (duplicateIDs s)) s t)
    as [[e s1] t1] eqn:Hloop.
  apply markGarbage_outcome in Hloop.
  destruct (is_nil e) eqn:He; cbn [negb] in Hrun; injection Hrun as <- <- <-; done.
Qed.

Lemma gcEvents_cons id ids :
  gcEvents (id :: ids)
    = [EvMarkForDeletion id outdated_block nil;
       EvInc "garbage_collected_blocks"] ++ gcEvents ids.
Proof. reflexivity. Qed.

Lemma marks_succeed_nil w t : marks_succeed w t [].
Proof. intros pre id post H. by destruct pre. Qed.

Lemma marks_succeed_cons w t id dn :
  marks_succeed w t (id :: dn) ↔
  ctx_Err w t = nil ∧
  block_MarkForDeletion w t id outdated_block = nil ∧
  marks_succeed w (t ++ gcEvents [id]) dn.
Proof.
  split.
  - intros H. destruct (H [] id dn eq_refl) as [Hc Hm].
    cbn [gcEvents flat_map] in Hc, Hm. rewrite app_nil_r in Hc, Hm.
    split; [done|]. split; [done|].
    intros pre i post ->.
    destruct (H (id :: pre) i post eq_refl) as [Hc' Hm'].
    rewrite gcEvents_cons, app_assoc in Hc', Hm'. done.
  - intros (Hc & Hm & H) pre i post Heq. destruct pre as [|p pre].
    + injection Heq as <- <-. cbn [gcEvents flat_map]. by rewrite app_nil_r.
    + injection Heq as <- ->. rewrite gcEvents_cons, app_assoc.
      by apply (H pre i post).
Qed.

Lemma set_blocks_twice s b1 b2 :
  set_blocks (set_blocks s b1) b2 = set_blocks s b2.
Proof. reflexivity. Qed.

(** The loop runs through a prefix of ids at which it succeeds. *)
Lemma markGarbage_prefix w dn :
  ∀ rest s t,
    marks_succeed w t dn →
    markGarbage w (dn ++ rest) s t
      = markGarbage w rest (set_blocks s (deleteAll dn (blocks s)))
                    (t ++ gcEvents dn).
Proof.
  induction dn as [|id dn IH]; intros rest s t Hok.
  - cbn [app gcEvents flat_map deleteAll foldl]. rewrite app_nil_r.
    by destruct s.
  - apply marks_succeed_cons in Hok as (Hc & Hm & Hok).
    cbn [app markGarbage]. run_step. rewrite Hc. cbn [is_nil negb].
    rewrite Hm. cbn [is_nil negb].
    rewrite <- !app_assoc. cbn [app].
    rewrite (IH rest _ (t ++ gcEvents [id]) Hok).
    cbn [blocks set_blocks]. rewrite set_blocks_twice.
    rewrite gcEvents_cons. cbn [gcEvents flat_map app].
    rewrite <- !app_assoc. reflexivity.
Qed.

(** One step of the loop at an id where it fails. *)
Lemma markGarbage_fails_at w id rest s t err t' :
  gc_failure_at w t id err t' →
  markGarbage w (id :: rest) s t = (err, s, t').
Proof.
  intros [(Hc & -> & ->) | (Hc & Hm & -> & -> & _)];
    cbn [markGarbage]; run_step.
  - apply is_nil_false in Hc. by rewrite Hc.
  - rewrite Hc. cbn [is_nil negb]. apply is_nil_false in Hm. rewrite Hm.
    cbn [negb]. by rewrite <- app_assoc.
Qed.

Lemma gc_failure_not_nil w t1 id err t' : gc_failure_at w t1 id err t' → err ≠ nil.
Proof.
  intros [(Hc & -> & _) | (_ & Hm & _ & -> & _)]; [done|].
  apply retry_not_nil. by rewrite Wrap_nil_iff.
Qed.

(** Every failing run of the loop stops at an id it reached through a
    prefix of successes. *)
Lemma markGarbage_failure w ids :
  ∀ s t err s' t',
    markGarbage w ids s t = (err, s', t') → err ≠ nil →
    ∃ done id rest,
      ids = done ++ id :: rest ∧
      marks_succeed w t done ∧
      s' = set_blocks s (deleteAll done (blocks s)) ∧
      gc_failure_at w (t ++ gcEvents done) id err t'.
Proof.
  induction ids as [|id ids IH]; intros s t err s' t' Hrun Hne.
  - cbn in Hrun. by injection Hrun as <- _ _.
  - cbn [markGarbage] in Hrun. run_step.
    destruct (is_nil (ctx_Err w t)) eqn:Hctx; run_step.
    + apply is_nil_true in Hctx.
      destruct (is_nil (block_MarkForDeletion w t id outdated_block)) eqn:Hm;
        run_step.
      * apply is_nil_true in Hm.
        apply IH in Hrun as (dn & i & rest & -> & Hok & -> & Hfail); [|done].
        rewrite Hm in Hok, Hfail. rewrite <- !app_assoc in Hok.
        rewrite <- !app_assoc in Hfail. cbn [app] in Hok, Hfail.
        exists (id :: dn), i, rest. split; [done|]. split.
        { apply marks_succeed_cons. split; [done|]. split; [done|].
          cbn [gcEvents flat_map app]. exact Hok. }
        split; [reflexivity|].
        cbn [gcEvents flat_map app]. exact Hfail.
      * injection Hrun as <- <- <-. apply is_nil_false in Hm.
        exists [], id, ids. split; [done|]. split; [apply marks_succeed_nil|].
        split; [by destruct s|].
        cbn [gcEvents flat_map]. rewrite app_nil_r. right.
        split; [done|]. split; [done|]. split; [by rewrite <- app_assoc|].
        split; [done|].
        rewrite IsHaltError_retry, IsHaltError_Wrap. split; [done|].
        destruct (IsHaltError (block_MarkForDeletion w t id outdated_block))
          eqn:Hh; cbn [negb].
        -- apply IsHaltError_not_Retry.
           by rewrite IsHaltError_retry, IsHaltError_Wrap.
        -- apply IsRetryError_retry. by rewrite IsHaltError_Wrap.
    + injection Hrun as <- <- <-. apply is_nil_false in Hctx.
      exists [], id, ids. split; [done|]. split; [apply marks_succeed_nil|].
      split; [by destruct s|].
      cbn [gcEvents flat_map]. rewrite app_nil_r. by left.
Qed.

(** C2 fails as worded, in two ways.  When the context is cancelled
    between two marks, [GarbageCollect] returns the context's error as it
    is, and [context.Canceled] is not Retry-classified.  And when a write
    fails with an error whose cause is a [HaltError], [retry] returns the
    wrapped error as it is: it is Halt-classified and not Retry-classified. *)
Lemma GarbageCollect_not_always_Retry :
  ¬ GarbageCollect_always_Retry cancelled_after_first_effect two_duplicates [] ∧
  ¬ GarbageCollect_always_Retry marks_halt two_duplicates [].
Proof.
  split; intros H.
  - destruct (GarbageCollect cancelled_after_first_effect two_duplicates [])
      as [[err s'] t'] eqn:Hrun.
    assert (err = context_Canceled) as ->.
    { apply (f_equal (λ r, r.1.1)) in Hrun. vm_compute in Hrun.
      by rewrite <- Hrun. }
    destruct (H _ _ _ Hrun) as [Hretry _]; [discriminate|].
    vm_compute in Hretry. discriminate.
  - destruct (GarbageCollect marks_halt two_duplicates [])
      as [[err s'] t'] eqn:Hrun.
    assert (err = Wrap (Wrap (halt bucket_halted)
                             "upload file deletion-mark.json to bucket")
                       "mark block 1 for deletion") as ->.
    { apply (f_equal (λ r, r.1.1)) in Hrun. vm_compute in Hrun.
      by rewrite <- Hrun. }
    destruct (H _ _ _ Hrun) as [Hretry _]; [discriminate|].
    vm_compute in Hretry. discriminate.
Qed.

(** C2, amended: [GarbageCollect] returns the non-nil error [err] exactly
    when its loop gets through some garbage ids with the context live and
    every write successful, and fails at the next one, [id], in one of two
    ways.  Either the context is cancelled when the loop reaches [id]:
    then nothing is written for [id] and [err] is the context's own error,
    neither wrapped nor passed through [retry].  Or the context is live
    and the write for [id] fails: then the failure is counted and [err] is
    [retry] of the write error wrapped with "mark block <id> for
    deletion", which has the Halt classification of the write error and is
    Retry-classified exactly when the write error is not Halt-classified.
    In both cases the blocks marked before [id] are gone from the
    snapshot and the run ends there. *)
Theorem GarbageCollect_error_classes (w : World) (s : Syncer) (t : Trace)
    (err : error) (s' : Syncer) (t' : Trace) :
  GarbageCollect w s t = (err, s', t') ∧ err ≠ nil
  ↔
  ∃ done id rest,
    garbageIDs (deletionMarkMap s) (duplicateIDs s) = done ++ id :: rest ∧
    marks_succeed w t done ∧
    s' = set_blocks s (deleteAll done (blocks s)) ∧
    gc_failure_at w (t ++ gcEvents done) id err t'.
Proof.
  unfold GarbageCollect. run_step. split.
  - intros [Hrun Hne].
    destruct (markGarbage w (garbageIDs (deletionMarkMap s) (duplicateIDs s)) s t)
      as [[e s1] t1] eqn:Hloop.
    destruct (is_nil e) eqn:He; cbn [negb] in Hrun; injection Hrun as <- <- <-;
      [done|].
    by apply (markGarbage_failure w _ s t).
  - intros (dn & id & rest & -> & Hok & -> & Hfail).
    pose proof (gc_failure_not_nil _ _ _ _ _ Hfail) as Hne.
    rewrite (markGarbage_prefix w dn (id :: rest) s t Hok).
    rewrite (markGarbage_fails_at w id rest _ _ err t' Hfail).
    apply is_nil_false in Hne as Hnil. rewrite Hnil. cbn [negb].
    by apply is_nil_false in Hnil.
Qed.

Lemma GarbageCollect_error_classes_witness :
  GarbageCollect marks_time_out two_duplicates []
    = (retry (Wrap bucket_timeout "mark block 1 for deletion"),
       two_duplicates,
       [EvMarkForDeletion 1 outdated_block bucket_timeout;
        EvInc "garbage_collection_failures"]) ∧
  IsRetryError (retry (Wrap bucket_timeout "mark block 1 for deletion")) = true ∧
  IsHaltError (retry (Wrap bucket_timeout "mark block 1 for deletion")) = false.
Proof.
  split; [|split; reflexivity].
  apply (proj2 (GarbageCollect_error_classes marks_time_out two_duplicates []
                  (retry (Wrap bucket_timeout "mark block 1 for deletion"))
                  two_duplicates
                  [EvMarkForDeletion 1 outdated_block bucket_timeout;
                   EvInc "garbage_collection_failures"])).
  exists [], 1%N, [2%N].
  split; [reflexivity|]. split; [intros pre id post H; by destruct pre|].
  split; [reflexivity|]. right.
  split; [reflexivity|]. split; [discriminate|]. split; [reflexivity|].
  split; [reflexivity|]. split; reflexivity.
Defined.

(** C8: when [GarbageCollect] returns an error, the snapshot it leaves is
    the one it started from without the blocks whose mark was written:
    each of them stays removed, every other entry is as before, and if one
    of them was in the snapshot the snapshot differs from the one before
    the call. *)
Theorem GarbageCollect_not_atomic (w : World) (s : Syncer) (t : Trace)
    (err : error) (s' : Syncer) (t' : Trace) :
  GarbageCollect w s t = (err, s', t') → err ≠ nil →
  ∃ new, t' = t ++ new ∧
    Metas s' = deleteAll (successfulMarks new) (Metas s) ∧
    (∀ id d, EvMarkForDeletion id d nil ∈ new → Metas s' !! id = None) ∧
    (∀ id, id ∉ successfulMarks new → Metas s' !! id = Metas s !! id) ∧
    (∀ id d, EvMarkForDeletion id d nil ∈ new → is_Some (Metas s !! id) →
       Metas s' ≠ Metas s).
Proof.
  intros Hrun Hne.
  destruct (GarbageCollect_outcome w s t err s' t' Hrun Hne)
    as (new & Ht & Hb & _).
  exists new. unfold Metas. split; [done|]. split; [done|].
  assert (∀ id d, EvMarkForDeletion id d nil ∈ new → blocks s' !! id = None)
    as Hgone.
  { intros id d Hin. rewrite Hb, lookup_deleteAll.
    rewrite bool_decide_eq_true_2; [done|].
    apply elem_of_successfulMarks. eauto. }
  split; [done|]. split.
  - intros id Hid. rewrite Hb, lookup_deleteAll.
    by rewrite bool_decide_eq_false_2.
  - intros id d Hin [m Hm] Heq.
    specialize (Hgone id d Hin). rewrite Heq in Hgone. congruence.
Qed.

Lemma GarbageCollect_not_atomic_witness :
  (GarbageCollect cancelled_after_first_effect two_duplicates []).1.1
    = context_Canceled ∧
  Metas two_duplicates !! 1%N = Some block1 ∧
  Metas (GarbageCollect cancelled_after_first_effect two_duplicates []).1.2
    !! 1%N = None ∧
  Metas (GarbageCollect cancelled_after_first_effect two_duplicates []).1.2
    ≠ Metas two_duplicates.
Proof.
  destruct (GarbageCollect cancelled_after_first_effect two_duplicates [])
    as [[err s'] t'] eqn:Hrun.
  assert (err = context_Canceled) as Herr.
  { apply (f_equal (λ r, r.1.1)) in Hrun. vm_compute in Hrun.
    by rewrite <- Hrun. }
  assert (t' = [EvMarkForDeletion 1 outdated_block nil;
                EvInc "garbage_collected_blocks"]) as Ht.
  { apply (f_equal (λ r, r.2)) in Hrun. vm_compute in Hrun.
    by rewrite <- Hrun. }
  assert (err ≠ nil) as Hne by (rewrite Herr; discriminate).
  destruct (GarbageCollect_not_atomic _ _ _ _ _ _ Hrun Hne)
    as (new & Hnew & _ & Hgone & _ & Hdiff).
  cbn [app] in Hnew. subst new t'.
  assert (EvMarkForDeletion 1 outdated_block nil
            ∈ [EvMarkForDeletion 1 outdated_block nil;
               EvInc "garbage_collected_blocks"]) as Hin by left.
  cbn [fst snd]. split; [exact Herr|]. split; [reflexivity|]. split.
  - exact (Hgone _ _ Hin).
  - apply (Hdiff _ _ Hin). exists block1. reflexivity.
Defined.

(* ===================================================================== *)
(** * Reasoning about computations and worker pools *)
(* ===================================================================== *)

Lemma hoare_ret {S A} (P : S → Trace → Prop) (a : A) (Q : A → S → Trace → Prop) :
  (∀ s t, P s t → Q a s t) → hoare P (ret a) Q.
Proof. intros H s t HP a' s' t' [= <- <- <-]. auto. Qed.

Lemma hoare_bind {S A B} (P : S → Trace → Prop) (c : M S A) (k : A → M S B)
    (R : A → S → Trace → Prop) (Q : B → S → Trace → Prop) :
  hoare P c R → (∀ a, hoare (R a) (k a) Q) → hoare P (bind c k) Q.
Proof.
  intros Hc Hk s t HP b s' t' Hrun. unfold bind in Hrun.
  destruct (c s t) as [[a s1] t1] eqn:Hc1.
  eapply Hk; [|exact Hrun]. eapply Hc; eauto.
Qed.

Lemma hoare_conseq {S A} (P P' : S → Trace → Prop) (c : M S A)
    (Q Q' : A → S → Trace → Prop) :
  hoare P' c Q' → (∀ s t, P s t → P' s t) →
  (∀ a s t, Q' a s t → Q a s t) → hoare P c Q.
Proof. intros Hc HP HQ s t Hp a s' t' Hrun. eapply HQ, Hc; eauto. Qed.

Lemma hoare_call {S A} (P : S → Trace → Prop) (oracle : Trace → A)
    (ev : A → Event) (Q : A → S → Trace → Prop) :
  (∀ s t, P s t → Q (oracle t) s (t ++ [ev (oracle t)])) →
  hoare P (call oracle ev) Q.
Proof. intros H s t HP a s' t' [= <- <- <-]. auto. Qed.

Lemma hoare_ask {S A} (P : S → Trace → Prop) (oracle : Trace → A)
    (Q : A → S → Trace → Prop) :
  (∀ s t, P s t → Q (oracle t) s t) → hoare P (ask oracle) Q.
Proof. intros H s t HP a s' t' [= <- <- <-]. auto. Qed.

Lemma hoare_emit {S} (P : S → Trace → Prop) (e : Event)
    (Q : unit → S → Trace → Prop) :
  (∀ s t, P s t → Q tt s (t ++ [e])) → hoare P (emit e) Q.
Proof. intros H s t HP a s' t' [= <- <- <-]. auto. Qed.

Lemma hoare_get {S} (P : S → Trace → Prop) (Q : S → S → Trace → Prop) :
  (∀ s t, P s t → Q s s t) → hoare P get Q.
Proof. intros H s t HP a s' t' [= <- <- <-]. auto. Qed.

Lemma hoare_put {S} (P : S → Trace → Prop) (s0 : S)
    (Q : unit → S → Trace → Prop) :
  (∀ s t, P s t → Q tt s0 t) → hoare P (put s0) Q.
Proof. intros H s t HP a s' t' [= <- <- <-]. eauto. Qed.

Lemma hoare_if {S A} (P : S → Trace → Prop) (b : bool) (c1 c2 : M S A)
    (Q : A → S → Trace → Prop) :
  (b = true → hoare P c1 Q) → (b = false → hoare P c2 Q) →
  hoare P (if b then c1 else c2) Q.
Proof. destruct b; auto. Qed.

(** The rule of the linearised pool.  The invariant [I done first] is
    indexed by the jobs already passed and the first error so far. *)
Lemma hoare_ForEach_go {S J} (w : World) (jobFunc : J → M S error)
    (I : list (nat * J) → error → S → Trace → Prop) :
  (∀ done ix j,
     hoare (λ s t, I done nil s t ∧ ctx_Err w t = nil) (jobFunc j)
           (λ e s t, I (done ++ [(ix, j)]) e s t)) →
  (∀ done ixj s t, I done nil s t → ctx_Err w t ≠ nil →
     I (done ++ [ixj]) (ctx_Err w t) s t) →
  (∀ done s t, I done nil s t → ctx_Err w t ≠ nil →
     I done (ctx_Err w t) s t) →
  (∀ done ix j first, first ≠ nil →
     hoare (I done first) (jobFunc j) (λ _ s t, I (done ++ [(ix, j)]) first s t)) →
  (∀ done ixj first s t, first ≠ nil → I done first s t →
     I (done ++ [ixj]) first s t) →
  ∀ jobs done first,
    hoare (I done first) (ForEach_go w jobFunc jobs first)
          (λ e s t, I (done ++ jobs) e s t).
Proof.
  intros Hrun Hcancel Hlast Hraced Hskip.
  induction jobs as [|[ix j] jobs IH]; intros done first.
  - cbn [ForEach_go]. rewrite app_nil_r.
    destruct (is_nil first) eqn:Hfirst; [|by apply hoare_ret].
    apply is_nil_true in Hfirst as ->.
    intros s t HI e s' t' Hgo. unfold ask in Hgo. injection Hgo as <- <- <-.
    destruct (is_nil (ctx_Err w t)) eqn:Hctx.
    + apply is_nil_true in Hctx. by rewrite Hctx.
    + apply is_nil_false in Hctx. by apply Hlast.
  - cbn [ForEach_go].
    replace (done ++ (ix, j) :: jobs) with ((done ++ [(ix, j)]) ++ jobs)
      by (by rewrite <- app_assoc).
    destruct (is_nil first) eqn:Hfirst.
    + apply is_nil_true in Hfirst as ->.
      intros s t HI e s' t' Hgo. unfold bind, ask in Hgo.
      destruct (is_nil (ctx_Err w t)) eqn:Hctx.
      * apply is_nil_true in Hctx.
        destruct (jobFunc j s t) as [[e1 s1] t1] eqn:Hbody.
        eapply IH; [|exact Hgo]. eapply Hrun; eauto.
      * apply is_nil_false in Hctx.
        eapply IH; [|exact Hgo]. by apply Hcancel.
    + apply is_nil_false in Hfirst.
      intros s t HI e s' t' Hgo. unfold bind, ask in Hgo.
      destruct (pool_raced w t ix).
      * destruct (jobFunc j s t) as [[e1 s1] t1] eqn:Hbody.
        eapply IH; [|exact Hgo]. eapply Hraced; eauto.
      * eapply IH; [|exact Hgo]. by apply Hskip.
Qed.

Lemma insert_at_Permutation {A} n (x : A) l : insert_at n x l ≡ₚ x :: l.
Proof.
  revert n. induction l as [|y l IH]; intros [|n]; cbn [insert_at]; try done.
  rewrite IH. apply perm_swap.
Qed.

Lemma shuffle_Permutation {A} code (l : list A) : shuffle code l ≡ₚ l.
Proof.
  revert code. induction l as [|x l IH]; intros code; [done|].
  cbn [shuffle]. by rewrite insert_at_Permutation, IH.
Qed.

Lemma shuffle_nil_code {A} (l : list A) : shuffle [] l = l.
Proof. induction l as [|x l IH]; [done|]. cbn. by rewrite IH. Qed.

Lemma insert_at_length {A} (x : A) (l1 l2 : list A) :
  insert_at (length l1) x (l1 ++ l2) = l1 ++ x :: l2.
Proof.
  induction l1 as [|y l1 IH]; simpl.
  - by destruct l2.
  - by rewrite IH.
Qed.

(** Codes reach every order: each permutation of [l] is [shuffle code l]
    for some [code]. *)
Lemma shuffle_complete {A} (l l' : list A) :
  l ≡ₚ l' → ∃ code, shuffle code l = l'.
Proof.
  revert l'. induction l as [|x l IH]; intros l' Hperm.
  - apply Permutation_nil_l in Hperm. subst l'. by exists (@List.nil nat).
  - assert (x ∈ l') as Hx by (rewrite <- Hperm; left).
    apply list_elem_of_split in Hx as (l1 & l2 & ->).
    rewrite <- Permutation_middle in Hperm.
    apply Permutation_cons_inv in Hperm.
    destruct (IH _ Hperm) as [code Hcode].
    exists (length l1 :: code). cbn [shuffle hd tl].
    by rewrite Hcode, insert_at_length.
Qed.

Lemma elem_of_shuffle {A} code (l : list A) x : x ∈ shuffle code l ↔ x ∈ l.
Proof. by rewrite shuffle_Permutation. Qed.

Lemma elem_of_imap_pair {A} (l : list A) ix x :
  (ix, x) ∈ imap pair l ↔ l !! ix = Some x.
Proof.
  rewrite elem_of_lookup_imap. split.
  - intros (i & y & [= -> ->] & H). done.
  - intros H. eauto.
Qed.

(** The rule for [ForEach] itself, with at least one worker. *)
Lemma hoare_ForEach {S J} (w : World) (jobFunc : J → M S error)
    (I : list (nat * J) → error → S → Trace → Prop)
    (jobs : list J) (concurrency : Z) :
  (0 < concurrency)%Z → jobs ≠ [] →
  (∀ done ix j,
     hoare (λ s t, I done nil s t ∧ ctx_Err w t = nil) (jobFunc j)
           (λ e s t, I (done ++ [(ix, j)]) e s t)) →
  (∀ done ixj s t, I done nil s t → ctx_Err w t ≠ nil →
     I (done ++ [ixj]) (ctx_Err w t) s t) →
  (∀ done s t, I done nil s t → ctx_Err w t ≠ nil →
     I done (ctx_Err w t) s t) →
  (∀ done ix j first, first ≠ nil →
     hoare (I done first) (jobFunc j) (λ _ s t, I (done ++ [(ix, j)]) first s t)) →
  (∀ done ixj first s t, first ≠ nil → I done first s t →
     I (done ++ [ixj]) first s t) →
  hoare (I [] nil) (ForEach w jobs concurrency jobFunc)
        (λ e s t, ∃ done, done ≡ₚ imap pair jobs ∧ I done e s t).
Proof.
  intros Hc Hjobs Hrun Hcancel Hlast Hraced Hskip s t HI e s' t' Hfe.
  unfold ForEach in Hfe. destruct jobs as [|j0 jobs]; [done|].
  rewrite bool_decide_eq_false_2 in Hfe by lia.
  unfold bind, ask in Hfe.
  exists (shuffle (pool_order w t) (imap pair (j0 :: jobs))).
  split; [apply shuffle_Permutation|].
  eapply (hoare_ForEach_go w jobFunc I Hrun Hcancel Hlast Hraced Hskip _ [] nil);
    [exact HI | exact Hfe].
Qed.

(* ===================================================================== *)
(** * The no-compaction mark filter *)
(* ===================================================================== *)

Lemma filter_failure_mono w ids ids' e :
  ids ⊆ ids' → filter_failure w ids e → filter_failure w ids' e.
Proof.
  intros Hsub [Hctx | (tr & id & Hid & H)]; [by left | right].
  exists tr, id. split; [by apply Hsub | done].
Qed.

Lemma filter_inv_skip w metas done ixj first st t :
  filter_inv w metas done first st t →
  filter_inv w metas (done ++ [ixj]) first st t.
Proof.
  intros (H1 & H2 & H3). repeat split; [done | done |].
  intros Hne. eapply filter_failure_mono; [|by apply H3].
  rewrite fmap_app. set_solver.
Qed.

Lemma readMark_inv w metas remove done ix id first :
  hoare (filter_inv w metas done first) (readMark w remove id)
        (λ e st t,
           filter_inv w metas (done ++ [(ix, id)]) first st t ∧
           (e ≠ nil → filter_failure w (done ++ [(ix, id)]).*2 e)).
Proof.
  intros st t HI e st' t' Hrun. unfold readMark in Hrun. run_step.
  destruct (metadata_ReadMarker w t id) as [m err] eqn:Hread. cbn [snd] in Hrun.
  assert (err = (metadata_ReadMarker w t id).2) as Herr by (by rewrite Hread).
  destruct (is_nil err) eqn:Hnil; cbn [negb] in Hrun.
  - apply is_nil_true in Hnil. injection Hrun as <- <- <-.
    split; [|done].
    destruct HI as (H1 & H2 & H3). repeat split.
    + cbn [fst]. intros i Hi. destruct (decide (i = id)) as [->|Hne].
      * exists t. congruence.
      * rewrite lookup_insert_ne in Hi by done. auto.
    + cbn [snd]. intros i. destruct (decide (i = id)) as [->|Hne].
      * right. exists t. congruence.
      * destruct remove; [rewrite lookup_delete_ne by done|]; apply H2.
    + intros Hne. eapply filter_failure_mono; [|by apply H3].
      rewrite fmap_app. set_solver.
  - destruct (same_error (Cause err) ErrorMarkerNotFound) eqn:Hnf;
      [|destruct (same_error (Cause err) ErrorUnmarshalMarker) eqn:Hum];
      injection Hrun as <- <- <-;
      (split; [by apply filter_inv_skip|]); try done.
    intros _. right. exists t, id. rewrite fmap_app. subst err.
    repeat split; try done. set_solver.
Qed.

Lemma elem_of_rangeKeys code (metas : gmap ULID Meta) id :
  id ∈ rangeKeys code metas ↔ is_Some (metas !! id).
Proof.
  unfold rangeKeys. rewrite elem_of_shuffle, list_elem_of_fmap. split.
  - intros ([i m] & -> & Hin). apply elem_of_map_to_list in Hin. eauto.
  - intros [m Hm]. exists (id, m). split; [done|]. by apply elem_of_map_to_list.
Qed.

Lemma Filter_outcome w f metas t err f' metas' t' :
  Filter w f metas t = (err, f', metas', t') →
  ∃ e0, err = Wrap e0 "filter blocks marked for no compaction" ∧
    filter_inv w metas (imap pair (rangeKeys (range_order w t) metas)) e0
               (noCompactMarkedMap f', metas') t'.
Proof.
  unfold Filter. set (ids := rangeKeys (range_order w t) metas).
  destruct (ForEach w ids (filter_concurrency f)
              (readMark w (removeNoCompactBlocks f)) (∅, metas) t)
    as [[e0 [marked ms]] t1] eqn:Hfe.
  intros [= <- <- <- <-]. exists e0. split; [done|]. cbn [noCompactMarkedMap].
  assert (filter_inv w metas [] nil (∅ : gmap ULID NoCompactMark, metas) t) as H0.
  { repeat split; cbn [fst snd]; try done; [|by left].
    intros id [x Hx]. by rewrite lookup_empty in Hx. }
  destruct (decide (ids = [])) as [Hids | Hids].
  { rewrite Hids in Hfe. injection Hfe as <- <- <- <-. by rewrite Hids. }
  destruct (decide (filter_concurrency f ≤ 0)%Z) as [Hc | Hc].
  { unfold ForEach in Hfe. destruct ids; [done|].
    rewrite bool_decide_eq_true_2 in Hfe by done.
    injection Hfe as <- <- <- <-.
    destruct H0 as (H1 & H2 & H3). repeat split; done. }
  assert (hoare (filter_inv w metas [] nil)
            (ForEach w ids (filter_concurrency f)
                     (readMark w (removeNoCompactBlocks f)))
            (λ e st tr, ∃ done, done ≡ₚ imap pair ids ∧
                                filter_inv w metas done e st tr)) as Hpool.
  { apply hoare_ForEach; [lia | done | | | | |].
    - intros done ix id st tr [HI _] e st' tr' Hrun.
      destruct (readMark_inv w metas (removeNoCompactBlocks f) done ix id nil
                  st tr HI e st' tr' Hrun) as [(Ha & Hb & _) Hc'].
      repeat split; done.
    - intros done ixj st tr HI Hctx.
      destruct (filter_inv_skip w metas done ixj nil st tr HI) as (Ha & Hb & _).
      repeat split; try done. intros _. left. eauto.
    - intros done st tr (Ha & Hb & _) Hctx.
      repeat split; try done. intros _. left. eauto.
    - intros done ix id first Hfirst st tr HI e st' tr' Hrun.
      by destruct (readMark_inv w metas (removeNoCompactBlocks f) done ix id
                     first st tr HI e st' tr' Hrun) as [HI' _].
    - intros done ixj first st tr _ HI. by apply filter_inv_skip. }
  destruct (Hpool _ _ H0 _ _ _ Hfe) as (done & Hperm & H1 & H2 & H3).
  repeat split; try done. intros Hne.
  eapply filter_failure_mono; [|by apply H3].
  intros id. by rewrite Hperm.
Qed.

(** C7: after any call of [Filter], a block whose no-compaction marker is
    absent or does not parse is neither among [NoCompactMarkedBlocks] nor
    removed from the metas, and it is not what makes [Filter] fail: an
    error of [Filter] wraps the error of the cancelled context or of a
    marker read, for a block of the metas, that failed for another reason;
    so when every marker is absent or unparseable and the context is live,
    [Filter] returns no error. *)
Theorem Filter_ignores_unavailable_markers (w : World)
    (f : NoCompactionMarkFilter) (metas : gmap ULID Meta) (t : Trace)
    (err : error) (f' : NoCompactionMarkFilter) (metas' : gmap ULID Meta)
    (t' : Trace) :
  Filter w f metas t = (err, f', metas', t') →
  (∀ id, marker_unavailable w id →
     NoCompactMarkedBlocks f' !! id = None ∧ metas' !! id = metas !! id) ∧
  (err ≠ nil →
     ∃ e0, err = Wrap e0 "filter blocks marked for no compaction" ∧
       ((∃ tr, e0 = ctx_Err w tr) ∨
        (∃ tr id, is_Some (metas !! id) ∧ ¬ marker_unavailable w id ∧
                  e0 = (metadata_ReadMarker w tr id).2))) ∧
  ((∀ id, is_Some (metas !! id) → marker_unavailable w id) →
   (∀ tr, ctx_Err w tr = nil) → err = nil).
Proof.
  intros Hrun.
  destruct (Filter_outcome _ _ _ _ _ _ _ _ Hrun) as (e0 & -> & H1 & H2 & H3).
  cbn [fst snd] in *.
  assert (∀ id tr, marker_unavailable w id →
            (metadata_ReadMarker w tr id).2 ≠ nil) as Hfails.
  { intros id tr Hun Hnil. destruct (Hun tr) as [H | H];
      rewrite Hnil in H; discriminate. }
  assert (e0 ≠ nil →
          (∃ tr, e0 = ctx_Err w tr) ∨
          (∃ tr id, is_Some (metas !! id) ∧ ¬ marker_unavailable w id ∧
                    e0 = (metadata_ReadMarker w tr id).2)) as Hcause.
  { intros Hne. destruct (H3 Hne) as [Hctx | (tr & id & Hid & -> & Hnf & Hum)];
      [by left | right].
    exists tr, id. split; [|split; [|done]].
    - apply list_elem_of_fmap in Hid as ([ix i] & -> & Hin).
      apply elem_of_imap_pair, list_elem_of_lookup_2 in Hin.
      by apply elem_of_rangeKeys in Hin.
    - intros Hun. destruct (Hun tr) as [H | H]; congruence. }
  split; [|split].
  - intros id Hun. unfold NoCompactMarkedBlocks. split.
    + destruct (noCompactMarkedMap f' !! id) eqn:Hm; [|done].
      destruct (H1 id) as [tr Htr]; [eauto|]. by apply Hfails in Htr.
    + destruct (H2 id) as [|[tr Htr]]; [done|]. by apply Hfails in Htr.
  - intros Hne. exists e0. split; [done|]. apply Hcause.
    intros ->. by apply Hne.
  - intros Hall Hctx. destruct (is_nil e0) eqn:Hnil.
    { apply is_nil_true in Hnil as ->. done. }
    apply is_nil_false in Hnil.
    destruct (Hcause Hnil) as [[tr ->] | (tr & id & Hid & Hun & _)].
    + by rewrite Hctx in Hnil.
    + by apply Hall in Hid.
Qed.

Lemma Filter_ignores_unavailable_markers_witness :
  (Filter mixed_markers removing_filter three_blocks []).1.1.1 = nil ∧
  NoCompactMarkedBlocks
    (Filter mixed_markers removing_filter three_blocks []).1.1.2 !! 1%N = None ∧
  (Filter mixed_markers removing_filter three_blocks []).1.2 !! 1%N
    = Some block1 ∧
  NoCompactMarkedBlocks
    (Filter mixed_markers removing_filter three_blocks []).1.1.2 !! 2%N = None ∧
  (Filter mixed_markers removing_filter three_blocks []).1.2 !! 2%N
    = Some block2.
Proof.
  destruct (Filter mixed_markers removing_filter three_blocks [])
    as [[[err f'] metas'] t'] eqn:Hrun.
  destruct (Filter_ignores_unavailable_markers _ _ _ _ _ _ _ _ Hrun)
    as (Hkeep & _ & _).
  cbn [fst snd]. split.
  - apply (f_equal (λ r, r.1.1.1)) in Hrun. vm_compute in Hrun. by rewrite <- Hrun.
  - destruct (Hkeep 1%N) as [Ha Hb]; [intros tr; left; reflexivity|].
    destruct (Hkeep 2%N) as [Hc Hd]; [intros tr; right; reflexivity|].
    rewrite Ha, Hb, Hc, Hd. repeat split; reflexivity.
Defined.

(* ===================================================================== *)
(** * Running one compaction job *)
(* ===================================================================== *)

Lemma no_marks_app tr1 tr2 : no_marks tr1 → no_marks tr2 → no_marks (tr1 ++ tr2).
Proof. intros H1 H2 id d e [H|H]%elem_of_app; [by apply H1 in H | by apply H2 in H]. Qed.

Lemma no_marks_download tr :
  Forall (λ ev, is_download_event ev = true) tr → no_marks tr.
Proof.
  intros H id d e Hin. rewrite Forall_forall in H. by apply H in Hin.
Qed.

Lemma no_marks_upload tr :
  Forall (λ ev, is_upload_event ev = true) tr → no_marks tr.
Proof.
  intros H id d e Hin. rewrite Forall_forall in H. by apply H in Hin.
Qed.

Lemma deleteBlock_run {S} w id bdir (s : S) t e s' t' :
  deleteBlock w id bdir s t = (e, s', t') →
  s' = s ∧
  ((os_RemoveAll w t bdir ≠ nil ∧ e ≠ nil ∧
    t' = t ++ [EvRemoveAll bdir (os_RemoveAll w t bdir)]) ∨
   (os_RemoveAll w t bdir = nil ∧
    ∃ m, (e = nil ↔ m = nil) ∧
      t' = t ++ [EvRemoveAll bdir nil;
                 EvMarkForDeletion id source_of_compacted_block m])).
Proof.
  unfold deleteBlock. run_step.
  destruct (is_nil (os_RemoveAll w t bdir)) eqn:Hrm; cbn [negb].
  - apply is_nil_true in Hrm. rewrite Hrm.
    set (m := block_MarkForDeletion w _ id source_of_compacted_block).
    destruct (is_nil m) eqn:Hm; cbn [negb]; intros [= <- <- <-];
      (split; [done|]); right; (split; [done|]); exists m;
      rewrite <- app_assoc; (split; [|done]).
    + apply is_nil_true in Hm. done.
    + apply is_nil_false in Hm. rewrite Wrap_nil_iff. done.
  - apply is_nil_false in Hrm. intros [= <- <- <-]. split; [done|]. left.
    split; [done|]. split; [|done]. by rewrite Wrap_nil_iff.
Qed.

Lemma deleteEmptyInputs_run {S} w subDir plan :
  ∀ (s : S) t u s' t',
    deleteEmptyInputs w subDir plan s t = (u, s', t') →
    s' = s ∧ ∃ dels, t' = t ++ dels ∧ deleted_empty w subDir plan dels.
Proof.
  induction plan as [|m plan IH]; intros s t u s' t' Hrun.
  - injection Hrun as <- <- <-. split; [done|]. exists [].
    rewrite app_nil_r. split; [done | constructor].
  - cbn [deleteEmptyInputs] in Hrun. unfold bind at 1 in Hrun.
    destruct (N.eqb (meta_NumSamples m) 0) eqn:Hn.
    + apply N.eqb_eq in Hn. unfold bind at 1 in Hrun.
      destruct (deleteBlock w (meta_ULID m) (blockDir subDir (meta_ULID m)) s t)
        as [[e s1] t1] eqn:Hdel.
      apply deleteBlock_run in Hdel as [-> Hdel]. unfold ret at 1 in Hrun.
      apply IH in Hrun as [-> (dels & -> & Hdels)]. split; [done|].
      destruct Hdel as [(Hrm & _ & ->) | (Hrm & mk & _ & ->)].
      * eexists. rewrite <- app_assoc. split; [done|].
        cbn [app]. by apply de_local_failure.
      * eexists. rewrite <- app_assoc. split; [done|].
        cbn [app]. by apply de_marked.
    + apply N.eqb_neq in Hn. unfold ret at 1 in Hrun.
      apply IH in Hrun as [-> (dels & -> & Hdels)]. split; [done|].
      exists dels. split; [done|]. by apply de_skip.
Qed.

Lemma deleted_empty_events w subDir plan dels :
  deleted_empty w subDir plan dels →
  Forall (λ ev, is_delete_event ev = true) dels ∧ marks_within plan dels.
Proof.
  induction 1 as [|m rest tr Hn _ [IH1 IH2]|m rest tr t0 Hn Hrm _ [IH1 IH2]
                  |m rest tr e Hn _ [IH1 IH2]].
  - split; [constructor|]. intros id d e Hin. by apply elem_of_nil in Hin.
  - split; [done|]. intros id d e Hin. rewrite fmap_cons. right. eauto.
  - split; [by constructor|]. intros id d e Hin. rewrite fmap_cons.
    apply elem_of_cons in Hin as [Hin|Hin]; [discriminate|]. right. eauto.
  - split; [by repeat constructor|]. intros id d e' Hin. rewrite fmap_cons.
    apply elem_of_cons in Hin as [Hin|Hin]; [discriminate|].
    apply elem_of_cons in Hin as [Hin|Hin]; [|right; eauto].
    injection Hin as -> _ _. left.
Qed.

Lemma retireInputs_run {S} w subDir plan :
  ∀ (s : S) t e s' t',
    retireInputs w subDir plan s t = (e, s', t') →
    s' = s ∧ ∃ rets, t' = t ++ rets ∧
      Forall (λ ev, is_delete_event ev = true) rets ∧ marks_within plan rets.
Proof.
  induction plan as [|m plan IH]; intros s t e s' t' Hrun.
  - injection Hrun as <- <- <-. split; [done|]. exists [].
    rewrite app_nil_r. repeat split; [constructor|].
    intros id d e Hin. by apply elem_of_nil in Hin.
  - cbn [retireInputs] in Hrun. unfold bind at 1 in Hrun.
    destruct (deleteBlock w (meta_ULID m) (blockDir subDir (meta_ULID m)) s t)
      as [[e1 s1] t1] eqn:Hdel.
    apply deleteBlock_run in Hdel as [-> Hdel].
    assert (∃ evs, t1 = t ++ evs ∧ Forall (λ ev, is_delete_event ev = true) evs ∧
                   marks_within (m :: plan) evs) as (evs & -> & Hevs & Hmarks).
    { destruct Hdel as [(_ & _ & ->) | (_ & mk & _ & ->)];
        (eexists; split; [done|]; split; [by repeat constructor|]);
        intros id d e' Hin; rewrite fmap_cons.
      - apply list_elem_of_singleton in Hin. discriminate.
      - apply elem_of_cons in Hin as [Hin|Hin]; [discriminate|].
        apply list_elem_of_singleton in Hin. injection Hin as -> _ _. left. }
    destruct (is_nil e1) eqn:He1; cbn [negb] in Hrun.
    + unfold bind, emit in Hrun.
      apply IH in Hrun as [-> (rets & -> & Hrets & Hm2)]. split; [done|].
      exists (evs ++ [EvInc "garbage_collected_blocks"] ++ rets).
      rewrite <- !app_assoc. split; [done|]. split.
      * apply Forall_app. split; [done|]. by constructor.
      * intros id d e' [Hin|Hin]%elem_of_app; [by eauto|].
        apply elem_of_cons in Hin as [Hin|Hin]; [discriminate|].
        rewrite fmap_cons. right. eauto.
    + injection Hrun as <- <- <-. split; [done|]. eauto.
Qed.

Lemma downloadAndCheck_run {S} w subDir meta (s : S) t e s' t' :
  downloadAndCheck w subDir meta s t = (e, s', t') →
  s' = s ∧ ∃ evs, t' = t ++ evs ∧ Forall (λ ev, is_download_event ev = true) evs.
Proof.
  unfold downloadAndCheck. run_step.
  destruct (is_nil (block_Download w t _ _)); cbn [negb].
  - destruct (block_GatherIndexHealthStats w _ _ _ _) as [stats err].
    cbn [snd].
    repeat match goal with
           | |- context [if negb (is_nil ?x) then _ else _] =>
               destruct (is_nil x); cbn [negb]
           end;
      intros [= <- <- <-]; (split; [done|]); rewrite <- app_assoc;
      eexists; (split; [done|]); by repeat constructor.
  - intros [= <- <- <-]. split; [done|]. eexists. split; [done|].
    by repeat constructor.
Qed.

Lemma download_pool {S} w subDir plan (s : S) t e s' t' :
  plan ≠ [] →
  ForEach w plan (Z.of_nat (length plan)) (downloadAndCheck w subDir) s t
    = (e, s', t') →
  s' = s ∧ ∃ dl, t' = t ++ dl ∧ Forall (λ ev, is_download_event ev = true) dl.
Proof.
  intros Hplan Hrun.
  pose (I := λ (_ : list (nat * Meta)) (_ : error) (s1 : S) (t1 : Trace),
          s1 = s ∧ ∃ dl, t1 = t ++ dl ∧
            Forall (λ ev, is_download_event ev = true) dl).
  assert (hoare (I [] nil)
            (ForEach w plan (Z.of_nat (length plan)) (downloadAndCheck w subDir))
            (λ e s1 t1, ∃ done, done ≡ₚ imap pair plan ∧ I done e s1 t1)) as Hpool.
  { assert (∀ m, hoare (λ s1 t1, s1 = s ∧ ∃ dl, t1 = t ++ dl ∧
                 Forall (λ ev, is_download_event ev = true) dl)
              (downloadAndCheck w subDir m)
              (λ _ s1 t1, s1 = s ∧ ∃ dl, t1 = t ++ dl ∧
                 Forall (λ ev, is_download_event ev = true) dl))
      as Hbody.
    { intros m s1 t1 [-> (dl & -> & Hdl)] e1 s2 t2 Hb.
      apply downloadAndCheck_run in Hb as [-> (evs & -> & Hevs)].
      split; [done|]. exists (dl ++ evs). rewrite app_assoc. split; [done|].
      by apply Forall_app. }
    apply hoare_ForEach; unfold I.
    - destruct plan; [done|]. cbn [length]. lia.
    - done.
    - intros done ix m s1 t1 [H _]. by apply (Hbody m).
    - done.
    - done.
    - intros done ix m first _. apply (Hbody m).
    - done. }
  assert (I [] nil s t) as H0.
  { split; [done|]. exists []. by rewrite app_nil_r. }
  by destruct (Hpool s t H0 e s' t' Hrun) as (done & _ & HI).
Qed.

Lemma uploaded_ok_mono subDir oid tr pre post :
  uploaded_ok subDir oid tr → uploaded_ok subDir oid (pre ++ tr ++ post).
Proof.
  intros ([th H1] & H2 & H3). unfold uploaded_ok.
  split; [exists th|split]; set_solver.
Qed.

Lemma finalizeAndUpload_run {S} w job subDir j (s : S) t e s' t' :
  finalizeAndUpload w job subDir j s t = (e, s', t') →
  s' = s ∧ ∃ evs, t' = t ++ evs ∧
    Forall (λ ev, is_upload_event ev = true) evs ∧
    (e = nil → Forall (λ ev, event_error ev = nil) evs ∧
               (j.2 ≠ zeroULID → uploaded_ok subDir j.2 evs)).
Proof.
  unfold finalizeAndUpload.
  destruct (N.eqb j.2 zeroULID) eqn:Hz.
  { apply N.eqb_eq in Hz. intros [= <- <- <-]. split; [done|]. exists [].
    rewrite app_nil_r. split; [done|]. split; [constructor|].
    intros _. split; [constructor | by intros Hne]. }
  run_step.
  match goal with
  | |- context [metadata_InjectThanos w t ?b ?th] =>
      destruct (metadata_InjectThanos w t b th) as [newMeta e1] eqn:Hinj
  end.
  cbn [snd].
  destruct (is_nil e1) eqn:H1; cbn [negb].
  2:{ apply is_nil_false in H1. intros [= <- <- <-]. split; [done|].
      eexists. split; [done|]. split; [by repeat constructor|].
      intros Hw. by apply Wrap_nil_iff in Hw. }
  apply is_nil_true in H1 as ->.
  match goal with
  | |- context [is_nil (os_Remove w ?tr ?p)] =>
      destruct (is_nil (os_Remove w tr p)) eqn:H2
  end; cbn [negb].
  2:{ apply is_nil_false in H2. intros [= <- <- <-]. split; [done|].
      eexists. split; [by rewrite <- !app_assoc|].
      split; [by repeat constructor|].
      intros Hw. by apply Wrap_nil_iff in Hw. }
  apply is_nil_true in H2. rewrite H2.
  match goal with
  | |- context [is_nil (block_VerifyIndex w ?tr ?p ?a ?b)] =>
      destruct (is_nil (block_VerifyIndex w tr p a b)) eqn:H3
  end; cbn [negb].
  2:{ intros [= <- <- <-]. split; [done|].
      eexists. split; [by rewrite <- !app_assoc|].
      split; [by repeat constructor|]. discriminate. }
  apply is_nil_true in H3. rewrite H3.
  match goal with
  | |- context [is_nil (block_Upload w ?tr ?p ?h)] =>
      destruct (is_nil (block_Upload w tr p h)) eqn:H4
  end; cbn [negb].
  2:{ apply is_nil_false in H4. intros [= <- <- <-]. split; [done|].
      eexists. split; [by rewrite <- !app_assoc|].
      split; [by repeat constructor|].
      intros Hr. apply retry_not_nil in Hr; [done|]. by rewrite Wrap_nil_iff. }
  apply is_nil_true in H4. rewrite H4.
  intros [= <- <- <-]. split; [done|].
  eexists. split; [by rewrite <- !app_assoc|].
  split; [by repeat constructor|]. intros _.
  split; [by repeat constructor|]. intros _.
  unfold uploaded_ok. split; [eexists; left|split].
  - do 2 right; left.
  - do 3 right; left.
Qed.

Lemma hasNonZeroULIDs_false ids :
  hasNonZeroULIDs ids = false ↔ ∀ oid, oid ∈ ids → oid = zeroULID.
Proof.
  unfold hasNonZeroULIDs. induction ids as [|i ids IH]; cbn [existsb].
  - split; [|done]. intros _ oid H. by apply elem_of_nil in H.
  - rewrite orb_false_iff, IH, negb_false_iff, N.eqb_eq. split.
    + intros [-> H] oid [->|Hin]%elem_of_cons; auto.
    + intros H. split; [apply H; left | intros oid Hin; apply H; by right].
Qed.

Lemma upload_pool {S} w job subDir ids (s : S) t e s' t' :
  hasNonZeroULIDs ids = true →
  ForEach w (convertSliceOfUlidsToSliceOfInterfaces ids)
          (Z.of_nat (length ids)) (finalizeAndUpload w job subDir) s t
    = (e, s', t') →
  s' = s ∧ ∃ ups, t' = t ++ ups ∧
    Forall (λ ev, is_upload_event ev = true) ups ∧
    (e = nil → Forall (λ ev, event_error ev = nil) ups ∧
               ∀ oid, oid ∈ ids → oid ≠ zeroULID → uploaded_ok subDir oid ups).
Proof.
  intros Hnz Hrun.
  assert (ids ≠ []) as Hids by (intros ->; discriminate).
  pose (I := λ (done : list (nat * (nat * ULID))) (first : error) (s1 : S)
               (t1 : Trace),
          s1 = s ∧ ∃ ups, t1 = t ++ ups ∧
            Forall (λ ev, is_upload_event ev = true) ups ∧
            (first = nil →
               Forall (λ ev, event_error ev = nil) ups ∧
               ∀ ix j, (ix, j) ∈ done → j.2 ≠ zeroULID →
                       uploaded_ok subDir j.2 ups)).
  assert (hoare (I [] nil)
            (ForEach w (convertSliceOfUlidsToSliceOfInterfaces ids)
                     (Z.of_nat (length ids)) (finalizeAndUpload w job subDir))
            (λ e s1 t1, ∃ done,
               done ≡ₚ imap pair (convertSliceOfUlidsToSliceOfInterfaces ids) ∧
               I done e s1 t1)) as Hpool.
  { apply hoare_ForEach; unfold I.
    - destruct ids; [done|]. cbn [length]. lia.
    - unfold convertSliceOfUlidsToSliceOfInterfaces. by destruct ids.
    - intros done ix j s1 t1 [[-> (ups & -> & Hups & Hok)] _] e1 s2 t2 Hb.
      apply finalizeAndUpload_run in Hb as [-> (evs & -> & Hevs & Hj)].
      split; [done|]. exists (ups ++ evs). rewrite app_assoc. split; [done|].
      split; [by apply Forall_app|]. intros He1.
      destruct (Hok eq_refl) as [Hall Hdone]. destruct (Hj He1) as [Hall' Hj'].
      split; [by apply Forall_app|].
      intros ix' j' [Hin|Hin]%elem_of_app Hnz'.
      + apply (uploaded_ok_mono _ _ _ [] evs). eauto.
      + apply list_elem_of_singleton in Hin. simplify_eq.
        rewrite <- (app_nil_r evs). apply uploaded_ok_mono. auto.
    - intros done ixj s1 t1 [-> (ups & -> & Hups & _)] Hctx. split; [done|].
      exists ups. repeat split; try done; by intros ?.
    - intros done s1 t1 [-> (ups & -> & Hups & _)] Hctx. split; [done|].
      exists ups. repeat split; try done; by intros ?.
    - intros done ix j first Hfirst s1 t1 [-> (ups & -> & Hups & _)] e1 s2 t2 Hb.
      apply finalizeAndUpload_run in Hb as [-> (evs & -> & Hevs & _)].
      split; [done|]. exists (ups ++ evs). rewrite app_assoc. split; [done|].
      split; [by apply Forall_app | done].
    - intros done ixj first s1 t1 Hfirst [-> (ups & -> & Hups & _)].
      split; [done|]. exists ups. repeat split; try done. }
  assert (I [] nil s t) as H0.
  { split; [done|]. exists []. rewrite app_nil_r. split; [done|].
    split; [constructor|]. intros _. split; [constructor|].
    intros i j Hin. by apply elem_of_nil in Hin. }
  destruct (Hpool s t H0 e s' t' Hrun)
    as (done & Hperm & -> & ups & -> & Hups & Hok).
  split; [done|]. exists ups. split; [done|]. split; [done|].
  intros He. destruct (Hok He) as [Hall Hdone]. split; [done|].
  intros oid Hin Hnz'.
  apply list_elem_of_lookup in Hin as [i Hi].
  assert ((i, (i, oid)) ∈ done) as Hd.
  { rewrite Hperm. apply elem_of_imap_pair.
    unfold convertSliceOfUlidsToSliceOfInterfaces.
    rewrite list_lookup_imap, Hi. done. }
  apply (Hdone _ _ Hd). done.
Qed.

Lemma compact_run {S} w job subDir dirs (s : S) t ids e s' t' :
  compact w job subDir dirs s t = ((ids, e), s', t') →
  s' = s ∧ t' = t ++ [EvCompact subDir dirs ids e].
Proof.
  unfold compact. destruct (job_useSplitting job); run_step.
  - destruct (comp_CompactWithSplitting w t subDir dirs _) as [ids' e'].
    by intros [= <- <- <- <-].
  - destruct (comp_Compact w t subDir dirs) as [id' e'].
    by intros [= <- <- <- <-].
Qed.

Lemma runCompactionJob_body_run {S} w job subDir (s : S) t r s' t' :
  runCompactionJob_body w job subDir s t = (r, s', t') →
  s' = s ∧ ∃ new, t' = t ++ new ∧ job_run w job subDir r new.
Proof.
  unfold runCompactionJob_body. unfold bind at 1, call at 1.
  destruct (is_nil (os_MkdirAll w t subDir)) eqn:Hmk; cbn [negb].
  2:{ apply is_nil_false in Hmk. intros [= <- <- <-]. split; [done|].
      eexists. split; [done|]. by constructor. }
  apply is_nil_true in Hmk. rewrite Hmk.
  unfold bind at 1, call at 1.
  destruct (planner_Plan w _ (job_metasByMinTime job)) as [plan perr] eqn:Hplan.
  cbn [fst snd].
  destruct (is_nil perr) eqn:Hperr; cbn [negb].
  2:{ apply is_nil_false in Hperr. intros [= <- <- <-]. split; [done|].
      eexists. split; [by rewrite <- app_assoc|]. by constructor. }
  apply is_nil_true in Hperr as ->.
  case_bool_decide as Hlen.
  { destruct plan; [|done]. intros [= <- <- <-]. split; [done|].
    eexists. split; [by rewrite <- app_assoc|]. constructor. }
  assert (plan ≠ []) as Hne by (by destruct plan).
  unfold bind at 1.
  destruct (ForEach w plan _ (downloadAndCheck w subDir) s _)
    as [[derr s1] t1] eqn:Hdl.
  apply download_pool in Hdl as [-> (dl & -> & Hdlev)]; [|done].
  destruct (is_nil derr) eqn:Hderr; cbn [negb].
  2:{ apply is_nil_false in Hderr. intros [= <- <- <-]. split; [done|].
      eexists. split; [by rewrite <- !app_assoc|]. by constructor. }
  unfold bind at 1.
  destruct (compact w job subDir _ s _) as [[[ids cerr] s2] t2] eqn:Hc.
  apply compact_run in Hc as [-> ->].
  destruct (is_nil cerr) eqn:Hcerr; cbn [negb].
  2:{ apply is_nil_false in Hcerr. intros [= <- <- <-]. split; [done|].
      eexists. split; [by rewrite <- !app_assoc|]. by constructor. }
  apply is_nil_true in Hcerr as ->.
  destruct (hasNonZeroULIDs ids) eqn:Hnz; cbn [negb].
  2:{ unfold bind at 1.
      destruct (deleteEmptyInputs w subDir plan s _) as [[u s3] t3] eqn:Hdel.
      apply deleteEmptyInputs_run in Hdel as [-> (dels & -> & Hdels)].
      intros [= <- <- <-]. split; [done|].
      eexists. split; [by rewrite <- !app_assoc|]. by constructor. }
  unfold bind at 1.
  destruct (ForEach w (convertSliceOfUlidsToSliceOfInterfaces ids) _ _ s _)
    as [[uerr s3] t3] eqn:Hup.
  apply upload_pool in Hup as [-> (ups & -> & Hupev & Hok)]; [|done].
  destruct (is_nil uerr) eqn:Huerr; cbn [negb].
  2:{ apply is_nil_false in Huerr. intros [= <- <- <-]. split; [done|].
      eexists. split; [by rewrite <- !app_assoc|]. by constructor. }
  apply is_nil_true in Huerr as ->. destruct (Hok eq_refl) as [Hall Hids].
  unfold bind at 1.
  destruct (retireInputs w subDir plan s _) as [[rerr s4] t4] eqn:Hret.
  apply retireInputs_run in Hret as [-> (rets & -> & Hrets & Hmarks)].
  destruct (is_nil rerr) eqn:Hrerr; cbn [negb]; intros [= <- <- <-];
    (split; [done|]); eexists; (split; [by rewrite <- !app_assoc|]);
    apply run_retired; try done.
  - by left.
  - right. exists rerr. split; [by apply is_nil_false | done].
Qed.

Lemma phase_excludes (P : Event → bool) tr ev :
  Forall (λ ev, P ev = true) tr → P ev = false → ev ∉ tr.
Proof.
  intros Hall Hev Hin. rewrite Forall_forall in Hall.
  apply Hall in Hin. congruence.
Qed.

Lemma split_after_prefix {A} (l1 l2 pre post : list A) x :
  l1 ++ l2 = pre ++ x :: post → x ∉ l1 →
  ∃ mid, pre = l1 ++ mid ∧ l2 = mid ++ x :: post.
Proof.
  revert pre. induction l1 as [|y l1 IH]; intros pre Heq Hx.
  - exists pre. done.
  - destruct pre as [|p pre]; cbn [app] in Heq.
    + injection Heq as -> _. exfalso. apply Hx. left.
    + injection Heq as -> Heq. apply IH in Heq as (mid & -> & ->).
      * by exists mid.
      * intros Hin. apply Hx. by right.
Qed.

Lemma split_before_suffix {A} (l1 l2 pre post : list A) x :
  l1 ++ l2 = pre ++ x :: post → x ∉ l2 →
  ∃ mid, l1 = pre ++ x :: mid ∧ post = mid ++ l2.
Proof.
  revert pre. induction l1 as [|y l1 IH]; intros pre Heq Hx.
  - exfalso. apply Hx. cbn [app] in Heq. rewrite Heq. set_solver.
  - destruct pre as [|p pre]; cbn [app] in Heq.
    + injection Heq as -> <-. by exists l1.
    + injection Heq as -> Heq. apply IH in Heq as (mid & -> & ->); [|done].
      by exists mid.
Qed.

(** Decompose a membership in a concatenation of phases. *)
Ltac in_phases H :=
  repeat first
    [ apply elem_of_app in H as [H|H]
    | apply elem_of_cons in H as [H|H]
    | apply elem_of_nil in H; destruct H
    | discriminate H
    | (eapply phase_excludes in H; [destruct H | eassumption | reflexivity]) ].

Lemma job_run_no_marks_early w job subDir r new :
  job_run w job subDir r new →
  (∃ id d e, EvMarkForDeletion id d e ∈ new) →
  ∃ plan dl dirs ids tail,
    new = ([EvMkdirAll subDir nil; EvPlan (job_metasByMinTime job) plan nil]
             ++ dl ++ [EvCompact subDir dirs ids nil]) ++ tail ∧
    Forall (λ ev, is_download_event ev = true) dl ∧
    ((hasNonZeroULIDs ids = false ∧ deleted_empty w subDir plan tail ∧
      r = (true, [], nil))
     ∨
     (hasNonZeroULIDs ids = true ∧
      ∃ ups rets, tail = ups ++ rets ∧
        Forall (λ ev, is_upload_event ev = true) ups ∧
        Forall (λ ev, event_error ev = nil) ups ∧
        (∀ oid, oid ∈ ids → oid ≠ zeroULID → uploaded_ok subDir oid ups) ∧
        Forall (λ ev, is_delete_event ev = true) rets ∧
        marks_within plan rets)).
Proof.
  intros Hrun (id & d & e & Hin).
  destruct Hrun; try (exfalso; in_phases Hin; fail).
  - exists plan, dl, dirs, ids, dels. rewrite <- !app_assoc.
    split; [done|]. split; [done|]. by left.
  - exists plan, dl, dirs, ids, (ups ++ rets). rewrite <- !app_assoc.
    split; [done|]. split; [done|]. right. split; [done|].
    exists ups, rets. done.
Qed.

Lemma job_run_upload_failure w job subDir r new ev :
  job_run w job subDir r new →
  ev ∈ new →
  (∃ p e, ev = EvVerifyIndex p e ∨ ev = EvUpload p e) →
  event_error ev ≠ nil →
  r.2 ≠ nil ∧ no_marks new.
Proof.
  intros Hrun Hin (p & e & Hev) Herr.
  assert (is_upload_event ev = true) as Hup by (by destruct Hev as [-> | ->]).
  assert (is_download_event ev = false) as Hnd by (by destruct Hev as [-> | ->]).
  assert (is_delete_event ev = false) as Hndel by (by destruct Hev as [-> | ->]).
  destruct Hrun as [e0 He0|plan e0 He0| |plan dl e0 Hdl He0
                    |plan dl dirs ids e0 Hdl He0|plan dl dirs ids dels Hdl Hnz Hdels
                    |plan dl dirs ids ups e0 Hdl Hnz Hups He0
                    |plan dl dirs ids ups rets r Hdl Hnz Hups Hok Hids Hrets Hm Hr].
  - exfalso. destruct Hev as [-> | ->]; in_phases Hin.
  - exfalso. destruct Hev as [-> | ->]; in_phases Hin.
  - exfalso. destruct Hev as [-> | ->]; in_phases Hin.
  - exfalso. destruct Hev as [-> | ->]; in_phases Hin.
  - exfalso. destruct Hev as [-> | ->]; in_phases Hin.
  - exfalso. apply deleted_empty_events in Hdels as [Hdels _].
    destruct Hev as [-> | ->]; in_phases Hin.
  - split; [done|]. intros id d m Hm. in_phases Hm.
  - exfalso. rewrite Forall_forall in Hok.
    destruct Hev as [-> | ->]; in_phases Hin; by apply Hok in Hin.
Qed.

Lemma runCompactionJob_run {S} w c job (s : S) t r s' t' :
  runCompactionJob w c job s t = (r, s', t') →
  s' = s ∧ ∃ new tail,
    t' = t ++ new ++ tail ∧
    job_run w job (subDirOf c job) r new ∧
    ((tail = [] ∧ r.2 ≠ nil) ∨
     (∃ e, tail = [EvRemoveAll (subDirOf c job) e] ∧ r.2 = nil)).
Proof.
  unfold runCompactionJob. unfold bind at 1.
  destruct (runCompactionJob_body w job (subDirOf c job) s t)
    as [[r0 s0] t0] eqn:Hbody.
  apply runCompactionJob_body_run in Hbody as [-> (new & -> & Hrun)].
  destruct (is_nil r0.2) eqn:Hr; cbn [negb].
  - apply is_nil_true in Hr. unfold bind, call, ret.
    intros [= <- <- <-]. split; [done|].
    exists new, [EvRemoveAll (subDirOf c job) (os_RemoveAll w (t ++ new) (subDirOf c job))].
    rewrite <- app_assoc. split; [done|]. split; [done|]. right. eauto.
  - apply is_nil_false in Hr. intros [= <- <- <-]. split; [done|].
    exists new, []. rewrite app_nil_r. split; [done|]. split; [done|]. by left.
Qed.

(** C1: in any run of [runCompactionJob], a mark-for-deletion is written
    only for a block of the plan, and everything before it in the run
    contains, for every non-zero output block of the merge, its successful
    finalization, index verification and upload; and if the verification
    or the upload of an output fails, the run returns an error and writes
    no mark at all. *)
Theorem inputs_marked_after_outputs_uploaded {S} (w : World)
    (c : BucketCompactor) (job : Job) (s : S) (t : Trace)
    (r : bool * list ULID * error) (s' : S) (t' : Trace) :
  runCompactionJob w c job s t = (r, s', t') →
  ∃ new, t' = t ++ new ∧
    (∀ pre id d e post, new = pre ++ EvMarkForDeletion id d e :: post →
       (∃ plan, EvPlan (job_metasByMinTime job) plan nil ∈ pre ∧
                id ∈ meta_ULID <$> plan) ∧
       (∀ dest dirs ids cerr, EvCompact dest dirs ids cerr ∈ new →
          ∀ oid, oid ∈ ids → oid ≠ zeroULID →
            uploaded_ok (subDirOf c job) oid pre)) ∧
    (∀ p e, EvVerifyIndex p e ∈ new ∨ EvUpload p e ∈ new → e ≠ nil →
       r.2 ≠ nil ∧ no_marks new).
Proof.
  intros Hrun.
  apply runCompactionJob_run in Hrun as [-> (new & tail & -> & Hjob & Htail)].
  exists (new ++ tail). split; [done|].
  assert (no_marks tail) as Hnm_tail.
  { intros id d e Hin. destruct Htail as [[-> _] | (e0 & -> & _)]; in_phases Hin. }
  assert (∀ dest dirs ids cerr, EvCompact dest dirs ids cerr ∉ tail) as Hnc_tail.
  { intros dest dirs ids cerr Hin.
    destruct Htail as [[-> _] | (e0 & -> & _)]; in_phases Hin. }
  split.
  - intros pre id d e post Heq.
    apply split_before_suffix in Heq as (mid & Hnew & _); [|apply Hnm_tail].
    destruct (job_run_no_marks_early _ _ _ _ _ Hjob) as
      (plan & dl & dirs & ids & rest & Hshape & Hdl & Hcases).
    { exists id, d, e. rewrite Hnew. set_solver. }
    rewrite Hshape in Hnew.
    apply split_after_prefix in Hnew as (mid' & Hpre & Hrest).
    2:{ intros Hin. in_phases Hin. }
    assert (EvPlan (job_metasByMinTime job) plan nil ∈ pre) as Hplan.
    { rewrite Hpre. set_solver. }
    assert (∀ dest dirs' ids' cerr,
              EvCompact dest dirs' ids' cerr ∈ new ++ tail →
              Forall (λ ev, is_delete_event ev = true) rest ∨
              (∃ ups rets, rest = ups ++ rets ∧
                 Forall (λ ev, is_upload_event ev = true) ups ∧
                 Forall (λ ev, is_delete_event ev = true) rets) →
              ids' = ids) as Hsame.
    { intros dest dirs' ids' cerr Hin Hkinds.
      apply elem_of_app in Hin as [Hin|Hin]; [|by apply Hnc_tail in Hin].
      rewrite Hshape in Hin.
      destruct Hkinds as [Hk | (ups & rets & -> & Hu & Hr)]; in_phases Hin;
        congruence. }
    destruct Hcases as [(Hnz & Hdels & _) | (Hnz & ups & rets & -> & Hups & Hok & Hids & Hrets & Hm)].
    + apply deleted_empty_events in Hdels as [Hkind Hm]. split.
      * exists plan. split; [done|]. apply (Hm id d e). rewrite Hrest. set_solver.
      * intros dest dirs' ids' cerr Hin oid Hoid Hne.
        rewrite (Hsame _ _ _ _ Hin) in Hoid by (by left).
        rewrite hasNonZeroULIDs_false in Hnz. by apply Hnz in Hoid.
    + apply split_after_prefix in Hrest as (m2 & -> & Hrets').
      2:{ intros Hin. in_phases Hin. }
      split.
      * exists plan. split; [done|]. apply (Hm id d e). rewrite Hrets'. set_solver.
      * intros dest dirs' ids' cerr Hin oid Hoid Hne.
        rewrite (Hsame _ _ _ _ Hin) in Hoid by (right; eauto).
        rewrite Hpre. apply uploaded_ok_mono. by apply Hids.
  - intros p e Hin Hne.
    assert (∃ ev, ev ∈ new ∧ (∃ p e, ev = EvVerifyIndex p e ∨ ev = EvUpload p e) ∧
                  event_error ev ≠ nil) as (ev & Hev & Hkind & Herr).
    { destruct Hin as [Hin|Hin];
        (apply elem_of_app in Hin as [Hin|Hin];
         [|exfalso; destruct Htail as [[-> _] | (e0 & -> & _)]; in_phases Hin]);
        eexists; (split; [exact Hin|]); (split; [eauto | done]). }
    destruct (job_run_upload_failure _ _ _ _ _ _ Hjob Hev Hkind Herr) as [Hr Hnm].
    split; [done|]. by apply no_marks_app.
Qed.

Lemma inputs_marked_after_outputs_uploaded_witness :
  ∃ pre post,
    (runCompactionJob quiet compactor0 job_12 tt []).2
      = pre ++ EvMarkForDeletion 1 source_of_compacted_block nil :: post ∧
    uploaded_ok (subDirOf compactor0 job_12) 9 pre.
Proof.
  destruct (runCompactionJob quiet compactor0 job_12 tt [])
    as [[r s'] t'] eqn:Hrun.
  destruct (inputs_marked_after_outputs_uploaded _ _ _ _ _ _ _ _ Hrun)
    as (new & Hnew & Hmarks & _).
  cbn [app] in Hnew. subst new.
  apply (f_equal (λ x, x.2)) in Hrun. vm_compute in Hrun. subst t'.
  cbn [snd].
  match goal with
  | |- ∃ pre post, ?L = _ ∧ _ => exists (take 12 L), (drop 13 L)
  end.
  split; [reflexivity|].
  eapply Hmarks; [reflexivity | | | discriminate].
  - do 6 right; left.
  - left.
Defined.

Lemma deleted_empty_marks w subDir plan dels id d e :
  deleted_empty w subDir plan dels →
  EvMarkForDeletion id d e ∈ dels →
  d = source_of_compacted_block ∧
  ∃ m, m ∈ plan ∧ meta_ULID m = id ∧ meta_NumSamples m = 0%N ∧
       EvRemoveAll (blockDir subDir id) nil ∈ dels.
Proof.
  induction 1 as [|m rest tr Hn _ IH|m rest tr t0 Hn Hrm _ IH
                  |m rest tr e' Hn _ IH]; intros Hin.
  - by apply elem_of_nil in Hin.
  - destruct (IH Hin) as (-> & m' & Hm' & ?). split; [done|].
    exists m'. split; [by right | done].
  - apply elem_of_cons in Hin as [Hin|Hin]; [discriminate|].
    destruct (IH Hin) as (-> & m' & Hm' & H1 & H2 & H3). split; [done|].
    exists m'. split; [by right|]. split; [done|]. split; [done|]. by right.
  - apply elem_of_cons in Hin as [Hin|Hin]; [discriminate|].
    apply elem_of_cons in Hin as [Hin|Hin].
    + injection Hin as -> -> ->. split; [done|]. exists m.
      split; [left|]. split; [done|]. split; [done|]. left.
    + destruct (IH Hin) as (-> & m' & Hm' & H1 & H2 & H3). split; [done|].
      exists m'. split; [by right|]. split; [done|]. split; [done|].
      by do 2 right.
Qed.

Lemma deleted_empty_attempts w subDir plan dels m :
  deleted_empty w subDir plan dels →
  m ∈ plan → meta_NumSamples m = 0%N →
  (∃ e, e ≠ nil ∧ EvRemoveAll (blockDir subDir (meta_ULID m)) e ∈ dels ∧
        ∃ tr, e = os_RemoveAll w tr (blockDir subDir (meta_ULID m))) ∨
  (∃ e, EvMarkForDeletion (meta_ULID m) source_of_compacted_block e ∈ dels).
Proof.
  induction 1 as [|m' rest tr Hn _ IH|m' rest tr t0 Hn Hrm _ IH
                  |m' rest tr e' Hn _ IH]; intros Hin Hzero.
  - by apply elem_of_nil in Hin.
  - apply elem_of_cons in Hin as [->|Hin]; [done|]. by apply IH.
  - apply elem_of_cons in Hin as [->|Hin].
    + left. eexists. split; [done|]. split; [left | eauto].
    + destruct (IH Hin Hzero) as [(e & He & Hev & Htr) | (e & He)].
      * left. exists e. repeat split; try done. by right.
      * right. exists e. by right.
  - apply elem_of_cons in Hin as [->|Hin].
    + right. exists e'. right. left.
    + destruct (IH Hin Hzero) as [(e & He & Hev & Htr) | (e & He)].
      * left. exists e. repeat split; try done. by do 2 right.
      * right. exists e. by do 2 right.
Qed.

Lemma job_run_empty_result w job subDir r new plan dest dirs ids :
  job_run w job subDir r new →
  EvPlan (job_metasByMinTime job) plan nil ∈ new →
  EvCompact dest dirs ids nil ∈ new →
  hasNonZeroULIDs ids = false →
  r = (true, [], nil) ∧
  ∃ pre dels, new = pre ++ dels ∧ no_marks pre ∧
              deleted_empty w subDir plan dels.
Proof.
  intros Hrun Hplan Hcompact Hzero.
  destruct Hrun as [e0 He0|plan0 e0 He0| |plan0 dl e0 Hdl He0
                    |plan0 dl dirs0 ids0 e0 Hdl He0
                    |plan0 dl dirs0 ids0 dels Hdl Hnz Hdels
                    |plan0 dl dirs0 ids0 ups e0 Hdl Hnz Hups He0
                    |plan0 dl dirs0 ids0 ups rets r Hdl Hnz Hups Hok Hids Hrets Hm Hr];
    try (exfalso; in_phases Hcompact; congruence).
  - split; [done|].
    pose proof (deleted_empty_events _ _ _ _ Hdels) as [Hkind _].
    assert (plan0 = plan) as -> by (in_phases Hplan; congruence).
    exists ([EvMkdirAll subDir nil; EvPlan (job_metasByMinTime job) plan nil]
              ++ dl ++ [EvCompact subDir dirs0 ids0 nil]), dels.
    split; [by rewrite <- !app_assoc|]. split; [|done].
    intros id d e Hin. in_phases Hin.
Qed.

(** C4 fails as worded: [deleteBlock] removes the local directory of the
    block first and gives up when that fails, so the empty block 3, whose
    directory cannot be removed, gets no deletion mark. *)
Lemma empty_input_left_unmarked :
  ¬ empty_result_marks_every_empty_input
      merge_is_empty_dir_stuck compactor0 job_34 tt [].
Proof.
  intros H.
  destruct (runCompactionJob merge_is_empty_dir_stuck compactor0 job_34 tt [])
    as [[r s'] t'] eqn:Hrun.
  assert (t' = [EvMkdirAll "/data/compact/0@1" nil;
                EvPlan [block3; block4] [block3; block4] nil;
                EvDownload 3 "/data/compact/0@1/3" nil;
                EvGatherIndexHealthStats "/data/compact/0@1/3/index" nil;
                EvDownload 4 "/data/compact/0@1/4" nil;
                EvGatherIndexHealthStats "/data/compact/0@1/4/index" nil;
                EvCompact "/data/compact/0@1"
                  ["/data/compact/0@1/3"; "/data/compact/0@1/4"] [zeroULID] nil;
                EvRemoveAll "/data/compact/0@1/3" disk_error;
                EvRemoveAll "/data/compact/0@1/4" nil;
                EvMarkForDeletion 4 source_of_compacted_block nil;
                EvRemoveAll "/data/compact/0@1" nil]) as Ht.
  { apply (f_equal (λ x, x.2)) in Hrun. cbn [snd] in Hrun. rewrite <- Hrun.
    vm_compute. reflexivity. }
  subst t'.
  destruct (H _ _ _ Hrun [block3; block4] "/data/compact/0@1"
              ["/data/compact/0@1/3"; "/data/compact/0@1/4"] [zeroULID])
    as (Hmarks & _).
  - right; left.
  - do 6 right; left.
  - reflexivity.
  - destruct (proj2 (Hmarks 3%N)) as (d & e & Hin).
    + exists block3. split; [left | done].
    + in_phases Hin.
Qed.

(** C4, amended: when every block id returned by the merge is zero, the
    run returns reschedule=true with no error, and its events after the
    merge are those of a loop over the plan in which each block without
    samples (and no other) has its local directory removed and, provided
    that removal succeeded, its deletion mark written.  So every mark names
    an empty planned block whose directory was removed, and an empty
    planned block whose directory can be removed gets its mark. *)
Theorem empty_result_prunes_empty_inputs {S} (w : World) (c : BucketCompactor)
    (job : Job) (s : S) (t : Trace) (r : bool * list ULID * error) (s' : S)
    (new : Trace) :
  runCompactionJob w c job s t = (r, s', t ++ new) →
  ∀ plan dest dirs ids,
    EvPlan (job_metasByMinTime job) plan nil ∈ new →
    EvCompact dest dirs ids nil ∈ new →
    hasNonZeroULIDs ids = false →
    r = (true, [], nil) ∧
    (∃ pre dels e,
       new = pre ++ dels ++ [EvRemoveAll (subDirOf c job) e] ∧
       no_marks pre ∧ deleted_empty w (subDirOf c job) plan dels) ∧
    (∀ id d e, EvMarkForDeletion id d e ∈ new →
       ∃ m, m ∈ plan ∧ meta_ULID m = id ∧ meta_NumSamples m = 0%N ∧
            EvRemoveAll (blockDir (subDirOf c job) id) nil ∈ new) ∧
    (∀ m, m ∈ plan → meta_NumSamples m = 0%N →
       (∀ tr, os_RemoveAll w tr (blockDir (subDirOf c job) (meta_ULID m)) = nil) →
       ∃ e, EvMarkForDeletion (meta_ULID m) source_of_compacted_block e ∈ new).
Proof.
  intros Hrun plan dest dirs ids Hplan Hcompact Hzero.
  apply runCompactionJob_run in Hrun as [-> (new0 & tail & Heq & Hjob & Htail)].
  apply app_inv_head in Heq as ->.
  assert (EvPlan (job_metasByMinTime job) plan nil ∈ new0) as Hplan0.
  { apply elem_of_app in Hplan as [?|Hin]; [done|].
    exfalso. destruct Htail as [[-> _] | (e0 & -> & _)]; in_phases Hin. }
  assert (EvCompact dest dirs ids nil ∈ new0) as Hcompact0.
  { apply elem_of_app in Hcompact as [?|Hin]; [done|].
    exfalso. destruct Htail as [[-> _] | (e0 & -> & _)]; in_phases Hin. }
  destruct (job_run_empty_result _ _ _ _ _ _ _ _ _ Hjob Hplan0 Hcompact0 Hzero)
    as (-> & pre & dels & -> & Hpre & Hdels).
  destruct Htail as [[_ Hr] | (e0 & -> & _)]; [done|].
  split; [done|]. split; [|split].
  - exists pre, dels, e0. by rewrite <- app_assoc.
  - intros id d e Hin.
    assert (EvMarkForDeletion id d e ∈ dels) as Hd.
    { apply elem_of_app in Hin as [Hin|Hin]; [|in_phases Hin].
      apply elem_of_app in Hin as [Hin|Hin]; [by apply Hpre in Hin | done]. }
    destruct (deleted_empty_marks _ _ _ _ _ _ _ Hdels Hd)
      as (_ & m & Hm & Hid & Hn & Hrm).
    exists m. repeat split; try done. set_solver.
  - intros m Hm Hn Hrm.
    destruct (deleted_empty_attempts _ _ _ _ _ Hdels Hm Hn)
      as [(e & He & _ & tr & ->) | (e & He)].
    + by rewrite Hrm in He.
    + exists e. set_solver.
Qed.

Lemma empty_result_prunes_empty_inputs_witness :
  (runCompactionJob merge_is_empty compactor0 job_34 tt []).1.1
    = (true, [], nil) ∧
  ∃ e, EvMarkForDeletion 3 source_of_compacted_block e
         ∈ (runCompactionJob merge_is_empty compactor0 job_34 tt []).2.
Proof.
  destruct (runCompactionJob merge_is_empty compactor0 job_34 tt [])
    as [[r s'] t'] eqn:Hrun.
  assert (EvPlan (job_metasByMinTime job_34) [block3; block4] nil ∈ t') as Hplan.
  { apply (f_equal (λ x, x.2)) in Hrun. cbn [snd] in Hrun. rewrite <- Hrun.
    vm_compute. right; left. }
  assert (EvCompact "/data/compact/0@1"
            ["/data/compact/0@1/3"; "/data/compact/0@1/4"] [zeroULID] nil ∈ t')
    as Hcompact.
  { apply (f_equal (λ x, x.2)) in Hrun. cbn [snd] in Hrun. rewrite <- Hrun.
    vm_compute. do 6 right; left. }
  change t' with ([] ++ t') in Hrun.
  destruct (empty_result_prunes_empty_inputs _ _ _ _ _ _ _ _ Hrun
              _ _ _ _ Hplan Hcompact eq_refl) as (Hr & _ & _ & Hmark).
  cbn [fst snd]. split; [exact Hr|].
  apply (Hmark block3); [left | reflexivity | reflexivity].
Defined.

(* ===================================================================== *)
(** * Sorting, string order and group keys *)
(* ===================================================================== *)

Section SortSlice.

Context {A : Type} (less : A → A → bool).

Lemma insert_sorted_Permutation x l : insert_sorted less x l ≡ₚ x :: l.
Proof.
  induction l as [|y l IH]; cbn [insert_sorted]; [done|].
  destruct (less y x); [|done]. rewrite IH. apply perm_swap.
Qed.

Lemma sort_Slice_Permutation l : sort_Slice less l ≡ₚ l.
Proof.
  unfold sort_Slice. induction l as [|x l IH]; cbn [foldr]; [done|].
  by rewrite insert_sorted_Permutation, IH.
Qed.

Hypothesis less_asym : ∀ x y, less x y = true → less y x = false.
Hypothesis not_after_trans : ∀ x y z, (not_after less) x y → (not_after less) y z → (not_after less) x z.

Lemma insert_sorted_sorted x l :
  StronglySorted (not_after less) l → StronglySorted (not_after less) (insert_sorted less x l).
Proof.
  induction 1 as [|y l Hl IH Hy]; cbn [insert_sorted].
  - repeat constructor.
  - destruct (less y x) eqn:Hyx.
    + constructor; [done|].
      rewrite Forall_forall. intros z Hz.
      rewrite insert_sorted_Permutation in Hz.
      apply elem_of_cons in Hz as [->|Hz].
      * by apply less_asym.
      * rewrite Forall_forall in Hy. by apply Hy.
    + constructor; [by constructor|].
      constructor; [done|].
      rewrite Forall_forall in Hy |- *. intros z Hz.
      eapply not_after_trans; [exact Hyx | by apply Hy].
Qed.

Lemma sort_Slice_sorted l : StronglySorted (not_after less) (sort_Slice less l).
Proof.
  unfold sort_Slice. induction l as [|x l IH]; cbn [foldr]; [constructor|].
  by apply insert_sorted_sorted.
Qed.

End SortSlice.

Lemma string_less_false_le a b : string_less b a = false ↔ String.le a b.
Proof.
  unfold string_less, String.le, String.ltb, String.leb.
  rewrite (String.compare_antisym a b).
  destruct (b ?= a)%string; cbn; split; done.
Qed.

Lemma string_less_asym a b : string_less a b = true → string_less b a = false.
Proof.
  unfold string_less, String.ltb. rewrite (String.compare_antisym a b).
  by destruct (b ?= a)%string.
Qed.

Lemma string_le_neq_less a b : String.le a b → a ≠ b → string_less a b = true.
Proof.
  unfold string_less, String.le, String.ltb, String.leb. intros Hle Hne.
  destruct (a ?= b)%string eqn:Hc; try done.
  by apply String.compare_eq_iff in Hc.
Qed.

(** Sorting jobs by key: a permutation, strictly ascending when the keys
    are distinct. *)
Lemma sort_jobs_sorted (jobs : list Job) :
  NoDup (job_key <$> jobs) →
  StronglySorted (λ a b, string_less (job_key a) (job_key b) = true)
                 (sort_Slice job_less jobs).
Proof.
  intros Hnd.
  assert (StronglySorted (not_after job_less) (sort_Slice job_less jobs)) as Hs.
  { apply sort_Slice_sorted.
    - intros x y. apply string_less_asym.
    - intros x y z. unfold not_after, job_less.
      rewrite !string_less_false_le. apply transitivity. }
  assert (NoDup (job_key <$> sort_Slice job_less jobs)) as Hnd'.
  { by rewrite sort_Slice_Permutation. }
  induction Hs as [|j l Hl IH Hj]; [constructor|].
  rewrite fmap_cons in Hnd'. apply NoDup_cons in Hnd' as [Hnotin Hnd'].
  constructor; [by apply IH|].
  rewrite Forall_forall in Hj |- *. intros z Hz.
  apply string_le_neq_less.
  - apply string_less_false_le. by apply Hj.
  - intros Heq. apply Hnotin. rewrite Heq. by apply list_elem_of_fmap_2.
Qed.

Lemma pretty_N_go_no_at x : ∀ s, has_at s = false → has_at (pretty_N_go x s) = false.
Proof.
  induction (N.lt_wf_0 x) as [x _ IH]; intros s Hs.
  destruct (decide (x = 0)%N) as [->|Hx]; [by rewrite pretty_N_go_0|].
  rewrite pretty_N_go_step by lia. apply IH.
  - apply N.div_lt; lia.
  - cbn [has_at]. rewrite Hs.
    unfold pretty_N_char. by repeat case_match.
Qed.

Lemma pretty_N_no_at (x : N) : has_at (pretty x) = false.
Proof.
  unfold pretty, pretty_N. case_decide; [done|]. by apply pretty_N_go_no_at.
Qed.

Lemma pretty_Z_no_at (x : Z) : has_at (pretty x) = false.
Proof.
  destruct x as [|p|p]; [done| |].
  - apply (pretty_N_no_at (Npos p)).
  - change (pretty (Z.neg p)) with ("-" +:+ pretty (Npos p)).
    cbn. apply (pretty_N_no_at (Npos p)).
Qed.

Lemma app_at_inj s1 s2 t1 t2 :
  has_at s1 = false → has_at s2 = false →
  s1 +:+ String "@"%char t1 = s2 +:+ String "@"%char t2 → s1 = s2 ∧ t1 = t2.
Proof.
  revert s2. induction s1 as [|a s1 IH]; intros [|b s2] H1 H2 Heq;
    cbn in H1, H2, Heq.
  - by injection Heq as ->.
  - injection Heq as <- _. by rewrite Ascii.eqb_refl in H2.
  - injection Heq as -> _. by rewrite Ascii.eqb_refl in H1.
  - injection Heq as -> Heq.
    destruct (Ascii.eqb b "@"%char); [done|].
    destruct (IH s2 H1 H2 Heq) as [-> ->]. done.
Qed.

Section GroupKeys.

Variable Hash : gmap string string → N.

Lemma defaultGroupKey_inj res1 l1 res2 l2 :
  defaultGroupKey Hash res1 l1 = defaultGroupKey Hash res2 l2 ↔
  res1 = res2 ∧ Hash l1 = Hash l2.
Proof.
  unfold defaultGroupKey. split.
  - intros Heq.
    apply app_at_inj in Heq as [H1 H2]; try apply pretty_Z_no_at.
    split; [by apply (inj pretty) | by apply (inj pretty)].
  - by intros [-> ->].
Qed.

Lemma DefaultGroupKey_pair m1 m2 :
  DefaultGroupKey Hash m1 = DefaultGroupKey Hash m2 ↔
  meta_Resolution m1 = meta_Resolution m2 ∧
  Hash (meta_Labels m1) = Hash (meta_Labels m2).
Proof. apply defaultGroupKey_inj. Qed.

End GroupKeys.

(* ===================================================================== *)
(** * The default grouper *)
(* ===================================================================== *)

Lemma AppendMeta_ok job m :
  job_labels job = meta_Labels m → job_resolution job = meta_Resolution m →
  ∃ job', AppendMeta job m = (job', nil) ∧
    job_key job' = job_key job ∧ job_labels job' = job_labels job ∧
    job_resolution job' = job_resolution job ∧
    job_metasByMinTime job' ≡ₚ job_metasByMinTime job ++ [m].
Proof.
  intros Hl Hr. unfold AppendMeta.
  rewrite !bool_decide_eq_true_2 by done. cbn [negb].
  eexists. split; [done|]. cbn. repeat split; try done.
  apply sort_Slice_Permutation.
Qed.

Lemma AppendMeta_labels_mismatch job m :
  job_labels job ≠ meta_Labels m → (AppendMeta job m).2 ≠ nil.
Proof.
  intros Hl. unfold AppendMeta. by rewrite bool_decide_eq_false_2 by done.
Qed.

Lemma filter_none {A} (P : A → Prop) `{∀ x, Decision (P x)} (l : list A) :
  (∀ x, x ∈ l → ¬ P x) → filter P l = [].
Proof.
  induction l as [|x l IH]; intros Hl; [done|].
  rewrite filter_cons, decide_False by (apply Hl; left).
  apply IH. intros y Hy. apply Hl. by right.
Qed.

Section GroupsLoop.

Variable Hash : gmap string string → N.
Variable g : DefaultGrouper.

Lemma groups_inv_init : groups_inv Hash [] (mkGroupsState [] ∅ []).
Proof.
  repeat split; cbn; try done.
  - intros m Hm. by apply elem_of_nil in Hm.
Qed.

Lemma collision_free_snoc ms m :
  collision_free Hash ms →
  (∀ m0, m0 ∈ ms → DefaultGroupKey Hash m0 = DefaultGroupKey Hash m →
         meta_Labels m0 = meta_Labels m) →
  collision_free Hash (ms ++ [m]).
Proof.
  intros Hcf Hm m1 m2 [H1|H1]%elem_of_app [H2|H2]%elem_of_app Hk.
  - by apply Hcf.
  - apply list_elem_of_singleton in H2 as ->. by apply Hm.
  - apply list_elem_of_singleton in H1 as ->. symmetry. by apply Hm.
  - apply list_elem_of_singleton in H1 as ->.
    by apply list_elem_of_singleton in H2 as ->.
Qed.

(** A block whose group already has a job. *)
Lemma groupsStep_existing ms st m p :
  groups_inv Hash ms st → collision_free Hash ms →
  groups st !! DefaultGroupKey Hash m = Some p →
  let r := groupsStep Hash g st m in
  (r.2 = nil ∧ collision_free Hash (ms ++ [m]) ∧ groups_inv Hash (ms ++ [m]) r.1) ∨
  (r.2 ≠ nil ∧ ¬ collision_free Hash (ms ++ [m])).
Proof.
  intros (Hres & Hg1 & Hg2 & Hjobs & Hall) Hcf Hp.
  destruct (Hg1 _ _ Hp) as (j & Hj & Hkey).
  destruct (Hjobs _ _ Hj) as (Hmetas & m0 & Hm0 & Hk0 & Hl0 & Hr0).
  assert (meta_Resolution m0 = meta_Resolution m) as Hres0.
  { apply (DefaultGroupKey_pair Hash m0 m). congruence. }
  cbn zeta. unfold groupsStep. rewrite Hp, Hj.
  destruct (decide (job_labels j = meta_Labels m)) as [Hl|Hl].
  - destruct (AppendMeta_ok j m Hl ltac:(congruence))
      as (j' & -> & Hk' & Hl' & Hr' & Hm').
    cbn [is_nil negb fst snd]. left. split; [done|].
    assert (collision_free Hash (ms ++ [m])) as Hcf'.
    { apply collision_free_snoc; [done|]. intros m1 Hm1 Hk1.
      rewrite <- Hl, Hl0. apply Hcf; [done|done|congruence]. }
    split; [done|].
    assert (p < length (heap st)) as Hlt by (by eapply lookup_lt_Some).
    split; [|split; [|split; [|split]]]; cbn [res heap groups].
    + by rewrite length_insert.
    + intros k q Hq. destruct (decide (q = p)) as [->|Hne].
      * exists j'. rewrite list_lookup_insert_eq by done.
        split; [done|]. rewrite Hk'.
        destruct (Hg1 _ _ Hq) as (j2 & Hj2 & <-). congruence.
      * rewrite list_lookup_insert_ne by done. by apply Hg1.
    + intros q j2 Hq. destruct (decide (q = p)) as [->|Hne].
      * rewrite list_lookup_insert_eq in Hq by done.
        injection Hq as <-. rewrite Hk', Hkey. done.
      * rewrite list_lookup_insert_ne in Hq by done. by apply Hg2.
    + intros q j2 Hq. destruct (decide (q = p)) as [->|Hne].
      * rewrite list_lookup_insert_eq in Hq by done. injection Hq as <-.
        rewrite Hk', filter_app, filter_cons, filter_nil.
        rewrite decide_True by done. rewrite Hm', Hmetas. split; [done|].
        exists m0. rewrite Hl', Hr'. repeat split; try done. set_solver.
      * rewrite list_lookup_insert_ne in Hq by done.
        destruct (Hjobs _ _ Hq) as (Hmetas2 & m2 & Hm2 & Hk2 & Hl2 & Hr2).
        rewrite filter_app, filter_cons, filter_nil.
        rewrite decide_False, app_nil_r.
        2:{ intros Heq. apply Hne. apply Hg2 in Hq.
            rewrite <- Heq, Hp in Hq. by injection Hq. }
        split; [done|]. exists m2. repeat split; try done. set_solver.
    + intros m1 [Hm1|Hm1]%elem_of_app.
      * destruct (Hall _ Hm1) as (q & j2 & Hq & Hk2).
        destruct (decide (q = p)) as [->|Hne].
        -- exists p, j'. rewrite list_lookup_insert_eq by done.
           split; [done|]. congruence.
        -- exists q, j2. by rewrite list_lookup_insert_ne by done.
      * apply list_elem_of_singleton in Hm1 as ->.
        exists p, j'. rewrite list_lookup_insert_eq by done.
        split; [done|]. congruence.
  - pose proof (AppendMeta_labels_mismatch j m Hl) as Hfail.
    destruct (AppendMeta j m) as [j' err]. cbn [snd] in Hfail.
    apply is_nil_false in Hfail as Hnil. rewrite Hnil. cbn [negb snd].
    right. split; [by rewrite Wrap_nil_iff|].
    intros Hcf'. apply Hl. rewrite Hl0.
    apply Hcf'; [set_solver | set_solver | congruence].
Qed.

(** A block that opens a new group. *)
Lemma groupsStep_new ms st m :
  groups_inv Hash ms st → collision_free Hash ms →
  groups st !! DefaultGroupKey Hash m = None →
  let r := groupsStep Hash g st m in
  r.2 = nil ∧ collision_free Hash (ms ++ [m]) ∧ groups_inv Hash (ms ++ [m]) r.1.
Proof.
  intros (Hres & Hg1 & Hg2 & Hjobs & Hall) Hcf Hnone.
  assert (∀ q j2, heap st !! q = Some j2 →
                  job_key j2 ≠ DefaultGroupKey Hash m) as Hfresh.
  { intros q j2 Hq Heq. apply Hg2 in Hq. rewrite Heq in Hq. congruence. }
  assert (∀ m1, m1 ∈ ms → DefaultGroupKey Hash m1 ≠ DefaultGroupKey Hash m)
    as Hfresh'.
  { intros m1 Hm1 Heq. destruct (Hall _ Hm1) as (q & j2 & Hq & Hk).
    apply (Hfresh _ _ Hq). congruence. }
  cbn zeta. unfold groupsStep. rewrite Hnone. cbn [heap groups res].
  set (nj := NewJob (userID g) (DefaultGroupKey Hash m) (meta_Labels m)
                    (meta_Resolution m) (hashFunc g) false 0 "").
  rewrite list_lookup_middle by done.
  destruct (AppendMeta_ok nj m eq_refl eq_refl)
    as (j' & -> & Hk' & Hl' & Hr' & Hm').
  cbn [is_nil negb fst snd heap groups res].
  rewrite insert_app_r_alt by done. rewrite Nat.sub_diag. cbn [insert list_insert].
  split; [done|].
  split.
  { apply collision_free_snoc; [done|]. intros m1 Hm1 Hk1.
    by apply Hfresh' in Hm1. }
  split; [|split; [|split; [|split]]]; cbn [res heap groups].
  - rewrite length_app. cbn [length]. rewrite Nat.add_1_r, seq_S. by rewrite Hres.
  - intros k q Hq. destruct (decide (k = DefaultGroupKey Hash m)) as [->|Hne].
    + rewrite lookup_insert_eq in Hq. injection Hq as <-.
      exists j'. by rewrite list_lookup_middle.
    + rewrite lookup_insert_ne in Hq by done.
      destruct (Hg1 _ _ Hq) as (j2 & Hj2 & Hk2). exists j2.
      split; [|done]. by apply lookup_app_l_Some.
  - intros q j2 Hq. apply lookup_app_Some in Hq as [Hq | [Hge Hq]].
    + rewrite lookup_insert_ne by (symmetry; by eapply Hfresh). by apply Hg2.
    + destruct (q - length (heap st)) as [|n] eqn:Hn; [|done].
      injection Hq as <-. rewrite Hk'. cbn [nj NewJob job_key].
      rewrite lookup_insert_eq. f_equal. lia.
  - intros q j2 Hq. apply lookup_app_Some in Hq as [Hq | [Hge Hq]].
    + destruct (Hjobs _ _ Hq) as (Hmetas2 & m2 & Hm2 & Hk2 & Hl2 & Hr2).
      rewrite filter_app, filter_cons, filter_nil.
      rewrite decide_False, app_nil_r by (symmetry; by eapply Hfresh).
      split; [done|]. exists m2. repeat split; try done. set_solver.
    + destruct (q - length (heap st)) as [|n] eqn:Hn; [|done].
      injection Hq as <-. rewrite Hk', Hl', Hr', Hm'.
      cbn [nj NewJob job_key job_labels job_resolution job_metasByMinTime app].
      rewrite filter_app, filter_cons, filter_nil, decide_True by done.
      replace (filter (λ m1, DefaultGroupKey Hash m1 = DefaultGroupKey Hash m) ms)
        with ([] : list Meta); [|symmetry].
      * split; [done|]. exists m. repeat split; try done. set_solver.
      * apply filter_none. intros m1 Hm1. by apply Hfresh'.
  - intros m1 [Hm1|Hm1]%elem_of_app.
    + destruct (Hall _ Hm1) as (q & j2 & Hq & Hk2). exists q, j2.
      split; [|done]. by apply lookup_app_l_Some.
    + apply list_elem_of_singleton in Hm1 as ->.
      exists (length (heap st)), j'. by rewrite list_lookup_middle.
Qed.

Lemma groupsStep_spec ms st m :
  groups_inv Hash ms st → collision_free Hash ms →
  let r := groupsStep Hash g st m in
  (r.2 = nil ∧ collision_free Hash (ms ++ [m]) ∧ groups_inv Hash (ms ++ [m]) r.1) ∨
  (r.2 ≠ nil ∧ ¬ collision_free Hash (ms ++ [m])).
Proof.
  intros Hinv Hcf.
  destruct (groups st !! DefaultGroupKey Hash m) as [p|] eqn:Hp.
  - by eapply groupsStep_existing.
  - left. by apply groupsStep_new.
Qed.

Lemma collision_free_prefix ms rest :
  collision_free Hash (ms ++ rest) → collision_free Hash ms.
Proof. intros H m1 m2 H1 H2. apply H; set_solver. Qed.

Lemma groupsLoop_spec rest :
  ∀ ms st, groups_inv Hash ms st → collision_free Hash ms →
    let r := groupsLoop Hash g rest st in
    (r.2 = nil ∧ collision_free Hash (ms ++ rest) ∧ groups_inv Hash (ms ++ rest) r.1) ∨
    (r.2 ≠ nil ∧ ¬ collision_free Hash (ms ++ rest)).
Proof.
  induction rest as [|m rest IH]; intros ms st Hinv Hcf; cbn zeta.
  - cbn [groupsLoop fst snd]. rewrite app_nil_r. by left.
  - cbn [groupsLoop].
    destruct (groupsStep_spec ms st m Hinv Hcf) as [(He & Hcf' & Hinv') | (He & Hncf)];
      destruct (groupsStep Hash g st m) as [st' err]; cbn [fst snd] in *.
    + subst err. cbn [is_nil negb].
      replace (ms ++ m :: rest) with ((ms ++ [m]) ++ rest)
        by (by rewrite <- app_assoc).
      by apply IH.
    + apply is_nil_false in He as Hnil. rewrite Hnil. cbn [negb snd].
      right. split; [done|]. intros Hcf'. apply Hncf.
      apply (collision_free_prefix _ rest). by rewrite <- app_assoc.
Qed.

End GroupsLoop.

Lemma omap_lookup_seq {A} (l pre : list A) :
  omap (λ p, (pre ++ l) !! p) (seq (length pre) (length l)) = l.
Proof.
  revert pre. induction l as [|x l IH]; intros pre; [done|].
  cbn [length seq omap list_omap]. rewrite list_lookup_middle by done.
  f_equal. specialize (IH (pre ++ [x])).
  rewrite length_app, Nat.add_1_r, <- app_assoc in IH. exact IH.
Qed.

Lemma elem_of_rangeValues code (blocks : gmap ULID Meta) m :
  m ∈ rangeValues code blocks ↔ ∃ id, blocks !! id = Some m.
Proof.
  unfold rangeValues. rewrite elem_of_shuffle, list_elem_of_fmap. split.
  - intros ([id m'] & -> & Hin). apply elem_of_map_to_list in Hin. eauto.
  - intros [id Hm]. exists (id, m). split; [done|]. by apply elem_of_map_to_list.
Qed.

Section GroupsResult.

Variable Hash : gmap string string → N.

Lemma blocks_collision_free_range code blocks :
  blocks_collision_free Hash blocks ↔ collision_free Hash (rangeValues code blocks).
Proof.
  split.
  - intros H m1 m2 [id1 H1]%elem_of_rangeValues [id2 H2]%elem_of_rangeValues.
    by eapply H.
  - intros H id1 id2 m1 m2 H1 H2. apply H; apply elem_of_rangeValues; eauto.
Qed.

Lemma groups_inv_NoDup ms st :
  groups_inv Hash ms st → NoDup (job_key <$> heap st).
Proof.
  intros (_ & _ & Hg2 & _). apply NoDup_alt. intros i j k Hi Hj.
  rewrite list_lookup_fmap in Hi, Hj.
  destruct (heap st !! i) as [ji|] eqn:Hji; [|done].
  destruct (heap st !! j) as [jj|] eqn:Hjj; [|done].
  cbn in Hi, Hj. injection Hi as Hi. injection Hj as Hj.
  apply Hg2 in Hji, Hjj. rewrite Hi in Hji. rewrite Hj in Hjj. congruence.
Qed.

Lemma Groups_outcome g code blocks :
  (blocks_collision_free Hash blocks →
     ∃ jobs, Groups Hash g code blocks = (jobs, nil) ∧
             partition_by_key Hash blocks jobs) ∧
  (¬ blocks_collision_free Hash blocks →
     ∃ err, Groups Hash g code blocks = ([], err) ∧ err ≠ nil).
Proof.
  unfold Groups.
  destruct (groupsLoop_spec Hash g (rangeValues code blocks) []
              (mkGroupsState [] ∅ []) (groups_inv_init Hash))
    as [(He & Hcf & Hinv) | (He & Hncf)].
  { intros m1 m2 H1. by apply elem_of_nil in H1. }
  - cbn [app] in Hcf, Hinv.
    destruct (groupsLoop Hash g (rangeValues code blocks) _) as [st err].
    cbn [fst snd] in *. subst err. cbn [is_nil negb].
    split; [intros _ | intros Hn; by apply blocks_collision_free_range in Hcf].
    eexists. split; [done|].
    pose proof (groups_inv_NoDup _ _ Hinv) as Hnd.
    destruct Hinv as (Hres & Hg1 & Hg2 & Hjobs & Hall).
    pose proof (omap_lookup_seq (heap st) []) as Hheap.
    cbn [app length] in Hheap. rewrite Hres, Hheap.
    split; [by rewrite sort_Slice_Permutation|].
    split; [|split].
    + intros k. rewrite sort_Slice_Permutation, list_elem_of_fmap. split.
      * intros (j & -> & Hj). apply list_elem_of_lookup in Hj as [p Hp].
        destruct (Hjobs _ _ Hp) as (_ & m0 & Hm0 & Hk0 & _).
        apply elem_of_rangeValues in Hm0 as [id Hid]. eauto.
      * intros (id & m & Hid & <-).
        destruct (Hall m) as (p & j & Hp & Hk).
        { apply elem_of_rangeValues. eauto. }
        exists j. split; [done|]. by eapply list_elem_of_lookup_2.
    + intros j Hj. rewrite sort_Slice_Permutation in Hj.
      apply list_elem_of_lookup in Hj as [p Hp].
      destruct (Hjobs _ _ Hp) as (Hmetas & _). rewrite Hmetas.
      unfold rangeValues. by rewrite shuffle_Permutation.
    + by apply sort_jobs_sorted.
  - cbn [app] in Hncf.
    destruct (groupsLoop Hash g (rangeValues code blocks) _) as [st err].
    cbn [fst snd] in *. apply is_nil_false in He as Hnil. rewrite Hnil.
    cbn [negb].
    split; [intros Hcf; by apply (blocks_collision_free_range code) in Hcf|].
    intros _. by exists err.
Qed.

End GroupsResult.

(** C5, amended: a group key stands for one (resolution, label hash) pair;
    for a map of block metas in which blocks with the same pair carry the
    same external labels, [Groups] returns exactly one job per pair that
    occurs, each job holding exactly the blocks of its pair, sorted by key
    in strictly ascending order; for a map in which two blocks share the
    pair but not the labels, [Groups] returns no jobs and an error. *)
Theorem Groups_partitions_by_key (Hash : gmap string string → N)
    (g : DefaultGrouper) (code : list nat) (blocks : gmap ULID Meta) :
  (∀ m1 m2, DefaultGroupKey Hash m1 = DefaultGroupKey Hash m2 ↔
            meta_Resolution m1 = meta_Resolution m2 ∧
            Hash (meta_Labels m1) = Hash (meta_Labels m2)) ∧
  (blocks_collision_free Hash blocks →
     ∃ jobs, Groups Hash g code blocks = (jobs, nil) ∧
             partition_by_key Hash blocks jobs) ∧
  ((∃ id1 id2 m1 m2, blocks !! id1 = Some m1 ∧ blocks !! id2 = Some m2 ∧
      DefaultGroupKey Hash m1 = DefaultGroupKey Hash m2 ∧
      meta_Labels m1 ≠ meta_Labels m2) →
     ∃ err, Groups Hash g code blocks = ([], err) ∧ err ≠ nil).
Proof.
  split; [apply DefaultGroupKey_pair|].
  destruct (Groups_outcome Hash g code blocks) as [Hok Hfail].
  split; [done|].
  intros (id1 & id2 & m1 & m2 & H1 & H2 & Hk & Hl). apply Hfail.
  intros Hcf. apply Hl. by eapply Hcf.
Qed.

Local Open Scope nat_scope.

(** The pigeonhole principle, for the hash collisions it forces. *)
Lemma bounded_search (f : nat → nat) (v n : nat) :
  (∃ i, i ≤ n ∧ f i = v) ∨ (∀ i, i ≤ n → f i ≠ v).
Proof.
  induction n as [|n [(i & Hi & Hv) | Hnone]].
  - destruct (decide (f 0 = v)) as [Hv|Hv]; [left; exists 0; auto|].
    right. intros i Hi. by replace i with 0 by lia.
  - left. exists i. split; [lia | done].
  - destruct (decide (f (S n) = v)) as [Hv|Hv]; [left; exists (S n); auto|].
    right. intros i Hi. destruct (decide (i = S n)) as [->|Hne]; [done|].
    apply Hnone. lia.
Qed.

Lemma pigeonhole (n : nat) :
  ∀ f : nat → nat, (∀ i, i ≤ n → f i < n) → ∃ i j, i < j ≤ n ∧ f i = f j.
Proof.
  induction n as [|n IH]; intros f Hf.
  - specialize (Hf 0 (Nat.le_refl 0)). lia.
  - destruct (bounded_search f (f (S n)) n) as [(i & Hi & Hv) | Hnone].
    { exists i, (S n). split; [lia | done]. }
    pose (f' := λ i, if decide (f i = n) then f (S n) else f i).
    destruct (IH f') as (i & j & Hij & Heq).
    { intros i Hi. unfold f'. case_decide as Hfi.
      - assert (f (S n) < S n) by (apply Hf; lia).
        assert (f i ≠ f (S n)) by (by apply Hnone). lia.
      - assert (f i < S n) by (apply Hf; lia). lia. }
    exists i, j. split; [lia|]. unfold f' in Heq.
    assert (f i ≠ f (S n)) by (apply Hnone; lia).
    assert (f j ≠ f (S n)) by (apply Hnone; lia).
    repeat case_decide; congruence.
Qed.

Lemma hash_collision (Hash : gmap string string → N) (bound : N) :
  (∀ lbls, (Hash lbls < bound)%N) →
  ∃ l1 l2, l1 ≠ l2 ∧ Hash l1 = Hash l2.
Proof.
  intros Hbound.
  pose (lab := λ i : nat, ({[ "shard" := pretty i ]} : gmap string string)).
  destruct (pigeonhole (N.to_nat bound) (λ i, N.to_nat (Hash (lab i))))
    as (i & j & Hij & Heq).
  { intros i _. specialize (Hbound (lab i)). lia. }
  exists (lab i), (lab j). split.
  - intros Hlab. apply (f_equal (λ l, l !! "shard")) in Hlab.
    unfold lab in Hlab. rewrite !lookup_singleton_eq in Hlab.
    injection Hlab as Hlab. apply (inj pretty) in Hlab. lia.
  - by apply N2Nat.inj.
Qed.

(** C5 fails as worded: whatever 64-bit function hashes the label sets,
    two different label sets share a hash, and on two blocks of the same
    resolution carrying them [Groups] returns an error instead of jobs. *)
Lemma Groups_fails_on_hash_collision :
  ¬ ∃ Hash : gmap string string → N,
      (∀ lbls, (Hash lbls < 2 ^ 64)%N) ∧
      ∀ g code blocks, Groups_as_stated Hash g code blocks.
Proof.
  intros (Hash & Hbound & Hclaim).
  destruct (hash_collision Hash _ Hbound) as (l1 & l2 & Hne & Heq).
  pose (blocks := ({[ 1%N := mkMeta 1 0 100 1 100 l1 0;
                      2%N := mkMeta 2 100 200 1 100 l2 0 ]} : gmap ULID Meta)).
  destruct (Hclaim grouper0 [] blocks) as (jobs & Hrun & _).
  destruct (Groups_outcome Hash grouper0 [] blocks) as [_ Hfail].
  destruct Hfail as (err & Herr & Hnil).
  - intros Hcf. apply Hne.
    apply (Hcf 1%N 2%N (mkMeta 1 0 100 1 100 l1 0) (mkMeta 2 100 200 1 100 l2 0)).
    + unfold blocks. by rewrite lookup_insert_eq.
    + unfold blocks. rewrite lookup_insert_ne by done.
      by rewrite lookup_singleton_eq.
    + apply DefaultGroupKey_pair. done.
  - rewrite Hrun in Herr. by injection Herr as _ <-.
Qed.

(** The same on explicit blocks, with a hash that can be computed: the
    label sets [tenant=a] and [tenant=b] collide under [toy_hash]. *)
Example Groups_collision_example :
  Groups toy_hash grouper0 [] colliding_blocks
    = ([], Wrap ErrLabelsMismatch "add compaction group").
Proof. vm_compute. reflexivity. Qed.

Lemma four_blocks_collision_free : blocks_collision_free toy_hash four_blocks.
Proof.
  intros id1 id2 m1 m2 H1 H2 Hk.
  apply elem_of_map_to_list in H1, H2.
  vm_compute in H1, H2.
  repeat (apply elem_of_cons in H1 as [H1|H1]);
    try (by apply elem_of_nil in H1); injection H1 as -> ->;
    repeat (apply elem_of_cons in H2 as [H2|H2]);
    try (by apply elem_of_nil in H2); injection H2 as -> ->;
    try reflexivity; vm_compute in Hk; discriminate Hk.
Qed.

Lemma Groups_partitions_by_key_witness :
  ∃ jobs, Groups toy_hash grouper0 [2; 0; 1] four_blocks = (jobs, nil) ∧
          job_key <$> jobs = ["0@7"; "0@8"; "300000@7"] ∧
          partition_by_key toy_hash four_blocks jobs.
Proof.
  destruct (Groups_partitions_by_key toy_hash grouper0 [2; 0; 1] four_blocks)
    as (_ & Hok & _).
  destruct (Hok four_blocks_collision_free) as (jobs & Hrun & Hpart).
  exists jobs. split; [exact Hrun|]. split; [|exact Hpart].
  apply (f_equal (λ r, job_key <$> r.1)) in Hrun. cbn [fst] in Hrun.
  rewrite <- Hrun. vm_compute. reflexivity.
Defined.

Local Open Scope string_scope.
Local Open Scope list_scope.
Local Open Scope go_scope.

(* ===================================================================== *)
(** * More on the classification of errors *)
(* ===================================================================== *)

Lemma IsIssue347Error_Wrap e msg : IsIssue347Error (Wrap e msg) = IsIssue347Error e.
Proof. unfold IsIssue347Error. by rewrite Cause_Wrap. Qed.

Lemma IsOutOfOrderChunkError_Wrap e msg :
  IsOutOfOrderChunkError (Wrap e msg) = IsOutOfOrderChunkError e.
Proof. unfold IsOutOfOrderChunkError. by rewrite Cause_Wrap. Qed.

Lemma Cause_foldl_Wrap msgs : ∀ e, Cause (foldl Wrap e msgs) = Cause e.
Proof.
  induction msgs as [|msg msgs IH]; intros e; [done|].
  cbn [foldl]. by rewrite IH, Cause_Wrap.
Qed.

(** X1: wrapping an error with any number of messages ([errors.Wrap],
    [errors.Wrapf]) changes neither its cause nor any of its four
    classifications: halt, retry, issue 347, out-of-order chunks. *)
Theorem classification_sees_through_Wrap (e : error) (msgs : list string) :
  Cause (foldl Wrap e msgs) = Cause e ∧
  IsHaltError (foldl Wrap e msgs) = IsHaltError e ∧
  IsRetryError (foldl Wrap e msgs) = IsRetryError e ∧
  IsIssue347Error (foldl Wrap e msgs) = IsIssue347Error e ∧
  IsOutOfOrderChunkError (foldl Wrap e msgs) = IsOutOfOrderChunkError e.
Proof.
  pose proof (Cause_foldl_Wrap msgs e) as HC.
  unfold IsHaltError, IsRetryError, IsIssue347Error, IsOutOfOrderChunkError.
  rewrite HC. done.
Qed.

Lemma classes_of_cause c :
  Cause c = c →
  (IsHaltError c && IsRetryError c = false) ∧
  (IsHaltError c && IsIssue347Error c = false) ∧
  (IsHaltError c && IsOutOfOrderChunkError c = false) ∧
  (IsRetryError c && IsIssue347Error c = false) ∧
  (IsRetryError c && IsOutOfOrderChunkError c = false) ∧
  (IsIssue347Error c && IsOutOfOrderChunkError c = false).
Proof.
  intros Hc.
  assert (IsHaltError c && IsRetryError c = false) as H1.
  { destruct (IsHaltError c) eqn:Hh; [|done]. by rewrite IsHaltError_not_Retry. }
  split; [done|]. clear H1.
  unfold IsHaltError, IsRetryError, IsIssue347Error, IsOutOfOrderChunkError.
  rewrite Hc. destruct c; cbn; rewrite ?andb_false_r; done.
Qed.

(** X2: the four classifications exclude one another: no error is
    classified in two of halt, retry, issue 347 and out-of-order chunks. *)
Theorem error_classes_exclusive (e : error) :
  (IsHaltError e && IsRetryError e = false) ∧
  (IsHaltError e && IsIssue347Error e = false) ∧
  (IsHaltError e && IsOutOfOrderChunkError e = false) ∧
  (IsRetryError e && IsIssue347Error e = false) ∧
  (IsRetryError e && IsOutOfOrderChunkError e = false) ∧
  (IsIssue347Error e && IsOutOfOrderChunkError e = false).
Proof.
  pose proof (classes_of_cause (Cause e) (Cause_idem e)) as H.
  rewrite !IsHaltError_Cause, !IsRetryError_Cause in H.
  unfold IsIssue347Error, IsOutOfOrderChunkError in *.
  rewrite !Cause_idem in H. exact H.
Qed.

Lemma IsHaltError_not_special e :
  IsHaltError e = true →
  IsIssue347Error e = false ∧ IsOutOfOrderChunkError e = false.
Proof.
  unfold IsHaltError, IsIssue347Error, IsOutOfOrderChunkError.
  by destruct (Cause e).
Qed.

(** X3: [retry] never returns nil, keeps the halt classification of its
    argument, returns a retry-classified error exactly when the argument is
    not halt-classified, and its result never carries a block verdict. *)
Theorem retry_total_classification (e : error) :
  retry e ≠ nil ∧
  IsHaltError (retry e) = IsHaltError e ∧
  IsRetryError (retry e) = negb (IsHaltError e) ∧
  IsIssue347Error (retry e) = false ∧
  IsOutOfOrderChunkError (retry e) = false.
Proof.
  destruct (IsHaltError e) eqn:Hh.
  - rewrite (retry_of_halt e Hh), Hh, (IsHaltError_not_Retry e Hh).
    destruct (IsHaltError_not_special e Hh) as [-> ->].
    split; [|done]. intros ->. discriminate.
  - rewrite (retry_of_non_halt e Hh). done.
Qed.

(* ===================================================================== *)
(** * More on garbage collection *)
(* ===================================================================== *)

Lemma elem_of_garbageIDs dm dups id :
  id ∈ garbageIDs dm dups ↔ id ∈ dups ∧ dm !! id = None.
Proof.
  induction dups as [|d dups IH]; cbn [garbageIDs].
  - split; [by intros ?%elem_of_nil | by intros [?%elem_of_nil _]].
  - destruct (dm !! d) eqn:Hd.
    + rewrite IH, elem_of_cons. split; [naive_solver|].
      intros [[->|?] ?]; [congruence|done].
    + rewrite !elem_of_cons, IH. split; [naive_solver|].
      intros [[->|?] ?]; auto.
Qed.

Lemma garbageIDs_nil dm dups :
  garbageIDs dm dups = [] ↔ ∀ id, id ∈ dups → is_Some (dm !! id).
Proof.
  split.
  - intros Hnil id Hin. destruct (dm !! id) eqn:Hd; [eauto|].
    assert (id ∈ garbageIDs dm dups) as H by by apply elem_of_garbageIDs.
    rewrite Hnil in H. by apply elem_of_nil in H.
  - intros Hall. destruct (garbageIDs dm dups) as [|id l] eqn:Hg; [done|].
    assert (id ∈ garbageIDs dm dups) as [Hin Hnone]%elem_of_garbageIDs
      by (rewrite Hg; left).
    destruct (Hall id Hin) as [x Hx]. congruence.
Qed.

(** What the marking loop does to the bucket and to the snapshot, whatever
    its outcome: it writes marks for ids of its list only, and only ever
    deletes from [blocks]. *)
Lemma markGarbage_marks w ids :
  ∀ s t err s' t',
    markGarbage w ids s t = (err, s', t') →
    ∃ new, t' = t ++ new ∧
      (∀ id d e, EvMarkForDeletion id d e ∈ new → d = outdated_block ∧ id ∈ ids) ∧
      partial s' = partial s ∧ duplicateIDs s' = duplicateIDs s ∧
      deletionMarkMap s' = deletionMarkMap s ∧
      blocks s' ⊆ blocks s.
Proof.
  induction ids as [|id ids IH]; intros s t err s' t' Hrun.
  - cbn in Hrun. injection Hrun as <- <- <-.
    exists []. rewrite app_nil_r. split; [done|].
    split; [by intros ??? ?%elem_of_nil|]. done.
  - cbn [markGarbage] in Hrun. run_step.
    destruct (is_nil (ctx_Err w t)) eqn:Hctx; run_step.
    + set (merr := block_MarkForDeletion w t id outdated_block) in *.
      destruct (is_nil merr) eqn:Hm; run_step.
      * apply IH in Hrun as (new & -> & Hmarks & Hp & Hd & Hdm & Hb).
        cbn [partial duplicateIDs deletionMarkMap blocks set_blocks] in *.
        exists ([EvMarkForDeletion id outdated_block merr;
                 EvInc "garbage_collected_blocks"] ++ new).
        split; [by rewrite <- !app_assoc|]. split.
        -- intros i d e [Hin|Hin]%elem_of_app.
           ++ apply elem_of_cons in Hin as [[= -> -> ->]|Hin]; [split; [done|left]|].
              apply list_elem_of_singleton in Hin. discriminate.
           ++ destruct (Hmarks i d e Hin). split; [done|by right].
        -- repeat split; try done.
           etrans; [exact Hb|]. apply delete_subseteq.
      * injection Hrun as <- <- <-.
        exists [EvMarkForDeletion id outdated_block merr;
                EvInc "garbage_collection_failures"].
        split; [by rewrite <- !app_assoc|]. split; [|done].
        intros i d e Hin.
        apply elem_of_cons in Hin as [[= -> -> ->]|Hin]; [split; [done|left]|].
        apply list_elem_of_singleton in Hin. discriminate.
    + injection Hrun as <- <- <-. exists []. rewrite app_nil_r.
      split; [done|]. split; [by intros ??? ?%elem_of_nil|]. done.
Qed.

(** X4: whatever [GarbageCollect] returns, every deletion mark it wrote
    names a duplicate block that had no deletion mark, with the detail
    "outdated block"; it only removes entries from the snapshot and leaves
    the partial blocks, the duplicates and the deletion marks as they were. *)
Theorem GarbageCollect_marks_only_garbage (w : World) (s : Syncer) (t : Trace)
    (err : error) (s' : Syncer) (t' : Trace) :
  GarbageCollect w s t = (err, s', t') →
  ∃ new, t' = t ++ new ∧
    (∀ id d e, EvMarkForDeletion id d e ∈ new →
       d = outdated_block ∧ id ∈ duplicateIDs s ∧ deletionMarkMap s !! id = None) ∧
    Partial s' = Partial s ∧
    duplicateIDs s' = duplicateIDs s ∧
    deletionMarkMap s' = deletionMarkMap s ∧
    Metas s' ⊆ Metas s.
Proof.
  unfold GarbageCollect, Partial, Metas. run_step. intros Hrun.
  destruct (markGarbage w (garbageIDs (deletionMarkMap s) (duplicateIDs s)) s t)
    as [[e s1] t1] eqn:Hloop.
  apply markGarbage_marks in Hloop as (new & -> & Hmarks & Hp & Hd & Hdm & Hb).
  assert (∀ id d e0, EvMarkForDeletion id d e0 ∈ new →
            d = outdated_block ∧ id ∈ duplicateIDs s ∧
            deletionMarkMap s !! id = None) as Hmarks'.
  { intros id d e0 Hin. destruct (Hmarks id d e0 Hin) as [-> Hg].
    apply elem_of_garbageIDs in Hg. done. }
  destruct (is_nil e) eqn:He; cbn [negb] in Hrun; injection Hrun as <- <- <-.
  - exists (new ++ [EvInc "garbage_collections"]).
    split; [by rewrite app_assoc|]. split; [|done].
    intros id d e0 [Hin|Hin]%elem_of_app; [by apply (Hmarks' id d e0)|].
    apply list_elem_of_singleton in Hin. discriminate.
  - exists new. done.
Qed.

Lemma GarbageCollect_marks_only_garbage_witness :
  Metas (GarbageCollect marks_time_out two_duplicates []).1.2
    ⊆ Metas two_duplicates ∧
  Forall (λ ev, ∀ id d e, ev = EvMarkForDeletion id d e → d = outdated_block)
         (GarbageCollect marks_time_out two_duplicates []).2.
Proof.
  destruct (GarbageCollect marks_time_out two_duplicates [])
    as [[err s'] t'] eqn:Hrun.
  destruct (GarbageCollect_marks_only_garbage _ _ _ _ _ _ Hrun)
    as (new & Hnew & Hmarks & _ & _ & _ & Hsub).
  cbn [app] in Hnew. subst new. cbn [fst snd]. split; [exact Hsub|].
  apply Forall_forall. intros ev Hin id d e ->.
  by destruct (Hmarks id d e Hin).
Defined.

Lemma markGarbage_success w ids :
  ∀ s t s' t',
    markGarbage w ids s t = (nil, s', t') →
    t' = t ++ gcEvents ids ∧
    s' = set_blocks s (deleteAll ids (blocks s)).
Proof.
  induction ids as [|id ids IH]; intros s t s' t' Hrun.
  - cbn in Hrun. injection Hrun as <- <-. rewrite app_nil_r.
    split; [done|]. by destruct s.
  - cbn [markGarbage] in Hrun. run_step.
    destruct (is_nil (ctx_Err w t)) eqn:Hctx; run_step.
    + set (merr := block_MarkForDeletion w t id outdated_block) in *.
      destruct (is_nil merr) eqn:Hm; run_step.
      * apply is_nil_true in Hm. rewrite Hm in Hrun.
        apply IH in Hrun as [-> ->]. cbn [blocks set_blocks gcEvents flat_map].
        split; [by rewrite <- !app_assoc|]. done.
      * injection Hrun as Hr _ _. exfalso.
        apply is_nil_false in Hm.
        by apply (retry_not_nil (Wrap merr ("mark block " +:+ ULID_String id +:+ " for deletion"))); [rewrite Wrap_nil_iff|].
    + injection Hrun as Hr _ _. rewrite Hr in Hctx. done.
Qed.

Lemma GarbageCollect_ok w s t s' t' :
  GarbageCollect w s t = (nil, s', t') →
  t' = t ++ gcEvents (garbageIDs (deletionMarkMap s) (duplicateIDs s))
         ++ [EvInc "garbage_collections"] ∧
  s' = set_blocks s (deleteAll (garbageIDs (deletionMarkMap s) (duplicateIDs s))
                               (blocks s)).
Proof.
  unfold GarbageCollect. run_step. intros Hrun.
  destruct (markGarbage w (garbageIDs (deletionMarkMap s) (duplicateIDs s)) s t)
    as [[e s1] t1] eqn:Hloop.
  destruct (is_nil e) eqn:He; cbn [negb] in Hrun.
  2:{ injection Hrun as Hr _ _. rewrite Hr in He. done. }
  injection Hrun as <- <-. apply is_nil_true in He as ->.
  apply markGarbage_success in Hloop as [-> ->].
  split; [by rewrite <- app_assoc|done].
Qed.

(** X5: when [GarbageCollect] returns nil, it has marked every duplicate
    without a deletion mark, in the order of the duplicate list, counted
    each of them, counted the run once at the end, and removed exactly
    these blocks from the snapshot. *)
Theorem GarbageCollect_success (w : World) (s : Syncer) (t : Trace)
    (s' : Syncer) (t' : Trace) :
  GarbageCollect w s t = (nil, s', t') →
  t' = t ++ gcEvents (garbageIDs (deletionMarkMap s) (duplicateIDs s))
         ++ [EvInc "garbage_collections"] ∧
  s' = set_blocks s (deleteAll (garbageIDs (deletionMarkMap s) (duplicateIDs s))
                               (blocks s)) ∧
  (∀ id, id ∈ duplicateIDs s → deletionMarkMap s !! id = None →
         Metas s' !! id = None) ∧
  (∀ id, id ∉ duplicateIDs s → Metas s' !! id = Metas s !! id).
Proof.
  intros Hrun. apply GarbageCollect_ok in Hrun as [-> ->].
  split; [done|]. split; [done|]. unfold Metas. cbn [blocks set_blocks]. split.
  - intros id Hin Hnone. rewrite lookup_deleteAll, bool_decide_true; [done|].
    by apply elem_of_garbageIDs.
  - intros id Hnot. rewrite lookup_deleteAll, bool_decide_false; [done|].
    intros [? _]%elem_of_garbageIDs. done.
Qed.

Lemma GarbageCollect_success_witness :
  (GarbageCollect quiet two_duplicates []).2
    = gcEvents [1%N; 2%N] ++ [EvInc "garbage_collections"] ∧
  Metas (GarbageCollect quiet two_duplicates []).1.2 !! 1%N = None.
Proof.
  destruct (GarbageCollect quiet two_duplicates []) as [[err s'] t'] eqn:Hrun.
  assert (err = nil) as ->.
  { apply (f_equal (λ r, r.1.1)) in Hrun. vm_compute in Hrun. by rewrite <- Hrun. }
  destruct (GarbageCollect_success _ _ _ _ _ Hrun) as (Ht & _ & Hgone & _).
  cbn [fst snd]. split.
  - rewrite Ht. vm_compute. reflexivity.
  - apply Hgone; [|reflexivity]. vm_compute. left.
Defined.

(** X6: when every duplicate already carries a deletion mark (or there is
    no duplicate), [GarbageCollect] neither consults the context nor writes
    to the bucket: it counts the run and returns nil, the snapshot
    unchanged, even if the context is cancelled. *)
Theorem GarbageCollect_nothing_to_do (w : World) (s : Syncer) (t : Trace) :
  (∀ id, id ∈ duplicateIDs s → is_Some (deletionMarkMap s !! id)) →
  GarbageCollect w s t = (nil, s, t ++ [EvInc "garbage_collections"]).
Proof.
  intros Hall. apply garbageIDs_nil in Hall.
  unfold GarbageCollect. run_step. rewrite Hall. cbn. done.
Qed.

Lemma GarbageCollect_nothing_to_do_witness :
  GarbageCollect marks_time_out both_marked []
    = (nil, both_marked, [EvInc "garbage_collections"]).
Proof.
  apply (GarbageCollect_nothing_to_do marks_time_out both_marked []).
  intros id Hin. cbn in Hin.
  apply elem_of_cons in Hin as [->|Hin]; [by eexists|].
  apply elem_of_cons in Hin as [->|Hin]; [by eexists|].
  by apply elem_of_nil in Hin.
Defined.

(* ===================================================================== *)
(** * More on the no-compaction mark filter *)
(* ===================================================================== *)

Lemma readIDs_app tr1 tr2 : readIDs (tr1 ++ tr2) = readIDs tr1 ++ readIDs tr2.
Proof.
  induction tr1 as [|ev tr1 IH]; [done|].
  destruct ev; cbn [app readIDs]; rewrite ?IH; done.
Qed.

Lemma markedIDs_app tr1 tr2 :
  markedIDs (tr1 ++ tr2) = markedIDs tr1 ++ markedIDs tr2.
Proof.
  induction tr1 as [|ev tr1 IH]; [done|].
  destruct ev as [| | | | | | | | | | |id e|]; cbn [app markedIDs]; rewrite ?IH; try done.
  destruct e; cbn; rewrite ?IH; done.
Qed.

Lemma countInc_app c tr1 tr2 :
  countInc c (tr1 ++ tr2) = countInc c tr1 + countInc c tr2.
Proof.
  induction tr1 as [|ev tr1 IH]; [done|].
  destruct ev; cbn [app countInc]; rewrite ?IH; lia.
Qed.

Lemma elem_of_markedIDs tr id : id ∈ markedIDs tr ↔ EvReadMarker id nil ∈ tr.
Proof.
  induction tr as [|ev tr IH].
  - split; intros H; by apply elem_of_nil in H.
  - rewrite (elem_of_cons tr).
    destruct ev as [| | | | | | | | | | |i e|]; cbn [markedIDs];
      try (rewrite IH; split; [by right | by intros [?|?]]).
    destruct e; try (rewrite IH; split; [by right | by intros [?|?]]).
    rewrite elem_of_cons, IH. split; [intros [->|?]; auto | intros [[= ->]|?]; auto].
Qed.

Lemma mark_inv_skip w metas remove t0 done ixj first first' st t :
  first' ≠ nil →
  mark_inv w metas remove t0 done first st t →
  mark_inv w metas remove t0 (done ++ [ixj]) first' st t.
Proof.
  intros Hne (new & -> & H1 & H2 & H3 & H4 & H5 & H6 & H7).
  exists new. split; [done|]. split; [done|]. split; [done|]. split; [done|].
  split; [done|]. split; [rewrite fmap_app; by apply sublist_inserts_r|].
  split; [done|]. done.
Qed.

Lemma readMark_mark_inv w metas remove t0 done ix id first :
  hoare (mark_inv w metas remove t0 done first) (readMark w remove id)
        (λ e st t, ∀ first', (first' = nil → first = nil) →
           mark_inv w metas remove t0 (done ++ [(ix, id)]) first' st t).
Proof.
  intros st t (new & -> & H1 & H2 & H3 & H4 & H5 & H6 & H7) e st' t' Hrun.
  unfold readMark in Hrun. run_step.
  destruct (metadata_ReadMarker w (t0 ++ new) id) as [m err] eqn:Hread.
  cbn [snd] in Hrun.
  assert (∀ first' : error, (first' = nil → first = nil) →
            readIDs (new ++ [EvReadMarker id err]) `sublist_of` (done ++ [(ix, id)]).*2 ∧
            (first' = nil → readIDs (new ++ [EvReadMarker id err]) = (done ++ [(ix, id)]).*2))
    as Hreads.
  { intros first' Hf. rewrite readIDs_app, fmap_app. cbn [readIDs fmap list_fmap snd].
    split; [by apply sublist_app|]. intros Hn. by rewrite H6 by auto. }
  destruct (is_nil err) eqn:Hnil; cbn [negb] in Hrun.
  - apply is_nil_true in Hnil as ->. injection Hrun as <- <- <-.
    intros first' Hf. destruct (Hreads first' Hf) as [Hr1 Hr2].
    exists (new ++ [EvReadMarker id nil; EvInc MarkedForNoCompactionMeta]).
    assert (markedIDs (new ++ [EvReadMarker id nil; EvInc MarkedForNoCompactionMeta])
            = markedIDs new ++ [id]) as Hm by (by rewrite markedIDs_app).
    assert (readIDs (new ++ [EvReadMarker id nil; EvInc MarkedForNoCompactionMeta])
            = readIDs (new ++ [EvReadMarker id nil])) as Hr
      by (by rewrite !readIDs_app).
    rewrite Hm, Hr. cbn [fst snd].
    split; [by rewrite <- !app_assoc|].
    split; [|split; [|split; [|split; [|split; [done|split; [done|]]]]]].
    + intros i. destruct (decide (i = id)) as [->|Hne].
      * rewrite lookup_insert_eq. split; [|by eauto].
        intros _. apply elem_of_app. right. left.
      * rewrite lookup_insert_ne by done. rewrite H1, elem_of_app.
        split; [by left|]. intros [Hin|Hin]; [done|].
        apply list_elem_of_singleton in Hin. done.
    + intros i m0. destruct (decide (i = id)) as [->|Hne].
      * rewrite lookup_insert_eq. intros [= <-]. eauto.
      * rewrite lookup_insert_ne by done. apply H2.
    + intros i. destruct (decide (i = id)) as [->|Hne].
      * rewrite (bool_decide_true (id ∈ markedIDs new ++ [id]))
          by (apply elem_of_app; right; left).
        destruct remove; cbn [andb].
        -- by rewrite lookup_delete_eq.
        -- rewrite H3. done.
      * assert (bool_decide (i ∈ markedIDs new ++ [id])
                = bool_decide (i ∈ markedIDs new)) as ->.
        { apply bool_decide_ext. rewrite elem_of_app, list_elem_of_singleton.
          naive_solver. }
        destruct remove; [rewrite lookup_delete_ne by done|]; apply H3.
    + rewrite readIDs_app. cbn [readIDs]. by apply sublist_app.
    + rewrite countInc_app, length_app, H7. cbn. lia.
  - assert (markedIDs (new ++ [EvReadMarker id err]) = markedIDs new) as Hm.
    { rewrite markedIDs_app. cbn [markedIDs]. destruct err; try done;
        by rewrite app_nil_r. }
    assert (mark_inv_fail :
      ∀ first', (first' = nil → first = nil) →
        mark_inv w metas remove t0 (done ++ [(ix, id)]) first' st
                 ((t0 ++ new) ++ [EvReadMarker id err])).
    { intros first' Hf. destruct (Hreads first' Hf) as [Hr1 Hr2].
      exists (new ++ [EvReadMarker id err]). rewrite Hm.
      split; [by rewrite <- !app_assoc|].
      split; [done|]. split; [done|]. split; [done|].
      split; [rewrite readIDs_app; by apply sublist_inserts_r|].
      split; [done|]. split; [done|].
      rewrite countInc_app, H7. cbn. lia. }
    destruct (same_error (Cause err) ErrorMarkerNotFound) eqn:Hnf;
      [|destruct (same_error (Cause err) ErrorUnmarshalMarker) eqn:Hum];
      injection Hrun as <- <- <-; exact mark_inv_fail.
Qed.

Lemma imap_pair_snd {A} (l : list A) : (imap pair l).*2 = l.
Proof.
  assert (∀ (f : nat → nat) (l : list A), (imap (λ i x, (f i, x)) l).*2 = l) as H.
  { intros f l0. revert f. induction l0 as [|x l0 IH]; intros f; [done|].
    cbn. f_equal. apply (IH (f ∘ S)). }
  apply (H id).
Qed.

Lemma rangeKeys_Permutation code (metas : gmap ULID Meta) :
  rangeKeys code metas ≡ₚ (map_to_list metas).*1.
Proof. apply shuffle_Permutation. Qed.

(** What a call of [Filter] leaves: the pool has passed the jobs [done],
    all the ids of the metas unless the filter has no worker. *)
Lemma Filter_marks w f metas t err f' metas' t' :
  Filter w f metas t = (err, f', metas', t') →
  filter_concurrency f' = filter_concurrency f ∧
  removeNoCompactBlocks f' = removeNoCompactBlocks f ∧
  ∃ e0 done,
    err = Wrap e0 "filter blocks marked for no compaction" ∧
    done.*2 ⊆+ (map_to_list metas).*1 ∧
    ((0 < filter_concurrency f)%Z → done.*2 ≡ₚ (map_to_list metas).*1) ∧
    mark_inv w metas (removeNoCompactBlocks f) t done e0
             (noCompactMarkedMap f', metas') t'.
Proof.
  unfold Filter. set (ids := rangeKeys (range_order w t) metas).
  destruct (ForEach w ids (filter_concurrency f)
              (readMark w (removeNoCompactBlocks f)) (∅, metas) t)
    as [[e0 [marked ms]] t1] eqn:Hfe.
  intros [= <- <- <- <-]. split; [done|]. split; [done|].
  exists e0. cbn [noCompactMarkedMap].
  assert (mark_inv w metas (removeNoCompactBlocks f) t [] nil
            (∅ : gmap ULID NoCompactMark, metas) t) as H0.
  { exists []. rewrite app_nil_r. cbn [fst snd markedIDs readIDs countInc length].
    split; [done|]. split.
    { intros id. rewrite lookup_empty. split; [by intros [? ?]|by intros ?%elem_of_nil]. }
    split; [by intros id m; rewrite lookup_empty|].
    split.
    { intros id. rewrite bool_decide_false by (by intros ?%elem_of_nil).
      by rewrite andb_false_r. }
    done. }
  pose proof (rangeKeys_Permutation (range_order w t) metas) as Hkeys.
  fold ids in Hkeys.
  destruct (decide (ids = [])) as [Hids | Hids].
  { rewrite Hids in Hfe. injection Hfe as <- <- <- <-. exists [].
    split; [done|]. split; [apply submseteq_nil_l|].
    split; [|done]. intros _. by rewrite <- Hkeys, Hids. }
  destruct (decide (filter_concurrency f ≤ 0)%Z) as [Hc | Hc].
  { unfold ForEach in Hfe. destruct ids; [done|].
    rewrite bool_decide_eq_true_2 in Hfe by done.
    injection Hfe as <- <- <- <-. exists [].
    split; [done|]. split; [apply submseteq_nil_l|]. split; [lia|done]. }
  assert (hoare (mark_inv w metas (removeNoCompactBlocks f) t [] nil)
            (ForEach w ids (filter_concurrency f)
                     (readMark w (removeNoCompactBlocks f)))
            (λ e st tr, ∃ done, done ≡ₚ imap pair ids ∧
               mark_inv w metas (removeNoCompactBlocks f) t done e st tr))
    as Hpool.
  { apply hoare_ForEach; [lia | done | | | | |].
    - intros done ix id st tr [HI _] e st' tr' Hrun.
      by apply (readMark_mark_inv w metas (removeNoCompactBlocks f) t done ix id nil
                  st tr HI e st' tr' Hrun).
    - intros done ixj st tr HI Hctx. by eapply mark_inv_skip.
    - intros done st tr (new & -> & H1 & H2 & H3 & H4 & H5 & H6 & H7) Hctx.
      exists new. split; [done|]. split; [done|]. split; [done|].
      split; [done|]. split; [done|]. split; [done|]. split; [done|]. done.
    - intros done ix id first Hfirst st tr HI e st' tr' Hrun.
      by apply (readMark_mark_inv w metas (removeNoCompactBlocks f) t done ix id
                  first st tr HI e st' tr' Hrun).
    - intros done ixj first st tr Hne HI. by eapply mark_inv_skip. }
  destruct (Hpool _ _ H0 _ _ _ Hfe) as (done & Hperm & HI).
  exists done. split; [done|].
  assert (done.*2 ≡ₚ (map_to_list metas).*1) as Hd.
  { rewrite Hperm, imap_pair_snd. done. }
  split; [by rewrite Hd|]. split; [done|done].
Qed.

(** X7: after [Filter], whatever it returns, every block in the map of
    marked blocks is a block of the input whose marker was read with
    success, with the mark that read returned; the metas left are the input
    without the marked blocks when removal is configured, and the input
    itself otherwise. *)
Theorem Filter_partitions_blocks (w : World) (f : NoCompactionMarkFilter)
    (metas : gmap ULID Meta) (t : Trace) (err : error)
    (f' : NoCompactionMarkFilter) (metas' : gmap ULID Meta) (t' : Trace) :
  Filter w f metas t = (err, f', metas', t') →
  (∀ id m, NoCompactMarkedBlocks f' !! id = Some m →
     is_Some (metas !! id) ∧ ∃ tr, metadata_ReadMarker w tr id = (m, nil)) ∧
  (∀ id, metas' !! id =
         if removeNoCompactBlocks f
            && bool_decide (is_Some (NoCompactMarkedBlocks f' !! id))
         then None else metas !! id) ∧
  (removeNoCompactBlocks f = false → metas' = metas) ∧
  metas' ⊆ metas.
Proof.
  intros Hrun. unfold NoCompactMarkedBlocks.
  destruct (Filter_marks _ _ _ _ _ _ _ _ Hrun)
    as (_ & _ & e0 & done & -> & Hsub & _ & new & -> & H1 & H2 & H3 & H4 & H5 & _).
  cbn [fst snd] in *.
  assert (∀ id, metas' !! id =
            if removeNoCompactBlocks f
               && bool_decide (is_Some (noCompactMarkedMap f' !! id))
            then None else metas !! id) as Hmetas.
  { intros id. by rewrite H3, (bool_decide_ext _ _ (H1 id)). }
  split; [|split; [done|split]].
  - intros id m Hm. split; [|by eapply H2].
    assert (id ∈ markedIDs new) as Hin by (apply H1; eauto).
    assert (id ∈ (map_to_list metas).*1) as Hk.
    { eapply elem_of_submseteq; [|exact Hsub].
      eapply elem_of_sublist; [|exact H5].
      eapply elem_of_sublist; [|exact H4]. done. }
    apply list_elem_of_fmap in Hk as ([i m0] & -> & Hk).
    apply elem_of_map_to_list in Hk. eauto.
  - intros Hrm. apply map_eq. intros id. by rewrite Hmetas, Hrm.
  - apply map_subseteq_spec. intros id m. rewrite Hmetas.
    by destruct (removeNoCompactBlocks f && _).
Qed.

Lemma Filter_partitions_blocks_witness :
  (Filter mixed_markers removing_filter three_blocks []).1.2 ⊆ three_blocks ∧
  (Filter mixed_markers removing_filter three_blocks []).1.2 !! 3%N = None.
Proof.
  destruct (Filter mixed_markers removing_filter three_blocks [])
    as [[[err f'] metas'] t'] eqn:Hrun.
  destruct (Filter_partitions_blocks _ _ _ _ _ _ _ _ Hrun)
    as (_ & Hlook & _ & Hsub).
  cbn [fst snd]. split; [exact Hsub|].
  rewrite Hlook.
  assert (is_Some (NoCompactMarkedBlocks f' !! 3%N)) as Hm.
  { apply (f_equal (λ r, NoCompactMarkedBlocks r.1.1.2 !! 3%N)) in Hrun.
    cbn [fst snd] in Hrun. rewrite <- Hrun. vm_compute. by eexists. }
  by rewrite (bool_decide_eq_true_2 _ Hm).
Defined.

(** X8: [Filter] reads the marker of a block at most once, and only of
    blocks of the input; when it returns nil with a positive concurrency it
    has read the marker of every block; a block is in the marked map
    exactly when its read succeeded, and the synced counter of marked
    blocks was incremented once per marked block. *)
Theorem Filter_reads_each_marker_once (w : World) (f : NoCompactionMarkFilter)
    (metas : gmap ULID Meta) (t : Trace) (err : error)
    (f' : NoCompactionMarkFilter) (metas' : gmap ULID Meta) (t' : Trace) :
  Filter w f metas t = (err, f', metas', t') →
  ∃ new, t' = t ++ new ∧
    NoDup (readIDs new) ∧
    (∀ id, id ∈ readIDs new → is_Some (metas !! id)) ∧
    (err = nil → (0 < filter_concurrency f)%Z →
       ∀ id, is_Some (metas !! id) → id ∈ readIDs new) ∧
    (∀ id, is_Some (NoCompactMarkedBlocks f' !! id) ↔ EvReadMarker id nil ∈ new) ∧
    countInc MarkedForNoCompactionMeta new = size (NoCompactMarkedBlocks f').
Proof.
  intros Hrun. unfold NoCompactMarkedBlocks.
  destruct (Filter_marks _ _ _ _ _ _ _ _ Hrun)
    as (_ & _ & e0 & done & -> & Hsub & Hall & new & -> & H1 & H2 & H3 & H4 & H5 & H6 & H7).
  cbn [fst snd] in *. exists new. split; [done|].
  assert (NoDup (map_to_list metas).*1) as Hnd by apply NoDup_fst_map_to_list.
  assert (NoDup done.*2) as Hnd1.
  { apply submseteq_Permutation in Hsub as [k Hk]. rewrite Hk in Hnd.
    by apply NoDup_app in Hnd as [? _]. }
  assert (NoDup (readIDs new)) as Hnd2 by (by eapply sublist_NoDup).
  assert (NoDup (markedIDs new)) as Hnd3 by (by eapply sublist_NoDup).
  split; [done|]. split; [|split; [|split]].
  - intros id Hin.
    assert (id ∈ (map_to_list metas).*1) as Hk.
    { eapply elem_of_submseteq; [|exact Hsub].
      eapply elem_of_sublist; [|exact H5]. done. }
    apply list_elem_of_fmap in Hk as ([i m0] & -> & Hk).
    apply elem_of_map_to_list in Hk. eauto.
  - intros Hnil Hc id [m Hm].
    assert (e0 = nil) as -> by (by destruct e0).
    rewrite H6 by done. rewrite (Hall Hc).
    apply list_elem_of_fmap. exists (id, m). split; [done|].
    by apply elem_of_map_to_list.
  - intros id. by rewrite H1, elem_of_markedIDs.
  - rewrite H7.
    assert (dom (noCompactMarkedMap f') = list_to_set (markedIDs new)) as Hdom.
    { apply set_eq. intros id. rewrite elem_of_dom, elem_of_list_to_set. apply H1. }
    rewrite <- size_dom, Hdom, size_list_to_set by done. done.
Qed.

Lemma Filter_reads_each_marker_once_witness :
  NoDup (readIDs (Filter mixed_markers removing_filter three_blocks []).2) ∧
  countInc MarkedForNoCompactionMeta
           (Filter mixed_markers removing_filter three_blocks []).2
    = size (NoCompactMarkedBlocks
              (Filter mixed_markers removing_filter three_blocks []).1.1.2).
Proof.
  destruct (Filter mixed_markers removing_filter three_blocks [])
    as [[[err f'] metas'] t'] eqn:Hrun.
  destruct (Filter_reads_each_marker_once _ _ _ _ _ _ _ _ Hrun)
    as (new & Hnew & Hnodup & _ & _ & _ & Hcount).
  cbn [app] in Hnew. subst new. cbn [fst snd]. by split.
Defined.

(* ===================================================================== *)
(** * The runs of a compaction job, phase by phase *)
(* ===================================================================== *)

Lemma downloadAndCheck_detail {S} w subDir meta (s : S) t e s' t' :
  downloadAndCheck w subDir meta s t = (e, s', t') →
  s' = s ∧ e = (downloadAndCheck w subDir meta tt t).1.1 ∧
  ∃ evs, t' = t ++ evs ∧
    Forall (λ ev, is_download_event ev = true) evs ∧
    Forall (in_workdir subDir) evs ∧
    (∀ id dir e0, EvDownload id dir e0 ∈ evs → id = meta_ULID meta) ∧
    (e = nil → evs = downloadEvents subDir meta).
Proof.
  unfold downloadAndCheck, downloadEvents. run_step.
  destruct (is_nil (block_Download w t _ _)) eqn:Hdl; cbn [negb].
  - apply is_nil_true in Hdl. rewrite Hdl.
    destruct (block_GatherIndexHealthStats w _ _ _ _) as [stats err].
    cbn [snd].
    assert (∀ x, x ∈ [EvDownload (meta_ULID meta) (blockDir subDir (meta_ULID meta)) nil;
                      EvGatherIndexHealthStats
                        (filepath_Join (blockDir subDir (meta_ULID meta)) IndexFilename) err]
              → ∀ id dir e0, x = EvDownload id dir e0 → id = meta_ULID meta) as Hids.
    { intros x Hx id dir e0 ->.
      apply elem_of_cons in Hx as [[= -> _ _]|Hx]; [done|].
      apply list_elem_of_singleton in Hx. discriminate. }
    destruct (is_nil err) eqn:Herr; cbn [negb].
    + apply is_nil_true in Herr as ->.
      repeat match goal with
             | |- context [if negb (is_nil ?x) then _ else _] =>
                 destruct (is_nil x) eqn:?; cbn [negb]
             end;
        intros [= <- <- <-]; (split; [done|]); (split; [done|]);
        rewrite <- app_assoc;
        eexists; (split; [done|]);
        (split; [by repeat constructor|]);
        (split; [repeat constructor; by eexists|]);
        (split; [intros id dir e0 Hin; by eapply Hids|]); done.
    + apply is_nil_false in Herr.
      intros [= <- <- <-]. split; [done|]. split; [done|].
      rewrite <- app_assoc. eexists. split; [done|].
      split; [by repeat constructor|].
      split; [repeat constructor; by eexists|].
      split; [intros id dir e0 Hin; by eapply Hids|].
      intros Hw. by apply Wrap_nil_iff in Hw.
  - apply is_nil_false in Hdl.
    intros [= <- <- <-]. split; [done|]. split; [done|].
    eexists. split; [done|]. split; [by repeat constructor|].
    split; [by repeat constructor|]. split.
    + intros id dir e0 Hin. apply list_elem_of_singleton in Hin. by injection Hin.
    + intros Hr. apply retry_not_nil in Hr; [done|]. by rewrite Wrap_nil_iff.
Qed.

Lemma download_pool_detail {S} w subDir plan (s : S) t e s' t' :
  plan ≠ [] →
  ForEach w plan (Z.of_nat (length plan)) (downloadAndCheck w subDir) s t
    = (e, s', t') →
  s' = s ∧ ∃ dl, t' = t ++ dl ∧ download_phase w subDir plan dl e.
Proof.
  intros Hplan Hrun.
  pose (I := λ (done : list (nat * Meta)) (first : error) (s1 : S) (t1 : Trace),
          s1 = s ∧ ∃ dl, t1 = t ++ dl ∧
            Forall (λ ev, is_download_event ev = true) dl ∧
            Forall (in_workdir subDir) dl ∧
            (∀ id dir e0, EvDownload id dir e0 ∈ dl → id ∈ meta_ULID <$> done.*2) ∧
            (first = nil → ∀ m ev, m ∈ done.*2 → ev ∈ downloadEvents subDir m → ev ∈ dl) ∧
            (first ≠ nil →
               (∃ tr, first = ctx_Err w tr) ∨
               (∃ m tr, m ∈ done.*2 ∧ first = (downloadAndCheck w subDir m tt tr).1.1))).
  assert (∀ done ixj first s1 t1, first ≠ nil →
            (∃ tr, first = ctx_Err w tr) ∨
               (∃ m tr, m ∈ done.*2 ∧ first = (downloadAndCheck w subDir m tt tr).1.1) →
            (s1 = s ∧ ∃ dl, t1 = t ++ dl ∧
              Forall (λ ev, is_download_event ev = true) dl ∧
              Forall (in_workdir subDir) dl ∧
              (∀ id dir e0, EvDownload id dir e0 ∈ dl →
                 id ∈ meta_ULID <$> (done ++ [ixj]).*2)) →
            I (done ++ [ixj]) first s1 t1) as Hfailed.
  { intros done ixj first s1 t1 Hne Hprov (-> & dl & -> & H1 & H2 & H3).
    split; [done|]. exists dl. split; [done|]. split; [done|]. split; [done|].
    split; [done|]. split; [done|].
    intros _. destruct Hprov as [?|(m & tr & Hm & ->)]; [by left|right].
    exists m, tr. split; [|done]. rewrite fmap_app. apply elem_of_app. by left. }
  assert (hoare (I [] nil)
            (ForEach w plan (Z.of_nat (length plan)) (downloadAndCheck w subDir))
            (λ e s1 t1, ∃ done, done ≡ₚ imap pair plan ∧ I done e s1 t1)) as Hpool.
  { apply hoare_ForEach.
    - destruct plan; [done|]. cbn [length]. lia.
    - done.
    - intros done ix m s1 t1 [(-> & dl & -> & H1 & H2 & H3 & H4 & _) _] e1 s2 t2 Hb.
      apply downloadAndCheck_detail in Hb as (-> & He1 & evs & -> & E1 & E2 & E3 & E4).
      split; [done|]. exists (dl ++ evs). rewrite app_assoc. split; [done|].
      split; [by apply Forall_app|]. split; [by apply Forall_app|].
      rewrite !fmap_app. cbn [fmap list_fmap snd].
      split; [|split].
      + intros id dir e0 [Hin|Hin]%elem_of_app; apply elem_of_app.
        * left. eauto.
        * right. apply E3 in Hin as ->. left.
      + intros Hnil m0 ev [Hin|Hin]%elem_of_app Hev; apply elem_of_app.
        * left. by eapply H4.
        * right. apply list_elem_of_singleton in Hin as ->. by rewrite E4.
      + intros Hne. right. exists m, (t ++ dl). split; [|done].
        apply elem_of_app. right. left.
    - intros done ixj s1 t1 (-> & dl & -> & H1 & H2 & H3 & _) Hctx.
      apply Hfailed; [done | left; eauto |].
      split; [done|]. exists dl. split; [done|]. split; [done|]. split; [done|].
      intros id dir e0 Hin. rewrite !fmap_app. apply elem_of_app. left. eauto.
    - intros done s1 t1 (-> & dl & -> & H1 & H2 & H3 & _) Hctx.
      split; [done|]. exists dl. split; [done|]. split; [done|]. split; [done|].
      split; [done|]. split; [done|]. intros _. left. eauto.
    - intros done ix m first Hfirst s1 t1 (-> & dl & -> & H1 & H2 & H3 & _ & H5)
             e1 s2 t2 Hb.
      apply downloadAndCheck_detail in Hb as (-> & He1 & evs & -> & E1 & E2 & E3 & E4).
      apply Hfailed; [done | by apply H5 |].
      split; [done|]. exists (dl ++ evs). rewrite app_assoc. split; [done|].
      split; [by apply Forall_app|]. split; [by apply Forall_app|].
      rewrite !fmap_app. cbn [fmap list_fmap snd].
      intros id dir e0 [Hin|Hin]%elem_of_app; apply elem_of_app.
      + left. eauto.
      + right. apply E3 in Hin as ->. left.
    - intros done ixj first s1 t1 Hfirst (-> & dl & -> & H1 & H2 & H3 & _ & H5).
      apply Hfailed; [done | by apply H5 |].
      split; [done|]. exists dl. split; [done|]. split; [done|]. split; [done|].
      intros id dir e0 Hin. rewrite !fmap_app. apply elem_of_app. left. eauto. }
  assert (I [] nil s t) as H0.
  { split; [done|]. exists []. rewrite app_nil_r. split; [done|].
    split; [constructor|]. split; [constructor|].
    split; [by intros ??? ?%elem_of_nil|]. split; [|done].
    intros _ m ev Hm. by apply elem_of_nil in Hm. }
  destruct (Hpool s t H0 e s' t' Hrun)
    as (done & Hperm & -> & dl & -> & H1 & H2 & H3 & H4 & H5).
  assert (done.*2 ≡ₚ plan) as Hd by (by rewrite Hperm, imap_pair_snd).
  split; [done|]. exists dl. split; [done|].
  split; [done|]. split; [done|]. split; [|split].
  - intros id dir e0 Hin. rewrite <- Hd. eauto.
  - intros Hnil m ev Hm. apply H4; [done|]. by rewrite Hd.
  - intros Hne. destruct (H5 Hne) as [?|(m & tr & Hm & ->)]; [by left|right].
    exists m, tr. split; [|done]. by rewrite <- Hd.
Qed.

Lemma stamped_for_job job shardID :
  stamped_for job
    (mkThanos
       (if job_useSplitting job then
          <[CompactorShardIDExternalLabel :=
              FormatShardIDLabelValue (N.of_nat shardID) (job_splitNumShards job)]>
            (job_labels job)
        else job_labels job)
       (job_resolution job) CompactorSource).
Proof.
  unfold stamped_for. cbn [thanos_Source thanos_Resolution thanos_Labels].
  split; [done|]. split; [done|]. split.
  - intros k Hk. destruct (job_useSplitting job); [|done].
    by rewrite lookup_insert_ne.
  - by intros ->.
Qed.

Lemma finalizeAndUpload_detail {S} w job subDir j (s : S) t e s' t' :
  finalizeAndUpload w job subDir j s t = (e, s', t') →
  s' = s ∧ e = (finalizeAndUpload w job subDir j tt t).1.1 ∧
  ∃ evs, t' = t ++ evs ∧
    Forall (λ ev, is_upload_event ev = true) evs ∧
    Forall (in_workdir subDir) evs ∧
    (∀ bdir th e0, EvInjectThanos bdir th e0 ∈ evs → stamped_for job th) ∧
    (∀ bdir e0, EvUpload bdir e0 ∈ evs →
       j.2 ≠ zeroULID ∧ bdir = blockDir subDir j.2) ∧
    (e = nil → Forall (λ ev, event_error ev = nil) evs ∧
               (j.2 ≠ zeroULID → uploaded_ok subDir j.2 evs)).
Proof.
  unfold finalizeAndUpload.
  destruct (N.eqb j.2 zeroULID) eqn:Hz.
  { intros [= <- <- <-]. split; [done|]. split; [done|]. exists [].
    rewrite app_nil_r. split; [done|]. split; [constructor|].
    split; [constructor|].
    split; [by intros ??? ?%elem_of_nil|]. split; [by intros ?? ?%elem_of_nil|].
    intros _. split; [constructor|]. apply N.eqb_eq in Hz. by intros Hne. }
  apply N.eqb_neq in Hz. run_step.
  set (th := mkThanos _ _ _).
  assert (stamped_for job th) as Hth by apply stamped_for_job.
  set (bdir := blockDir subDir j.2).
  destruct (metadata_InjectThanos w t bdir th) as [newMeta e1] eqn:Hinj.
  cbn [snd].
  set (ev1 := EvInjectThanos bdir th e1).
  set (ev2 := λ e2, EvRemove (filepath_Join bdir "tombstones") e2).
  set (ev3 := λ e3, EvVerifyIndex (filepath_Join bdir IndexFilename) e3).
  set (ev4 := λ e4, EvUpload bdir e4).
  assert (∀ evs, evs ⊆ [ev1] ∨ (∃ e2, evs ⊆ [ev1; ev2 e2]) ∨
                 (∃ e2 e3, evs ⊆ [ev1; ev2 e2; ev3 e3]) ∨
                 (∃ e2 e3 e4, evs ⊆ [ev1; ev2 e2; ev3 e3; ev4 e4]) →
            Forall (λ ev, is_upload_event ev = true) evs ∧
            Forall (in_workdir subDir) evs ∧
            (∀ b th0 e0, EvInjectThanos b th0 e0 ∈ evs → stamped_for job th0) ∧
            (∀ b e0, EvUpload b e0 ∈ evs → j.2 ≠ zeroULID ∧ b = blockDir subDir j.2))
    as Hshape.
  { intros evs Hsub.
    assert (∀ ev, ev ∈ evs → ev = ev1 ∨ (∃ e2, ev = ev2 e2) ∨ (∃ e3, ev = ev3 e3)
                              ∨ (∃ e4, ev = ev4 e4)) as Hcases.
    { intros ev Hin.
      destruct Hsub as [H|[(e2 & H)|[(e2 & e3 & H)|(e2 & e3 & e4 & H)]]];
        apply H in Hin; set_solver. }
    split; [|split; [|split]].
    - apply Forall_forall. intros ev Hin.
      destruct (Hcases ev Hin) as [->|[(? & ->)|[(? & ->)|(? & ->)]]]; done.
    - apply Forall_forall. intros ev Hin.
      destruct (Hcases ev Hin) as [->|[(? & ->)|[(? & ->)|(? & ->)]]];
        cbn; by exists j.2.
    - intros b th0 e0 Hin.
      destruct (Hcases _ Hin) as [Heq|[(? & Heq)|[(? & Heq)|(? & Heq)]]];
        try discriminate. by injection Heq as _ -> _.
    - intros b e0 Hin.
      destruct (Hcases _ Hin) as [Heq|[(? & Heq)|[(? & Heq)|(? & Heq)]]];
        try discriminate. by injection Heq as -> _. }
  destruct (is_nil e1) eqn:H1; cbn [negb].
  2:{ apply is_nil_false in H1. intros [= <- <- <-]. split; [done|].
      split; [done|]. exists [ev1]. split; [done|].
      destruct (Hshape [ev1]) as (A & B & C & D); [by left|].
      repeat (split; [done|]). intros Hw. by apply Wrap_nil_iff in Hw. }
  apply is_nil_true in H1. subst e1.
  match goal with
  | |- context [is_nil (os_Remove w ?tr ?p)] =>
      set (e2 := os_Remove w tr p); destruct (is_nil e2) eqn:H2
  end; cbn [negb].
  2:{ apply is_nil_false in H2. intros [= <- <- <-]. split; [done|].
      split; [done|]. exists [ev1; ev2 e2]. split; [by rewrite <- !app_assoc|].
      destruct (Hshape [ev1; ev2 e2]) as (A & B & C & D); [right; left; by eexists|].
      repeat (split; [done|]). intros Hw. by apply Wrap_nil_iff in Hw. }
  match goal with
  | |- context [is_nil (block_VerifyIndex w ?tr ?p ?a ?b)] =>
      set (e3 := block_VerifyIndex w tr p a b); destruct (is_nil e3) eqn:H3
  end; cbn [negb].
  2:{ intros [= <- <- <-]. split; [done|].
      split; [done|]. exists [ev1; ev2 e2; ev3 e3]. split; [by rewrite <- !app_assoc|].
      destruct (Hshape [ev1; ev2 e2; ev3 e3]) as (A & B & C & D);
        [right; right; left; by do 2 eexists|].
      repeat (split; [done|]). discriminate. }
  match goal with
  | |- context [is_nil (block_Upload w ?tr ?p ?h)] =>
      set (e4 := block_Upload w tr p h); destruct (is_nil e4) eqn:H4
  end; cbn [negb].
  2:{ apply is_nil_false in H4. intros [= <- <- <-]. split; [done|].
      split; [done|]. exists [ev1; ev2 e2; ev3 e3; ev4 e4].
      split; [by rewrite <- !app_assoc|].
      destruct (Hshape [ev1; ev2 e2; ev3 e3; ev4 e4]) as (A & B & C & D);
        [do 3 right; by do 3 eexists|].
      repeat (split; [done|]).
      intros Hr. apply retry_not_nil in Hr; [done|]. by rewrite Wrap_nil_iff. }
  apply is_nil_true in H2, H3, H4.
  intros [= <- <- <-]. split; [done|]. split; [done|].
  exists [ev1; ev2 e2; ev3 e3; ev4 e4]. split; [by rewrite <- !app_assoc|].
  destruct (Hshape [ev1; ev2 e2; ev3 e3; ev4 e4]) as (A & B & C & D);
    [do 3 right; by do 3 eexists|].
  repeat (split; [done|]). intros _. split.
  - subst ev1 ev2 ev3 ev4. cbn beta. rewrite H2, H3, H4. by repeat constructor.
  - intros _. unfold uploaded_ok. subst ev1 ev2 ev3 ev4 bdir. cbn beta.
    rewrite H3, H4. split; [eexists; left|split].
    + do 2 right; left.
    + do 3 right; left.
Qed.

Lemma upload_pool_detail {S} w job subDir ids (s : S) t e s' t' :
  hasNonZeroULIDs ids = true →
  ForEach w (convertSliceOfUlidsToSliceOfInterfaces ids)
          (Z.of_nat (length ids)) (finalizeAndUpload w job subDir) s t
    = (e, s', t') →
  s' = s ∧ ∃ ups, t' = t ++ ups ∧ upload_phase w job subDir ids ups e.
Proof.
  intros Hnz Hrun.
  assert (ids ≠ []) as Hids by (intros ->; discriminate).
  pose (I := λ (done : list (nat * (nat * ULID))) (first : error) (s1 : S)
               (t1 : Trace),
          s1 = s ∧ ∃ ups, t1 = t ++ ups ∧
            Forall (λ ev, is_upload_event ev = true) ups ∧
            Forall (in_workdir subDir) ups ∧
            (∀ bdir th e0, EvInjectThanos bdir th e0 ∈ ups → stamped_for job th) ∧
            (∀ bdir e0, EvUpload bdir e0 ∈ ups →
               ∃ j, j ∈ done.*2 ∧ j.2 ≠ zeroULID ∧ bdir = blockDir subDir j.2) ∧
            (first = nil →
               Forall (λ ev, event_error ev = nil) ups ∧
               ∀ j, j ∈ done.*2 → j.2 ≠ zeroULID → uploaded_ok subDir j.2 ups) ∧
            (first ≠ nil →
               (∃ tr, first = ctx_Err w tr) ∨
               (∃ j tr, j ∈ done.*2 ∧
                        first = (finalizeAndUpload w job subDir j tt tr).1.1))).
  assert (∀ done ixj first s1 t1, first ≠ nil →
            (∃ tr, first = ctx_Err w tr) ∨
               (∃ j tr, j ∈ done.*2 ∧
                        first = (finalizeAndUpload w job subDir j tt tr).1.1) →
            (s1 = s ∧ ∃ ups, t1 = t ++ ups ∧
              Forall (λ ev, is_upload_event ev = true) ups ∧
              Forall (in_workdir subDir) ups ∧
              (∀ bdir th e0, EvInjectThanos bdir th e0 ∈ ups → stamped_for job th) ∧
              (∀ bdir e0, EvUpload bdir e0 ∈ ups →
                 ∃ j, j ∈ (done ++ [ixj]).*2 ∧ j.2 ≠ zeroULID ∧
                      bdir = blockDir subDir j.2)) →
            I (done ++ [ixj]) first s1 t1) as Hfailed.
  { intros done ixj first s1 t1 Hne Hprov (-> & ups & -> & H1 & H2 & H3 & H4).
    split; [done|]. exists ups. do 5 (split; [done|]). split; [done|].
    intros _. destruct Hprov as [?|(j & tr & Hj & ->)]; [by left|right].
    exists j, tr. split; [|done]. rewrite fmap_app. apply elem_of_app. by left. }
  assert (∀ (done : list (nat * (nat * ULID))) ixj (ups : Trace),
            (∀ bdir e0, EvUpload bdir e0 ∈ ups →
               ∃ j, j ∈ done.*2 ∧ j.2 ≠ zeroULID ∧ bdir = blockDir subDir j.2) →
            (∀ bdir e0, EvUpload bdir e0 ∈ ups →
               ∃ j, j ∈ (done ++ [ixj]).*2 ∧ j.2 ≠ zeroULID ∧
                    bdir = blockDir subDir j.2)) as Hmono.
  { intros done ixj ups H bdir e0 Hin.
    destruct (H bdir e0 Hin) as (j & Hj & ?). exists j. split; [|done].
    rewrite fmap_app. apply elem_of_app. by left. }
  assert (∀ (done : list (nat * (nat * ULID))) (ix : nat) (j : nat * ULID)
            (ups evs : Trace),
            (∀ bdir e0, EvUpload bdir e0 ∈ ups →
               ∃ j, j ∈ done.*2 ∧ j.2 ≠ zeroULID ∧ bdir = blockDir subDir j.2) →
            (∀ bdir e0, EvUpload bdir e0 ∈ evs →
               j.2 ≠ zeroULID ∧ bdir = blockDir subDir j.2) →
            (∀ bdir e0, EvUpload bdir e0 ∈ ups ++ evs →
               ∃ j0, j0 ∈ (done ++ [(ix, j)]).*2 ∧ j0.2 ≠ zeroULID ∧
                     bdir = blockDir subDir j0.2)) as Hstep.
  { intros done ix j ups evs H1 H2 bdir e0 [Hin|Hin]%elem_of_app.
    - by eapply Hmono.
    - destruct (H2 bdir e0 Hin) as [? ->]. exists j. split; [|done].
      rewrite fmap_app. apply elem_of_app. right. left. }
  assert (hoare (I [] nil)
            (ForEach w (convertSliceOfUlidsToSliceOfInterfaces ids)
                     (Z.of_nat (length ids)) (finalizeAndUpload w job subDir))
            (λ e s1 t1, ∃ done,
               done ≡ₚ imap pair (convertSliceOfUlidsToSliceOfInterfaces ids) ∧
               I done e s1 t1)) as Hpool.
  { apply hoare_ForEach.
    - destruct ids; [done|]. cbn [length]. lia.
    - unfold convertSliceOfUlidsToSliceOfInterfaces. by destruct ids.
    - intros done ix j s1 t1 [(-> & ups & -> & H1 & H2 & H3 & H4 & H5 & _) _]
             e1 s2 t2 Hb.
      apply finalizeAndUpload_detail in Hb
        as (-> & He1 & evs & -> & E1 & E2 & E3 & E4 & E5).
      split; [done|]. exists (ups ++ evs). rewrite app_assoc. split; [done|].
      split; [by apply Forall_app|]. split; [by apply Forall_app|].
      split; [|split; [by apply Hstep|split]].
      + intros bdir th e0 [Hin|Hin]%elem_of_app; eauto.
      + intros Hnil. destruct (H5 eq_refl) as [Hall Hdone].
        destruct (E5 Hnil) as [Hall' Hj']. split; [by apply Forall_app|].
        rewrite fmap_app. intros j0 [Hin|Hin]%elem_of_app Hnz'.
        * apply (uploaded_ok_mono _ _ _ [] evs). eauto.
        * apply list_elem_of_singleton in Hin as ->.
          rewrite <- (app_nil_r evs). apply uploaded_ok_mono. auto.
      + intros Hne. right. exists j, (t ++ ups). split; [|done].
        rewrite fmap_app. apply elem_of_app. right. left.
    - intros done ixj s1 t1 (-> & ups & -> & H1 & H2 & H3 & H4 & _) Hctx.
      apply Hfailed; [done | left; eauto |].
      split; [done|]. exists ups. do 4 (split; [done|]). by apply Hmono.
    - intros done s1 t1 (-> & ups & -> & H1 & H2 & H3 & H4 & _) Hctx.
      split; [done|]. exists ups. do 5 (split; [done|]). split; [done|].
      intros _. left. eauto.
    - intros done ix j first Hfirst s1 t1
             (-> & ups & -> & H1 & H2 & H3 & H4 & _ & H6) e1 s2 t2 Hb.
      apply finalizeAndUpload_detail in Hb
        as (-> & He1 & evs & -> & E1 & E2 & E3 & E4 & E5).
      apply Hfailed; [done | by apply H6 |].
      split; [done|]. exists (ups ++ evs). rewrite app_assoc. split; [done|].
      split; [by apply Forall_app|]. split; [by apply Forall_app|].
      split; [|by apply Hstep].
      intros bdir th e0 [Hin|Hin]%elem_of_app; eauto.
    - intros done ixj first s1 t1 Hfirst (-> & ups & -> & H1 & H2 & H3 & H4 & _ & H6).
      apply Hfailed; [done | by apply H6 |].
      split; [done|]. exists ups. do 4 (split; [done|]). by apply Hmono. }
  assert (I [] nil s t) as H0.
  { split; [done|]. exists []. rewrite app_nil_r. split; [done|].
    split; [constructor|]. split; [constructor|].
    split; [by intros ??? ?%elem_of_nil|]. split; [by intros ?? ?%elem_of_nil|].
    split; [|done]. intros _. split; [constructor|].
    intros j Hin. by apply elem_of_nil in Hin. }
  destruct (Hpool s t H0 e s' t' Hrun)
    as (done & Hperm & -> & ups & -> & H1 & H2 & H3 & H4 & H5 & H6).
  assert (done.*2 ≡ₚ convertSliceOfUlidsToSliceOfInterfaces ids) as Hd
    by (by rewrite Hperm, imap_pair_snd).
  assert (∀ j, j ∈ done.*2 → j.2 ∈ ids) as Hj.
  { intros [i oid]. rewrite Hd. unfold convertSliceOfUlidsToSliceOfInterfaces.
    intros Hin%elem_of_imap_pair. by eapply list_elem_of_lookup_2. }
  split; [done|]. exists ups. split; [done|].
  split; [done|]. split; [done|]. split; [done|]. split; [|split].
  - intros bdir e0 Hin. destruct (H4 bdir e0 Hin) as (j & Hjd & Hnzj & ->).
    exists j.2. split; [by apply Hj|done].
  - intros Hnil. destruct (H5 Hnil) as [Hall Hok]. split; [done|].
    intros oid Hin Hnz'. apply list_elem_of_lookup in Hin as [i Hi].
    apply (Hok (i, oid)); [|done]. rewrite Hd.
    unfold convertSliceOfUlidsToSliceOfInterfaces. by apply elem_of_imap_pair.
  - intros Hne. destruct (H6 Hne) as [?|(j & tr & Hjd & ->)]; [by left|right].
    exists j, tr. split; [|done]. by rewrite <- Hd.
Qed.

Lemma retireInputs_detail {S} w subDir plan :
  ∀ (s : S) t e s' t',
    retireInputs w subDir plan s t = (e, s', t') →
    s' = s ∧ ∃ rets, t' = t ++ rets ∧ retire_phase w subDir plan rets e.
Proof.
  induction plan as [|m plan IH]; intros s t e s' t' Hrun.
  - injection Hrun as <- <- <-. split; [done|]. exists [].
    rewrite app_nil_r. split; [done|]. constructor.
  - cbn [retireInputs] in Hrun. unfold bind at 1 in Hrun.
    unfold deleteBlock in Hrun. run_step.
    set (bdir := blockDir subDir (meta_ULID m)) in *.
    destruct (is_nil (os_RemoveAll w t bdir)) eqn:Hrm; cbn [negb] in Hrun.
    + apply is_nil_true in Hrm. rewrite Hrm in Hrun.
      set (mk := block_MarkForDeletion w _ (meta_ULID m) source_of_compacted_block) in *.
      destruct (is_nil mk) eqn:Hmk; cbn [negb is_nil] in Hrun.
      * apply is_nil_true in Hmk. rewrite Hmk in Hrun.
        apply IH in Hrun as [-> (rets & -> & Hrets)]. split; [done|].
        exists (retireEvents subDir m ++ rets). unfold retireEvents.
        split; [by rewrite <- !app_assoc|]. by apply rp_next.
      * apply is_nil_false in Hmk.
        assert (is_nil (Wrap mk ("mark block " +:+ ULID_String (meta_ULID m)
                                   +:+ " for deletion from bucket")) = false) as Hw.
        { apply is_nil_false. by rewrite Wrap_nil_iff. }
        rewrite Hw in Hrun. cbn [negb] in Hrun. injection Hrun as <- <- <-.
        split; [done|]. eexists. split; [by rewrite <- !app_assoc|].
        apply rp_mark_failure; [done|]. eexists. reflexivity.
    + apply is_nil_false in Hrm.
      assert (is_nil (Wrap (os_RemoveAll w t bdir)
                ("remove old block dir " +:+ ULID_String (meta_ULID m))) = false) as Hw.
      { apply is_nil_false. by rewrite Wrap_nil_iff. }
      rewrite Hw in Hrun. cbn [negb] in Hrun. injection Hrun as <- <- <-.
      split; [done|]. eexists. split; [done|].
      apply rp_local_failure; [done|]. eexists. reflexivity.
Qed.

Lemma runCompactionJob_body_detail {S} w job subDir (s : S) t r s' t' :
  runCompactionJob_body w job subDir s t = (r, s', t') →
  s' = s ∧ ∃ new, t' = t ++ new ∧ job_detail w job subDir r new.
Proof.
  unfold runCompactionJob_body. unfold bind at 1, call at 1.
  destruct (is_nil (os_MkdirAll w t subDir)) eqn:Hmk; cbn [negb].
  2:{ apply is_nil_false in Hmk. intros [= <- <- <-]. split; [done|].
      eexists. split; [done|]. constructor; [done | by eexists]. }
  apply is_nil_true in Hmk. rewrite Hmk.
  unfold bind at 1, call at 1.
  destruct (planner_Plan w _ (job_metasByMinTime job)) as [plan perr] eqn:Hplan.
  cbn [fst snd].
  destruct (is_nil perr) eqn:Hperr; cbn [negb].
  2:{ apply is_nil_false in Hperr. intros [= <- <- <-]. split; [done|].
      eexists. split; [by rewrite <- app_assoc|].
      constructor; [done|]. eexists. by rewrite Hplan. }
  apply is_nil_true in Hperr as ->.
  case_bool_decide as Hlen.
  { destruct plan; [|done]. intros [= <- <- <-]. split; [done|].
    eexists. split; [by rewrite <- app_assoc|]. constructor. }
  assert (plan ≠ []) as Hne by (by destruct plan).
  unfold bind at 1.
  destruct (ForEach w plan _ (downloadAndCheck w subDir) s _)
    as [[derr s1] t1] eqn:Hdl.
  apply download_pool_detail in Hdl as [-> (dl & -> & Hdlev)]; [|done].
  destruct (is_nil derr) eqn:Hderr; cbn [negb].
  2:{ apply is_nil_false in Hderr. intros [= <- <- <-]. split; [done|].
      eexists. split; [by rewrite <- !app_assoc|]. by constructor. }
  apply is_nil_true in Hderr as ->.
  unfold bind at 1.
  destruct (compact w job subDir _ s _) as [[[ids cerr] s2] t2] eqn:Hc.
  apply compact_run in Hc as [-> ->]. fold (dirsOf subDir plan).
  destruct (is_nil cerr) eqn:Hcerr; cbn [negb].
  2:{ apply is_nil_false in Hcerr. intros [= <- <- <-]. split; [done|].
      eexists. split; [by rewrite <- !app_assoc|]. by constructor. }
  apply is_nil_true in Hcerr as ->.
  destruct (hasNonZeroULIDs ids) eqn:Hnz; cbn [negb].
  2:{ unfold bind at 1.
      destruct (deleteEmptyInputs w subDir plan s _) as [[u s3] t3] eqn:Hdel.
      apply deleteEmptyInputs_run in Hdel as [-> (dels & -> & Hdels)].
      intros [= <- <- <-]. split; [done|].
      eexists. split; [by rewrite <- !app_assoc|]. by constructor. }
  unfold bind at 1.
  destruct (ForEach w (convertSliceOfUlidsToSliceOfInterfaces ids) _ _ s _)
    as [[uerr s3] t3] eqn:Hup.
  apply upload_pool_detail in Hup as [-> (ups & -> & Hupev)]; [|done].
  destruct (is_nil uerr) eqn:Huerr; cbn [negb].
  2:{ apply is_nil_false in Huerr. intros [= <- <- <-]. split; [done|].
      eexists. split; [by rewrite <- !app_assoc|]. by constructor. }
  apply is_nil_true in Huerr as ->.
  unfold bind at 1.
  destruct (retireInputs w subDir plan s _) as [[rerr s4] t4] eqn:Hret.
  apply retireInputs_detail in Hret as [-> (rets & -> & Hrets)].
  pose proof (jd_retired w job subDir plan dl ids ups rets rerr Hne Hdlev Hnz
                Hupev Hrets) as Hjd.
  destruct (is_nil rerr) eqn:Hrerr; cbn [negb]; intros [= <- <- <-];
    (split; [done|]); eexists; (split; [by rewrite <- !app_assoc|]); exact Hjd.
Qed.

Lemma runCompactionJob_detail {S} w c job (s : S) t r s' t' :
  runCompactionJob w c job s t = (r, s', t') →
  s' = s ∧ ∃ new tail,
    t' = t ++ new ++ tail ∧
    job_detail w job (subDirOf c job) r new ∧
    ((tail = [] ∧ r.2 ≠ nil) ∨
     (∃ e, tail = [EvRemoveAll (subDirOf c job) e] ∧ r.2 = nil)).
Proof.
  unfold runCompactionJob. unfold bind at 1.
  destruct (runCompactionJob_body w job (subDirOf c job) s t)
    as [[r0 s0] t0] eqn:Hbody.
  apply runCompactionJob_body_detail in Hbody as [-> (new & -> & Hrun)].
  destruct (is_nil r0.2) eqn:Hr; cbn [negb].
  - apply is_nil_true in Hr. unfold bind, call, ret.
    intros [= <- <- <-]. split; [done|].
    exists new, [EvRemoveAll (subDirOf c job) (os_RemoveAll w (t ++ new) (subDirOf c job))].
    rewrite <- app_assoc. split; [done|]. split; [done|]. right. eauto.
  - apply is_nil_false in Hr. intros [= <- <- <-]. split; [done|].
    exists new, []. rewrite app_nil_r. split; [done|]. split; [done|]. by left.
Qed.

Lemma append_self_nil (s t : string) : s +:+ t = s → t = "".
Proof.
  induction s as [|a s IH]; cbn; [done|]. intros [= H]. auto.
Qed.

Lemma blockDir_ne_subDir subDir id : blockDir subDir id ≠ subDir.
Proof.
  unfold blockDir, filepath_Join. intros H.
  apply append_self_nil in H. discriminate.
Qed.

Lemma deleted_empty_in_workdir w subDir plan dels :
  deleted_empty w subDir plan dels → Forall (in_workdir subDir) dels.
Proof.
  induction 1; [constructor | done | |].
  - constructor; [by eexists | done].
  - constructor; [by eexists|]. constructor; done.
Qed.

Lemma retire_phase_events w subDir plan rets e :
  retire_phase w subDir plan rets e →
  Forall (in_workdir subDir) rets ∧
  Forall (λ ev, is_delete_event ev = true) rets ∧
  marks_within plan rets.
Proof.
  induction 1 as [|m rest e He Hsrc|m rest e He Hsrc|m rest tr e _ (IH1 & IH2 & IH3)].
  - split; [constructor|]. split; [constructor|]. by intros ??? ?%elem_of_nil.
  - split; [by repeat constructor; eexists|]. split; [by repeat constructor|].
    intros id d e0 Hin. apply list_elem_of_singleton in Hin. discriminate.
  - split; [repeat constructor; by eexists|]. split; [by repeat constructor|].
    intros id d e0 Hin. rewrite fmap_cons.
    apply elem_of_cons in Hin as [Hin|Hin]; [discriminate|].
    apply list_elem_of_singleton in Hin. injection Hin as -> _ _. left.
  - split; [|split].
    + apply Forall_app. split; [|done]. repeat constructor. by eexists.
    + apply Forall_app. split; [|done]. by repeat constructor.
    + intros id d e0 [Hin|Hin]%elem_of_app; rewrite fmap_cons.
      * unfold retireEvents in Hin.
        apply elem_of_cons in Hin as [Hin|Hin]; [discriminate|].
        apply elem_of_cons in Hin as [Hin|Hin];
          [injection Hin as -> _ _; left|].
        apply list_elem_of_singleton in Hin. discriminate.
      * right. eauto.
Qed.

Lemma retire_phase_cases w subDir plan rets e :
  retire_phase w subDir plan rets e →
  ∃ retired rest tail,
    plan = retired ++ rest ∧
    rets = flat_map (retireEvents subDir) retired ++ tail ∧
    ((e = nil ∧ rest = [] ∧ tail = []) ∨
     (∃ m rest' e0 msg,
        rest = m :: rest' ∧ e0 ≠ nil ∧ e ≠ nil ∧
        e = retry (Wrap (Wrap e0 msg) "mark old block for deletion from bucket") ∧
        (tail = [EvRemoveAll (blockDir subDir (meta_ULID m)) e0] ∨
         tail = [EvRemoveAll (blockDir subDir (meta_ULID m)) nil;
                 EvMarkForDeletion (meta_ULID m) source_of_compacted_block e0]))).
Proof.
  induction 1 as [|m rest e He Hsrc|m rest e He Hsrc
                  |m rest tr e _ (retired & rest' & tail & -> & -> & IH)].
  - exists [], [], []. split; [done|]. split; [done|]. by left.
  - exists [], (m :: rest), [EvRemoveAll (blockDir subDir (meta_ULID m)) e].
    split; [done|]. split; [done|]. right.
    exists m, rest, e, ("remove old block dir " +:+ ULID_String (meta_ULID m)).
    split; [done|]. split; [done|]. split; [|split; [done|by left]].
    apply retry_not_nil. by rewrite !Wrap_nil_iff.
  - exists [], (m :: rest),
      [EvRemoveAll (blockDir subDir (meta_ULID m)) nil;
       EvMarkForDeletion (meta_ULID m) source_of_compacted_block e].
    split; [done|]. split; [done|]. right.
    exists m, rest, e, ("mark block " +:+ ULID_String (meta_ULID m)
                          +:+ " for deletion from bucket").
    split; [done|]. split; [done|]. split; [|split; [done|by right]].
    apply retry_not_nil. by rewrite !Wrap_nil_iff.
  - exists (m :: retired), rest', tail. split; [done|].
    split; [cbn [flat_map]; by rewrite <- app_assoc|]. done.
Qed.

(** X9: [runCompactionJob] leaves the state of its caller alone and its
    three results fit together: with an error there is no rerun and no
    output id; a rerun is asked for only without error; and output ids are
    returned only with a rerun, and then at least one of them is not the
    zero id. *)
Theorem runCompactionJob_result_shape {S} (w : World) (c : BucketCompactor)
    (job : Job) (s : S) (t : Trace) (r : bool * list ULID * error) (s' : S)
    (t' : Trace) :
  runCompactionJob w c job s t = (r, s', t') →
  s' = s ∧
  (r.2 ≠ nil → r.1 = (false, [])) ∧
  (r.1.1 = true → r.2 = nil) ∧
  (r.1.2 ≠ [] → r.1.1 = true ∧ hasNonZeroULIDs r.1.2 = true).
Proof.
  intros Hrun.
  apply runCompactionJob_detail in Hrun as (-> & new & tail & -> & Hjd & _).
  split; [done|].
  destruct Hjd as [| | | | | | |plan dl ids ups rets e Hne Hdl Hnz Hup Hret];
    cbn [fst snd]; try (repeat split; done).
  destruct (is_nil e) eqn:He; cbn [fst snd].
  - repeat split; done.
  - repeat split; done.
Qed.

Lemma runCompactionJob_result_shape_witness :
  (runCompactionJob merge_fails compactor0 job_12 tt []).1.1.2 ≠ nil ∧
  (runCompactionJob merge_fails compactor0 job_12 tt []).1.1.1 = (false, []).
Proof.
  destruct (runCompactionJob merge_fails compactor0 job_12 tt [])
    as [[r s'] t'] eqn:Hrun.
  destruct (runCompactionJob_result_shape _ _ _ _ _ _ _ _ Hrun)
    as (_ & Hfail & _ & _).
  assert (r.2 ≠ nil) as Hne.
  { destruct r as [[b ids] e]. cbn [snd]. intros ->.
    apply (f_equal (λ x, is_nil x.1.1.2)) in Hrun. vm_compute in Hrun.
    discriminate. }
  cbn [fst snd]. split; [exact Hne | exact (Hfail Hne)].
Defined.

Lemma job_detail_in_workdir w job subDir r new :
  job_detail w job subDir r new → Forall (in_workdir subDir) new.
Proof.
  intros Hjd.
  assert (∀ plan ids e, in_workdir subDir
            (EvCompact subDir (dirsOf subDir plan) ids e)) as Hmerge.
  { intros plan ids e. split; [done|]. intros d Hd.
    apply list_elem_of_fmap in Hd as (m & -> & _). by eexists. }
  destruct Hjd as [| | |plan dl e Hne Hdl He|plan dl ids e Hne Hdl He
                   |plan dl ids dels Hne Hdl Hnz Hdels
                   |plan dl ids ups e Hne Hdl Hnz Hup He
                   |plan dl ids ups rets e Hne Hdl Hnz Hup Hret];
    try (by repeat constructor);
    destruct Hdl as (_ & Hdl & _);
    repeat (apply Forall_app; split); try done; try (by repeat constructor);
    try (constructor; [apply Hmerge | constructor]).
  - by eapply deleted_empty_in_workdir.
  - by destruct Hup as (_ & Hup & _).
  - by destruct Hup as (_ & Hup & _).
  - by apply retire_phase_events in Hret as (? & _).
Qed.

(** X10: every local effect of [runCompactionJob] stays in the working
    directory of the job, [compactDir/key]: it creates that directory;
    downloads, merges, finalizes, verifies, uploads and removes block
    directories directly beneath it; and removes the directory itself.  The
    bucket is written only by uploads from there and by deletion marks with
    the detail "source of compacted block", and the only counter is that
    of garbage-collected blocks. *)
Theorem runCompactionJob_stays_in_workdir {S} (w : World) (c : BucketCompactor)
    (job : Job) (s : S) (t : Trace) (r : bool * list ULID * error) (s' : S)
    (t' : Trace) :
  runCompactionJob w c job s t = (r, s', t') →
  ∃ new, t' = t ++ new ∧
    Forall (λ ev, in_workdir (subDirOf c job) ev ∨
                  ∃ e, ev = EvRemoveAll (subDirOf c job) e) new.
Proof.
  intros Hrun.
  apply runCompactionJob_detail in Hrun as (-> & new & tail & -> & Hjd & Htail).
  exists (new ++ tail). split; [done|].
  apply Forall_app. split.
  - apply job_detail_in_workdir in Hjd.
    eapply Forall_impl; [exact Hjd|]. intros ev Hev. by left.
  - destruct Htail as [[-> _]|(e & -> & _)]; [constructor|].
    constructor; [right; eauto | constructor].
Qed.

Lemma runCompactionJob_stays_in_workdir_witness :
  Forall (λ ev, in_workdir "/data/compact/0@1" ev ∨
                ∃ e, ev = EvRemoveAll "/data/compact/0@1" e)
         (runCompactionJob quiet compactor0 job_12 tt []).2.
Proof.
  destruct (runCompactionJob quiet compactor0 job_12 tt [])
    as [[r s'] t'] eqn:Hrun.
  destruct (runCompactionJob_stays_in_workdir _ _ _ _ _ _ _ _ Hrun)
    as (new & Hnew & Hall).
  cbn [app] in Hnew. subst new. exact Hall.
Defined.

(** X11: the working directory of a job is removed exactly when the job
    returns without error, and then as the last effect; when the job fails
    no removal of it is attempted, so the downloads stay for the next run. *)
Theorem workdir_removed_iff_success {S} (w : World) (c : BucketCompactor)
    (job : Job) (s : S) (t : Trace) (r : bool * list ULID * error) (s' : S)
    (t' : Trace) :
  runCompactionJob w c job s t = (r, s', t') →
  ∃ body, (∀ e, EvRemoveAll (subDirOf c job) e ∉ body) ∧
    ((r.2 ≠ nil ∧ t' = t ++ body) ∨
     (r.2 = nil ∧ ∃ e, t' = t ++ body ++ [EvRemoveAll (subDirOf c job) e])).
Proof.
  intros Hrun.
  apply runCompactionJob_detail in Hrun as (-> & new & tail & -> & Hjd & Htail).
  exists new. split.
  - intros e Hin. apply job_detail_in_workdir in Hjd.
    rewrite Forall_forall in Hjd. apply Hjd in Hin as [id Hid].
    symmetry in Hid. by apply blockDir_ne_subDir in Hid.
  - destruct Htail as [[-> Hr]|(e & -> & Hr)].
    + left. by rewrite app_nil_r.
    + right. eauto.
Qed.

Lemma workdir_removed_iff_success_witness :
  (runCompactionJob quiet compactor0 job_12 tt []).1.1.2 = nil ∧
  last (runCompactionJob quiet compactor0 job_12 tt []).2
    = Some (EvRemoveAll "/data/compact/0@1" nil) ∧
  (runCompactionJob merge_fails compactor0 job_12 tt []).1.1.2 ≠ nil ∧
  ∀ e, EvRemoveAll "/data/compact/0@1" e
         ∉ (runCompactionJob merge_fails compactor0 job_12 tt []).2.
Proof.
  split; [vm_compute; reflexivity|]. split; [vm_compute; reflexivity|].
  destruct (runCompactionJob merge_fails compactor0 job_12 tt [])
    as [[r s'] t'] eqn:Hrun.
  assert (r.2 ≠ nil) as Hne.
  { destruct r as [[b ids] e]. cbn [snd]. intros ->.
    apply (f_equal (λ x, is_nil x.1.1.2)) in Hrun. vm_compute in Hrun.
    discriminate. }
  cbn [fst snd]. split; [exact Hne|].
  destruct (workdir_removed_iff_success _ _ _ _ _ _ _ _ Hrun)
    as (body & Hnot & [[_ Ht]|[Hnil _]]); [|done].
  cbn [app] in Ht. subst t'. exact Hnot.
Defined.

Lemma download_not_later ev :
  is_download_event ev = true →
  is_upload_event ev = false ∧ is_delete_event ev = false.
Proof. by destruct ev. Qed.

(** X12: if the merger fails, the job returns [halt] of the wrapped failure
    (halt-classified, not retry-classified), and the run has uploaded
    nothing and has removed or marked no block. *)
Theorem merge_failure_halts {S} (w : World) (c : BucketCompactor)
    (job : Job) (s : S) (t : Trace) (r : bool * list ULID * error) (s' : S)
    (t' : Trace) :
  runCompactionJob w c job s t = (r, s', t') →
  ∃ new, t' = t ++ new ∧
    ∀ dest dirs ids e, EvCompact dest dirs ids e ∈ new → e ≠ nil →
      (∃ msg, r = (false, [], halt (Wrap e msg))) ∧
      IsHaltError r.2 = true ∧ IsRetryError r.2 = false ∧
      (∀ ev, ev ∈ new → is_upload_event ev = false ∧ is_delete_event ev = false).
Proof.
  intros Hrun.
  apply runCompactionJob_detail in Hrun as (-> & new & tail & -> & Hjd & Htail).
  exists (new ++ tail). split; [done|].
  intros dest dirs ids e Hin He.
  assert (EvCompact dest dirs ids e ∈ new) as Hin'.
  { apply elem_of_app in Hin as [Hin|Hin]; [done|].
    destruct Htail as [[-> _]|(e0 & -> & _)]; in_phases Hin. }
  clear Hin.
  destruct Hjd as [| | |plan dl e1 Hne [Hdl _] He1|plan dl ids1 e1 Hne [Hdl _] He1
                   |plan dl ids1 dels Hne [Hdl _] Hnz Hdels
                   |plan dl ids1 ups e1 Hne [Hdl _] Hnz [Hup _] He1
                   |plan dl ids1 ups rets e1 Hne [Hdl _] Hnz [Hup _] Hret];
    try (exfalso; in_phases Hin'; fail).
  - assert (e1 = e) as ->.
    { in_phases Hin'. by injection Hin'. }
    destruct Htail as [[-> _]|(e0 & -> & Hr)]; [|done].
    rewrite app_nil_r. split; [by eexists|]. split; [done|]. split; [done|].
    intros ev Hev. rewrite Forall_forall in Hdl.
    in_phases Hev; subst; try done. by apply download_not_later, Hdl.
  - exfalso. apply deleted_empty_events in Hdels as [Hdels _].
    in_phases Hin'. injection Hin' as _ _ _ ->. done.
  - exfalso. in_phases Hin'. injection Hin' as _ _ _ ->. done.
  - exfalso. apply retire_phase_events in Hret as (_ & Hret & _).
    in_phases Hin'. injection Hin' as _ _ _ ->. done.
Qed.

Lemma merge_failure_halts_witness :
  (∃ msg, (runCompactionJob merge_fails compactor0 job_12 tt []).1.1
            = (false, [], halt (Wrap disk_error msg))) ∧
  Forall (λ ev, is_upload_event ev = false ∧ is_delete_event ev = false)
         (runCompactionJob merge_fails compactor0 job_12 tt []).2.
Proof.
  destruct (runCompactionJob merge_fails compactor0 job_12 tt [])
    as [[r s'] t'] eqn:Hrun.
  destruct (merge_failure_halts _ _ _ _ _ _ _ _ Hrun) as (new & Hnew & Hhalt).
  cbn [app] in Hnew. subst new.
  assert (EvCompact "/data/compact/0@1"
            ["/data/compact/0@1/1"; "/data/compact/0@1/2"] [zeroULID] disk_error
            ∈ t') as Hin.
  { apply (f_equal (λ x, x.2)) in Hrun. cbn [snd] in Hrun. rewrite <- Hrun.
    vm_compute. do 6 right; left. }
  destruct (Hhalt _ _ _ _ Hin) as (Hr & _ & _ & Hnone); [discriminate|].
  cbn [fst snd]. split; [exact Hr|]. apply Forall_forall. exact Hnone.
Defined.

Lemma job_detail_before_merge w job subDir r new dest dirs ids e pre post :
  job_detail w job subDir r new →
  new = pre ++ EvCompact dest dirs ids e :: post →
  ∃ plan dl,
    plan ≠ [] ∧ download_phase w subDir plan dl nil ∧
    pre = [EvMkdirAll subDir nil; EvPlan (job_metasByMinTime job) plan nil] ++ dl ∧
    dest = subDir ∧ dirs = dirsOf subDir plan ∧
    (∀ ev, ev ∈ post → is_download_event ev = false).
Proof.
  intros Hjd Hnew.
  assert (EvCompact dest dirs ids e ∈ new) as Hin by (rewrite Hnew; set_solver).
  assert (∀ plan dl rest ids0 e0,
            Forall (λ ev, is_download_event ev = true) dl →
            (∀ ev, ev ∈ rest → is_download_event ev = false ∧
                               ∀ a b c d, ev ≠ EvCompact a b c d) →
            ([EvMkdirAll subDir nil; EvPlan (job_metasByMinTime job) plan nil] ++ dl)
              ++ EvCompact subDir (dirsOf subDir plan) ids0 e0 :: rest
              = pre ++ EvCompact dest dirs ids e :: post →
            pre = [EvMkdirAll subDir nil; EvPlan (job_metasByMinTime job) plan nil] ++ dl ∧
            dest = subDir ∧ dirs = dirsOf subDir plan ∧
            (∀ ev, ev ∈ post → is_download_event ev = false)) as Hsplit.
  { intros plan dl rest ids0 e0 Hdl Hrest Heq.
    apply split_after_prefix in Heq as (mid & -> & Heq).
    2:{ intros Hx. in_phases Hx. }
    destruct mid as [|x mid]; cbn [app] in Heq.
    - injection Heq as <- <- _ _ <-. rewrite app_nil_r.
      repeat split; try done. intros ev Hev. by apply Hrest.
    - injection Heq as <- ->. exfalso.
      destruct (Hrest (EvCompact dest dirs ids e)) as [_ Hno]; [set_solver|].
      by eapply Hno. }
  assert (∀ tr, Forall (λ ev, is_upload_event ev = true) tr ∨
                Forall (λ ev, is_delete_event ev = true) tr →
            ∀ ev, ev ∈ tr → is_download_event ev = false ∧
                            ∀ a b c d, ev ≠ EvCompact a b c d) as Hlater.
  { intros tr Htr ev Hev.
    destruct Htr as [Htr|Htr]; rewrite Forall_forall in Htr; apply Htr in Hev;
      by destruct ev. }
  destruct Hjd as [| | |plan dl e1 Hne Hdl He1|plan dl ids1 e1 Hne Hdl He1
                   |plan dl ids1 dels Hne Hdl Hnz Hdels
                   |plan dl ids1 ups e1 Hne Hdl Hnz Hup He1
                   |plan dl ids1 ups rets e1 Hne Hdl Hnz Hup Hret];
    try (exfalso; in_phases Hin; fail).
  - exfalso. destruct Hdl as [Hdl _]. in_phases Hin.
  - exists plan, dl. split; [done|]. split; [done|].
    rewrite app_assoc in Hnew. cbn [app] in Hnew.
    eapply Hsplit; [by destruct Hdl | | exact Hnew].
    by intros ev ?%elem_of_nil.
  - exists plan, dl. split; [done|]. split; [done|].
    rewrite app_assoc in Hnew. cbn [app] in Hnew.
    eapply Hsplit; [by destruct Hdl | | exact Hnew].
    apply Hlater. right. by apply deleted_empty_events in Hdels as [? _].
  - exists plan, dl. split; [done|]. split; [done|].
    rewrite app_assoc in Hnew. cbn [app] in Hnew.
    eapply Hsplit; [by destruct Hdl | | exact Hnew].
    apply Hlater. left. by destruct Hup.
  - exists plan, dl. split; [done|]. split; [done|].
    rewrite app_assoc in Hnew. cbn [app] in Hnew.
    eapply Hsplit; [by destruct Hdl | | exact Hnew].
    intros ev [Hev|Hev]%elem_of_app.
    + eapply Hlater; [left|done]. by destruct Hup.
    + eapply Hlater; [right|done].
      by apply retire_phase_events in Hret as (_ & ? & _).
Qed.

(** X13: when the merger is called, the plan is not empty, the merger is
    given the working directory and the directories of the planned blocks
    in plan order, every planned block has been downloaded and its index
    checked with success before, and only planned blocks are ever
    downloaded, all of them before the merge. *)
Theorem merger_sees_checked_plan {S} (w : World) (c : BucketCompactor)
    (job : Job) (s : S) (t : Trace) (r : bool * list ULID * error) (s' : S)
    (t' : Trace) :
  runCompactionJob w c job s t = (r, s', t') →
  ∀ pre dest dirs ids e post,
    t' = t ++ pre ++ EvCompact dest dirs ids e :: post →
    ∃ plan,
      plan ≠ [] ∧
      EvPlan (job_metasByMinTime job) plan nil ∈ pre ∧
      dest = subDirOf c job ∧
      dirs = dirsOf (subDirOf c job) plan ∧
      (∀ m ev, m ∈ plan → ev ∈ downloadEvents (subDirOf c job) m → ev ∈ pre) ∧
      (∀ id dir e0, EvDownload id dir e0 ∈ pre ++ EvCompact dest dirs ids e :: post →
         id ∈ meta_ULID <$> plan ∧ EvDownload id dir e0 ∈ pre).
Proof.
  intros Hrun pre dest dirs ids e post Ht'.
  apply runCompactionJob_detail in Hrun as (-> & new & tail & -> & Hjd & Htail).
  apply app_inv_head in Ht'.
  apply split_before_suffix in Ht' as (post' & Hnew & ->).
  2:{ intros Hx. destruct Htail as [[-> _]|(e0 & -> & _)]; in_phases Hx. }
  destruct (job_detail_before_merge _ _ _ _ _ _ _ _ _ _ _ Hjd Hnew)
    as (plan & dl & Hne & (Hdl1 & Hdl2 & Hdl3 & Hdl4 & _) & -> & -> & -> & Hpost).
  exists plan. split; [done|]. split; [set_solver|]. split; [done|].
  split; [done|]. split.
  - intros m ev Hm Hev. apply elem_of_app. right. by eapply Hdl4.
  - intros id dir e0 Hin.
    assert (EvDownload id dir e0 ∈ dl) as Hd.
    { in_phases Hin; try done.
      + apply Hpost in Hin. done.
      + destruct Htail as [[-> _]|(e1 & -> & _)]; in_phases Hin. }
    split; [by eapply Hdl3|]. apply elem_of_app. by right.
Qed.

Lemma merger_sees_checked_plan_witness :
  ∃ pre post,
    (runCompactionJob quiet compactor0 job_12 tt []).2
      = pre ++ EvCompact "/data/compact/0@1"
                 ["/data/compact/0@1/1"; "/data/compact/0@1/2"] [9%N] nil :: post ∧
    EvDownload 2 "/data/compact/0@1/2" nil ∈ pre ∧
    EvGatherIndexHealthStats "/data/compact/0@1/2/index" nil ∈ pre.
Proof.
  destruct (runCompactionJob quiet compactor0 job_12 tt [])
    as [[r s'] t'] eqn:Hrun.
  cbn [snd].
  assert (t' = take 6 t' ++ EvCompact "/data/compact/0@1"
                 ["/data/compact/0@1/1"; "/data/compact/0@1/2"] [9%N] nil
               :: drop 7 t') as Ht.
  { apply (f_equal (λ x, x.2)) in Hrun. cbn [snd] in Hrun. rewrite <- Hrun.
    vm_compute. reflexivity. }
  exists (take 6 t'), (drop 7 t'). split; [exact Ht|].
  destruct (merger_sees_checked_plan _ _ _ _ _ _ _ _ Hrun _ _ _ _ _ _ Ht)
    as (plan & _ & Hplan & _ & _ & Hdl & _).
  assert (block2 ∈ plan) as Hb2.
  { assert (plan = [block1; block2]) as ->; [|by right; left].
    apply (f_equal (λ x, x.2)) in Hrun. cbn [snd] in Hrun. rewrite <- Hrun in Hplan.
    vm_compute in Hplan.
    apply elem_of_cons in Hplan as [Heq|Hplan]; [discriminate|].
    apply elem_of_cons in Hplan as [Heq|Hplan]; [by injection Heq|].
    repeat (apply elem_of_cons in Hplan as [Heq|Hplan]; [discriminate|]).
    by apply elem_of_nil in Hplan. }
  split; apply (Hdl block2 _ Hb2); vm_compute; [left | right; left].
Defined.

(** X14: a job that returns output ids has run all its phases in order:
    directory, plan, downloads with checks, merge, uploads of the outputs,
    then for each planned block in plan order the removal of its local
    directory, its deletion mark and one count, and last the removal of the
    working directory; it asks for a rerun and returns no error. *)
Theorem successful_job_retires_whole_plan {S} (w : World) (c : BucketCompactor)
    (job : Job) (s : S) (t : Trace) (r : bool * list ULID * error) (s' : S)
    (t' : Trace) :
  runCompactionJob w c job s t = (r, s', t') →
  r.1.2 ≠ [] →
  ∃ plan dl ups e,
    r = (true, r.1.2, nil) ∧ plan ≠ [] ∧
    t' = t ++ [EvMkdirAll (subDirOf c job) nil;
               EvPlan (job_metasByMinTime job) plan nil]
           ++ dl
           ++ [EvCompact (subDirOf c job) (dirsOf (subDirOf c job) plan) r.1.2 nil]
           ++ ups
           ++ flat_map (retireEvents (subDirOf c job)) plan
           ++ [EvRemoveAll (subDirOf c job) e] ∧
    download_phase w (subDirOf c job) plan dl nil ∧
    upload_phase w job (subDirOf c job) r.1.2 ups nil ∧
    countInc "garbage_collected_blocks"
      (flat_map (retireEvents (subDirOf c job)) plan) = length plan.
Proof.
  intros Hrun Hids.
  apply runCompactionJob_detail in Hrun as (-> & new & tail & -> & Hjd & Htail).
  destruct Hjd as [| | | | | | |plan dl ids ups rets e Hne Hdl Hnz Hup Hret];
    try done.
  destruct (is_nil e) eqn:He; [|done].
  apply is_nil_true in He as ->. cbn [fst snd] in *.
  destruct Htail as [[_ ?]|(e & -> & _)]; [done|].
  apply retire_phase_cases in Hret
    as (retired & rest & tail & -> & -> & [(_ & -> & ->)|(m & rest' & e0 & msg & _ & _ & ? & _)]);
    [|done].
  rewrite !app_nil_r in *.
  exists retired, dl, ups, e. split; [done|]. split; [done|].
  split; [by rewrite <- !app_assoc|]. split; [done|]. split; [done|].
  clear. induction retired as [|m l IH]; [done|].
  cbn [flat_map length]. rewrite countInc_app, IH. done.
Qed.

Lemma successful_job_retires_whole_plan_witness :
  (runCompactionJob quiet compactor0 job_12 tt []).1.1 = (true, [9%N], nil) ∧
  ∃ plan e, plan ≠ [] ∧
    flat_map (retireEvents "/data/compact/0@1") plan
      ++ [EvRemoveAll "/data/compact/0@1" e]
    `suffix_of` (runCompactionJob quiet compactor0 job_12 tt []).2.
Proof.
  destruct (runCompactionJob quiet compactor0 job_12 tt [])
    as [[r s'] t'] eqn:Hrun.
  assert (r = (true, [9%N], nil)) as Hr.
  { apply (f_equal (λ x, x.1.1)) in Hrun. vm_compute in Hrun. by rewrite <- Hrun. }
  assert (r.1.2 ≠ []) as Hne by (by rewrite Hr).
  destruct (successful_job_retires_whole_plan _ _ _ _ _ _ _ _ Hrun Hne)
    as (plan & dl & ups & e & _ & Hplan & Ht & _).
  cbn [fst snd]. split; [exact Hr|]. exists plan, e. split; [exact Hplan|].
  rewrite Ht. cbn [app].
  exists ([EvMkdirAll (subDirOf compactor0 job_12) nil;
           EvPlan (job_metasByMinTime job_12) plan nil]
            ++ dl
            ++ [EvCompact (subDirOf compactor0 job_12)
                          (dirsOf (subDirOf compactor0 job_12) plan) r.1.2 nil]
            ++ ups).
  repeat rewrite <- app_assoc. reflexivity.
Defined.

Lemma retry_verdicts e : no_verdict (retry e).
Proof.
  unfold no_verdict, retry. destruct (IsHaltError e) eqn:Hh; [|done].
  by destruct (IsHaltError_not_special e Hh) as [-> ->].
Qed.

(** X15: if a job fails after it has begun to remove input blocks, every
    non-zero output of the merge is already uploaded, a prefix of the plan
    is fully retired, the failure is the local removal or the deletion mark
    of the next block, no later block is touched, and the error is [retry]
    of the twice wrapped failure: retry-classified unless the failure was
    halt-classified. *)
Theorem retire_failure_is_partial {S} (w : World) (c : BucketCompactor)
    (job : Job) (s : S) (t : Trace) (r : bool * list ULID * error) (s' : S)
    (new : Trace) (p : string) (e : error) :
  runCompactionJob w c job s t = (r, s', t ++ new) →
  r.2 ≠ nil →
  EvRemoveAll p e ∈ new →
  ∃ plan ids before retired m rest e0 msg failed,
    new = before ++ flat_map (retireEvents (subDirOf c job)) retired ++ failed ∧
    EvCompact (subDirOf c job) (dirsOf (subDirOf c job) plan) ids nil ∈ before ∧
    (∀ oid, oid ∈ ids → oid ≠ zeroULID → uploaded_ok (subDirOf c job) oid before) ∧
    plan = retired ++ m :: rest ∧
    (failed = [EvRemoveAll (blockDir (subDirOf c job) (meta_ULID m)) e0] ∨
     failed = [EvRemoveAll (blockDir (subDirOf c job) (meta_ULID m)) nil;
               EvMarkForDeletion (meta_ULID m) source_of_compacted_block e0]) ∧
    e0 ≠ nil ∧
    r = (false, [],
         retry (Wrap (Wrap e0 msg) "mark old block for deletion from bucket")) ∧
    (IsHaltError e0 = false → IsRetryError r.2 = true ∧ IsHaltError r.2 = false).
Proof.
  intros Hrun Hr Hin.
  apply runCompactionJob_detail in Hrun as (_ & new0 & tail & Ht' & Hjd & Htail).
  destruct Htail as [[-> _]|(? & _ & ?)]; [|done]. rewrite app_nil_r in *.
  apply app_inv_head in Ht' as ->.
  destruct Hjd as [| | |plan dl e1 Hne [Hdl _] He1|plan dl ids1 e1 Hne [Hdl _] He1
                   |plan dl ids1 dels Hne [Hdl _] Hnz Hdels
                   |plan dl ids1 ups e1 Hne [Hdl _] Hnz [Hup _] He1
                   |plan dl ids1 ups rets e1 Hne [Hdl _] Hnz Hup Hret];
    try (exfalso; in_phases Hin; fail); try done.
  destruct (is_nil e1) eqn:He1; [done|]. apply is_nil_false in He1.
  apply retire_phase_cases in Hret
    as (retired & rest & failed & -> & -> &
        [(? & _)|(m & rest' & e0 & msg & -> & He0 & _ & -> & Hfailed)]); [done|].
  exists (retired ++ m :: rest'), ids1,
    ([EvMkdirAll (subDirOf c job) nil;
      EvPlan (job_metasByMinTime job) (retired ++ m :: rest') nil] ++ dl
       ++ [EvCompact (subDirOf c job)
             (dirsOf (subDirOf c job) (retired ++ m :: rest')) ids1 nil] ++ ups),
    retired, m, rest', e0, msg, failed.
  split; [by rewrite <- !app_assoc|]. split; [set_solver|].
  split.
  { intros oid Hoid Hnzo. destruct Hup as (_ & _ & _ & _ & Hok & _).
    destruct (Hok eq_refl) as [_ Hok'].
    destruct (Hok' oid Hoid Hnzo) as ([th H1] & H2 & H3). unfold uploaded_ok.
    split; [exists th|split]; set_solver. }
  split; [done|]. split; [done|]. split; [done|]. split; [done|].
  cbn [snd]. intros Hh.
  assert (IsHaltError (Wrap (Wrap e0 msg) "mark old block for deletion from bucket")
          = false) as Hh' by (by rewrite !IsHaltError_Wrap).
  rewrite IsHaltError_retry, Hh'. split; [|done]. by apply IsRetryError_retry.
Qed.

Lemma retire_failure_is_partial_witness :
  ∃ e0 msg,
    (runCompactionJob marks_time_out compactor0 job_12 tt []).1.1
      = (false, [],
         retry (Wrap (Wrap e0 msg) "mark old block for deletion from bucket")) ∧
    e0 ≠ nil.
Proof.
  destruct (runCompactionJob marks_time_out compactor0 job_12 tt [])
    as [[r s'] t'] eqn:Hrun.
  assert (r.2 ≠ nil) as Hne.
  { destruct r as [[b ids] e]. cbn [snd]. intros ->.
    apply (f_equal (λ x, is_nil x.1.1.2)) in Hrun. vm_compute in Hrun.
    discriminate. }
  assert (EvRemoveAll "/data/compact/0@1/1" nil ∈ t') as Hin.
  { apply (f_equal (λ x, x.2)) in Hrun. cbn [snd] in Hrun. rewrite <- Hrun.
    vm_compute. repeat first [left | right]. }
  change t' with ([] ++ t') in Hrun.
  destruct (retire_failure_is_partial _ _ _ _ _ _ _ _ _ _ Hrun Hne Hin)
    as (plan & ids & before & retired & m & rest & e0 & msg & failed
        & _ & _ & _ & _ & _ & He0 & Hr & _).
  exists e0, msg. cbn [fst snd]. by split.
Defined.

Lemma no_verdict_Wrap e msg : no_verdict e → no_verdict (Wrap e msg).
Proof.
  unfold no_verdict. by rewrite IsOutOfOrderChunkError_Wrap, IsIssue347Error_Wrap.
Qed.

Lemma no_verdict_not e :
  no_verdict e → IsOutOfOrderChunkError e = true ∨ IsIssue347Error e = true → False.
Proof. intros [H1 H2] [H|H]; congruence. Qed.

(** The error of one download-and-check, when it carries a verdict, is the
    bare verdict about the block checked. *)
Lemma downloadAndCheck_verdict w subDir m tr :
  no_forged_verdicts w →
  let e := (downloadAndCheck w subDir m tt tr).1.1 in
  (IsOutOfOrderChunkError e = true → ∃ x, e = OutOfOrderChunksError x (meta_ULID m)) ∧
  (IsIssue347Error e = true → ∃ x, e = Issue347Error x (meta_ULID m)).
Proof.
  intros Hw. unfold downloadAndCheck. run_step.
  destruct (is_nil (block_Download w tr _ _)) eqn:Hdl; cbn [negb fst].
  2:{ destruct (retry_verdicts (Wrap (block_Download w tr (meta_ULID m)
               (blockDir subDir (meta_ULID m)))
               ("download block " +:+ ULID_String (meta_ULID m)))) as [-> ->]. done. }
  set (tr1 := tr ++ _).
  set (index := filepath_Join _ _).
  destruct (Hw tr1) as (_ & _ & _ & Hg & _).
  destruct (Hg index (meta_MinTime m) (meta_MaxTime m)) as [Hg1 Hg2].
  destruct (block_GatherIndexHealthStats w tr1 index _ _) as [stats err].
  cbn [fst snd] in *.
  destruct (is_nil err); cbn [negb fst].
  2:{ by destruct (no_verdict_Wrap err ("gather index issues for block "
               +:+ blockDir subDir (meta_ULID m)) Hg1) as [-> ->]. }
  destruct (is_nil (CriticalErr stats)); cbn [negb fst]; [|done].
  destruct (is_nil (OutOfOrderChunksErr stats)); cbn [negb fst].
  2:{ split; [eauto | done]. }
  destruct (is_nil (Issue347OutsideChunksErr stats)); cbn [negb fst].
  2:{ split; [done | eauto]. }
  destruct (is_nil (PrometheusIssue5372Err stats)); cbn [negb fst]; [done|].
  by destruct (no_verdict_Wrap (PrometheusIssue5372Err stats)
                 ("block id " +:+ ULID_String (meta_ULID m)) Hg2) as [-> ->].
Qed.

Lemma finalizeAndUpload_verdict w job subDir j tr :
  no_forged_verdicts w →
  no_verdict (finalizeAndUpload w job subDir j tt tr).1.1.
Proof.
  intros Hw. unfold finalizeAndUpload.
  destruct (N.eqb j.2 zeroULID); [done|]. run_step.
  set (th := mkThanos _ _ _). set (bdir := blockDir subDir j.2).
  destruct (Hw tr) as (_ & _ & _ & _ & Hi). specialize (Hi bdir th).
  destruct (metadata_InjectThanos w tr bdir th) as [newMeta e1]. cbn [snd] in *.
  destruct (is_nil e1); cbn [negb fst]; [|by apply no_verdict_Wrap].
  match goal with
  | |- context [is_nil (os_Remove w ?tr1 ?p)] =>
      destruct (Hw tr1) as (_ & Hr & _); destruct (Hr p) as [_ Hr'];
      destruct (is_nil (os_Remove w tr1 p))
  end; cbn [negb fst]; [|by apply no_verdict_Wrap].
  match goal with
  | |- context [is_nil (block_VerifyIndex w ?tr ?p ?a ?b)] =>
      destruct (is_nil (block_VerifyIndex w tr p a b))
  end; cbn [negb fst]; [|done].
  match goal with
  | |- context [is_nil (block_Upload w ?tr ?p ?h)] =>
      destruct (is_nil (block_Upload w tr p h))
  end; cbn [negb fst]; [done|]. apply retry_verdicts.
Qed.

Lemma job_detail_verdict w job subDir r new :
  no_forged_verdicts w →
  job_detail w job subDir r new →
  (IsOutOfOrderChunkError r.2 = true →
     ∃ x plan m, r.2 = OutOfOrderChunksError x (meta_ULID m) ∧ m ∈ plan ∧
                 EvPlan (job_metasByMinTime job) plan nil ∈ new) ∧
  (IsIssue347Error r.2 = true →
     ∃ x plan m, r.2 = Issue347Error x (meta_ULID m) ∧ m ∈ plan ∧
                 EvPlan (job_metasByMinTime job) plan nil ∈ new).
Proof.
  intros Hw Hjd.
  assert (∀ e : error, no_verdict e →
            (IsOutOfOrderChunkError e = true →
               ∃ x plan m, e = OutOfOrderChunksError x (meta_ULID m) ∧ m ∈ plan ∧
                 EvPlan (job_metasByMinTime job) plan nil ∈ new) ∧
            (IsIssue347Error e = true →
               ∃ x plan m, e = Issue347Error x (meta_ULID m) ∧ m ∈ plan ∧
                 EvPlan (job_metasByMinTime job) plan nil ∈ new)) as Hnone.
  { intros e [H1 H2]. split; intros H; congruence. }
  assert (∀ plan rest e,
            new = [EvMkdirAll subDir nil;
                   EvPlan (job_metasByMinTime job) plan nil] ++ rest →
            ((∃ tr, e = ctx_Err w tr) ∨
             (∃ m tr, m ∈ plan ∧ e = (downloadAndCheck w subDir m tt tr).1.1)) →
            (IsOutOfOrderChunkError e = true →
               ∃ x plan0 m, e = OutOfOrderChunksError x (meta_ULID m) ∧ m ∈ plan0 ∧
                 EvPlan (job_metasByMinTime job) plan0 nil ∈ new) ∧
            (IsIssue347Error e = true →
               ∃ x plan0 m, e = Issue347Error x (meta_ULID m) ∧ m ∈ plan0 ∧
                 EvPlan (job_metasByMinTime job) plan0 nil ∈ new))
    as Hdownload.
  { intros plan rest e Hnew [[tr ->]|(m & tr & Hm & ->)].
    - destruct (Hw tr) as ([H1 H2] & _). split; intros H; congruence.
    - destruct (downloadAndCheck_verdict w subDir m tr Hw) as [H1 H2].
      split; intros H; [destruct (H1 H) as [x Hx]|destruct (H2 H) as [x Hx]];
        exists x, plan, m; (split; [done|]); (split; [done|]);
        rewrite Hnew; set_solver. }
  destruct Hjd as [e He [tr ->]|plan e He [tr ->]|
                   |plan dl e Hne Hdl He|plan dl ids e Hne Hdl He
                   |plan dl ids dels Hne Hdl Hnz Hdels
                   |plan dl ids ups e Hne Hdl Hnz Hup He
                   |plan dl ids ups rets e Hne Hdl Hnz Hup Hret]; cbn [snd];
    try (apply Hnone; done).
  - apply Hnone, no_verdict_Wrap. by destruct (Hw tr) as (_ & Hm & _), (Hm subDir).
  - apply Hnone, no_verdict_Wrap. by destruct (Hw tr) as (_ & _ & Hp & _).
  - destruct Hdl as (_ & _ & _ & _ & Hprov). eapply Hdownload; [done|]. by apply Hprov.
  - apply Hnone. destruct Hup as (_ & _ & _ & _ & _ & Hprov).
    destruct (Hprov He) as [[tr ->]|(j & tr & _ & ->)].
    + by destruct (Hw tr) as (? & _).
    + by apply finalizeAndUpload_verdict.
  - destruct (is_nil e) eqn:Hnil; cbn [snd]; [by apply Hnone|].
    apply Hnone.
    apply retire_phase_cases in Hret
      as (retired & rest & failed & _ & _ &
          [(-> & _)|(m & rest' & e0 & msg & _ & _ & _ & -> & _)]); [done|].
    apply retry_verdicts.
Qed.

(** X16: if the collaborators do not themselves return errors of the two
    verdict types, a job error classified as out-of-order chunks or as
    issue 347 is the verdict value itself, not wrapped, and names a block
    of the plan of this run. *)
Theorem verdict_names_planned_block {S} (w : World) (c : BucketCompactor)
    (job : Job) (s : S) (t : Trace) (r : bool * list ULID * error) (s' : S)
    (t' : Trace) :
  no_forged_verdicts w →
  runCompactionJob w c job s t = (r, s', t') →
  ∃ new, t' = t ++ new ∧
    (IsOutOfOrderChunkError r.2 = true →
       ∃ x plan m, r.2 = OutOfOrderChunksError x (meta_ULID m) ∧ m ∈ plan ∧
                   EvPlan (job_metasByMinTime job) plan nil ∈ new) ∧
    (IsIssue347Error r.2 = true →
       ∃ x plan m, r.2 = Issue347Error x (meta_ULID m) ∧ m ∈ plan ∧
                   EvPlan (job_metasByMinTime job) plan nil ∈ new).
Proof.
  intros Hw Hrun.
  apply runCompactionJob_detail in Hrun as (-> & new & tail & -> & Hjd & _).
  exists (new ++ tail). split; [done|].
  destruct (job_detail_verdict _ _ _ _ _ Hw Hjd) as [Hooo H347].
  split; intros H.
  - destruct (Hooo H) as (x & plan & m & Hr & Hm & Hin).
    exists x, plan, m. split; [done|]. split; [done|]. apply elem_of_app. by left.
  - destruct (H347 H) as (x & plan & m & Hr & Hm & Hin).
    exists x, plan, m. split; [done|]. split; [done|]. apply elem_of_app. by left.
Qed.

Lemma verdict_names_planned_block_witness :
  ∃ x plan m,
    (runCompactionJob block2_out_of_order compactor0 job_12 tt []).1.1.2
      = OutOfOrderChunksError x (meta_ULID m) ∧
    m ∈ plan ∧
    EvPlan (job_metasByMinTime job_12) plan nil
      ∈ (runCompactionJob block2_out_of_order compactor0 job_12 tt []).2.
Proof.
  destruct (runCompactionJob block2_out_of_order compactor0 job_12 tt [])
    as [[r s'] t'] eqn:Hrun.
  assert (no_forged_verdicts block2_out_of_order) as Hw.
  { intros tr. repeat split; intros; cbn; try case_match; reflexivity. }
  destruct (verdict_names_planned_block _ _ _ _ _ _ _ _ Hw Hrun)
    as (new & Hnew & Hooo & _).
  cbn [app] in Hnew. subst new. cbn [fst snd]. apply Hooo.
  destruct r as [[b ids] e]. cbn [snd].
  apply (f_equal (λ x, IsOutOfOrderChunkError x.1.1.2)) in Hrun.
  vm_compute in Hrun. symmetry. exact Hrun.
Defined.

(* ===================================================================== *)
(** * The time range of a plan: facts *)
(* ===================================================================== *)

Lemma wrap64_small x : (- 2 ^ 63 ≤ x < 2 ^ 63)%Z → wrap64 x = x.
Proof. intros H. unfold wrap64. rewrite Z.mod_small by lia. lia. Qed.

Lemma wrap64_range x : (- 2 ^ 63 ≤ wrap64 x < 2 ^ 63)%Z.
Proof.
  unfold wrap64. pose proof (Z.mod_pos_bound (x + 2 ^ 63) (2 ^ 64)) as H. lia.
Qed.

Lemma minTime_loop_spec metas :
  ∀ minT,
    (minTime_loop metas minT ≤ minT)%Z ∧
    (∀ m, m ∈ metas → (minTime_loop metas minT ≤ meta_MinTime m)%Z) ∧
    (minTime_loop metas minT = minT ∨
     ∃ m, m ∈ metas ∧ minTime_loop metas minT = meta_MinTime m).
Proof.
  induction metas as [|m0 metas IH]; intros minT; cbn [minTime_loop].
  - split; [lia|]. split; [by intros ? ?%elem_of_nil | by left].
  - set (minT' := if bool_decide (meta_MinTime m0 < minT)%Z
                  then meta_MinTime m0 else minT).
    destruct (IH minT') as (H1 & H2 & H3).
    assert (minT' ≤ minT ∧ minT' ≤ meta_MinTime m0 ∧
            (minT' = minT ∨ minT' = meta_MinTime m0))%Z as (A & B & C).
    { unfold minT'. case_bool_decide; lia. }
    split; [lia|]. split.
    + intros m [->|Hm]%elem_of_cons; [lia | by apply H2].
    + destruct H3 as [H3|(m & Hm & H3)].
      * rewrite H3. destruct C as [C|C]; [by left|right].
        exists m0. split; [left | done].
      * right. exists m. split; [by right | done].
Qed.

Lemma maxTime_loop_spec metas :
  ∀ maxT,
    (maxT ≤ maxTime_loop metas maxT)%Z ∧
    (∀ m, m ∈ metas → (meta_MaxTime m ≤ maxTime_loop metas maxT)%Z) ∧
    (maxTime_loop metas maxT = maxT ∨
     ∃ m, m ∈ metas ∧ maxTime_loop metas maxT = meta_MaxTime m).
Proof.
  induction metas as [|m0 metas IH]; intros maxT; cbn [maxTime_loop].
  - split; [lia|]. split; [by intros ? ?%elem_of_nil | by left].
  - set (maxT' := if bool_decide (meta_MaxTime m0 > maxT)%Z
                  then meta_MaxTime m0 else maxT).
    destruct (IH maxT') as (H1 & H2 & H3).
    assert (maxT ≤ maxT' ∧ meta_MaxTime m0 ≤ maxT' ∧
            (maxT' = maxT ∨ maxT' = meta_MaxTime m0))%Z as (A & B & C).
    { unfold maxT'. case_bool_decide; lia. }
    split; [lia|]. split.
    + intros m [->|Hm]%elem_of_cons; [lia | by apply H2].
    + destruct H3 as [H3|(m & Hm & H3)].
      * rewrite H3. destruct C as [C|C]; [by left|right].
        exists m0. split; [left | done].
      * right. exists m. split; [by right | done].
Qed.

Lemma minTime_earliest metas :
  metas ≠ [] →
  ∃ m, m ∈ metas ∧
    minTime metas = time_Unix 0 (wrap64 (meta_MinTime m * Millisecond)) ∧
    ∀ m', m' ∈ metas → (meta_MinTime m ≤ meta_MinTime m')%Z.
Proof.
  destruct metas as [|m0 metas]; [done|]. intros _. unfold minTime.
  destruct (minTime_loop_spec (m0 :: metas) (meta_MinTime m0)) as (H1 & H2 & H3).
  destruct H3 as [H3|(m & Hm & H3)].
  - exists m0. split; [left|]. rewrite H3. split; [done|].
    intros m' Hm'. rewrite <- H3. by apply H2.
  - exists m. split; [done|]. rewrite H3. split; [done|].
    intros m' Hm'. rewrite <- H3. by apply H2.
Qed.

Lemma maxTime_latest metas :
  metas ≠ [] →
  ∃ m, m ∈ metas ∧
    maxTime metas = time_Unix 0 (wrap64 (meta_MaxTime m * Millisecond)) ∧
    ∀ m', m' ∈ metas → (meta_MaxTime m' ≤ meta_MaxTime m)%Z.
Proof.
  destruct metas as [|m0 metas]; [done|]. intros _. unfold maxTime.
  destruct (maxTime_loop_spec (m0 :: metas) (meta_MaxTime m0)) as (H1 & H2 & H3).
  destruct H3 as [H3|(m & Hm & H3)].
  - exists m0. split; [left|]. rewrite H3. split; [done|].
    intros m' Hm'. rewrite <- H3. by apply H2.
  - exists m. split; [done|]. rewrite H3. split; [done|].
    intros m' Hm'. rewrite <- H3. by apply H2.
Qed.

Lemma millis_fit ms :
  fits_nanos ms → wrap64 (ms * Millisecond) = (ms * 1000000)%Z.
Proof. unfold fits_nanos, Millisecond. intros H. apply wrap64_small. lia. Qed.

(** X17: for a non-empty list of blocks whose times in nanoseconds fit an
    [int64], [minTime] is the instant of the smallest [MinTime] of the
    list, in whatever order the blocks come. *)
Theorem minTime_is_earliest_block (metas : list Meta) :
  metas ≠ [] →
  (∀ m, m ∈ metas → fits_nanos (meta_MinTime m)) →
  ∃ m, m ∈ metas ∧
    minTime metas = (meta_MinTime m * 1000000)%Z ∧
    (∀ m', m' ∈ metas → (meta_MinTime m ≤ meta_MinTime m')%Z) ∧
    (∀ m', m' ∈ metas → (minTime metas ≤ meta_MinTime m' * 1000000)%Z).
Proof.
  intros Hne Hfit.
  destruct (minTime_earliest metas Hne) as (m & Hm & Heq & Hle).
  exists m. split; [done|].
  rewrite Heq, (millis_fit _ (Hfit m Hm)). unfold time_Unix.
  split; [lia|]. split; [done|].
  intros m' Hm'. specialize (Hle m' Hm'). lia.
Qed.

Lemma minTime_is_earliest_block_witness :
  ∃ m, m ∈ [block2; block1] ∧
       minTime [block2; block1] = (meta_MinTime m * 1000000)%Z ∧
       (minTime [block2; block1] ≤ meta_MinTime block2 * 1000000)%Z.
Proof.
  destruct (minTime_is_earliest_block [block2; block1]) as (m & Hin & Heq & _ & Hle).
  - discriminate.
  - intros m Hin.
    apply elem_of_cons in Hin as [->|Hin]; [unfold fits_nanos; cbn; lia|].
    apply elem_of_cons in Hin as [->|Hin]; [unfold fits_nanos; cbn; lia|].
    by apply elem_of_nil in Hin.
  - exists m. split; [exact Hin|]. split; [exact Heq|]. apply Hle. left.
Defined.

(** X18: for a non-empty list of blocks whose times in nanoseconds fit an
    [int64], [maxTime] is the instant of the largest [MaxTime] of the
    list, in whatever order the blocks come. *)
Theorem maxTime_is_latest_block (metas : list Meta) :
  metas ≠ [] →
  (∀ m, m ∈ metas → fits_nanos (meta_MaxTime m)) →
  ∃ m, m ∈ metas ∧
    maxTime metas = (meta_MaxTime m * 1000000)%Z ∧
    (∀ m', m' ∈ metas → (meta_MaxTime m' ≤ meta_MaxTime m)%Z) ∧
    (∀ m', m' ∈ metas → (meta_MaxTime m' * 1000000 ≤ maxTime metas)%Z).
Proof.
  intros Hne Hfit.
  destruct (maxTime_latest metas Hne) as (m & Hm & Heq & Hle).
  exists m. split; [done|].
  rewrite Heq, (millis_fit _ (Hfit m Hm)). unfold time_Unix.
  split; [lia|]. split; [done|].
  intros m' Hm'. specialize (Hle m' Hm'). lia.
Qed.

Lemma maxTime_is_latest_block_witness :
  ∃ m, m ∈ [block2; block1] ∧
       maxTime [block2; block1] = (meta_MaxTime m * 1000000)%Z ∧
       (meta_MaxTime block1 * 1000000 ≤ maxTime [block2; block1])%Z.
Proof.
  destruct (maxTime_is_latest_block [block2; block1]) as (m & Hin & Heq & _ & Hle).
  - discriminate.
  - intros m Hin.
    apply elem_of_cons in Hin as [->|Hin]; [unfold fits_nanos; cbn; lia|].
    apply elem_of_cons in Hin as [->|Hin]; [unfold fits_nanos; cbn; lia|].
    by apply elem_of_nil in Hin.
  - exists m. split; [exact Hin|]. split; [exact Heq|]. apply Hle. right; left.
Defined.

(** X19: [minTime] and [maxTime] return the zero time exactly for the empty
    list: whatever the block times are, overflowing ones included, the
    result for a non-empty list is not the zero time. *)
Theorem zero_time_iff_no_blocks (metas : list Meta) :
  (minTime metas = zeroTime ↔ metas = []) ∧
  (maxTime metas = zeroTime ↔ metas = []).
Proof.
  assert (∀ x, time_Unix 0 (wrap64 x) ≠ zeroTime) as Hnz.
  { intros x. pose proof (wrap64_range x) as H.
    unfold time_Unix, zeroTime. lia. }
  split; (split; [|by intros ->]); destruct metas as [|m0 metas]; try done;
    unfold minTime, maxTime; intros H; by apply Hnz in H.
Qed.

(* ===================================================================== *)
(** * The scheduler layer: facts *)
(* ===================================================================== *)

Local Open Scope sched_scope.

Ltac run_stepS :=
  unfold bindS, askS, callS, callW, emitS, getS, putS, retS in *;
  cbn [negb fst snd] in *.

(** X20: [SyncMetas] calls the fetcher once.  When the fetch fails it
    returns [retry] of the fetch error (retry-classified unless the fetch
    error is halt-classified) and keeps the metas and the partial blocks of
    the last successful sync; when the fetch succeeds it replaces both by
    what was fetched. *)
Theorem SyncMetas_keeps_snapshot_on_failure (env : Env) (s : Syncer)
    (h : History) (err : error) (s' : Syncer) (h' : History) :
  SyncMetas env s h = (err, s', h') →
  h' = h ++ [EvFetch (fetch_err (fetcher_Fetch env h))] ∧
  (fetch_err (fetcher_Fetch env h) ≠ nil →
     err = retry (fetch_err (fetcher_Fetch env h)) ∧ err ≠ nil ∧
     Metas s' = Metas s ∧ Partial s' = Partial s ∧
     IsRetryError err = negb (IsHaltError (fetch_err (fetcher_Fetch env h)))) ∧
  (fetch_err (fetcher_Fetch env h) = nil →
     err = nil ∧
     Metas s' = fetched_metas (fetcher_Fetch env h) ∧
     Partial s' = fetched_partial (fetcher_Fetch env h)) ∧
  duplicateIDs s' = fetched_duplicateIDs (fetcher_Fetch env h) ∧
  deletionMarkMap s' = fetched_deletionMarkMap (fetcher_Fetch env h).
Proof.
  unfold SyncMetas. run_stepS.
  set (r := fetcher_Fetch env h).
  destruct (is_nil (fetch_err r)) eqn:Hnil; cbn [negb]; intros [= <- <- <-].
  - apply is_nil_true in Hnil. split; [done|]. split; [done|]. done.
  - apply is_nil_false in Hnil. split; [done|]. split; [|done].
    intros _. split; [done|]. split; [by apply retry_not_nil|].
    split; [done|]. split; [done|].
    destruct (IsHaltError (fetch_err r)) eqn:Hh; cbn [negb].
    + rewrite retry_of_halt by done. by apply IsHaltError_not_Retry.
    + by apply IsRetryError_retry.
Qed.

Lemma SyncMetas_keeps_snapshot_on_failure_witness :
  Metas (SyncMetas (env_of quiet fetch_fails) two_duplicates []).1.2
    = Metas two_duplicates ∧
  IsRetryError (SyncMetas (env_of quiet fetch_fails) two_duplicates []).1.1
    = true.
Proof.
  destruct (SyncMetas (env_of quiet fetch_fails) two_duplicates [])
    as [[err s'] h'] eqn:Hrun.
  destruct (SyncMetas_keeps_snapshot_on_failure _ _ _ _ _ _ Hrun)
    as (_ & Hfail & _).
  destruct Hfail as (_ & _ & Hmetas & _ & Hcls); [discriminate|].
  cbn [fst snd]. split; [exact Hmetas|]. rewrite Hcls. reflexivity.
Defined.

Lemma repairIn_run {S} env tmpdir id (s : S) h err s' h' :
  repairIn env tmpdir id s h = (err, s', h') →
  s' = s ∧ ∃ body, h' = h ++ body ∧ repair_body tmpdir id err body.
Proof.
  unfold repairIn. run_stepS.
  set (bdir := filepath_Join tmpdir (ULID_String id)).
  destruct (is_nil (block_Download (inner env h) [] id bdir)) eqn:H1; cbn [negb].
  2:{ apply is_nil_false in H1. intros [= <- <- <-]. split; [done|].
      eexists. split; [done|]. by constructor. }
  apply is_nil_true in H1. rewrite H1.
  destruct (metadata_ReadFromDir env _ bdir) as [meta e2]. cbn [snd].
  destruct (is_nil e2) eqn:H2; cbn [negb].
  2:{ apply is_nil_false in H2. intros [= <- <- <-]. split; [done|].
      eexists. split; [by rewrite <- !app_assoc|]. by constructor. }
  apply is_nil_true in H2 as ->.
  destruct (block_Repair env _ tmpdir id) as [resid e3]. cbn [fst snd].
  destruct (is_nil e3) eqn:H3; cbn [negb].
  2:{ apply is_nil_false in H3. intros [= <- <- <-]. split; [done|].
      eexists. split; [by rewrite <- !app_assoc|]. by constructor. }
  apply is_nil_true in H3 as ->.
  match goal with
  | |- context [is_nil (block_VerifyIndex ?w ?tr ?p ?a ?b)] =>
      set (e4 := block_VerifyIndex w tr p a b); destruct (is_nil e4) eqn:H4
  end; cbn [negb].
  2:{ apply is_nil_false in H4. intros [= <- <- <-]. split; [done|].
      eexists. split; [by rewrite <- !app_assoc|]. by apply rb_verify_failed. }
  apply is_nil_true in H4. rewrite H4.
  match goal with
  | |- context [is_nil (block_Upload ?w ?tr ?p ?hf)] =>
      set (e5 := block_Upload w tr p hf); destruct (is_nil e5) eqn:H5
  end; cbn [negb].
  2:{ apply is_nil_false in H5. intros [= <- <- <-]. split; [done|].
      eexists. split; [by rewrite <- !app_assoc|]. by apply rb_upload_failed. }
  apply is_nil_true in H5. rewrite H5.
  match goal with
  | |- context [is_nil (block_MarkForDeletion ?w ?tr ?i ?d)] =>
      set (e6 := block_MarkForDeletion w tr i d);
      destruct (is_nil e6) eqn:H6
  end; cbn [negb]; intros [= <- <- <-]; (split; [done|]);
    eexists; (split; [by rewrite <- !app_assoc|]).
  - apply is_nil_true in H6. rewrite H6.
    apply (rb_marked tmpdir id resid nil).
  - apply (rb_marked tmpdir id resid e6).
Qed.

Lemma RepairIssue347_run {S} env e (s : S) h err s' h' :
  RepairIssue347 env e s h = (err, s', h') →
  s' = s ∧
  ((IsIssue347Error e = false ∧ err = not_an_issue347_error env e ∧ h' = h) ∨
   (∃ x id pattern tmpdir,
      Cause e = Issue347Error x id ∧
      pattern = "repair-issue-347-id-" +:+ ULID_String id +:+ "-" ∧
      ((err ≠ nil ∧ h' = h ++ [EvTempDir pattern tmpdir err]) ∨
       (∃ body rm,
          h' = h ++ [EvTempDir pattern tmpdir nil] ++ body
                 ++ [Inner (EvRemoveAll tmpdir rm)] ∧
          repair_body tmpdir id err body)))).
Proof.
  unfold RepairIssue347, IsIssue347Error.
  destruct (Cause e) as [| | | | |x id| |] eqn:Hc;
    try (intros [= <- <- <-]; split; [done|]; by left).
  unfold bindS at 1. unfold callS at 1.
  set (pattern := "repair-issue-347-id-" +:+ ULID_String id +:+ "-").
  destruct (ioutil_TempDir env h pattern) as [tmpdir terr]. cbn [fst snd].
  destruct (is_nil terr) eqn:Ht; cbn [negb].
  2:{ apply is_nil_false in Ht. intros [= <- <- <-]. split; [done|]. right.
      exists x, id, pattern, tmpdir. split; [done|]. split; [done|]. by left. }
  apply is_nil_true in Ht as ->. unfold bindS at 1.
  destruct (repairIn env tmpdir id s _) as [[rerr s1] h1] eqn:Hbody.
  apply repairIn_run in Hbody as [-> (body & -> & Hbody)].
  run_stepS. intros [= <- <- <-]. split; [done|]. right.
  exists x, id, pattern, tmpdir. split; [done|]. split; [done|]. right.
  exists body, (os_RemoveAll (inner env ((h ++ [EvTempDir pattern tmpdir nil]) ++ body))
                             [] tmpdir).
  split; [by rewrite <- !app_assoc|]. done.
Qed.

Lemma workOnJob_run env c g st h step st' h' :
  workOnJob env c g st h = (step, st', h') → handled env c g st h step st' h'.
Proof.
  unfold workOnJob. unfold bindS at 1, askS at 1.
  destruct (ownJob_now env h g) as [ok oerr] eqn:Hown.
  destruct (is_nil oerr) eqn:Ho; cbn [negb].
  2:{ apply is_nil_false in Ho. intros [= <- <- <-]. apply hd_skipped.
      rewrite Hown. by left. }
  apply is_nil_true in Ho as ->.
  destruct ok; cbn [negb].
  2:{ intros [= <- <- <-]. apply hd_skipped. rewrite Hown. by right. }
  unfold bindS at 1, emitS at 1. unfold bindS at 1, lift at 1.
  fold started.
  destruct (runCompactionJob (inner env (h ++ [started])) c g st [])
    as [[[[rerun ids] jerr] s1] t'] eqn:Hrun.
  assert (s1 = st) as ->.
  { by apply runCompactionJob_detail in Hrun as (-> & _). }
  destruct (is_nil jerr) eqn:Hj.
  - apply is_nil_true in Hj as ->.
    unfold bindS at 1, emitS at 1. fold completed.
    unfold bindS at 1.
    assert (∀ hh, (if hasNonZeroULIDs ids
                   then emitS (EvInc "group_compactions") else retS tt) st hh
                  = (tt, st, hh ++ (if hasNonZeroULIDs ids then [compacted] else [])))
      as ->.
    { intros hh. destruct (hasNonZeroULIDs ids); unfold emitS, retS; [done|].
      by rewrite app_nil_r. }
    unfold bindS at 1.
    assert (∀ hh, (if rerun then set_unfinished else retS tt) st hh
                  = (tt, (if rerun then unfinished st else st), hh)) as ->.
    { intros hh. by destruct rerun. }
    unfold retS. intros [= <- <- <-].
    rewrite <- !app_assoc. by eapply hd_completed.
  - apply is_nil_false in Hj.
    unfold bindS at 1, emitS at 1. fold failed.
    set (h0 := ((h ++ [started]) ++ (Inner <$> t')) ++ [failed]).
    assert (h0 = h ++ [started] ++ (Inner <$> t') ++ [failed]) as Hh0
      by (unfold h0; by rewrite <- !app_assoc).
    unfold bindS at 1.
    assert (∃ rerr hr,
              (if IsIssue347Error jerr
               then bindS (RepairIssue347 env jerr) (λ rerr, retS (is_nil rerr))
               else retS false) st h0 = (is_nil rerr, st, hr) ∧
              repair_attempt env jerr st h0 rerr hr) as (rerr & hr & -> & Hrep).
    { destruct (IsIssue347Error jerr) eqn:H347.
      - unfold bindS.
        destruct (RepairIssue347 env jerr st h0) as [[rerr s2] hr] eqn:Hr.
        assert (s2 = st) as -> by (by apply RepairIssue347_run in Hr as [-> _]).
        exists rerr, hr. split; [done|]. by right.
      - exists (leafError 0 ""), h0. split; [done|]. left. done. }
    rewrite Hh0 in Hrep.
    destruct (is_nil rerr) eqn:Hrerr.
    { apply is_nil_true in Hrerr as ->.
      unfold bindS, set_unfinished, getS, putS, retS. intros [= <- <- <-].
      by eapply (hd_repaired env c g st h (rerun, ids, jerr)). }
    apply is_nil_false in Hrerr.
    destruct (IsOutOfOrderChunkError jerr && skipBlocksWithOutOfOrderChunks c)
      eqn:Hooo.
    2:{ unfold retS. intros [= <- <- <-]. rewrite <- (app_nil_r hr).
        eapply (hd_exit env c g st h (rerun, ids, jerr)); try done. by left. }
    apply andb_true_iff in Hooo as [Hooo Hskip].
    destruct jerr as [| | | | | |x id|];
      try (unfold retS; intros [= <- <- <-];
           by eapply (hd_panic env c g st h (rerun, ids, _))).
    unfold bindS at 1, callS at 1.
    set (merr := block_MarkForNoCompact env hr id _ _).
    destruct (is_nil merr) eqn:Hm.
    + apply is_nil_true in Hm. rewrite Hm.
      unfold bindS, set_unfinished, getS, putS, retS. intros [= <- <- <-].
      by eapply (hd_marked_no_compact env c g st h (rerun, ids, _)).
    + apply is_nil_false in Hm. unfold retS. intros [= <- <- <-].
      apply (hd_exit env c g st h (rerun, ids, OutOfOrderChunksError x id) t'
               rerr hr [EvMarkForNoCompact id OutOfOrderChunksNoCompactReason
                                           out_of_order_details merr]);
        try done.
      right. exists x, id, merr. done.
Qed.

(** X21: given an error whose cause is not an issue-347 verdict,
    [RepairIssue347] has no effect at all (no temporary directory, no
    bucket access) and returns an error that is classified neither halt
    nor retry. *)
Theorem RepairIssue347_rejects_other_errors {S} (env : Env) (e : error)
    (s : S) (h : History) :
  IsIssue347Error e = false →
  RepairIssue347 env e s h = (not_an_issue347_error env e, s, h) ∧
  IsHaltError (RepairIssue347 env e s h).1.1 = false ∧
  IsRetryError (RepairIssue347 env e s h).1.1 = false.
Proof.
  intros H347.
  destruct (RepairIssue347 env e s h) as [[err s'] h'] eqn:Hrun.
  apply RepairIssue347_run in Hrun
    as (-> & [(_ & -> & ->)|(x & id & _ & _ & Hc & _)]).
  - done.
  - unfold IsIssue347Error in H347. rewrite Hc in H347. discriminate.
Qed.

Lemma RepairIssue347_rejects_other_errors_witness :
  RepairIssue347 (env_of quiet fetch_four) (Wrap disk_error "group 0@1") tt []
    = (not_an_issue347_error (env_of quiet fetch_four)
                             (Wrap disk_error "group 0@1"), tt, []).
Proof.
  apply (RepairIssue347_rejects_other_errors (env_of quiet fetch_four)
           (Wrap disk_error "group 0@1") tt []).
  reflexivity.
Defined.

Lemma repair_body_marks tmpdir id err body :
  repair_body tmpdir id err body →
  ∀ pre ev post, body = pre ++ ev :: post → is_mark ev = true →
    ∃ resid me,
      pre = repairedEvents tmpdir id resid ∧ post = [] ∧
      ev = Inner (EvMarkForDeletion id source_of_repaired_block me) ∧
      (err = nil ↔ me = nil).
Proof.
  intros Hbody pre ev post Heq Hmark.
  assert (∀ (l : History), Forall (λ x, is_mark x = false) l →
            l = pre ++ ev :: post → False) as Hno.
  { intros l Hl ->. rewrite Forall_forall in Hl.
    rewrite Hl in Hmark; [done|]. set_solver. }
  destruct Hbody as [e He|e He|resid e He|resid e He|resid e He|resid e];
    try (exfalso; eapply Hno; [|exact Heq]; by repeat constructor).
  apply split_after_prefix in Heq as (mid & -> & Heq).
  2:{ intros Hin. unfold repairedEvents in Hin.
      assert (Forall (λ x, is_mark x = false) (repairedEvents tmpdir id resid))
        as Hf by (by repeat constructor).
      rewrite Forall_forall in Hf. rewrite Hf in Hmark; done. }
  destruct mid as [|y mid]; cbn [app] in Heq.
  - injection Heq as <- <-. exists resid, e. rewrite app_nil_r.
    split; [done|]. split; [done|]. split; [done|]. apply Wrap_nil_iff.
  - injection Heq as _ Heq. by destruct mid.
Qed.

Lemma repair_body_nil tmpdir id err body :
  repair_body tmpdir id err body → err = nil →
  ∃ resid, body = repairedEvents tmpdir id resid
                    ++ [Inner (EvMarkForDeletion id source_of_repaired_block nil)].
Proof.
  intros Hbody Hnil.
  destruct Hbody as [e He|e He|resid e He|resid e He|resid e He|resid e];
    try (apply Wrap_nil_iff in Hnil; congruence);
    try (exfalso; refine (retry_not_nil _ _ Hnil); by rewrite Wrap_nil_iff).
  apply Wrap_nil_iff in Hnil as ->. by exists resid.
Qed.

(** X22: [RepairIssue347] writes a deletion mark only for the block of the
    verdict, and only after that block was downloaded and repaired and the
    repaired block was verified and uploaded, each with success; the repair
    returns nil exactly when that mark was written. *)
Theorem repair_marks_after_upload {S} (env : Env) (e : error) (s : S)
    (h : History) (err : error) (s' : S) (h' : History) :
  RepairIssue347 env e s h = (err, s', h') →
  (∀ pre id d me post,
     h' = h ++ pre ++ Inner (EvMarkForDeletion id d me) :: post →
     ∃ x tmpdir resid rm,
       Cause e = Issue347Error x id ∧ d = source_of_repaired_block ∧
       pre = EvTempDir ("repair-issue-347-id-" +:+ ULID_String id +:+ "-") tmpdir nil
               :: repairedEvents tmpdir id resid ∧
       post = [Inner (EvRemoveAll tmpdir rm)] ∧
       (err = nil ↔ me = nil)) ∧
  (err = nil →
     ∃ x id tmpdir resid rm,
       Cause e = Issue347Error x id ∧
       h' = h ++ EvTempDir ("repair-issue-347-id-" +:+ ULID_String id +:+ "-")
                           tmpdir nil
              :: repairedEvents tmpdir id resid
              ++ [Inner (EvMarkForDeletion id source_of_repaired_block nil);
                  Inner (EvRemoveAll tmpdir rm)]).
Proof.
  intros Hrun.
  apply RepairIssue347_run in Hrun
    as (-> & [(_ & -> & ->)|(x & id & pattern & tmpdir & Hc & -> &
                              [[Hne ->]|(body & rm & -> & Hbody)])]).
  - split; [|done]. intros pre id d me post Heq.
    rewrite <- (app_nil_r h) in Heq at 1. apply app_inv_head in Heq.
    by destruct pre.
  - split; [|done]. intros pre id0 d me post Heq. apply app_inv_head in Heq.
    destruct pre as [|p pre]; [discriminate|]. injection Heq as _ Heq.
    by destruct pre.
  - split.
    + intros pre id0 d me post Heq. apply app_inv_head in Heq.
      destruct pre as [|p pre]; [discriminate|]. cbn [app] in Heq.
      injection Heq as <- Heq.
      apply split_before_suffix in Heq as (mid & Hb & ->).
      2:{ intros Hin. apply list_elem_of_singleton in Hin. discriminate. }
      destruct (repair_body_marks _ _ _ _ Hbody _ _ _ Hb eq_refl)
        as (resid & me' & -> & -> & [= -> -> ->] & Hiff).
      exists x, tmpdir, resid, rm. done.
    + intros Hnil.
      destruct (repair_body_nil _ _ _ _ Hbody Hnil) as (resid & ->).
      exists x, id, tmpdir, resid, rm. split; [done|].
      cbn [app]. by rewrite <- !app_assoc.
Qed.

Lemma repair_marks_after_upload_witness :
  ∃ tmpdir resid rm,
    (RepairIssue347 (env_of quiet fetch_four) block2_broken tt []).2
      = EvTempDir "repair-issue-347-id-2-" tmpdir nil
          :: repairedEvents tmpdir 2 resid
          ++ [Inner (EvMarkForDeletion 2 source_of_repaired_block nil);
              Inner (EvRemoveAll tmpdir rm)].
Proof.
  destruct (RepairIssue347 (env_of quiet fetch_four) block2_broken tt [])
    as [[err s'] h'] eqn:Hrun.
  assert (err = nil) as ->.
  { apply (f_equal (λ x, x.1.1)) in Hrun. vm_compute in Hrun. by rewrite <- Hrun. }
  destruct (repair_marks_after_upload _ _ _ _ _ _ _ Hrun) as (_ & Hok).
  destruct (Hok eq_refl) as (x & id & tmpdir & resid & rm & Hc & Hh).
  injection Hc as _ <-. exists tmpdir, resid, rm. exact Hh.
Defined.

Lemma repair_body_in_tmpdir tmpdir id err body :
  repair_body tmpdir id err body → Forall (in_tmpdir tmpdir) body.
Proof.
  destruct 1; unfold repairedEvents; repeat constructor; cbn; by eexists.
Qed.

(** X23: [RepairIssue347] works only inside the temporary directory it
    created and always removes that directory as its last effect, on
    success and on every failure after the creation; when the directory
    cannot be created nothing else happens. *)
Theorem repair_stays_in_tmpdir {S} (env : Env) (e : error) (s : S)
    (h : History) (err : error) (s' : S) (h' : History) :
  RepairIssue347 env e s h = (err, s', h') →
  s' = s ∧
  (h' = h ∨
   (∃ pattern tmpdir, err ≠ nil ∧ h' = h ++ [EvTempDir pattern tmpdir err]) ∨
   (∃ pattern tmpdir body rm,
      h' = h ++ [EvTempDir pattern tmpdir nil] ++ body
             ++ [Inner (EvRemoveAll tmpdir rm)] ∧
      Forall (in_tmpdir tmpdir) body)).
Proof.
  intros Hrun.
  apply RepairIssue347_run in Hrun
    as (-> & [(_ & -> & ->)|(x & id & pattern & tmpdir & Hc & -> &
                              [[Hne ->]|(body & rm & -> & Hbody)])]).
  - split; [done|]. by left.
  - split; [done|]. right. left. eauto.
  - split; [done|]. right. right. eexists _, tmpdir, body, rm.
    split; [done|]. by eapply repair_body_in_tmpdir.
Qed.

Lemma repair_stays_in_tmpdir_witness :
  ∃ pattern tmpdir body rm,
    (RepairIssue347 (env_of quiet fetch_four) block2_broken tt []).2
      = [EvTempDir pattern tmpdir nil] ++ body
          ++ [Inner (EvRemoveAll tmpdir rm)] ∧
    Forall (in_tmpdir tmpdir) body.
Proof.
  destruct (RepairIssue347 (env_of quiet fetch_four) block2_broken tt [])
    as [[err s'] h'] eqn:Hrun.
  assert (length h' = 8) as Hlen.
  { apply (f_equal (λ x, length x.2)) in Hrun. cbn [snd] in Hrun.
    rewrite <- Hrun. vm_compute. reflexivity. }
  destruct (repair_stays_in_tmpdir _ _ _ _ _ _ _ Hrun)
    as (_ & [Hh | [(pattern & tmpdir & _ & Hh) | (pattern & tmpdir & body & rm & Hh & Hall)]]).
  - rewrite Hh in Hlen. discriminate.
  - rewrite Hh in Hlen. discriminate.
  - exists pattern, tmpdir, body, rm. by split.
Defined.

Lemma countIncS_app c h1 h2 :
  countIncS c (h1 ++ h2) = (countIncS c h1 + countIncS c h2)%nat.
Proof. unfold countIncS. by rewrite omap_app, countInc_app. Qed.

Lemma countIncS_Inner c t : countIncS c (Inner <$> t) = countInc c t.
Proof.
  unfold countIncS. f_equal. induction t as [|ev t IH]; [done|].
  cbn. by rewrite IH.
Qed.

Lemma countInc_job w job subDir r new c :
  job_detail w job subDir r new → c ≠ "garbage_collected_blocks" →
  countInc c new = 0%nat.
Proof.
  intros Hjd Hc. apply job_detail_in_workdir in Hjd.
  induction Hjd as [|ev new Hev _ IH]; [done|].
  destruct ev; cbn [countInc]; try done.
  cbn in Hev. subst counter.
  destruct (String.eqb_spec "garbage_collected_blocks" c); [done|]. done.
Qed.

Lemma countInc_runCompactionJob {S} w c job (s : S) r s' t' counter :
  runCompactionJob w c job s [] = (r, s', t') →
  counter ≠ "garbage_collected_blocks" →
  countInc counter t' = 0%nat.
Proof.
  intros Hrun Hc.
  apply runCompactionJob_detail in Hrun as (-> & new & tail & -> & Hjd & Htail).
  cbn [app]. rewrite countInc_app, (countInc_job _ _ _ _ _ _ Hjd Hc).
  by destruct Htail as [[-> _]|(e & -> & _)].
Qed.

Lemma countIncS_repair_body tmpdir id err body c :
  repair_body tmpdir id err body → countIncS c body = 0%nat.
Proof. by destruct 1. Qed.

Lemma repair_attempt_run env jerr st h0 rerr hr :
  repair_attempt env jerr st h0 rerr hr →
  ∃ rep, hr = h0 ++ rep ∧ (∀ c, countIncS c rep = 0%nat) ∧
         Forall (λ ev, ∀ a b c d, ev ≠ EvMarkForNoCompact a b c d) rep.
Proof.
  intros [(_ & _ & ->)|[_ Hrun]].
  - exists []. by rewrite app_nil_r.
  - apply RepairIssue347_run in Hrun
      as (_ & [(_ & _ & ->)|(x & id & pattern & tmpdir & Hc & -> &
                              [[Hne ->]|(body & rm & -> & Hbody)])]).
    + exists []. by rewrite app_nil_r.
    + eexists. split; [done|]. split; [done|]. by repeat constructor.
    + eexists. split; [done|]. split.
      * intros c. rewrite !countIncS_app.
        by rewrite (countIncS_repair_body _ _ _ _ c Hbody).
      * constructor; [done|]. apply Forall_app. split; [|by repeat constructor].
        clear -Hbody. destruct Hbody; unfold repairedEvents; by repeat constructor.
Qed.

(** X24: for each job a worker of [Compact] takes, the run counters add
    up: a run is started at most once, every started run is counted once
    as completed or as failed, a compaction is counted only for a completed
    run, a job that is not started (not owned, or the ownership check
    failed) leaves no effect, and a worker that stops has counted a failed
    run. *)
Theorem worker_accounts_for_every_run (env : Env) (c : BucketCompactor)
    (g : Job) (st : CompactState) (h : History) (step : WorkerStep)
    (st' : CompactState) (h' : History) :
  workOnJob env c g st h = (step, st', h') →
  ∃ new, h' = h ++ new ∧
    (countIncS "group_compaction_runs_started" new
      = countIncS "group_compaction_runs_completed" new
        + countIncS "group_compaction_runs_failed" new)%nat ∧
    (countIncS "group_compaction_runs_started" new ≤ 1)%nat ∧
    (countIncS "group_compactions" new
      ≤ countIncS "group_compaction_runs_completed" new)%nat ∧
    (countIncS "group_compaction_runs_started" new = 0%nat →
       new = [] ∧ st' = st ∧ step = Continue) ∧
    (step ≠ Continue → countIncS "group_compaction_runs_failed" new = 1%nat).
Proof.
  intros Hrun. apply workOnJob_run in Hrun.
  assert (∀ r t', runCompactionJob (inner env (h ++ [started])) c g st []
                      = (r, st, t') →
            ∀ counter rest, counter ≠ "garbage_collected_blocks" →
            countIncS counter ([started] ++ (Inner <$> t') ++ rest)
            = (countIncS counter [started] + countIncS counter rest)%nat) as Hcount.
  { intros r t' Hjob counter rest Hc.
    rewrite !countIncS_app, countIncS_Inner.
    rewrite (countInc_runCompactionJob _ _ _ _ _ _ _ _ Hjob Hc). lia. }
  destruct Hrun as [Hown|rerun ids t' Hown Hjob|r t' hr Hown Hjob Hne Hrep
                    |r t' rerr hr x id Hown Hjob Hr Hskip Hrep Hrerr Hm
                    |r t' rerr hr tail Hown Hjob Hne Hrep Hrerr Htail
                    |r t' rerr hr Hown Hjob Hne Hrep Hrerr Hooo Hskip Hnot].
  - exists []. rewrite app_nil_r. split; [done|]. cbn.
    repeat split; try lia; try done.
  - eexists. split; [done|].
    rewrite !(Hcount _ _ Hjob) by done.
    destruct (hasNonZeroULIDs ids); cbn; repeat split; try lia; try done.
  - apply repair_attempt_run in Hrep as (rep & -> & Hrep & _).
    eexists. split; [by rewrite <- !app_assoc|].
    rewrite !(Hcount _ _ Hjob) by done.
    rewrite !countIncS_app, !Hrep. cbn. repeat split; try lia; try done.
  - apply repair_attempt_run in Hrep as (rep & -> & Hrep & _).
    eexists. split; [by rewrite <- !app_assoc|].
    rewrite !(Hcount _ _ Hjob) by done.
    rewrite !countIncS_app, !Hrep. cbn. repeat split; try lia; try done.
  - apply repair_attempt_run in Hrep as (rep & -> & Hrep & _).
    eexists. split; [by rewrite <- !app_assoc|].
    rewrite !(Hcount _ _ Hjob) by done.
    rewrite !countIncS_app, !Hrep.
    assert (∀ counter, countIncS counter tail = 0%nat) as Htl.
    { intros counter.
      by destruct Htail as [[-> _]|(x & id & merr & _ & _ & _ & _ & ->)]. }
    rewrite !Htl. cbn. repeat split; try lia; try done.
  - apply repair_attempt_run in Hrep as (rep & -> & Hrep & _).
    eexists. split; [by rewrite <- !app_assoc|].
    rewrite !(Hcount _ _ Hjob) by done.
    rewrite !countIncS_app, !Hrep. cbn. repeat split; try lia; try done.
Qed.

Lemma worker_accounts_for_every_run_witness :
  countIncS "group_compaction_runs_started"
    (workOnJob (env_of merge_fails fetch_four) compactor0 job_12 state0 []).2
    = 1 ∧
  countIncS "group_compaction_runs_failed"
    (workOnJob (env_of merge_fails fetch_four) compactor0 job_12 state0 []).2
    = 1 ∧
  countIncS "group_compaction_runs_completed"
    (workOnJob (env_of merge_fails fetch_four) compactor0 job_12 state0 []).2
    = 0.
Proof.
  destruct (workOnJob (env_of merge_fails fetch_four) compactor0 job_12 state0 [])
    as [[step st'] h'] eqn:Hrun.
  destruct (worker_accounts_for_every_run _ _ _ _ _ _ _ _ Hrun)
    as (new & Hnew & Hsum & Hone & _ & _ & Hfailed).
  cbn [app] in Hnew. subst new. cbn [fst snd].
  assert (step ≠ Continue) as Hstep.
  { intros ->. apply (f_equal (λ x, x.1.1)) in Hrun. vm_compute in Hrun.
    discriminate. }
  specialize (Hfailed Hstep). lia.
Defined.

(** X25: the work on a job never touches the syncer and can only lower the
    flag [finishedAllJobs]; when the worker stops with an error the flag is
    as before; and when the worker goes on with the flag still raised, the
    job was either skipped or ran without error and asked for no rerun. *)
Theorem worker_only_lowers_the_flag (env : Env) (c : BucketCompactor)
    (g : Job) (st : CompactState) (h : History) (step : WorkerStep)
    (st' : CompactState) (h' : History) :
  workOnJob env c g st h = (step, st', h') →
  sy st' = sy st ∧
  (st' = st ∨ st' = unfinished st) ∧
  (step ≠ Continue → st' = st) ∧
  (step = Continue → finishedAllJobs st' = true →
     h' = h ∨
     ∃ ids t', runCompactionJob (inner env (h ++ [started])) c g st []
                 = ((false, ids, nil), st, t')).
Proof.
  intros Hrun. apply workOnJob_run in Hrun.
  destruct Hrun as [Hown|rerun ids t' Hown Hjob|r t' hr Hown Hjob Hne Hrep
                    |r t' rerr hr x id Hown Hjob Hr Hskip Hrep Hrerr Hm
                    |r t' rerr hr tail Hown Hjob Hne Hrep Hrerr Htail
                    |r t' rerr hr Hown Hjob Hne Hrep Hrerr Hooo Hskip Hnot];
    cbn [sy unfinished finishedAllJobs];
    try (repeat split; try done; by auto).
  destruct rerun; cbn [sy unfinished finishedAllJobs].
  - repeat split; try done; by auto.
  - repeat split; try done; [by auto|]. intros _ _. right. eauto.
Qed.

Lemma worker_only_lowers_the_flag_witness :
  sy (workOnJob (env_of block2_issue347 fetch_four) compactor0 job_12
                state0 []).1.2 = two_duplicates ∧
  (workOnJob (env_of block2_issue347 fetch_four) compactor0 job_12
             state0 []).1.2 = unfinished state0.
Proof.
  destruct (workOnJob (env_of block2_issue347 fetch_four) compactor0 job_12
                      state0 []) as [[step st'] h'] eqn:Hrun.
  destruct (worker_only_lowers_the_flag _ _ _ _ _ _ _ _ Hrun)
    as (Hsy & [Hsame|Hlow] & _).
  - exfalso. apply (f_equal (λ x, finishedAllJobs x.1.2)) in Hrun.
    cbn [fst snd] in Hrun. rewrite Hsame in Hrun. vm_compute in Hrun.
    discriminate.
  - cbn [fst snd]. split; [exact Hsy | exact Hlow].
Defined.

(** X26: the error a worker sends to the error channel is the error of the
    job wrapped with "group <key>", so it has the cause and the halt and
    retry classification of the job error; for an issue-347 verdict it is
    sent only if the repair failed, and for an out-of-order verdict only if
    skipping is not configured or the no-compaction mark could not be
    written. *)
Theorem worker_reports_the_job_error (env : Env) (c : BucketCompactor)
    (g : Job) (st : CompactState) (h : History) (err : error)
    (st' : CompactState) (h' : History) :
  workOnJob env c g st h = (Exit err, st', h') →
  ∃ r t',
    runCompactionJob (inner env (h ++ [started])) c g st [] = (r, st, t') ∧
    r.2 ≠ nil ∧
    err = Wrap r.2 ("group " +:+ job_key g) ∧ err ≠ nil ∧
    Cause err = Cause r.2 ∧
    IsHaltError err = IsHaltError r.2 ∧
    IsRetryError err = IsRetryError r.2 ∧
    (IsIssue347Error r.2 = true →
       ∃ rerr h0 hr, rerr ≠ nil ∧ RepairIssue347 env r.2 st h0 = (rerr, st, hr)) ∧
    (IsOutOfOrderChunkError r.2 = true →
       skipBlocksWithOutOfOrderChunks c = false ∨
       ∃ id reason details merr,
         merr ≠ nil ∧ last h' = Some (EvMarkForNoCompact id reason details merr)).
Proof.
  intros Hrun. apply workOnJob_run in Hrun.
  inversion Hrun as [| | | |r t' rerr hr tail Hown Hjob Hne Hrep Hrerr Htail|];
    subst.
  exists r, t'. split; [done|]. split; [done|]. split; [done|].
  split; [by rewrite Wrap_nil_iff|].
  split; [apply Cause_Wrap|]. split; [apply IsHaltError_Wrap|].
  split; [apply IsRetryError_Wrap|]. split.
  - intros H347. destruct Hrep as [(Hno & _)|[_ Hrep]]; [congruence|]. eauto.
  - intros Hooo.
    destruct Htail as [[-> Hand]|(x & id & merr & Hr & Hskip & -> & Hm & ->)].
    + rewrite Hooo in Hand. by left.
    + right. eexists _, _, _, _. split; [exact Hm|]. by rewrite last_snoc.
Qed.

Lemma worker_reports_the_job_error_witness :
  ∃ err,
    (workOnJob (env_of merge_fails fetch_four) compactor0 job_12 state0 []).1.1
      = Exit err ∧
    IsHaltError err = true ∧ IsRetryError err = false.
Proof.
  destruct (workOnJob (env_of merge_fails fetch_four) compactor0 job_12 state0 [])
    as [[step st'] h'] eqn:Hrun.
  assert (∃ err, step = Exit err) as [err ->].
  { apply (f_equal (λ x, x.1.1)) in Hrun. cbn [fst] in Hrun. rewrite <- Hrun.
    vm_compute. by eexists. }
  destruct (worker_reports_the_job_error _ _ _ _ _ _ _ _ Hrun)
    as (r & t' & Hjob & _ & _ & _ & _ & Hhalt & Hretry & _).
  exists err. cbn [fst snd]. split; [reflexivity|].
  rewrite Hhalt, Hretry. destruct r as [[b ids] e]. cbn [snd].
  split.
  - apply (f_equal (λ x, IsHaltError x.1.1.2)) in Hjob. vm_compute in Hjob.
    symmetry. exact Hjob.
  - apply (f_equal (λ x, IsRetryError x.1.1.2)) in Hjob. vm_compute in Hjob.
    symmetry. exact Hjob.
Defined.

(** X27: if the collaborators do not return errors of the verdict types,
    the type assertion of the worker on the job error never panics, and the
    worker writes a no-compaction mark only when skipping is configured,
    with the out-of-order reason, and only for a block of the plan of the
    job it has just run. *)
Theorem worker_never_panics (env : Env) (c : BucketCompactor)
    (g : Job) (st : CompactState) (h : History) (step : WorkerStep)
    (st' : CompactState) (h' : History) :
  (∀ h0, no_forged_verdicts (inner env h0)) →
  workOnJob env c g st h = (step, st', h') →
  step ≠ Panic ∧
  ∃ new, h' = h ++ new ∧
    ∀ id reason details e, EvMarkForNoCompact id reason details e ∈ new →
      reason = OutOfOrderChunksNoCompactReason ∧
      skipBlocksWithOutOfOrderChunks c = true ∧
      ∃ plan m, m ∈ plan ∧ id = meta_ULID m ∧
                Inner (EvPlan (job_metasByMinTime g) plan nil) ∈ new.
Proof.
  intros Hw Hrun. apply workOnJob_run in Hrun.
  assert (∀ r t' x id,
            runCompactionJob (inner env (h ++ [started])) c g st [] = (r, st, t') →
            r.2 = OutOfOrderChunksError x id →
            ∃ plan m, m ∈ plan ∧ id = meta_ULID m ∧
                      EvPlan (job_metasByMinTime g) plan nil ∈ t') as Hplanned.
  { intros r t' x id Hjob Hr.
    apply runCompactionJob_detail in Hjob as (_ & new & tail & -> & Hjd & _).
    destruct (job_detail_verdict _ _ _ _ _ (Hw _) Hjd) as [Hooo _].
    destruct Hooo as (x' & plan & m & Hr' & Hm & Hin); [by rewrite Hr|].
    rewrite Hr in Hr'. injection Hr' as _ ->.
    exists plan, m. split; [done|]. split; [done|]. set_solver. }
  assert (∀ (t' : Trace) a b c0 d, EvMarkForNoCompact a b c0 d ∉ (Inner <$> t'))
    as Hinner.
  { intros t' a b c0 d Hin. apply list_elem_of_fmap in Hin as (? & ? & _). done. }
  assert (∀ rep a b c0 d,
            Forall (λ ev, ∀ a b c d, ev ≠ EvMarkForNoCompact a b c d) rep →
            EvMarkForNoCompact a b c0 d ∉ rep) as Hrepno.
  { intros rep a b c0 d Hf Hin. rewrite Forall_forall in Hf.
    by eapply Hf. }
  destruct Hrun as [Hown|rerun ids t' Hown Hjob|r t' hr Hown Hjob Hne Hrep
                    |r t' rerr hr x id Hown Hjob Hr Hskip Hrep Hrerr Hm
                    |r t' rerr hr tail Hown Hjob Hne Hrep Hrerr Htail
                    |r t' rerr hr Hown Hjob Hne Hrep Hrerr Hooo Hskip Hnot].
  - split; [done|]. exists []. rewrite app_nil_r. split; [done|].
    by intros ???? ?%elem_of_nil.
  - split; [done|]. eexists. split; [done|].
    intros id reason details e Hin. exfalso.
    apply elem_of_app in Hin as [Hin|Hin]; [by apply list_elem_of_singleton in Hin|].
    apply elem_of_app in Hin as [Hin|Hin]; [by apply Hinner in Hin|].
    apply elem_of_app in Hin as [Hin|Hin]; [by apply list_elem_of_singleton in Hin|].
    destruct (hasNonZeroULIDs ids); [by apply list_elem_of_singleton in Hin|].
    by apply elem_of_nil in Hin.
  - split; [done|].
    apply repair_attempt_run in Hrep as (rep & -> & _ & Hrep).
    eexists. split; [by rewrite <- !app_assoc|].
    intros id reason details e Hin. exfalso.
    apply elem_of_app in Hin as [Hin|Hin]; [by apply list_elem_of_singleton in Hin|].
    apply elem_of_app in Hin as [Hin|Hin]; [by apply Hinner in Hin|].
    apply elem_of_app in Hin as [Hin|Hin]; [by apply list_elem_of_singleton in Hin|].
    by eapply Hrepno.
  - split; [done|].
    apply repair_attempt_run in Hrep as (rep & -> & _ & Hrep).
    eexists. split; [by rewrite <- !app_assoc|].
    intros id' reason details e Hin.
    destruct (Hplanned _ _ _ _ Hjob Hr) as (plan & m & Hm' & -> & Hplan).
    assert (EvMarkForNoCompact id' reason details e
            = EvMarkForNoCompact (meta_ULID m) OutOfOrderChunksNoCompactReason
                                 out_of_order_details nil) as Heq.
    { apply elem_of_app in Hin as [Hin|Hin]; [by apply list_elem_of_singleton in Hin|].
      apply elem_of_app in Hin as [Hin|Hin]; [by apply Hinner in Hin|].
      apply elem_of_app in Hin as [Hin|Hin]; [by apply list_elem_of_singleton in Hin|].
      apply elem_of_app in Hin as [Hin|Hin]; [by eapply Hrepno in Hin|].
      by apply list_elem_of_singleton in Hin. }
    injection Heq as -> -> -> ->. split; [done|]. split; [done|].
    exists plan, m. split; [done|]. split; [done|].
    apply elem_of_app. right. apply elem_of_app. left.
    apply list_elem_of_fmap. eauto.
  - split; [done|].
    apply repair_attempt_run in Hrep as (rep & -> & _ & Hrep).
    eexists. split; [by rewrite <- !app_assoc|].
    intros id' reason details e Hin.
    destruct Htail as [[-> _]|(x & id & merr & Hr & Hskip & -> & Hm & ->)].
    + exfalso.
      apply elem_of_app in Hin as [Hin|Hin]; [by apply list_elem_of_singleton in Hin|].
      apply elem_of_app in Hin as [Hin|Hin]; [by apply Hinner in Hin|].
      apply elem_of_app in Hin as [Hin|Hin]; [by apply list_elem_of_singleton in Hin|].
      apply elem_of_app in Hin as [Hin|Hin]; [by eapply Hrepno in Hin|].
      by apply elem_of_nil in Hin.
    + destruct (Hplanned _ _ _ _ Hjob Hr) as (plan & m & Hm' & -> & Hplan).
      assert (id' = meta_ULID m ∧ reason = OutOfOrderChunksNoCompactReason) as [-> ->].
      { apply elem_of_app in Hin as [Hin|Hin]; [by apply list_elem_of_singleton in Hin|].
        apply elem_of_app in Hin as [Hin|Hin]; [by apply Hinner in Hin|].
        apply elem_of_app in Hin as [Hin|Hin]; [by apply list_elem_of_singleton in Hin|].
        apply elem_of_app in Hin as [Hin|Hin]; [by eapply Hrepno in Hin|].
        apply list_elem_of_singleton in Hin. by injection Hin. }
      split; [done|]. split; [done|].
      exists plan, m. split; [done|]. split; [done|].
      apply elem_of_app. right. apply elem_of_app. left.
      apply list_elem_of_fmap. eauto.
  - exfalso.
    apply runCompactionJob_detail in Hjob as (_ & new & tail & -> & Hjd & _).
    destruct (job_detail_verdict _ _ _ _ _ (Hw _) Hjd) as [Hv _].
    destruct (Hv Hooo) as (x & plan & m & Hr & _). by eapply Hnot.
Qed.

Lemma worker_never_panics_witness :
  (workOnJob (env_of block2_out_of_order fetch_four) compactor_skipping job_12
             state0 []).1.1 ≠ Panic ∧
  ∃ plan m,
    m ∈ plan ∧ meta_ULID m = 2%N ∧
    Inner (EvPlan (job_metasByMinTime job_12) plan nil)
      ∈ (workOnJob (env_of block2_out_of_order fetch_four) compactor_skipping
                   job_12 state0 []).2.
Proof.
  destruct (workOnJob (env_of block2_out_of_order fetch_four) compactor_skipping
                      job_12 state0 []) as [[step st'] h'] eqn:Hrun.
  assert (∀ h0, no_forged_verdicts
                  (inner (env_of block2_out_of_order fetch_four) h0)) as Hw.
  { intros h0 tr. repeat split; intros; cbn; try case_match; reflexivity. }
  destruct (worker_never_panics _ _ _ _ _ _ _ _ Hw Hrun)
    as (Hstep & new & Hnew & Hmarks).
  cbn [app] in Hnew. subst new. cbn [fst snd]. split; [exact Hstep|].
  assert (EvMarkForNoCompact 2 OutOfOrderChunksNoCompactReason
            out_of_order_details nil ∈ h') as Hin.
  { apply (f_equal (λ x, x.2)) in Hrun. cbn [snd] in Hrun. rewrite <- Hrun.
    vm_compute. repeat first [left | right]. }
  destruct (Hmarks _ _ _ _ Hin) as (_ & _ & plan & m & Hm & Hid & Hplan).
  by exists plan, m.
Defined.

Lemma ownedOf_cases c jobs :
  ((ownedOf c jobs).2 = nil ∧ ∀ job, job ∈ jobs → (ownJob c job).2 = nil) ∨
  (∃ job, job ∈ jobs ∧ (ownJob c job).2 ≠ nil ∧
          (ownedOf c jobs).2 = Wrap (ownJob c job).2 "ownJob").
Proof.
  induction jobs as [|job jobs IH].
  - left. split; [done|]. by intros ? ?%elem_of_nil.
  - cbn [ownedOf]. destruct (is_nil (ownJob c job).2) eqn:Hj; cbn [negb].
    + apply is_nil_true in Hj.
      destruct IH as [[Hok Hall]|(j & Hin & Hne & Herr)].
      * left. rewrite Hok. cbn [is_nil negb].
        split; [by destruct (ownJob c job).1|].
        intros j [->|Hin]%elem_of_cons; auto.
      * right. exists j. split; [by right|]. split; [done|].
        assert (is_nil (ownedOf c jobs).2 = false) as ->; [|done].
        rewrite Herr. apply is_nil_false. by rewrite Wrap_nil_iff.
    + apply is_nil_false in Hj. right. exists job. split; [left|]. done.
Qed.

Lemma filterOwnJobs_cases c jobs own err :
  filterOwnJobs c jobs = (own, err) →
  (err = nil ∧ own = filter (λ job, (ownJob c job).1 = true) jobs ∧
   ∀ job, job ∈ jobs → (ownJob c job).2 = nil) ∨
  (err ≠ nil ∧ own = [] ∧
   ∃ job, job ∈ jobs ∧ (ownJob c job).2 ≠ nil ∧
          err = Wrap (ownJob c job).2 "ownJob").
Proof.
  rewrite filterOwnJobs_ownedOf.
  destruct (ownedOf_cases c jobs) as [[Hok Hall]|(job & Hin & Hne & Herr)].
  - rewrite Hok. cbn [is_nil]. intros [= <- <-]. left.
    rewrite (ownedOf_no_error c jobs Hall). done.
  - assert (is_nil (ownedOf c jobs).2 = false) as ->.
    { rewrite Herr. apply is_nil_false. by rewrite Wrap_nil_iff. }
    intros [= <- <-]. right. split; [|split; [done|eauto]].
    rewrite Herr. by rewrite Wrap_nil_iff.
Qed.

Lemma planIteration_run env c st h r st' h' :
  planIteration env c st h = (r, st', h') →
  finishedAllJobs st' = finishedAllJobs st ∧
  ∃ new, h' = h ++ new ∧ iteration_start env c (sy st) h r (sy st') new.
Proof.
  unfold planIteration. unfold bindS at 1, on_sy at 1.
  unfold SyncMetas. run_stepS.
  set (fr := fetcher_Fetch env h).
  destruct (is_nil (fetch_err fr)) eqn:Hf; cbn [negb is_nil].
  2:{ apply is_nil_false in Hf.
      assert (is_nil (retry (fetch_err fr)) = false) as ->.
      { apply is_nil_false. by apply retry_not_nil. }
      cbn [negb]. intros [= <- <- <-]. split; [done|].
      eexists. split; [done|]. by apply it_sync_failed. }
  apply is_nil_true in Hf. rewrite Hf.
  unfold on_sy at 1, lift at 1. cbn [sy finishedAllJobs].
  fold (fetched fr).
  destruct (GarbageCollect (inner env (h ++ [EvFetch nil])) (fetched fr) [])
    as [[gerr sy2] t2] eqn:Hgc.
  destruct (is_nil gerr) eqn:Hg; cbn [negb].
  2:{ apply is_nil_false in Hg. intros [= <- <- <-]. split; [done|].
      eexists. split; [by rewrite <- app_assoc|].
      by eapply it_garbage_failed. }
  apply is_nil_true in Hg as ->. cbn [sy].
  assert ((h ++ [EvFetch nil]) ++ (Inner <$> t2)
          = h ++ [EvFetch nil] ++ (Inner <$> t2)) as -> by (by rewrite <- app_assoc).
  set (h2 := h ++ [EvFetch nil] ++ (Inner <$> t2)).
  destruct (grouper_Groups env h2 (Metas sy2)) as [gjobs grerr] eqn:Hgr.
  destruct (is_nil grerr) eqn:Hgre; cbn [negb].
  2:{ apply is_nil_false in Hgre. intros [= <- <- <-]. split; [done|].
      eexists. split; [done|]. by eapply it_groups_failed. }
  apply is_nil_true in Hgre as ->.
  destruct (filterOwnJobs (compactor_now env c h2) gjobs) as [own oerr] eqn:Hown.
  apply filterOwnJobs_cases in Hown
    as [(-> & -> & Hall)|(Hne & -> & job & Hin & Hj & ->)]; cbn [negb is_nil].
  - intros [= <- <- <-]. split; [done|].
    eexists. split; [unfold h2; by rewrite <- !app_assoc|].
    by eapply it_planned.
  - assert (is_nil (Wrap (ownJob (compactor_now env c h2) job).2 "ownJob") = false)
      as -> by (by apply is_nil_false).
    cbn [negb]. intros [= <- <- <-]. split; [done|].
    eexists. split; [done|]. by eapply it_own_failed.
Qed.

Lemma gcEvents_no_DeleteAll ids d i e :
  EvDeleteAll d i e ∉ (Inner <$> gcEvents ids).
Proof. intros Hin. apply list_elem_of_fmap in Hin as (? & ? & _). done. Qed.



(** X29: when the start of an iteration of [Compact] fails, no job is
    handed out, the compaction directory is not cleaned, and the error is
    the failure of the sync, the garbage collection, the grouping or the
    ownership check, wrapped with the name of that step and classified as
    that failure is; after a failed sync the metas are those of the last
    successful sync. *)
Theorem iteration_failure_plans_nothing (env : Env) (c : BucketCompactor)
    (st : CompactState) (h : History) (jobs : list Job) (err : error)
    (st' : CompactState) (h' : History) :
  planIteration env c st h = ((jobs, err), st', h') →
  err ≠ nil →
  jobs = [] ∧
  finishedAllJobs st' = finishedAllJobs st ∧
  (∃ new, h' = h ++ new ∧ ∀ d i e, EvDeleteAll d i e ∉ new) ∧
  ∃ cause msg,
    err = Wrap cause msg ∧ cause ≠ nil ∧
    IsHaltError err = IsHaltError cause ∧
    IsRetryError err = IsRetryError cause ∧
    ((msg = "sync" ∧ cause = retry (fetch_err (fetcher_Fetch env h)) ∧
      fetch_err (fetcher_Fetch env h) ≠ nil ∧
      IsRetryError err = negb (IsHaltError (fetch_err (fetcher_Fetch env h))) ∧
      Metas (sy st') = Metas (sy st) ∧ Partial (sy st') = Partial (sy st)) ∨
     (msg = "garbage" ∧ fetch_err (fetcher_Fetch env h) = nil ∧
      ∃ t2, GarbageCollect (inner env (h ++ [EvFetch nil]))
                           (fetched (fetcher_Fetch env h)) []
            = (cause, sy st', t2)) ∨
     (msg = "build compaction jobs" ∧ fetch_err (fetcher_Fetch env h) = nil ∧
      ∃ hG gjobs, grouper_Groups env hG (Metas (sy st')) = (gjobs, cause)) ∨
     (msg = "ownJob" ∧ fetch_err (fetcher_Fetch env h) = nil ∧
      ∃ hG gjobs job,
        grouper_Groups env hG (Metas (sy st')) = (gjobs, nil) ∧
        job ∈ gjobs ∧ cause = (ownJob_now env hG job).2)).
Proof.
  intros Hrun Herr.
  apply planIteration_run in Hrun as (Hflag & new & -> & Hit).
  remember (jobs, err) as r eqn:Hr. remember (sy st') as sy' eqn:Hsy'.
  destruct Hit as [Hf|gerr sy2 t2 Hf Hgc Hne|sy2 t2 gjobs grerr Hf Hgc Hgr Hne
                   |sy2 t2 gjobs job Hf Hgc Hgr Hjob Hne
                   |sy2 t2 gjobs derr Hf Hgc Hgr Hall];
    injection Hr as Hjobs Hw; subst jobs err; try done;
    (split; [done|]); (split; [done|]).
  - split.
    { eexists. split; [done|]. intros d i e Hin.
      apply list_elem_of_singleton in Hin. done. }
    exists (retry (fetch_err (fetcher_Fetch env h))), "sync".
    split; [done|]. split; [by apply retry_not_nil|].
    rewrite IsHaltError_Wrap, IsRetryError_Wrap. split; [done|]. split; [done|].
    left. split; [done|]. split; [done|]. split; [done|]. split; [|done].
    destruct (IsHaltError (fetch_err (fetcher_Fetch env h))) eqn:Hh; cbn [negb].
    + apply IsHaltError_not_Retry. by rewrite IsHaltError_retry.
    + by apply IsRetryError_retry.
  - split.
    { eexists. split; [done|]. intros d i e Hin.
      apply elem_of_cons in Hin as [?|Hin]; [done|].
      apply list_elem_of_fmap in Hin as (? & ? & _). done. }
    exists gerr, "garbage". split; [done|]. split; [done|].
    rewrite IsHaltError_Wrap, IsRetryError_Wrap. split; [done|]. split; [done|].
    right. left. split; [done|]. split; [done|]. by exists t2.
  - split.
    { eexists. split; [done|]. intros d i e Hin.
      apply elem_of_cons in Hin as [?|Hin]; [done|].
      apply list_elem_of_fmap in Hin as (? & ? & _). done. }
    exists grerr, "build compaction jobs". split; [done|]. split; [done|].
    rewrite IsHaltError_Wrap, IsRetryError_Wrap. split; [done|]. split; [done|].
    right. right. left. split; [done|]. split; [done|]. by eexists _, gjobs.
  - split.
    { eexists. split; [done|]. intros d i e Hin.
      apply elem_of_cons in Hin as [?|Hin]; [done|].
      apply list_elem_of_fmap in Hin as (? & ? & _). done. }
    eexists _, "ownJob". split; [done|]. split; [exact Hne|].
    rewrite IsHaltError_Wrap, IsRetryError_Wrap. split; [done|]. split; [done|].
    right. right. right. split; [done|]. split; [done|].
    by eexists _, gjobs, job.
Qed.

Lemma iteration_failure_plans_nothing_witness :
  (planIteration (env_of quiet fetch_fails) compactor0 state0 []).1.1.1 = [] ∧
  IsRetryError
    (planIteration (env_of quiet fetch_fails) compactor0 state0 []).1.1.2
    = true ∧
  Metas (sy (planIteration (env_of quiet fetch_fails) compactor0 state0 []).1.2)
    = Metas two_duplicates.
Proof.
  destruct (planIteration (env_of quiet fetch_fails) compactor0 state0 [])
    as [[[jobs err] st'] h'] eqn:Hrun.
  assert (err ≠ nil) as Hne.
  { intros ->. apply (f_equal (λ x, is_nil x.1.1.2)) in Hrun.
    vm_compute in Hrun. discriminate. }
  destruct (iteration_failure_plans_nothing _ _ _ _ _ _ _ _ Hrun Hne)
    as (Hjobs & _ & _ & cause & msg & _ & _ & _ & _
        & [(_ & _ & _ & Hcls & Hmetas & _)
          |[(_ & Hf & _)|[(_ & Hf & _)|(_ & Hf & _)]]]);
    try discriminate Hf.
  cbn [fst snd]. split; [exact Hjobs|]. split; [rewrite Hcls; reflexivity|].
  exact Hmetas.
Defined.
